(** * idock: ligand model, conformation evaluator and Monte Carlo task

    A shallow embedding of [ligand.cpp], [monte_carlo_task.cpp] and
    [array.cpp], and the properties of them that the specification states.

    Layout: the numeric interface and the outcome monad; [array.cpp];
    the ligand data model; [ligand::evaluate] and [ligand::compose_result];
    [monte_carlo_task]; the constructor [ligand::ligand]; the vocabulary
    of the statements; concrete instances of the interfaces and example
    inputs; then the lemmas and theorems, and runs on the examples. *)

From Stdlib Require Import ZArith Floats Lia String Ascii Bool DecimalString.
From stdpp Require Import base option list.

Set Default Proof Using "Type".
#[local] Set Warnings "-inexact-float".

(** ** The floating-point type [fl]

    The sources compute on [fl] ([ligand.cpp]), [double]
    ([monte_carlo_task.cpp]) and [float] ([array.cpp]). The embedding is
    generic in that type: [Scalar] lists the operations the code uses.
    None of them is assumed to satisfy a law; a theorem that needs one
    says so. [flit] reads a C literal, given as the binary64 value it
    denotes; [fl_of_size_t] is [static_cast<fl>] of a [size_t]. *)

Class Scalar (fl : Type) : Type := {
  fadd : fl -> fl -> fl;
  fsub : fl -> fl -> fl;
  fmul : fl -> fl -> fl;
  fdiv : fl -> fl -> fl;
  fneg : fl -> fl;
  fabs : fl -> fl;
  fsqrt : fl -> fl;
  fltb : fl -> fl -> bool;
  fleb : fl -> fl -> bool;
  flit : float -> fl;
  fl_of_size_t : nat -> fl;
}.

(** [<cmath>]: [sin], [cos] and [exp] are library functions, taken as an
    interface of their own. *)
Class Libm (fl : Type) : Type := {
  fsin : fl -> fl;
  fcos : fl -> fl;
  fexp : fl -> fl;
}.

Declare Scope fl_scope.
Delimit Scope fl_scope with fl.
Notation "x + y" := (fadd x y) : fl_scope.
Notation "x - y" := (fsub x y) : fl_scope.
Notation "x * y" := (fmul x y) : fl_scope.
Notation "x / y" := (fdiv x y) : fl_scope.
Notation "- x" := (fneg x) : fl_scope.
Notation "x <? y" := (fltb x y) : fl_scope.
Notation "x <=? y" := (fleb x y) : fl_scope.
Notation "x >? y" := (fltb y x) : fl_scope.
Notation "x >=? y" := (fleb y x) : fl_scope.
Notation "0" := (flit 0%float) : fl_scope.
Notation "1" := (flit 1%float) : fl_scope.
Notation "2" := (flit 2%float) : fl_scope.

(** ** Outcomes

    A call returns, or it ends in one of five ways the embedding keeps
    apart: a [parsing_error] thrown by the constructor, a failed
    [BOOST_ASSERT]/[assert], an index past the end of a vector or string,
    a [lexical_cast] of a field that holds no number, or (for the two
    unbounded loops of [monte_carlo_task]) the fuel of the model running
    out. *)

Inductive failure : Type :=
| parsing_error (line : nat) (msg : string)
| assertion_failed
| out_of_range
| bad_lexical_cast
| out_of_fuel.

Inductive outcome (A : Type) : Type :=
| Ret (a : A)
| Fail (f : failure).
Arguments Ret {A} a.
Arguments Fail {A} f.

Definition bind {A B : Type} (m : outcome A) (k : A -> outcome B) : outcome B :=
  match m with
  | Ret a => k a
  | Fail f => Fail f
  end.

Notation "'let*' x := m 'in' k" := (bind m (fun x => k))
  (at level 10, x pattern, m at level 100, k at level 200, only parsing).

(** Assertions are compiled out when [NDEBUG] is defined; the build mode
    is a parameter of every function that asserts. *)
Definition BOOST_ASSERT (NDEBUG : bool) (cond : bool) : outcome unit :=
  if NDEBUG || cond then Ret tt else Fail assertion_failed.

(** ** array.cpp *)

Section Array.
Context {fl : Type} `{Scalar fl} `{Libm fl}.
Local Open Scope fl_scope.

Definition vec3 : Type := fl * fl * fl.
Definition qtn4 : Type := fl * fl * fl * fl.
Definition mat3 : Type := (fl * fl * fl) * (fl * fl * fl) * (fl * fl * fl).

Definition zero3 : vec3 := (0, 0, 0).
Definition qtn4id : qtn4 := (1, 0, 0, 0).

(** [mr], the restrictive triangular index. Its [assert(x <= y)] holds
    at every call: [mp] orders its arguments, and the loops over the
    Hessian run [j] from [i]. *)
Definition mr (x y : nat) : nat := (y * (y + 1)) / 2 + x.

Definition mp (x y : nat) : nat := if (x <=? y)%nat then mr x y else mr y x.

Definition norm_sqr3 (a : vec3) : fl :=
  let '(a0, a1, a2) := a in a0 * a0 + a1 * a1 + a2 * a2.

Definition norm_sqr4 (a : qtn4) : fl :=
  let '(a0, a1, a2, a3) := a in a0 * a0 + a1 * a1 + a2 * a2 + a3 * a3.

Definition norm3 (a : vec3) : fl := fsqrt (norm_sqr3 a).
Definition norm4 (a : qtn4) : fl := fsqrt (norm_sqr4 a).

Definition normalized3 (a : vec3) : bool :=
  fabs (norm_sqr3 a - 1) <? flit 0.01%float.

Definition normalized4 (a : qtn4) : bool :=
  fabs (norm_sqr4 a - 1) <? flit 0.01%float.

Definition normalize3 (a : vec3) : vec3 :=
  let norm_inv := 1 / norm3 a in
  let '(a0, a1, a2) := a in
  (a0 * norm_inv, a1 * norm_inv, a2 * norm_inv).

Definition normalize4 (a : qtn4) : qtn4 :=
  let norm_inv := 1 / norm4 a in
  let '(a0, a1, a2, a3) := a in
  (a0 * norm_inv, a1 * norm_inv, a2 * norm_inv, a3 * norm_inv).

Definition vadd (a b : vec3) : vec3 :=
  let '(a0, a1, a2) := a in let '(b0, b1, b2) := b in
  (a0 + b0, a1 + b1, a2 + b2).

Definition vsub (a b : vec3) : vec3 :=
  let '(a0, a1, a2) := a in let '(b0, b1, b2) := b in
  (a0 - b0, a1 - b1, a2 - b2).

Definition smul (s : fl) (a : vec3) : vec3 :=
  let '(a0, a1, a2) := a in (s * a0, s * a1, s * a2).

Definition cross_product (a b : vec3) : vec3 :=
  let '(a0, a1, a2) := a in let '(b0, b1, b2) := b in
  (a1 * b2 - a2 * b1, a2 * b0 - a0 * b2, a0 * b1 - a1 * b0).

Definition distance_sqr (a b : vec3) : fl :=
  let '(a0, a1, a2) := a in let '(b0, b1, b2) := b in
  let d0 := a0 - b0 in let d1 := a1 - b1 in let d2 := a2 - b2 in
  d0 * d0 + d1 * d1 + d2 * d2.

Definition vec4_to_qtn4 (axis : vec3) (angle : fl) : qtn4 :=
  let h := angle * flit 0.5%float in
  let s := fsin h in
  let c := fcos h in
  let '(x0, x1, x2) := axis in
  (c, s * x0, s * x1, s * x2).

Definition qmul (a b : qtn4) : qtn4 :=
  let '(a0, a1, a2, a3) := a in let '(b0, b1, b2, b3) := b in
  (a0 * b0 - a1 * b1 - a2 * b2 - a3 * b3,
   a0 * b1 + a1 * b0 + a2 * b3 - a3 * b2,
   a0 * b2 - a1 * b3 + a2 * b0 + a3 * b1,
   a0 * b3 + a1 * b2 - a2 * b1 + a3 * b0).

(** The matrix of [qtn4_to_mat3], without its [assert]. *)
Definition qtn4_to_mat3_raw (a : qtn4) : mat3 :=
  let '(a0, a1, a2, a3) := a in
  let ww := a0 * a0 in let wx := a0 * a1 in
  let wy := a0 * a2 in let wz := a0 * a3 in
  let xx := a1 * a1 in let xy := a1 * a2 in let xz := a1 * a3 in
  let yy := a2 * a2 in let yz := a2 * a3 in
  let zz := a3 * a3 in
  ((ww + xx - yy - zz, 2 * (- wz + xy), 2 * (wy + xz)),
   (2 * (wz + xy), ww - xx + yy - zz, 2 * (- wx + yz)),
   (2 * (- wy + xz), 2 * (wx + yz), ww - xx - yy + zz)).

Definition qtn4_to_mat3 (NDEBUG : bool) (a : qtn4) : outcome mat3 :=
  let* _ := BOOST_ASSERT NDEBUG (normalized4 a) in Ret (qtn4_to_mat3_raw a).

Definition mat3_mul_vec3 (m : mat3) (v : vec3) : vec3 :=
  let '((m0, m1, m2), (m3, m4, m5), (m6, m7, m8)) := m in
  let '(v0, v1, v2) := v in
  (m0 * v0 + m1 * v1 + m2 * v2,
   m3 * v0 + m4 * v1 + m5 * v2,
   m6 * v0 + m7 * v1 + m8 * v2).

(** Modelled from the spec: the dot product of two [vec3], which
    [ligand.cpp] writes [torque[k] * axis[k]] (its [vec3] class is not
    among the sources). *)
Definition dot3 (a b : vec3) : fl :=
  let '(a0, a1, a2) := a in let '(b0, b1, b2) := b in
  a0 * b0 + a1 * b1 + a2 * b2.
End Array.

Arguments vec3 fl : clear implicits.
Arguments qtn4 fl : clear implicits.
Arguments mat3 fl : clear implicits.

(** ** Collaborators outside the sources

    [atom.hpp], [box.hpp], [array3d.hpp], [scoring_function.hpp],
    [result.hpp] and [<random>] are used by the three files and are not
    among them. Each is an interface; the functions of the three files are
    written over it. *)

Record atom (fl : Type) : Type := mk_atom {
  coordinate : vec3 fl;
  ad : nat;
  xs : nat;
}.
Arguments mk_atom {fl} _ _ _.
Arguments coordinate {fl} _.
Arguments ad {fl} _.
Arguments xs {fl} _.

Definition set_coordinate {fl} (a : atom fl) (c : vec3 fl) : atom fl :=
  {| coordinate := c; ad := ad a; xs := xs a |}.

(** [atom.hpp]: the AutoDock type table and the predicates on atoms. *)
Class AtomModel (fl : Type) : Type := {
  AD_TYPE_SIZE : nat;
  AD_TYPE_HD : nat;
  parse_ad_type_string : string -> nat;
  atom_ctor : vec3 fl -> nat -> atom fl;
  is_hydrogen : atom fl -> bool;
  is_hetero : atom fl -> bool;
  is_neighbor : atom fl -> atom fl -> bool;
  donorize : atom fl -> atom fl;
  dehydrophobicize : atom fl -> atom fl;
}.

(** [box.hpp]: the search box and its grid. *)
Class BoxModel (fl : Type) : Type := {
  box : Type;
  corner1 : box -> vec3 fl;
  corner2 : box -> vec3 fl;
  within : box -> vec3 fl -> bool;
  grid_index : box -> vec3 fl -> nat * nat * nat;
  num_grids : box -> nat * nat * nat;
  grid_granularity_inverse : box -> fl;
}.

(** [array3d.hpp]: one grid map. *)
Class GridModel (fl : Type) : Type := {
  array3d : Type;
  array3d_default : array3d;
  initialized : array3d -> bool;
  grid_at : array3d -> nat -> nat -> nat -> fl;
}.

(** [scoring_function.hpp]: [sf.evaluate] returns the pair [(e, dor)]. *)
Class ScoringModel (fl : Type) : Type := {
  scoring_function : Type;
  Cutoff_Sqr : fl;
  sf_evaluate : scoring_function -> nat -> fl -> fl * fl;
}.

(** [result.hpp]: a result and the container it is added to. *)
Record result (fl : Type) : Type := mk_result {
  result_e : fl;
  result_f : fl;
  result_heavy_atoms : list (vec3 fl);
  result_hydrogens : list (vec3 fl);
}.
Arguments mk_result {fl} _ _ _ _.
Arguments result_e {fl} _.
Arguments result_f {fl} _.
Arguments result_heavy_atoms {fl} _.
Arguments result_hydrogens {fl} _.

Record ptr_vector (A : Type) : Type := mk_ptr_vector {
  items : list A;
  capacity : nat;
}.
Arguments mk_ptr_vector {A} _ _.
Arguments items {A} _.
Arguments capacity {A} _.

Class ResultModel (fl : Type) : Type := {
  add_to_result_container :
    ptr_vector (result fl) -> result fl -> fl -> ptr_vector (result fl);
}.

(** [<random>]: [engine] is the state of [eng] together with that of the
    distribution objects, all of them local to one call of
    [monte_carlo_task]; a draw returns the value and the next state. *)
Class RandomModel (fl : Type) : Type := {
  engine : Type;
  mt19937_64 : nat -> engine;
  uniform_real_distribution : fl -> fl -> engine -> fl * engine;
  uniform_int_distribution : nat -> nat -> engine -> nat * engine;
  normal_distribution : fl -> fl -> engine -> fl * engine;
}.

(** ** The ligand *)

Section Ligand.
Context {fl : Type} `{Scalar fl}.

Record frame : Type := mk_frame {
  parent : nat;
  rotorX : nat;
  rotorY : nat;
  habegin : nat;
  haend : nat;
  hybegin : nat;
  hyend : nat;
  active : bool;
  parent_rotorY_to_current_rotorY : vec3 fl;
  parent_rotorX_to_current_rotorY : vec3 fl;
}.

Record interacting_pair : Type := mk_interacting_pair {
  i1 : nat;
  i2 : nat;
  type_pair_index : nat;
}.

Record ligand : Type := mk_ligand {
  lines : list string;
  frames : list frame;
  heavy_atoms : list (atom fl);
  hydrogens : list (atom fl);
  interacting_pairs : list interacting_pair;
  num_frames : nat;
  num_torsions : nat;
  num_active_torsions : nat;
  num_heavy_atoms : nat;
  num_hydrogens : nat;
  flexibility_penalty_factor : fl;
  num_heavy_atoms_inverse : fl;
}.

Record conformation : Type := mk_conformation {
  position : vec3 fl;
  orientation : qtn4 fl;
  torsions : list fl;
}.

(** The gradient; [g_position] and its like are the fields [position],
    [orientation], [torsions] of [change]. *)
Record change : Type := mk_change {
  g_position : vec3 fl;
  g_orientation : vec3 fl;
  g_torsions : list fl;
}.

#[export] Instance fl_inhabited : Inhabited fl := populate (flit 0%float).
#[export] Instance atom_inhabited : Inhabited (atom fl) :=
  populate (mk_atom zero3 0 0).
#[export] Instance frame_inhabited : Inhabited frame :=
  populate (mk_frame 0 0 0 0 0 0 0 true zero3 zero3).
End Ligand.

Arguments frame fl : clear implicits.
Arguments ligand fl : clear implicits.
Arguments conformation fl : clear implicits.
Arguments change fl : clear implicits.

(** ** ligand::evaluate and ligand::compose_result

    Vectors are lists, read with [!!!] and written with [<[i:=x]>]. Every
    index the code forms is in range for a ligand built by the constructor
    and a conformation of its size; out of range the embedding reads the
    default and writes nothing. The one index that can wrap around,
    [--t] at [t = 0], ends the call with [out_of_range]. *)

Section Evaluate.
Context {fl : Type} `{Scalar fl} `{Libm fl}.
Context `{BoxModel fl} `{GridModel fl} `{ScoringModel fl}.
Local Open Scope fl_scope.

(** [ligand.cpp] names [qtn4_to_mat3] and [vec4_to_qtn4] of [array.cpp]
    [quaternion_to_matrix] and [axis_angle_to_quaternion]. *)
Definition quaternion_to_matrix := qtn4_to_mat3.
Definition axis_angle_to_quaternion := vec4_to_qtn4.
Definition quaternion_is_normalized := normalized4.

#[export] Instance array3d_inhabited : Inhabited array3d :=
  populate array3d_default.

(** The frame-wide and atom-wide vectors of one call. *)
Record kinematics : Type := mk_kinematics {
  origin : list (vec3 fl);
  orientation_q : list (qtn4 fl);
  orientation_m : list (mat3 fl);
  axis : list (vec3 fl);
  coordinates : list (vec3 fl);
}.

(** What [resize] leaves in the vectors. *)
Definition kinematics_init (lig : ligand fl) : kinematics :=
  {| origin := replicate (num_frames lig) zero3;
     orientation_q := replicate (num_frames lig) (0, 0, 0, 0);
     orientation_m := replicate (num_frames lig) (zero3, zero3, zero3);
     axis := replicate (num_frames lig) zero3;
     coordinates := replicate (num_heavy_atoms lig) zero3 |}.

(** [for (i = habegin; i < haend; ++i) { coordinates[i] = o + m * local;
    if (!b.within(coordinates[i])) return false; }], [n] atoms from [i];
    [None] is the early [return false]. [chk] is [b.within]. *)
Fixpoint place_atoms (chk : vec3 fl -> bool) (o : vec3 fl) (m : mat3 fl)
    (atoms : list (atom fl)) (i n : nat) (coords : list (vec3 fl))
    : option (list (vec3 fl)) :=
  match n with
  | O => Some coords
  | S n' =>
      let c := vadd o (mat3_mul_vec3 m (coordinate (atoms !!! i))) in
      if chk c then place_atoms chk o m atoms (S i) n' (<[i := c]> coords)
      else None
  end.

(** The ROOT frame (lines 372-382). *)
Definition root_frame (NDEBUG : bool) (chk : vec3 fl -> bool)
    (lig : ligand fl) (conf : conformation fl) (kin : kinematics)
    : outcome (option kinematics) :=
  let root := frames lig !!! 0%nat in
  let* m := quaternion_to_matrix NDEBUG (orientation conf) in
  let kin :=
    {| origin := <[0%nat := position conf]> (origin kin);
       orientation_q := <[0%nat := orientation conf]> (orientation_q kin);
       orientation_m := <[0%nat := m]> (orientation_m kin);
       axis := axis kin;
       coordinates := coordinates kin |} in
  Ret (cs ← place_atoms chk (position conf) m (heavy_atoms lig)
               (habegin root) (haend root - habegin root) (coordinates kin);
        Some {| origin := origin kin;
                orientation_q := orientation_q kin;
                orientation_m := orientation_m kin;
                axis := axis kin;
                coordinates := cs |}).

(** One BRANCH frame [k] with the torsion counter [t] (the body of the
    loop of lines 385-418). *)
Definition branch_frame (NDEBUG : bool) (chk : vec3 fl -> bool)
    (lig : ligand fl) (conf : conformation fl) (k : nat)
    (st : nat * kinematics) : outcome (option (nat * kinematics)) :=
  let '(t, kin) := st in
  let f := frames lig !!! k in
  let o := vadd (origin kin !!! parent f)
                (mat3_mul_vec3 (orientation_m kin !!! parent f)
                               (parent_rotorY_to_current_rotorY f)) in
  let origin' := <[k := o]> (origin kin) in
  if negb (chk o) then Ret None
  else if negb (active f) then
    let* _ := BOOST_ASSERT NDEBUG (habegin f + 1 =? haend f)%nat in
    let* _ := BOOST_ASSERT NDEBUG (habegin f =? rotorY f)%nat in
    Ret (Some (t, {| origin := origin';
                      orientation_q := orientation_q kin;
                      orientation_m := orientation_m kin;
                      axis := axis kin;
                      coordinates := <[rotorY f := o]> (coordinates kin) |}))
  else
    let* _ := BOOST_ASSERT NDEBUG (normalized3 (parent_rotorX_to_current_rotorY f)) in
    let ax := mat3_mul_vec3 (orientation_m kin !!! parent f)
                            (parent_rotorX_to_current_rotorY f) in
    let* _ := BOOST_ASSERT NDEBUG (normalized3 ax) in
    let q := qmul (axis_angle_to_quaternion ax (torsions conf !!! t))
                  (orientation_q kin !!! parent f) in
    let* _ := BOOST_ASSERT NDEBUG (quaternion_is_normalized q) in
    let* m := quaternion_to_matrix NDEBUG q in
    Ret (cs ← place_atoms chk o m (heavy_atoms lig)
                 (habegin f) (haend f - habegin f) (coordinates kin);
          Some (S t, {| origin := origin';
                        orientation_q := <[k := q]> (orientation_q kin);
                        orientation_m := <[k := m]> (orientation_m kin);
                        axis := <[k := ax]> (axis kin);
                        coordinates := cs |})).

(** [for (k = ..., t = ...; k < num_frames; ++k)], [n] frames from [k]. *)
Fixpoint branch_frames (NDEBUG : bool) (chk : vec3 fl -> bool)
    (lig : ligand fl) (conf : conformation fl) (k n : nat)
    (st : nat * kinematics) : outcome (option (nat * kinematics)) :=
  match n with
  | O => Ret (Some st)
  | S n' =>
      let* r := branch_frame NDEBUG chk lig conf k st in
      match r with
      | None => Ret None
      | Some st' => branch_frames NDEBUG chk lig conf (S k) n' st'
      end
  end.

(** The forward-kinematics pass of [evaluate] (lines 372-418). *)
Definition forward_kinematics (NDEBUG : bool) (chk : vec3 fl -> bool)
    (lig : ligand fl) (conf : conformation fl) : outcome (option kinematics) :=
  let* r := root_frame NDEBUG chk lig conf (kinematics_init lig) in
  match r with
  | None => Ret None
  | Some kin =>
      let* r := branch_frames NDEBUG chk lig conf 1 (num_frames lig - 1) (0%nat, kin) in
      Ret (snd <$> r)
  end.

(** Inter-molecular energy of heavy atom [i] (the body of the loop of
    lines 441-471); the state is [e], [energies], [derivatives]. *)
Definition inter_atom (NDEBUG : bool) (lig : ligand fl) (b : box)
    (grid_maps : list array3d) (coords : list (vec3 fl)) (i : nat)
    (st : fl * list fl * list (vec3 fl))
    : outcome (fl * list fl * list (vec3 fl)) :=
  let '(e, energies, derivatives) := st in
  let grid_map := grid_maps !!! xs (heavy_atoms lig !!! i) in
  let* _ := BOOST_ASSERT NDEBUG (initialized grid_map) in
  let '(x0, y0, z0) := grid_index b (coords !!! i) in
  let '(n0, n1, n2) := num_grids b in
  let* _ := BOOST_ASSERT NDEBUG (x0 <? n0)%nat in
  let* _ := BOOST_ASSERT NDEBUG (y0 <? n1)%nat in
  let* _ := BOOST_ASSERT NDEBUG (z0 <? n2)%nat in
  let e000 := grid_at grid_map x0 y0 z0 in
  let e100 := grid_at grid_map (x0 + 1) y0 z0 in
  let e010 := grid_at grid_map x0 (y0 + 1) z0 in
  let e001 := grid_at grid_map x0 y0 (z0 + 1) in
  let d := ((e100 - e000) * grid_granularity_inverse b,
            (e010 - e000) * grid_granularity_inverse b,
            (e001 - e000) * grid_granularity_inverse b) in
  Ret (e + e000, <[i := e000]> energies, <[i := d]> derivatives).

Fixpoint inter_atoms (NDEBUG : bool) (lig : ligand fl) (b : box)
    (grid_maps : list array3d) (coords : list (vec3 fl)) (i n : nat)
    (st : fl * list fl * list (vec3 fl))
    : outcome (fl * list fl * list (vec3 fl)) :=
  match n with
  | O => Ret st
  | S n' =>
      let* st' := inter_atom NDEBUG lig b grid_maps coords i st in
      inter_atoms NDEBUG lig b grid_maps coords (S i) n' st'
  end.

(** Intra-ligand energy of one interacting pair (the body of the loop of
    lines 478-491); the state is [e], [derivatives]. *)
Definition intra_pair (sf : scoring_function) (coords : list (vec3 fl))
    (st : fl * list (vec3 fl)) (p : interacting_pair)
    : fl * list (vec3 fl) :=
  let '(e, derivatives) := st in
  let r := vsub (coords !!! i2 p) (coords !!! i1 p) in
  let r2 := norm_sqr3 r in
  if r2 <? Cutoff_Sqr then
    let '(element_e, element_dor) := sf_evaluate sf (type_pair_index p) r2 in
    let derivative := smul element_dor r in
    let derivatives :=
      <[i1 p := vsub (derivatives !!! i1 p) derivative]> derivatives in
    let derivatives :=
      <[i2 p := vadd (derivatives !!! i2 p) derivative]> derivatives in
    (e + element_e, derivatives)
  else st.

(** The energy the code holds when it reaches line 494: [f], [e] and the
    derivatives. *)
Definition energy (NDEBUG : bool) (lig : ligand fl) (sf : scoring_function)
    (b : box) (grid_maps : list array3d) (coords : list (vec3 fl))
    : outcome (fl * fl * list (vec3 fl)) :=
  let* (e, _, derivatives) :=
    inter_atoms NDEBUG lig b grid_maps coords 0 (num_heavy_atoms lig)
      (0, replicate (num_heavy_atoms lig) 0,
       replicate (num_heavy_atoms lig) zero3) in
  let f := e in
  let '(e, derivatives) :=
    foldl (intra_pair sf coords) (e, derivatives) (interacting_pairs lig) in
  Ret (f, e, derivatives).

(** [force[k] += derivatives[i]; torque[k] += cross_product(coordinates[i]
    - origin[k], derivatives[i])] for [n] atoms from [i]. *)
Fixpoint sum_atoms (kin : kinematics) (derivatives : list (vec3 fl))
    (k i n : nat) (ft : list (vec3 fl) * list (vec3 fl))
    : list (vec3 fl) * list (vec3 fl) :=
  match n with
  | O => ft
  | S n' =>
      let '(force, torque) := ft in
      let force := <[k := vadd (force !!! k) (derivatives !!! i)]> force in
      let torque :=
        <[k := vadd (torque !!! k)
                 (cross_product (vsub (coordinates kin !!! i) (origin kin !!! k))
                                (derivatives !!! i))]> torque in
      sum_atoms kin derivatives k (S i) n' (force, torque)
  end.

(** One BRANCH frame of the backward pass (the body of the loop of lines
    504-528); the state is [t], [force], [torque], [g]. *)
Definition aggregate_branch (lig : ligand fl) (kin : kinematics)
    (derivatives : list (vec3 fl)) (k : nat)
    (st : nat * list (vec3 fl) * list (vec3 fl) * change fl)
    : outcome (nat * list (vec3 fl) * list (vec3 fl) * change fl) :=
  let '(t, force, torque, g) := st in
  let f := frames lig !!! k in
  let '(force, torque) :=
    sum_atoms kin derivatives k (habegin f) (haend f - habegin f)
      (force, torque) in
  let force := <[parent f := vadd (force !!! parent f) (force !!! k)]> force in
  let torque :=
    <[parent f :=
        vadd (torque !!! parent f)
          (vadd (torque !!! k)
             (cross_product
                (vsub (origin kin !!! k) (origin kin !!! parent f))
                (force !!! k)))]> torque in
  if negb (active f) then Ret (t, force, torque, g)
  else
    match t with
    | O => Fail out_of_range
    | S t' =>
        Ret (t', force, torque,
              {| g_position := g_position g;
                 g_orientation := g_orientation g;
                 g_torsions :=
                   <[t' := dot3 (torque !!! k) (axis kin !!! k)]>
                     (g_torsions g) |})
    end.

(** [for (k = num_frames - 1, ...; k > 0; --k)], from frame [k] down. *)
Fixpoint aggregate_branches (lig : ligand fl) (kin : kinematics)
    (derivatives : list (vec3 fl)) (k : nat)
    (st : nat * list (vec3 fl) * list (vec3 fl) * change fl)
    : outcome (nat * list (vec3 fl) * list (vec3 fl) * change fl) :=
  match k with
  | O => Ret st
  | S k' =>
      let* st' := aggregate_branch lig kin derivatives (S k') st in
      aggregate_branches lig kin derivatives k' st'
  end.

(** Lines 496-539: the gradient written into [g]. *)
Definition gradient (lig : ligand fl) (kin : kinematics)
    (derivatives : list (vec3 fl)) (g : change fl) : outcome (change fl) :=
  let force := replicate (num_frames lig) zero3 in
  let torque := replicate (num_frames lig) zero3 in
  let* (_, force, torque, g) :=
    aggregate_branches lig kin derivatives (num_frames lig - 1)
      (num_active_torsions lig, force, torque, g) in
  let root := frames lig !!! 0%nat in
  let '(force, torque) :=
    sum_atoms kin derivatives 0 (habegin root) (haend root - habegin root)
      (force, torque) in
  Ret {| g_position := force !!! 0%nat;
          g_orientation := torque !!! 0%nat;
          g_torsions := g_torsions g |}.

(** What a call of [evaluate] leaves behind: the [bool] it returns and
    the values of the three reference arguments [e], [f], [g]. *)
Record evaluation : Type := mk_evaluation {
  accepted : bool;
  e_out : fl;
  f_out : fl;
  g_out : change fl;
}.

(** [ligand::evaluate]; [e], [f], [g] are the values the reference
    arguments hold when the call is made. *)
Definition evaluate (NDEBUG : bool) (lig : ligand fl) (conf : conformation fl)
    (sf : scoring_function) (b : box) (grid_maps : list array3d)
    (e_upper_bound : fl) (e f : fl) (g : change fl) : outcome evaluation :=
  if negb (within b (position conf)) then Ret (mk_evaluation false e f g)
  else
    let* r := forward_kinematics NDEBUG (within b) lig conf in
    match r with
    | None => Ret (mk_evaluation false e f g)
    | Some kin =>
        let* (f', e', derivatives) :=
          energy NDEBUG lig sf b grid_maps (coordinates kin) in
        if e' >=? e_upper_bound then Ret (mk_evaluation false e' f' g)
        else
          let* g' := gradient lig kin derivatives g in
          Ret (mk_evaluation true e' f' g')
    end.

(** [heavy_atoms[i] = o + m * local] for [n] atoms from [i]
    ([compose_result] checks no box). *)
Fixpoint transform_atoms (o : vec3 fl) (m : mat3 fl)
    (atoms : list (atom fl)) (i n : nat) (out : list (vec3 fl))
    : list (vec3 fl) :=
  match n with
  | O => out
  | S n' =>
      transform_atoms o m atoms (S i) n'
        (<[i := vadd o (mat3_mul_vec3 m (coordinate (atoms !!! i)))]> out)
  end.

(** The vectors of one call of [compose_result]. *)
Record composition : Type := mk_composition {
  origins : list (vec3 fl);
  orientations_q : list (qtn4 fl);
  orientations_m : list (mat3 fl);
  out_heavy_atoms : list (vec3 fl);
  out_hydrogens : list (vec3 fl);
}.

Definition composition_init (lig : ligand fl) : composition :=
  {| origins := replicate (num_frames lig) zero3;
     orientations_q := replicate (num_frames lig) (0, 0, 0, 0);
     orientations_m := replicate (num_frames lig) (zero3, zero3, zero3);
     out_heavy_atoms := replicate (num_heavy_atoms lig) zero3;
     out_hydrogens := replicate (num_hydrogens lig) zero3 |}.

(** Lines 552-565. *)
Definition compose_root (NDEBUG : bool) (lig : ligand fl)
    (conf : conformation fl) (cmp : composition) : outcome composition :=
  let* m := quaternion_to_matrix NDEBUG (orientation conf) in
  let root := frames lig !!! 0%nat in
  Ret {| origins := <[0%nat := position conf]> (origins cmp);
          orientations_q := <[0%nat := orientation conf]> (orientations_q cmp);
          orientations_m := <[0%nat := m]> (orientations_m cmp);
          out_heavy_atoms :=
            transform_atoms (position conf) m (heavy_atoms lig)
              (habegin root) (haend root - habegin root) (out_heavy_atoms cmp);
          out_hydrogens :=
            transform_atoms (position conf) m (hydrogens lig)
              (hybegin root) (hyend root - hybegin root) (out_hydrogens cmp) |}.

(** The body of the loop of lines 568-588. *)
Definition compose_branch (NDEBUG : bool) (lig : ligand fl)
    (conf : conformation fl) (k : nat) (st : nat * composition)
    : outcome (nat * composition) :=
  let '(t, cmp) := st in
  let f := frames lig !!! k in
  let o := vadd (origins cmp !!! parent f)
                (mat3_mul_vec3 (orientations_m cmp !!! parent f)
                               (parent_rotorY_to_current_rotorY f)) in
  let q := qmul
             (axis_angle_to_quaternion
                (mat3_mul_vec3 (orientations_m cmp !!! parent f)
                               (parent_rotorX_to_current_rotorY f))
                (if active f then torsions conf !!! t else 0))
             (orientations_q cmp !!! parent f) in
  let* m := quaternion_to_matrix NDEBUG q in
  Ret (if active f then S t else t,
        {| origins := <[k := o]> (origins cmp);
           orientations_q := <[k := q]> (orientations_q cmp);
           orientations_m := <[k := m]> (orientations_m cmp);
           out_heavy_atoms :=
             transform_atoms o m (heavy_atoms lig)
               (habegin f) (haend f - habegin f) (out_heavy_atoms cmp);
           out_hydrogens :=
             transform_atoms o m (hydrogens lig)
               (hybegin f) (hyend f - hybegin f) (out_hydrogens cmp) |}).

Fixpoint compose_branches (NDEBUG : bool) (lig : ligand fl)
    (conf : conformation fl) (k n : nat) (st : nat * composition)
    : outcome (nat * composition) :=
  match n with
  | O => Ret st
  | S n' =>
      let* st' := compose_branch NDEBUG lig conf k st in
      compose_branches NDEBUG lig conf (S k) n' st'
  end.

(** The vectors [compose_result] has filled when it returns. *)
Definition compose (NDEBUG : bool) (lig : ligand fl) (conf : conformation fl)
    : outcome composition :=
  let* cmp := compose_root NDEBUG lig conf (composition_init lig) in
  let* (_, cmp) := compose_branches NDEBUG lig conf 1 (num_frames lig - 1)
                (0%nat, cmp) in
  Ret cmp.

(** [ligand::compose_result]. *)
Definition compose_result (NDEBUG : bool) (lig : ligand fl) (e f : fl)
    (conf : conformation fl) : outcome (result fl) :=
  let* cmp := compose NDEBUG lig conf in
  Ret (mk_result e f (out_heavy_atoms cmp) (out_hydrogens cmp)).
End Evaluate.

Arguments kinematics fl : clear implicits.
Arguments evaluation fl : clear implicits.
Arguments composition fl : clear implicits.

(** ** monte_carlo_task *)

(** [array.hpp] declares [vec3_to_qtn4], the quaternion of a rotation
    vector; its definition is not in [array.cpp]. *)
Class RotationModel (fl : Type) : Type := {
  vec3_to_qtn4 : vec3 fl -> qtn4 fl;
}.

Section MonteCarlo.
Context {fl : Type} `{Scalar fl} `{Libm fl}.
Context `{BoxModel fl} `{GridModel fl} `{ScoringModel fl}.
Context `{ResultModel fl} `{RandomModel fl} `{RotationModel fl}.
Local Open Scope fl_scope.

(** [monte_carlo_task.cpp] uses the standard [assert]. *)
Definition assert := BOOST_ASSERT.

(** Modelled from the spec: [num_alphas = 5], the number of line-search
    attempts (declared in [monte_carlo_task.hpp], not among the sources). *)
Definition num_alphas : nat := 5.

(** [monte_carlo_task.cpp] names [mr] and [mp] of [array.cpp]
    [triangular_matrix_restrictive_index] and
    [triangular_matrix_permissive_index]. *)
Definition triangular_matrix_restrictive_index := mr.
Definition triangular_matrix_permissive_index := mp.

(** Modelled from the spec: [conformation(n)] and [change(n)] hold [n]
    torsions ([conformation.hpp] is not among the sources); every entry
    is assigned before the task reads it. *)
Definition conformation_init (n : nat) : conformation fl :=
  {| position := zero3; orientation := qtn4id; torsions := replicate n 0 |}.

Definition change_init (n : nat) : change fl :=
  {| g_position := zero3; g_orientation := zero3;
     g_torsions := replicate n 0 |}.

(** Modelled from the spec: [operator[]] of [change], a flat vector with
    [[0..3)] the position, [[3..6)] the orientation and [[6..)] the
    torsions. *)
Definition change_get (g : change fl) (i : nat) : fl :=
  match i with
  | 0%nat => (g_position g).1.1
  | 1%nat => (g_position g).1.2
  | 2%nat => (g_position g).2
  | 3%nat => (g_orientation g).1.1
  | 4%nat => (g_orientation g).1.2
  | 5%nat => (g_orientation g).2
  | S (S (S (S (S (S j))))) => g_torsions g !!! j
  end.

Definition change_set (g : change fl) (i : nat) (v : fl) : change fl :=
  let '(p0, p1, p2) := g_position g in
  let '(o0, o1, o2) := g_orientation g in
  let mk p o t := {| g_position := p; g_orientation := o; g_torsions := t |} in
  match i with
  | 0%nat => mk (v, p1, p2) (g_orientation g) (g_torsions g)
  | 1%nat => mk (p0, v, p2) (g_orientation g) (g_torsions g)
  | 2%nat => mk (p0, p1, v) (g_orientation g) (g_torsions g)
  | 3%nat => mk (g_position g) (v, o1, o2) (g_torsions g)
  | 4%nat => mk (g_position g) (o0, v, o2) (g_torsions g)
  | 5%nat => mk (g_position g) (o0, o1, v) (g_torsions g)
  | S (S (S (S (S (S j))))) =>
      mk (g_position g) (g_orientation g) (<[j := v]> (g_torsions g))
  end.

(** A conformation with the three values [evaluate] computes for it:
    [(c0, e0, f0, g0)], [(c1, e1, f1, g1)], [(c2, e2, f2, g2)]. *)
Record pose : Type := mk_pose {
  pose_c : conformation fl;
  pose_e : fl;
  pose_f : fl;
  pose_g : change fl;
}.

(** [lig.evaluate(c, sf, b, grid_maps, bound, e, f, g)] where [e], [f],
    [g] are the variables of [slot]: the [bool] returned and the slot
    after the call. *)
Definition evaluate_into (NDEBUG : bool) (lig : ligand fl)
    (sf : scoring_function) (b : box) (grid_maps : list array3d)
    (bound : fl) (c : conformation fl) (slot : pose)
    : outcome (bool * pose) :=
  let* r := evaluate NDEBUG lig c sf b grid_maps bound
        (pose_e slot) (pose_f slot) (pose_g slot) in
  Ret (accepted r, mk_pose c (e_out r) (f_out r) (g_out r)).

Definition pi : fl := flit 3.1415926535897932%float.

Definition uniform_01_gen := uniform_real_distribution 0 1.
Definition uniform_11_gen := uniform_real_distribution (fneg 1) 1.
Definition uniform_pi_gen := uniform_real_distribution (fneg pi) pi.
Definition uniform_box0_gen (b : box) :=
  uniform_real_distribution (corner1 b).1.1 (corner2 b).1.1.
Definition uniform_box1_gen (b : box) :=
  uniform_real_distribution (corner1 b).1.2 (corner2 b).1.2.
Definition uniform_box2_gen (b : box) :=
  uniform_real_distribution (corner1 b).2 (corner2 b).2.
Definition normal_01_gen := normal_distribution 0 1.

(** [array<double, 3>{gen(eng), gen(eng), gen(eng)}], drawn left to right. *)
Definition draw3 (g0 g1 g2 : engine -> fl * engine) (eng : engine)
    : vec3 fl * engine :=
  let '(x0, eng) := g0 eng in
  let '(x1, eng) := g1 eng in
  let '(x2, eng) := g2 eng in
  ((x0, x1, x2), eng).

(** [for (i = 0; i < n; ++i) c.torsions[i] = uniform_pi_gen(eng)], [n]
    torsions from [i]. *)
Fixpoint randomize_torsions (i n : nat) (ts : list fl) (eng : engine)
    : list fl * engine :=
  match n with
  | O => (ts, eng)
  | S n' =>
      let '(v, eng) := uniform_pi_gen eng in
      randomize_torsions (S i) n' (<[i := v]> ts) eng
  end.

(** Lines 34-39: randomize conformation [c0]. *)
Definition randomize (lig : ligand fl) (b : box) (c0 : conformation fl)
    (eng : engine) : conformation fl * engine :=
  let '(pos, eng) :=
    draw3 (uniform_box0_gen b) (uniform_box1_gen b) (uniform_box2_gen b) eng in
  let '(q0, eng) := normal_01_gen eng in
  let '(q1, eng) := normal_01_gen eng in
  let '(q2, eng) := normal_01_gen eng in
  let '(q3, eng) := normal_01_gen eng in
  let '(ts, eng) :=
    randomize_torsions 0 (num_active_torsions lig) (torsions c0) eng in
  ({| position := pos; orientation := normalize4 (q0, q1, q2, q3);
      torsions := ts |}, eng).

(** Lines 33-40, the body of the loop: a random [c0] and its
    evaluation; returns [valid_conformation], the slot of [c0] and the
    engine. *)
Definition attempt (NDEBUG : bool) (lig : ligand fl) (sf : scoring_function)
    (b : box) (grid_maps : list array3d) (e_upper_bound : fl)
    (p0 : pose) (eng : engine) : outcome (bool * pose * engine) :=
  let '(c0, eng) := randomize lig b (pose_c p0) eng in
  let* r := evaluate_into NDEBUG lig sf b grid_maps e_upper_bound c0 p0 in
  let '(valid, p0) := r in
  Ret (valid, p0, eng).

(** Lines 31-41: [for (i = 0; (i < 1000) && (!valid_conformation); ++i)],
    with [n] iterations left. *)
Fixpoint initialize (NDEBUG : bool) (lig : ligand fl) (sf : scoring_function)
    (b : box) (grid_maps : list array3d) (e_upper_bound : fl)
    (n : nat) (valid_conformation : bool) (p0 : pose) (eng : engine)
    : outcome (bool * pose * engine) :=
  match n with
  | O => Ret (valid_conformation, p0, eng)
  | S n' =>
      if valid_conformation then Ret (valid_conformation, p0, eng)
      else
        let* a := attempt NDEBUG lig sf b grid_maps e_upper_bound p0 eng in
        let '(valid, p0, eng) := a in
        initialize NDEBUG lig sf b grid_maps e_upper_bound n' valid p0 eng
  end.

(** Lines 76-94: one mutation of a copy of [c0]. *)
Definition mutate (NDEBUG : bool) (lig : ligand fl) (c0 : conformation fl)
    (eng : engine) : outcome (conformation fl * engine) :=
  let num_entities := (2 + num_active_torsions lig)%nat in
  let c1 := c0 in
  let '(mutation_entity, eng) :=
    uniform_int_distribution 0 (num_entities - 1) eng in
  let* _ := assert NDEBUG (mutation_entity <? num_entities)%nat in
  if (mutation_entity <? num_active_torsions lig)%nat then
    let '(v, eng) := uniform_pi_gen eng in
    Ret ({| position := position c1; orientation := orientation c1;
             torsions := <[mutation_entity := v]> (torsions c1) |}, eng)
  else if (mutation_entity =? num_active_torsions lig)%nat then
    let '(d, eng) := draw3 uniform_11_gen uniform_11_gen uniform_11_gen eng in
    Ret ({| position := vadd (position c1) d; orientation := orientation c1;
             torsions := torsions c1 |}, eng)
  else
    let '(d, eng) := draw3 uniform_11_gen uniform_11_gen uniform_11_gen eng in
    let q := qmul (vec3_to_qtn4 (smul (flit 0.01%float) d)) (orientation c1) in
    let* _ := assert NDEBUG (normalized4 q) in
    Ret ({| position := position c1; orientation := q;
             torsions := torsions c1 |}, eng).

(** Lines 73-95: [do { mutate } while (!lig.evaluate(c1, ...))]. *)
Fixpoint mutate_until_valid (fuel : nat) (NDEBUG : bool) (lig : ligand fl)
    (sf : scoring_function) (b : box) (grid_maps : list array3d)
    (e_upper_bound : fl) (c0 : conformation fl) (p1 : pose) (eng : engine)
    : outcome (pose * engine) :=
  match fuel with
  | O => Fail out_of_fuel
  | S fuel' =>
      let* m := mutate NDEBUG lig c0 eng in
      let '(c1, eng) := m in
      let* r := evaluate_into NDEBUG lig sf b grid_maps e_upper_bound c1 p1 in
      let '(valid, p1) := r in
      if valid then Ret (p1, eng)
      else mutate_until_valid fuel' NDEBUG lig sf b grid_maps e_upper_bound
             c0 p1 eng
  end.

(** [sum = 0; for (j = 0; j < num_variables; ++j) sum += h[mp(i, j)] * v[j]]. *)
Definition h_row_times (h : list fl) (v : change fl) (num_variables i : nat)
    : fl :=
  foldl (fun sum j =>
           sum + (h !!! triangular_matrix_permissive_index i j) * change_get v j)
        0 (seq 0 num_variables).

(** [for (i = 0; i < num_variables; ++i) out[i] = -sum_i]: [-h * v]. The
    loop assigns every entry of [out], a [change] of [n] torsions. *)
Definition minus_h_times (h : list fl) (v : change fl) (n : nat) : change fl :=
  foldl (fun out i => change_set out i (- h_row_times h v (6 + n) i))
        (change_init n) (seq 0 (6 + n)).

(** [acc = 0; for (i = 0; i < num_variables; ++i) acc += a[i] * b[i]]. *)
Definition change_dot (a b : change fl) (num_variables : nat) : fl :=
  foldl (fun acc i => acc + change_get a i * change_get b i)
        0 (seq 0 num_variables).

(** Lines 131-138: [c2 = c1 + alpha * p], written into [c2]. *)
Definition step_conformation (NDEBUG : bool) (lig : ligand fl)
    (c1 c2 : conformation fl) (p : change fl) (alpha : fl)
    : outcome (conformation fl) :=
  let pos :=
    vadd (position c1)
         (smul alpha (change_get p 0, change_get p 1, change_get p 2)) in
  let* _ := assert NDEBUG (normalized4 (orientation c1)) in
  let q :=
    qmul (vec3_to_qtn4
            (smul alpha (change_get p 3, change_get p 4, change_get p 5)))
         (orientation c1) in
  let* _ := assert NDEBUG (normalized4 q) in
  Ret {| position := pos; orientation := q;
         torsions :=
           foldl (fun ts i =>
                    <[i := (torsions c1 !!! i) + alpha * change_get p (6 + i)]> ts)
                 (torsions c2) (seq 0 (num_active_torsions lig)) |}.

(** Lines 130-150, one trial of the line search with step [alpha]:
    [c2 = c1 + alpha * p] and its evaluation under the Armijo bound;
    returns whether the trial is accepted (the evaluator accepts [c2] and
    the curvature condition holds) and the slot of [c2]. *)
Definition trial (NDEBUG : bool) (lig : ligand fl) (sf : scoring_function)
    (b : box) (grid_maps : list array3d) (p1 : pose) (p : change fl)
    (pg1 : fl) (alpha : fl) (p2 : pose) : outcome (bool * pose) :=
  let* c2 := step_conformation NDEBUG lig (pose_c p1) (pose_c p2) p alpha in
  let* r := evaluate_into NDEBUG lig sf b grid_maps
              (pose_e p1 + flit 0.0001%float * alpha * pg1) c2 p2 in
  let '(valid, p2) := r in
  Ret (valid
       && (change_dot p (pose_g p2) (6 + num_active_torsions lig)
           >=? flit 0.9%float * pg1), p2).

(** Lines 125-151: the line search, with [n] trials left; returns
    [num_alpha_trials], [alpha] and the slot of [c2] as the loop leaves
    them. *)
Fixpoint line_search (NDEBUG : bool) (lig : ligand fl) (sf : scoring_function)
    (b : box) (grid_maps : list array3d) (p1 : pose) (p : change fl)
    (pg1 : fl) (n num_alpha_trials : nat) (alpha : fl) (p2 : pose)
    : outcome (nat * fl * pose) :=
  match n with
  | O => Ret (num_alpha_trials, alpha, p2)
  | S n' =>
      let alpha := alpha * flit 0.1%float in
      let* r := trial NDEBUG lig sf b grid_maps p1 p pg1 alpha p2 in
      let '(found, p2) := r in
      if found then Ret (num_alpha_trials, alpha, p2)
      else line_search NDEBUG lig sf b grid_maps p1 p pg1 n'
             (S num_alpha_trials) alpha p2
  end.

(** Lines 57-59: the identity, as a packed triangular matrix. *)
Definition identity_hessian (num_variables : nat) : list fl :=
  foldl (fun h i => <[triangular_matrix_restrictive_index i i := 1]> h)
        (replicate (num_variables * (num_variables + 1) / 2) 0)
        (seq 0 num_variables).

(** Lines 157-178: the BFGS update of [h]. *)
Definition update_hessian (h : list fl) (g1 g2 p : change fl) (alpha : fl)
    (n : nat) : list fl :=
  let num_variables := (6 + n)%nat in
  let y :=
    foldl (fun y i => change_set y i (change_get g2 i - change_get g1 i))
          (change_init n) (seq 0 num_variables) in
  let mhy := minus_h_times h y n in
  let yhy :=
    foldl (fun yhy i => yhy - change_get y i * change_get mhy i)
          0 (seq 0 num_variables) in
  let yp := change_dot y p num_variables in
  let ryp := 1 / yp in
  let pco := ryp * (ryp * yhy + alpha) in
  foldl (fun h i =>
           foldl (fun h j =>
                    <[triangular_matrix_restrictive_index i j :=
                        (h !!! triangular_matrix_restrictive_index i j)
                        + (ryp * (change_get mhy i * change_get p j
                                  + change_get mhy j * change_get p i)
                           + pco * change_get p i * change_get p j)]> h)
                 h (seq i (num_variables - i)))
        h (seq 0 num_variables).

(** Lines 105-185: [while (true)], the BFGS loop; returns the slots of
    [c1] and [c2]. *)
Fixpoint bfgs (fuel : nat) (NDEBUG : bool) (lig : ligand fl)
    (sf : scoring_function) (b : box) (grid_maps : list array3d)
    (h : list fl) (p1 p2 : pose) : outcome (pose * pose) :=
  match fuel with
  | O => Fail out_of_fuel
  | S fuel' =>
      let n := num_active_torsions lig in
      let p := minus_h_times h (pose_g p1) n in
      let pg1 := change_dot p (pose_g p1) (6 + n) in
      let* ls := line_search NDEBUG lig sf b grid_maps p1 p pg1
                   num_alphas 0 1 p2 in
      let '(num_alpha_trials, alpha, p2) := ls in
      if (num_alpha_trials =? num_alphas)%nat then Ret (p1, p2)
      else
        let h := update_hessian h (pose_g p1) (pose_g p2) p alpha n in
        bfgs fuel' NDEBUG lig sf b grid_maps h p2 p2
  end.

(** Lines 187-202: the Metropolis step; returns [results], [best_e], the
    slot of [c0] and the engine. *)
Definition metropolis (NDEBUG : bool) (lig : ligand fl)
    (required_square_error : fl) (results : ptr_vector (result fl))
    (best_e : fl) (p0 p1 : pose) (eng : engine)
    : outcome (ptr_vector (result fl) * fl * pose * engine) :=
  let e0 := pose_e p0 in
  let e1 := pose_e p1 in
  let delta := e0 - e1 in
  let '(accept, eng) :=
    if delta >? 0 then (true, eng)
    else let '(u, eng) := uniform_01_gen eng in (u <? fexp delta, eng) in
  if accept then
    let* rb :=
      if (e1 <? best_e) || (length (items results) <? capacity results)%nat
      then
        let* r := compose_result NDEBUG lig e1 (pose_f p1) (pose_c p1) in
        Ret (add_to_result_container results r required_square_error,
             if e1 <? best_e then e0 else best_e)
      else Ret (results, best_e) in
    let '(results, best_e) := rb in
    Ret (results, best_e,
         mk_pose (pose_c p1) e1 (pose_f p0) (pose_g p0), eng)
  else Ret (results, best_e, p0, eng).

(** The variables that live across the iterations of the main loop. *)
Record task_state : Type := mk_task_state {
  ts_results : ptr_vector (result fl);
  ts_best_e : fl;
  ts_p0 : pose;
  ts_p1 : pose;
  ts_p2 : pose;
  ts_eng : engine;
}.

(** One iteration of the main loop (lines 69-202). *)
Definition mc_iteration (fuel : nat) (NDEBUG : bool) (lig : ligand fl)
    (sf : scoring_function) (b : box) (grid_maps : list array3d)
    (st : task_state) : outcome task_state :=
  let n := num_active_torsions lig in
  let e_upper_bound := fl_of_size_t (4 * num_heavy_atoms lig) in
  let required_square_error := fl_of_size_t (1 * num_heavy_atoms lig) in
  let* m := mutate_until_valid fuel NDEBUG lig sf b grid_maps e_upper_bound
              (pose_c (ts_p0 st)) (ts_p1 st) (ts_eng st) in
  let '(p1, eng) := m in
  let h := identity_hessian (6 + n) in
  let* q := bfgs fuel NDEBUG lig sf b grid_maps h p1 (ts_p2 st) in
  let '(p1, p2) := q in
  let* a := metropolis NDEBUG lig required_square_error (ts_results st)
              (ts_best_e st) (ts_p0 st) p1 eng in
  let '(results, best_e, p0, eng) := a in
  Ret (mk_task_state results best_e p0 p1 p2 eng).

(** [for (mc_i = 0; mc_i < num_mc_iterations; ++mc_i)], [n] iterations. *)
Fixpoint mc_iterations (fuel : nat) (NDEBUG : bool) (lig : ligand fl)
    (sf : scoring_function) (b : box) (grid_maps : list array3d)
    (n : nat) (st : task_state) : outcome task_state :=
  match n with
  | O => Ret st
  | S n' =>
      let* st' := mc_iteration fuel NDEBUG lig sf b grid_maps st in
      mc_iterations fuel NDEBUG lig sf b grid_maps n' st'
  end.

(** [e0], [f0] and their like are declared without an initialiser and
    are written by [evaluate] before the task reads them; the slots
    start from [0]. *)
Definition pose_init (n : nat) : pose :=
  mk_pose (conformation_init n) 0 0 (change_init n).

(** [monte_carlo_task]: [results] is the container passed by reference,
    and the value returned is the container when the task returns.
    [fuel] bounds each run of the two unbounded loops. *)
Definition monte_carlo_task (fuel : nat) (NDEBUG : bool)
    (results : ptr_vector (result fl)) (lig : ligand fl) (seed : nat)
    (sf : scoring_function) (b : box) (grid_maps : list array3d)
    : outcome (ptr_vector (result fl)) :=
  let num_mc_iterations := (100 * num_heavy_atoms lig)%nat in
  let n := num_active_torsions lig in
  let e_upper_bound := fl_of_size_t (4 * num_heavy_atoms lig) in
  let eng := mt19937_64 seed in
  let* i := initialize NDEBUG lig sf b grid_maps e_upper_bound 1000 false
              (pose_init n) eng in
  let '(valid_conformation, p0, eng) := i in
  if negb valid_conformation then Ret results
  else
    let* st := mc_iterations fuel NDEBUG lig sf b grid_maps num_mc_iterations
                 (mk_task_state results (pose_e p0) p0
                    (pose_init n) (pose_init n) eng) in
    Ret (ts_results st).

(** [double e0, f0;] and [double e1, f1, e2, f2;] are declared without
    an initialiser: what the six variables hold when the task begins is
    not fixed by the code. *)
Record unset : Type := mk_unset {
  u_e0 : fl; u_f0 : fl;
  u_e1 : fl; u_f1 : fl;
  u_e2 : fl; u_f2 : fl;
}.

(** [monte_carlo_task] with the six variables holding [u] when it
    begins: [monte_carlo_task] is the task that begins with six
    zeros. *)
Definition monte_carlo_task_from (u : unset) (fuel : nat) (NDEBUG : bool)
    (results : ptr_vector (result fl)) (lig : ligand fl) (seed : nat)
    (sf : scoring_function) (b : box) (grid_maps : list array3d)
    : outcome (ptr_vector (result fl)) :=
  let num_mc_iterations := (100 * num_heavy_atoms lig)%nat in
  let n := num_active_torsions lig in
  let e_upper_bound := fl_of_size_t (4 * num_heavy_atoms lig) in
  let eng := mt19937_64 seed in
  let* i := initialize NDEBUG lig sf b grid_maps e_upper_bound 1000 false
              (mk_pose (conformation_init n) (u_e0 u) (u_f0 u)
                 (change_init n)) eng in
  let '(valid_conformation, p0, eng) := i in
  if negb valid_conformation then Ret results
  else
    let* st := mc_iterations fuel NDEBUG lig sf b grid_maps num_mc_iterations
                 (mk_task_state results (pose_e p0) p0
                    (mk_pose (conformation_init n) (u_e1 u) (u_f1 u)
                       (change_init n))
                    (mk_pose (conformation_init n) (u_e2 u) (u_f2 u)
                       (change_init n)) eng) in
    Ret (ts_results st).

(** Two slots with the same conformation and the same gradient; the
    two energies, which [evaluate] leaves as they are when it refuses a
    conformation outside the box, may differ. *)
Definition same_slot (p p' : pose) : Prop :=
  pose_c p = pose_c p' /\ pose_g p = pose_g p'.

(** The step length after [k] trials: [alpha] multiplied [k] times by
    [0.1]. *)
Fixpoint alpha_after (k : nat) (alpha : fl) : fl :=
  match k with
  | O => alpha
  | S k' => alpha_after k' (alpha * flit 0.1%float)
  end.

(** [failed_trials k alpha p2 p2']: [k] trials in a row, none accepted,
    starting from the step length [alpha], lead from the slot [p2] of
    [c2] to [p2']. *)
Inductive failed_trials (NDEBUG : bool) (lig : ligand fl)
    (sf : scoring_function) (b : box) (grid_maps : list array3d)
    (p1 : pose) (p : change fl) (pg1 : fl)
    : nat -> fl -> pose -> pose -> Prop :=
| failed_trials_O alpha p2 :
    failed_trials NDEBUG lig sf b grid_maps p1 p pg1 0 alpha p2 p2
| failed_trials_S k alpha p2 p2' p2'' :
    trial NDEBUG lig sf b grid_maps p1 p pg1 (alpha * flit 0.1%float) p2
    = Ret (false, p2') ->
    failed_trials NDEBUG lig sf b grid_maps p1 p pg1 k
      (alpha * flit 0.1%float) p2' p2'' ->
    failed_trials NDEBUG lig sf b grid_maps p1 p pg1 (S k) alpha p2 p2''.
End MonteCarlo.

Arguments pose fl : clear implicits.
Arguments unset fl : clear implicits.
Arguments task_state fl {_}.

(** ** ligand::ligand

    The constructor reads the file line by line; here it takes the lines.
    [right_cast<T>(line, i, j)], the number in columns [i..j], is declared
    in a header that is not among the sources. *)

Class TextModel (fl : Type) : Type := {
  right_cast_fl : string -> nat -> nat -> option fl;
  right_cast_size_t : string -> nat -> nat -> option nat;
}.

(** [right_cast] throws [bad_lexical_cast] when the columns hold no
    number. *)
Definition lexical {A : Type} (o : option A) : outcome A :=
  match o with
  | Some a => Ret a
  | None => Fail bad_lexical_cast
  end.

Section Constructor.
Context {fl : Type} `{Scalar fl} `{AtomModel fl} `{TextModel fl}.
Local Open Scope fl_scope.

Definition starts_with (line prefix : string) : bool := String.prefix prefix line.

Definition isspace (c : ascii) : bool :=
  let n := nat_of_ascii c in (n =? 32)%nat || ((9 <=? n)%nat && (n <=? 13)%nat).

(** [line[i]]: the character, the null character at [i = size], and
    nothing defined past it. *)
Definition char_at (line : string) (i : nat) : outcome ascii :=
  match String.get i line with
  | Some c => Ret c
  | None => if (i =? String.length line)%nat then Ret zero else Fail out_of_range
  end.

(** [line.substr(pos, n)], which throws [std::out_of_range] when [pos]
    is past the end. *)
Definition substr (line : string) (pos n : nat) : outcome string :=
  if (pos <=? String.length line)%nat then Ret (String.substring pos n line)
  else Fail out_of_range.

(** Modelled from the spec: the constructor [frame(parent, rotorX,
    habegin, hybegin)] "constructs an active frame" ([ligand.hpp] as
    given declares a later layout of the class); the fields it leaves
    unset read [0] here. *)
Definition frame_ctor (parent rotorX habegin hybegin : nat) : frame fl :=
  mk_frame parent rotorX 0 habegin 0 hybegin 0 true zero3 zero3.

Definition set_haend_hyend (f : frame fl) (ha hy : nat) : frame fl :=
  mk_frame (parent f) (rotorX f) (rotorY f) (habegin f) ha (hybegin f) hy
    (active f) (parent_rotorY_to_current_rotorY f)
    (parent_rotorX_to_current_rotorY f).

Definition set_rotorY (f : frame fl) (i : nat) : frame fl :=
  mk_frame (parent f) (rotorX f) i (habegin f) (haend f) (hybegin f) (hyend f)
    (active f) (parent_rotorY_to_current_rotorY f)
    (parent_rotorX_to_current_rotorY f).

Definition set_active (f : frame fl) (a : bool) : frame fl :=
  mk_frame (parent f) (rotorX f) (rotorY f) (habegin f) (haend f) (hybegin f)
    (hyend f) a (parent_rotorY_to_current_rotorY f)
    (parent_rotorX_to_current_rotorY f).

Definition set_rotor_vectors (f : frame fl) (yy xy : vec3 fl) : frame fl :=
  mk_frame (parent f) (rotorX f) (rotorY f) (habegin f) (haend f) (hybegin f)
    (hyend f) (active f) yy xy.

(** The variables of the parsing loop. [f], the pointer to the current
    frame, is [frames[current]] throughout. *)
Record parser : Type := mk_parser {
  p_lines : list string;
  p_frames : list (frame fl);
  p_heavy_atoms : list (atom fl);
  p_hydrogens : list (atom fl);
  p_numbers : list nat;
  p_current : nat;
  p_num_active_torsions : nat;
  p_num_lines : nat;
}.

(** Lines 28-40. *)
Definition parser_init : parser :=
  mk_parser [] [set_rotorY (frame_ctor 0 0 0 0) 0] [] [] [] 0 0 0.

(** Lines 74-83: [for (i = heavy_atoms.size(); i > f->habegin;)], from
    [i] down. *)
Fixpoint donorize_bonded (a : atom fl) (habegin i : nat)
    (heavy_atoms : list (atom fl)) : list (atom fl) :=
  match i with
  | O => heavy_atoms
  | S i' =>
      if (habegin <? i)%nat then
        let b := heavy_atoms !!! i' in
        if negb (is_hetero b) then donorize_bonded a habegin i' heavy_atoms
        else if is_neighbor a b then <[i' := donorize b]> heavy_atoms
        else donorize_bonded a habegin i' heavy_atoms
      else heavy_atoms
  end.

(** [for (i = ...; true; ++i) if (numbers[i] == x)]: the first index
    from [i] on whose serial number is [x]; the loop has no bound, and
    runs past the end of [numbers] when there is none. *)
Fixpoint find_serial (x : nat) (numbers : list nat) (i : nat) : outcome nat :=
  match numbers with
  | [] => Fail out_of_range
  | n :: numbers' =>
      if (n =? x)%nat then Ret i else find_serial x numbers' (S i)
  end.

(** Lines 49-91: an ATOM/HETATM line. *)
Definition parse_atom (NDEBUG : bool) (line : string) (ps : parser)
    : outcome parser :=
  let f := p_frames ps !!! p_current ps in
  let* _ := BOOST_ASSERT NDEBUG
              (p_current ps =? length (p_frames ps) - 1)%nat in
  let lines := p_lines ps ++ [line] in
  let* c := char_at line 78 in
  let* ad_type_string := substr line 77 (if isspace c then 1 else 2) in
  let ad := parse_ad_type_string ad_type_string in
  if (ad =? AD_TYPE_SIZE)%nat then
    Fail (parsing_error (p_num_lines ps)
            ("Atom type " ++ ad_type_string ++ " is not supported by idock."))
  else
    let* x := lexical (right_cast_fl line 31 38) in
    let* y := lexical (right_cast_fl line 39 46) in
    let* z := lexical (right_cast_fl line 47 54) in
    let a := atom_ctor (x, y, z) ad in
    if is_hydrogen a then
      let hydrogens := p_hydrogens ps ++ [a] in
      let heavy_atoms :=
        if (ad =? AD_TYPE_HD)%nat then
          donorize_bonded a (habegin f) (length (p_heavy_atoms ps))
            (p_heavy_atoms ps)
        else p_heavy_atoms ps in
      Ret (mk_parser lines (p_frames ps) heavy_atoms hydrogens (p_numbers ps)
             (p_current ps) (p_num_active_torsions ps) (p_num_lines ps))
    else
      let* number := lexical (right_cast_size_t line 7 11) in
      Ret (mk_parser lines (p_frames ps) (p_heavy_atoms ps ++ [a])
             (p_hydrogens ps) (p_numbers ps ++ [number])
             (p_current ps) (p_num_active_torsions ps) (p_num_lines ps)).

(** Lines 92-120: a BRANCH line. *)
Definition parse_branch (line : string) (ps : parser) : outcome parser :=
  let f := p_frames ps !!! p_current ps in
  let lines := p_lines ps ++ [line] in
  let* x := lexical (right_cast_size_t line 7 10) in
  let* i := find_serial x (drop (habegin f) (p_numbers ps)) (habegin f) in
  let new := frame_ctor (p_current ps) i (length (p_heavy_atoms ps))
               (length (p_hydrogens ps)) in
  let frames := p_frames ps ++ [new] in
  let current := (length frames - 1)%nat in
  let frames :=
    <[(current - 1)%nat :=
        set_haend_hyend (frames !!! (current - 1)%nat)
          (habegin new) (hybegin new)]> frames in
  Ret (mk_parser lines frames (p_heavy_atoms ps) (p_hydrogens ps)
         (p_numbers ps) current (p_num_active_torsions ps) (p_num_lines ps)).

(** Lines 121-160: an ENDBRANCH line. *)
Definition parse_endbranch (line : string) (ps : parser) : outcome parser :=
  let f := p_frames ps !!! p_current ps in
  let lines := p_lines ps ++ [line] in
  if (habegin f =? length (p_heavy_atoms ps))%nat then
    Fail (parsing_error (p_num_lines ps)
            "An empty BRANCH has been detected, indicating the input ligand structure is probably invalid.")
  else
    let* y := lexical (right_cast_size_t line 14 17) in
    let* i := find_serial y (drop (habegin f) (p_numbers ps)) (habegin f) in
    let f := set_rotorY f i in
    let inactive :=
      (p_current ps =? length (p_frames ps) - 1)%nat
      && (habegin f + 1 =? length (p_heavy_atoms ps))%nat in
    let f := if inactive then set_active f false else f in
    let frames := <[p_current ps := f]> (p_frames ps) in
    Ret (mk_parser lines frames (p_heavy_atoms ps) (p_hydrogens ps)
           (p_numbers ps) (parent (frames !!! p_current ps))
           (if inactive then p_num_active_torsions ps
            else S (p_num_active_torsions ps))
           (p_num_lines ps)).

(** The body of [while (getline(in, line))] (lines 48-165). *)
Definition parse_line (NDEBUG : bool) (line : string) (ps : parser)
    : outcome parser :=
  let ps :=
    mk_parser (p_lines ps) (p_frames ps) (p_heavy_atoms ps) (p_hydrogens ps)
      (p_numbers ps) (p_current ps) (p_num_active_torsions ps)
      (S (p_num_lines ps)) in
  if starts_with line "ATOM" || starts_with line "HETATM" then
    parse_atom NDEBUG line ps
  else if starts_with line "BRANCH" then parse_branch line ps
  else if starts_with line "ENDBRANCH" then parse_endbranch line ps
  else if starts_with line "ROOT" || starts_with line "ENDROOT"
          || starts_with line "TORSDOF" then
    Ret (mk_parser (p_lines ps ++ [line]) (p_frames ps) (p_heavy_atoms ps)
           (p_hydrogens ps) (p_numbers ps) (p_current ps)
           (p_num_active_torsions ps) (p_num_lines ps))
  else Ret ps.

Fixpoint parse_lines (NDEBUG : bool) (input : list string) (ps : parser)
    : outcome parser :=
  match input with
  | [] => Ret ps
  | line :: input' =>
      let* ps' := parse_line NDEBUG line ps in
      parse_lines NDEBUG input' ps'
  end.

(** Lines 196-206: the loop over [j] for the hetero atom [i]. Atoms are
    read through references, so each use reads the vector as it is then. *)
Definition dehydrophobicize_neighbors (f : frame fl) (i : nat)
    (heavy_atoms : list (atom fl)) : list (atom fl) :=
  foldl (fun heavy_atoms j =>
           let a := heavy_atoms !!! i in
           let b := heavy_atoms !!! j in
           if is_hetero b then heavy_atoms
           else if is_neighbor a b then <[j := dehydrophobicize b]> heavy_atoms
           else heavy_atoms)
        heavy_atoms (seq (habegin f) (haend f - habegin f)).

(** Lines 188-216: one frame [k]. *)
Definition dehydrophobicize_frame (heavy_atoms : list (atom fl))
    (k : nat) (f : frame fl) : list (atom fl) :=
  let heavy_atoms :=
    foldl (fun heavy_atoms i =>
             if negb (is_hetero (heavy_atoms !!! i)) then heavy_atoms
             else dehydrophobicize_neighbors f i heavy_atoms)
          heavy_atoms (seq (habegin f) (haend f - habegin f)) in
  if (k =? 0)%nat then heavy_atoms
  else
    let heavy_atoms :=
      if is_hetero (heavy_atoms !!! rotorY f)
         && negb (is_hetero (heavy_atoms !!! rotorX f))
      then <[rotorX f := dehydrophobicize (heavy_atoms !!! rotorX f)]> heavy_atoms
      else heavy_atoms in
    if is_hetero (heavy_atoms !!! rotorX f)
       && negb (is_hetero (heavy_atoms !!! rotorY f))
    then <[rotorY f := dehydrophobicize (heavy_atoms !!! rotorY f)]> heavy_atoms
    else heavy_atoms.

(** Lines 219-225: the two rotor vectors of frame [k]. *)
Definition rotor_geometry (heavy_atoms : list (atom fl))
    (frames : list (frame fl)) (k : nat) : list (frame fl) :=
  let f := frames !!! k in
  let p := frames !!! parent f in
  let yy := vsub (coordinate (heavy_atoms !!! rotorY f))
                 (coordinate (heavy_atoms !!! rotorY p)) in
  let xy := normalize3 (vsub (coordinate (heavy_atoms !!! rotorY f))
                             (coordinate (heavy_atoms !!! rotorX f))) in
  <[k := set_rotor_vectors f yy xy]> frames.

(** [bonds[i].push_back(j)]. *)
Definition push_bond (bonds : list (list nat)) (i j : nat) : list (list nat) :=
  <[i := (bonds !!! i) ++ [j]]> bonds.

(** Lines 234-256: the bonds of frame [k]. *)
Definition frame_bonds (heavy_atoms : list (atom fl))
    (bonds : list (list nat)) (k : nat) (f : frame fl) : list (list nat) :=
  let bonds :=
    foldl (fun bonds i =>
             foldl (fun bonds j =>
                      if is_neighbor (heavy_atoms !!! i) (heavy_atoms !!! j)
                      then push_bond (push_bond bonds i j) j i
                      else bonds)
                   bonds (seq (i + 1) (haend f - (i + 1))))
          bonds (seq (habegin f) (haend f - habegin f)) in
  if (k =? 0)%nat then bonds
  else push_bond (push_bond bonds (rotorY f) (rotorX f)) (rotorX f) (rotorY f).

Definition all_bonds (heavy_atoms : list (atom fl)) (frames : list (frame fl))
    : list (list nat) :=
  foldl (fun bonds k => frame_bonds heavy_atoms bonds k (frames !!! k))
        (replicate (length heavy_atoms) [])
        (seq 0 (length frames)).

(** [if (find(neighbors.begin(), neighbors.end(), b) == neighbors.end())
    neighbors.push_back(b)]. *)
Definition contains (l : list nat) (x : nat) : bool := existsb (Nat.eqb x) l.

Definition add_neighbor (neighbors : list nat) (b : nat) : list nat :=
  if contains neighbors b then neighbors else neighbors ++ [b].

(** Lines 267-297: the atoms within 3 consecutive bonds of [i]. *)
Definition neighbors_within_3 (bonds : list (list nat)) (i : nat) : list nat :=
  foldl (fun neighbors b1 =>
           foldl (fun neighbors b2 =>
                    foldl add_neighbor (add_neighbor neighbors b2)
                          (bonds !!! b2))
                 (add_neighbor neighbors b1) (bonds !!! b1))
        [] (bonds !!! i).

(** Lines 300-309: the pairs that atom [i] of frame [k1] forms. *)
Definition pairs_of_atom (heavy_atoms : list (atom fl))
    (frames : list (frame fl)) (neighbors : list nat) (k1 i : nat)
    (pairs : list interacting_pair) : list interacting_pair :=
  foldl (fun pairs k2 =>
           let f2 := frames !!! k2 in
           foldl (fun pairs j =>
                    if ((k1 =? parent f2)%nat
                        && ((j =? rotorY f2)%nat || (i =? rotorX f2)%nat))
                       || contains neighbors j
                    then pairs
                    else pairs ++
                         [mk_interacting_pair i j
                            (mp (xs (heavy_atoms !!! i)) (xs (heavy_atoms !!! j)))])
                 pairs (seq (habegin f2) (haend f2 - habegin f2)))
        pairs (seq (k1 + 1) (length frames - (k1 + 1))).

(** Lines 262-314. *)
Definition find_interacting_pairs (heavy_atoms : list (atom fl))
    (frames : list (frame fl)) (bonds : list (list nat))
    : list interacting_pair :=
  foldl (fun pairs k1 =>
           let f1 := frames !!! k1 in
           foldl (fun pairs i =>
                    pairs_of_atom heavy_atoms frames
                      (neighbors_within_3 bonds i) k1 i pairs)
                 pairs (seq (habegin f1) (haend f1 - habegin f1)))
        [] (seq 0 (length frames)).

Definition relativize_atoms (origin : vec3 fl) (i n : nat)
    (atoms : list (atom fl)) : list (atom fl) :=
  foldl (fun atoms i =>
           <[i := set_coordinate (atoms !!! i)
                    (vsub (coordinate (atoms !!! i)) origin)]> atoms)
        atoms (seq i n).

(** Lines 317-329: coordinates relative to the origin of the frame. *)
Definition relativize (frames : list (frame fl))
    (atoms : list (atom fl) * list (atom fl))
    : list (atom fl) * list (atom fl) :=
  foldl (fun '(heavy_atoms, hydrogens) k =>
           let f := frames !!! k in
           let origin := coordinate (heavy_atoms !!! rotorY f) in
           (relativize_atoms origin (habegin f) (haend f - habegin f) heavy_atoms,
            relativize_atoms origin (hybegin f) (hyend f - hybegin f) hydrogens))
        atoms (seq 0 (length frames)).

(** Lines 168-330: what the constructor does once the file is read.
    [num_torsions - num_active_torsions] is the difference of line 179
    when the assertion before it holds; where that assertion is
    compiled out and does not hold, the [size_t] of the source wraps
    around, which the difference of two [nat] does not. *)
Definition finish (NDEBUG : bool) (ps : parser) : outcome (ligand fl) :=
  let* _ := BOOST_ASSERT NDEBUG (length (p_lines ps) <=? p_num_lines ps)%nat in
  let* _ := BOOST_ASSERT NDEBUG (p_current ps =? 0)%nat in
  let num_frames := length (p_frames ps) in
  let* _ := BOOST_ASSERT NDEBUG (1 <=? num_frames)%nat in
  let num_torsions := (num_frames - 1)%nat in
  let* _ := BOOST_ASSERT NDEBUG (num_torsions + 1 =? num_frames)%nat in
  let num_active_torsions := p_num_active_torsions ps in
  let* _ := BOOST_ASSERT NDEBUG (num_active_torsions <=? num_torsions)%nat in
  let flexibility_penalty_factor :=
    1 / (1 + flit 0.05846%float
             * (fl_of_size_t num_active_torsions
                + flit 0.5%float
                  * fl_of_size_t (num_torsions - num_active_torsions))) in
  let num_heavy_atoms := length (p_heavy_atoms ps) in
  let num_hydrogens := length (p_hydrogens ps) in
  let* _ := BOOST_ASSERT NDEBUG
              (num_heavy_atoms + num_hydrogens + 2 * num_torsions + 3
               <=? p_num_lines ps)%nat in
  let num_heavy_atoms_inverse := 1 / fl_of_size_t num_heavy_atoms in
  let frames :=
    <[(num_frames - 1)%nat :=
        set_haend_hyend (p_frames ps !!! (num_frames - 1)%nat)
          num_heavy_atoms num_hydrogens]> (p_frames ps) in
  let heavy_atoms :=
    foldl (fun heavy_atoms k =>
             dehydrophobicize_frame heavy_atoms k (frames !!! k))
          (p_heavy_atoms ps) (seq 0 num_frames) in
  let frames :=
    foldl (rotor_geometry heavy_atoms) frames (seq 1 (num_frames - 1)) in
  let bonds := all_bonds heavy_atoms frames in
  let interacting_pairs := find_interacting_pairs heavy_atoms frames bonds in
  let '(heavy_atoms, hydrogens) :=
    relativize frames (heavy_atoms, p_hydrogens ps) in
  Ret (mk_ligand (p_lines ps) frames heavy_atoms hydrogens interacting_pairs
         num_frames num_torsions num_active_torsions num_heavy_atoms
         num_hydrogens flexibility_penalty_factor num_heavy_atoms_inverse).

(** [ligand::ligand], on the lines of the file. *)
Definition ligand_ctor (NDEBUG : bool) (input : list string)
    : outcome (ligand fl) :=
  let* ps := parse_lines NDEBUG input parser_init in
  finish NDEBUG ps.
End Constructor.

Arguments parser fl : clear implicits.

(** ** The vocabulary of the statements about [evaluate] *)

Section EvaluateSpec.
Context {fl : Type} `{Scalar fl} `{Libm fl}.
Context `{BoxModel fl} `{GridModel fl} `{ScoringModel fl}.

(** The forward pass with assertions compiled out and no box to leave:
    it runs through every frame. [world_kinematics] is what it computes. *)
Definition world_kinematics (lig : ligand fl) (conf : conformation fl)
    : kinematics fl :=
  match forward_kinematics true (fun _ => true) lig conf with
  | Ret (Some kin) => kin
  | _ => kinematics_init lig
  end.

(** The world coordinate of the ROOT atom [i]. *)
Definition root_world (lig : ligand fl) (conf : conformation fl) (i : nat)
    : vec3 fl :=
  vadd (position conf)
       (mat3_mul_vec3 (qtn4_to_mat3_raw (orientation conf))
                      (coordinate (heavy_atoms lig !!! i))).

(** The world coordinate of atom [i] placed by frame [k]. *)
Definition world_atom (lig : ligand fl) (kin : kinematics fl) (k i : nat)
    : vec3 fl :=
  vadd (origin kin !!! k)
       (mat3_mul_vec3 (orientation_m kin !!! k)
                      (coordinate (heavy_atoms lig !!! i))).

Definition root_atom_outside (lig : ligand fl) (b : box)
    (conf : conformation fl) : Prop :=
  let root := frames lig !!! 0%nat in
  exists i, (habegin root <= i < haend root)%nat
    /\ within b (root_world lig conf i) = false.

Definition frame_origin_outside (lig : ligand fl) (b : box)
    (conf : conformation fl) : Prop :=
  exists k, (1 <= k < num_frames lig)%nat
    /\ within b (origin (world_kinematics lig conf) !!! k) = false.

Definition branch_atom_outside (lig : ligand fl) (b : box)
    (conf : conformation fl) : Prop :=
  exists k i, (1 <= k < num_frames lig)%nat
    /\ active (frames lig !!! k) = true
    /\ (habegin (frames lig !!! k) <= i < haend (frames lig !!! k))%nat
    /\ within b (world_atom lig (world_kinematics lig conf) k i) = false.

(** Whether frame [k] stays in the box [chk], read off the vectors
    once the frame is placed. *)
Definition frame_inside (chk : vec3 fl -> bool) (lig : ligand fl)
    (kin : kinematics fl) (k : nat) : Prop :=
  chk (origin kin !!! k) = true
  /\ (active (frames lig !!! k) = true ->
      forall i, (habegin (frames lig !!! k) <= i < haend (frames lig !!! k))%nat ->
        chk (world_atom lig kin k i) = true).

Definition frame_outside (chk : vec3 fl -> bool) (lig : ligand fl)
    (kin : kinematics fl) (k : nat) : Prop :=
  chk (origin kin !!! k) = false
  \/ (active (frames lig !!! k) = true
      /\ exists i, (habegin (frames lig !!! k) <= i < haend (frames lig !!! k))%nat
           /\ chk (world_atom lig kin k i) = false).

(** Two states of the pass agree on the frames below [k]. *)
Definition same_below (k : nat) (kin kin' : kinematics fl) : Prop :=
  forall j, (j < k)%nat ->
    origin kin' !!! j = origin kin !!! j
    /\ orientation_m kin' !!! j = orientation_m kin !!! j.

(** The frame-wide vectors hold [N] entries. *)
Definition sized (N : nat) (kin : kinematics fl) : Prop :=
  length (origin kin) = N /\ length (orientation_m kin) = N.

(** The number of active frames among the BRANCH frames [1 .. k]. *)
Definition active_in (frames : list (frame fl)) (k : nat) : nat :=
  length (List.filter (fun j => active (frames !!! j)) (seq 1 k)).

Definition active_branches (lig : ligand fl) (k : nat) : nat :=
  active_in (frames lig) k.

(** The four ways a pose leaves the box. *)
Definition outside_box (lig : ligand fl) (b : box) (conf : conformation fl)
    : Prop :=
  within b (position conf) = false
  \/ root_atom_outside lig b conf
  \/ frame_origin_outside lig b conf
  \/ branch_atom_outside lig b conf.

(** [f], [e] and the derivatives of the pose, from its world
    coordinates. *)
Definition world_energy (lig : ligand fl) (sf : scoring_function) (b : box)
    (grid_maps : list array3d) (conf : conformation fl)
    : fl * fl * list (vec3 fl) :=
  match energy true lig sf b grid_maps
          (coordinates (world_kinematics lig conf)) with
  | Ret x => x
  | Fail _ => (flit 0%float, flit 0%float, [])
  end.

Definition e_inter (lig : ligand fl) (sf : scoring_function) (b : box)
    (grid_maps : list array3d) (conf : conformation fl) : fl :=
  (world_energy lig sf b grid_maps conf).1.1.

Definition e_total (lig : ligand fl) (sf : scoring_function) (b : box)
    (grid_maps : list array3d) (conf : conformation fl) : fl :=
  (world_energy lig sf b grid_maps conf).1.2.
End EvaluateSpec.

(** ** The vocabulary of the statement about [compose_result] *)

Section ComposeSpec.
Context {fl : Type} `{Scalar fl}.
Local Open Scope fl_scope.

(** The two zeros of IEEE arithmetic, [+0] and [-0]; an arithmetic with
    one zero has [- 0 = 0]. *)
Definition is_zero (x : fl) : Prop := x = 0 \/ x = - 0.

(** Equal as numbers, the way [==] compares two [double]s that are not
    NaN: the same value, or two zeros whatever their signs. *)
Definition same_number (x y : fl) : Prop :=
  x = y \/ (is_zero x /\ is_zero y).

Definition same_point (u v : vec3 fl) : Prop :=
  let '(u0, u1, u2) := u in let '(v0, v1, v2) := v in
  same_number u0 v0 /\ same_number u1 v1 /\ same_number u2 v2.

(** Neither an infinity nor a NaN: [x - x] is a zero. *)
Definition finite (x : fl) : Prop := is_zero (x - x).

Definition finite_matrix (m : mat3 fl) : Prop :=
  let '((m0, m1, m2), (m3, m4, m5), (m6, m7, m8)) := m in
  finite m0 /\ finite m1 /\ finite m2 /\ finite m3 /\ finite m4
  /\ finite m5 /\ finite m6 /\ finite m7 /\ finite m8.

(** What IEEE arithmetic keeps of [x * 0 = 0], [0 + 0 = 0] and
    [x + 0 = x]: a finite number times a zero is a zero, the sum of two
    zeros is a zero, and adding a zero changes a number at most in the
    sign of a zero ([-0 + 0] is [+0]). *)
Definition zero_laws : Prop :=
  (forall x z : fl, finite x -> is_zero z -> is_zero (x * z))
  /\ (forall a b : fl, is_zero a -> is_zero b -> is_zero (a + b))
  /\ (forall x z : fl, is_zero z -> same_number (x + z) x).

(** A fourth fact of exact arithmetic, for the coordinates relative to
    the frame origin: IEEE arithmetic has it for finite [x]. *)
Definition exact_sub : Prop := forall x : fl, x - x = 0.

(** What the constructor makes of a BRANCH frame that is not active: its
    only heavy atom is its rotor Y, which sits at the origin of the
    frame (the two [BOOST_ASSERT]s of [evaluate] and the last pass of the
    constructor). *)
Definition inactive_is_rotorY (lig : ligand fl) : Prop :=
  forall k, (1 <= k < num_frames lig)%nat ->
    active (frames lig !!! k) = false ->
    (habegin (frames lig !!! k) + 1 = haend (frames lig !!! k))%nat
    /\ habegin (frames lig !!! k) = rotorY (frames lig !!! k)
    /\ coordinate (heavy_atoms lig !!! rotorY (frames lig !!! k)) = zero3.

(** A frame that is not active closes without a BRANCH inside it: no
    frame has it as parent. *)
Definition inactive_is_leaf (lig : ligand fl) : Prop :=
  forall k, (1 <= k < num_frames lig)%nat ->
    parent (frames lig !!! k) = 0%nat
    \/ active (frames lig !!! parent (frames lig !!! k)) = true.

(** Atom [i] is the rotor Y of a BRANCH frame that is not active. *)
Definition inactive_rotorY (lig : ligand fl) (i : nat) : Prop :=
  exists k, (1 <= k < num_frames lig)%nat
    /\ active (frames lig !!! k) = false
    /\ i = rotorY (frames lig !!! k).

(** Two lists of coordinates that agree atom for atom as numbers, and
    exactly but for the rotor Y atoms of the frames that are not
    active. *)
Definition agree_as_numbers (lig : ligand fl) (xs ys : list (vec3 fl))
    : Prop :=
  length xs = length ys
  /\ forall i, (i < length xs)%nat ->
       same_point (xs !!! i) (ys !!! i)
       /\ (xs !!! i = ys !!! i \/ inactive_rotorY lig i).

(** The rotation matrices [compose_result] computes for the frames that
    are not active are finite. *)
Definition inactive_finite (lig : ligand fl) (ms : list (mat3 fl)) : Prop :=
  forall k, (1 <= k < num_frames lig)%nat ->
    active (frames lig !!! k) = false -> finite_matrix (ms !!! k).

(** Atom [i] in the two passes before frame [k]: [x] of
    [compose_result] and [y] of [evaluate] are the same, or [i] is the
    rotor Y of a frame [j] before [k] that is not active, and they are
    the same number when the matrix of that frame is finite. *)
Definition atom_agrees (lig : ligand fl) (k : nat) (ms : list (mat3 fl))
    (i : nat) (x y : vec3 fl) : Prop :=
  x = y
  \/ exists j, (1 <= j < k)%nat /\ (j < num_frames lig)%nat
       /\ active (frames lig !!! j) = false
       /\ i = rotorY (frames lig !!! j)
       /\ (finite_matrix (ms !!! j) -> same_point x y).

(** The states of the two passes before frame [k]: the same torsion
    counter and origins, coordinates that agree atom by atom, and the
    same orientation for the ROOT frame, for every active frame and for
    the frames still to come. *)
Definition passes_agree (lig : ligand fl) (N k : nat)
    (st : nat * kinematics fl) (st' : nat * composition fl) : Prop :=
  st.1 = st'.1
  /\ origin st.2 = origins st'.2
  /\ length (out_heavy_atoms st'.2) = length (coordinates st.2)
  /\ (forall i, (i < length (coordinates st.2))%nat ->
        atom_agrees lig k (orientations_m st'.2) i
          (out_heavy_atoms st'.2 !!! i) (coordinates st.2 !!! i))
  /\ length (orientation_q st.2) = N /\ length (orientations_q st'.2) = N
  /\ length (orientation_m st.2) = N /\ length (orientations_m st'.2) = N
  /\ forall j, (j = 0 \/ active (frames lig !!! j) = true \/ k <= j)%nat ->
       orientation_q st.2 !!! j = orientations_q st'.2 !!! j
       /\ orientation_m st.2 !!! j = orientations_m st'.2 !!! j.
End ComposeSpec.

(** ** Instances of the interfaces

    The closed examples below the theorems run the functions above on
    concrete inputs. They need an arithmetic and something to stand for
    each collaborator. None of these is an [Instance]: each example names
    the ones it uses. *)

(** [double] and [fl]: IEEE binary64, the kernel's primitive floats. *)
Definition Float64 : Scalar float :=
  {| fadd := PrimFloat.add;
     fsub := PrimFloat.sub;
     fmul := PrimFloat.mul;
     fdiv := PrimFloat.div;
     fneg := PrimFloat.opp;
     fabs := PrimFloat.abs;
     fsqrt := PrimFloat.sqrt;
     fltb := PrimFloat.ltb;
     fleb := PrimFloat.leb;
     flit := fun x => x;
     fl_of_size_t := fun n => PrimFloat.of_uint63 (Uint63.of_Z (Z.of_nat n)) |}.

(** The integer part of a binary64 value. *)
Definition Z_of_float (x : float) : Z :=
  match Prim2SF x with
  | S754_finite s m e =>
      let v := Z.shiftl (Z.pos m) e in if s then (- v)%Z else v
  | _ => 0%Z
  end.

(** Exact integer arithmetic, with one zero. *)
Definition ExactInt : Scalar Z :=
  {| fadd := Z.add;
     fsub := Z.sub;
     fmul := Z.mul;
     fdiv := Z.div;
     fneg := Z.opp;
     fabs := Z.abs;
     fsqrt := Z.sqrt;
     fltb := Z.ltb;
     fleb := Z.leb;
     flit := Z_of_float;
     fl_of_size_t := Z.of_nat |}.

(** A stand-in for [<cmath>]: the first terms of the three series, exact
    at [0], where [sin] is [0] and [cos] and [exp] are [1]. No example
    rests on another value of it. *)
Definition series_libm {fl : Type} `{Scalar fl} : Libm fl :=
  {| fsin := fun x =>
       (x - x * x * x / flit 6%float)%fl;
     fcos := fun x =>
       (1 - x * x / 2)%fl;
     fexp := fun x =>
       (1 + x + x * x / 2)%fl |}.

(** Grid maps and the scoring function as the functions they tabulate. *)
Definition function_grid {fl : Type} `{Scalar fl} : GridModel fl :=
  {| array3d := nat -> nat -> nat -> fl;
     array3d_default := fun _ _ _ => flit 0%float;
     initialized := fun _ => true;
     grid_at := fun m => m |}.

Definition function_scoring {fl : Type} `{Scalar fl} : ScoringModel fl :=
  {| scoring_function := nat -> fl -> fl * fl;
     Cutoff_Sqr := flit 64%float;
     sf_evaluate := fun sf => sf |}.

(** Modelled from the spec: the box ([box.hpp] is not among the sources),
    two corners with [corner0[d] <= c[d] < corner1[d]] for a coordinate
    within it; this one is a single grid cell, so [grid_index] is
    [(0, 0, 0)] inside it. *)
Definition cell_within {fl : Type} `{Scalar fl}
    (b : vec3 fl * vec3 fl) (c : vec3 fl) : bool :=
  let '((l0, l1, l2), (u0, u1, u2)) := b in
  let '(c0, c1, c2) := c in
  (fleb l0 c0 && fltb c0 u0) && (fleb l1 c1 && fltb c1 u1)
  && (fleb l2 c2 && fltb c2 u2).

Definition cell_box {fl : Type} `{Scalar fl} : BoxModel fl :=
  {| box := vec3 fl * vec3 fl;
     corner1 := fst;
     corner2 := snd;
     within := cell_within;
     grid_index := fun _ _ => (0, 0, 0)%nat;
     num_grids := fun _ => (1, 1, 1)%nat;
     grid_granularity_inverse := fun _ => flit 1%float |}.

(** Modelled from the spec: a box with a grid of granularity [1/8], on
    binary64: [grid_index(c) = floor((c - corner0) / granularity)]. *)
Definition grid_cell (c l : float) : nat :=
  Z.to_nat (Z_of_float ((c - l) * 8)%float).

Definition grid_box : BoxModel float :=
  {| box := vec3 float * vec3 float;
     corner1 := fst;
     corner2 := snd;
     within := cell_within (H:=Float64);
     grid_index := fun b c =>
       let '((l0, l1, l2), _) := b in
       let '(c0, c1, c2) := c in
       (grid_cell c0 l0, grid_cell c1 l1, grid_cell c2 l2);
     num_grids := fun b =>
       let '((l0, l1, l2), (u0, u1, u2)) := b in
       (grid_cell u0 l0, grid_cell u1 l1, grid_cell u2 l2);
     grid_granularity_inverse := fun _ => 8%float |}.

(** Modelled from the spec: [add_to_result_container] ([result.hpp] is not
    among the sources). A candidate within [required_square_error] of an
    entry of no higher energy is discarded; otherwise it is inserted at
    its sorted position and the container cut back to its capacity. *)
Definition square_error {fl : Type} `{Scalar fl} (a b : list (vec3 fl)) : fl :=
  foldl fadd (flit 0%float) (zip_with distance_sqr a b).

Fixpoint insert_sorted {fl : Type} `{Scalar fl} (r : result fl)
    (l : list (result fl)) : list (result fl) :=
  match l with
  | [] => [r]
  | s :: l' =>
      if fltb (result_e r) (result_e s) then r :: s :: l'
      else s :: insert_sorted r l'
  end.

Definition clustered_results {fl : Type} `{Scalar fl} : ResultModel fl :=
  {| add_to_result_container := fun results r required_square_error =>
       if existsb (fun s =>
                     fleb (result_e s) (result_e r)
                     && fltb (square_error (result_heavy_atoms r)
                                           (result_heavy_atoms s))
                             required_square_error)
                  (items results)
       then results
       else mk_ptr_vector
              (take (capacity results) (insert_sorted r (items results)))
              (capacity results) |}.

(** A stand-in for [<random>]: a 64-bit linear congruential generator;
    a draw takes ten bits of the next state. *)
Definition lcg_next (eng : N) : N :=
  ((eng * 6364136223846793005 + 1442695040888963407) mod 2 ^ 64)%N.

Definition lcg_bits (eng : N) : nat := N.to_nat (eng / 2 ^ 54)%N.

Definition lcg_random {fl : Type} `{Scalar fl} : RandomModel fl :=
  {| engine := N;
     mt19937_64 := fun seed => N.of_nat seed;
     uniform_real_distribution := fun a b eng =>
       let eng := lcg_next eng in
       ((a + (b - a) * (fl_of_size_t (lcg_bits eng) / fl_of_size_t 1024))%fl,
        eng);
     uniform_int_distribution := fun a b eng =>
       let eng := lcg_next eng in
       ((a + lcg_bits eng mod (b - a + 1))%nat, eng);
     normal_distribution := fun mean stddev eng =>
       let eng := lcg_next eng in
       ((mean + stddev * ((fl_of_size_t (lcg_bits eng) - fl_of_size_t 512)
                          / fl_of_size_t 256))%fl, eng) |}.

(** The same generator with a count of the draws in its state. *)
Definition counted_lcg_random {fl : Type} `{Scalar fl} : RandomModel fl :=
  {| engine := N * nat;
     mt19937_64 := fun seed => (N.of_nat seed, 0%nat);
     uniform_real_distribution := fun a b eng =>
       let '(v, e) := @uniform_real_distribution fl lcg_random a b eng.1 in
       (v, (e, S eng.2));
     uniform_int_distribution := fun a b eng =>
       let '(v, e) := @uniform_int_distribution fl lcg_random a b eng.1 in
       (v, (e, S eng.2));
     normal_distribution := fun mean stddev eng =>
       let '(v, e) := @normal_distribution fl lcg_random mean stddev eng.1 in
       (v, (e, S eng.2)) |}.

(** Modelled from the spec: [vec3_to_qtn4], the spec's axis-angle
    quaternion of a rotation vector: the angle is its norm, the axis its
    direction, and the zero vector gives the identity. *)
Definition rotation_vector {fl : Type} `{Scalar fl} `{Libm fl}
    : RotationModel fl :=
  {| vec3_to_qtn4 := fun rotation =>
       if fleb (norm_sqr3 rotation) (flit 0%float) then qtn4id
       else
         let angle := norm3 rotation in
         vec4_to_qtn4 (smul (flit 1%float / angle)%fl rotation) angle |}.

(** Modelled from the spec: [atom.hpp], which is not among the sources.
    The kinds are the AutoDock mnemonics; [H] and [HD] are hydrogens,
    carbons ([C], [A]) are the heavy atoms that are not hetero atoms, and
    two atoms are neighbours when the squared distance between them is
    less than the squared sum of their covalent radii. The XScore type
    starts as the kind, and donorizing or dehydrophobicizing moves it to
    a type of its own. *)
Definition ad_type_strings : list string :=
  ["HD"; "H"; "C"; "A"; "N"; "NA"; "OA"; "S"; "SA"; "Se"; "P"; "F"; "Cl";
   "Br"; "I"; "Zn"; "Fe"; "Mg"; "Ca"; "Mn"; "Cu"; "Na"]%string.

Fixpoint index_of (s : string) (l : list string) (i : nat) : nat :=
  match l with
  | [] => i
  | s' :: l' => if String.eqb s s' then i else index_of s l' (S i)
  end.

Definition covalent_radius {fl : Type} `{Scalar fl} (a : atom fl) : fl :=
  if (ad a <? 2)%nat then flit 0.407%float
  else if (ad a <? 4)%nat then flit 0.847%float
  else if (ad a <? 6)%nat then flit 0.825%float
  else if (ad a =? 6)%nat then flit 0.803%float
  else flit 1.1%float.

Definition table_atoms {fl : Type} `{Scalar fl} : AtomModel fl :=
  {| AD_TYPE_SIZE := length ad_type_strings;
     AD_TYPE_HD := 0;
     parse_ad_type_string := fun s => index_of s ad_type_strings 0;
     atom_ctor := fun c ad => mk_atom c ad ad;
     is_hydrogen := fun a => (ad a <? 2)%nat;
     is_hetero := fun a => (4 <=? ad a)%nat;
     is_neighbor := fun a b =>
       let r := (covalent_radius a + covalent_radius b)%fl in
       fltb (distance_sqr (coordinate a) (coordinate b)) (r * r)%fl;
     donorize := fun a =>
       mk_atom (coordinate a) (ad a) (2 * length ad_type_strings + ad a);
     dehydrophobicize := fun a =>
       mk_atom (coordinate a) (ad a) (length ad_type_strings + ad a) |}.

(** Modelled from the spec: [right_cast], the right-justified number in
    columns [i..j] of a line. *)
Definition digit_of (c : ascii) : option nat :=
  let n := nat_of_ascii c in
  if (48 <=? n)%nat && (n <=? 57)%nat then Some (n - 48)%nat else None.

Fixpoint skip_spaces (s : string) : string :=
  match s with
  | String c s' => if Ascii.eqb c " " then skip_spaces s' else s
  | EmptyString => s
  end.

Definition field (line : string) (i j : nat) : string :=
  skip_spaces (String.substring (i - 1) (j - i + 1) line).

(** The digits of [s], a [.] among them allowed once [dot] is [false]:
    the number without its point, and ten to the number of decimals. *)
Fixpoint parse_decimal (s : string) (dot : bool) (num den : nat)
    : option (nat * nat) :=
  match s with
  | EmptyString => Some (num, den)
  | String c s' =>
      match digit_of c with
      | Some d =>
          parse_decimal s' dot (10 * num + d) (if dot then 10 * den else den)
      | None =>
          if Ascii.eqb c "." && negb dot then parse_decimal s' true num den
          else None
      end
  end.

Definition parse_size_t (s : string) : option nat :=
  match s with
  | EmptyString => None
  | _ => fst <$> parse_decimal s true 0 1
  end.

Definition parse_fl {fl : Type} `{Scalar fl} (s : string) : option fl :=
  let '(negative, digits) :=
    match s with
    | String c s' => if Ascii.eqb c "-" then (true, s') else (false, s)
    | EmptyString => (false, s)
    end in
  match digits with
  | EmptyString => None
  | _ =>
      match parse_decimal digits false 0 1 with
      | Some (num, den) =>
          let v := (fl_of_size_t num / fl_of_size_t den)%fl in
          Some (if negative then fneg v else v)
      | None => None
      end
  end.

Definition column_text {fl : Type} `{Scalar fl} : TextModel fl :=
  {| right_cast_fl := fun line i j => parse_fl (field line i j);
     right_cast_size_t := fun line i j => parse_size_t (field line i j) |}.

(** ** The vocabulary of the statements about the constructor *)

Section ConstructorSpec.
Context {fl : Type} `{Scalar fl} `{AtomModel fl} `{TextModel fl}.

Definition is_atom_line (line : string) : bool :=
  starts_with line "ATOM" || starts_with line "HETATM".

(** The two lines at which the constructor throws a [parsing_error],
    with its message: an ATOM/HETATM line whose atom type is not
    supported, and an ENDBRANCH line met while the current frame has no
    heavy atom. [ps] is the state of the parser before the line. *)
Definition unsupported_atom_type (NDEBUG : bool) (ps : parser fl)
    (line msg : string) : Prop :=
  is_atom_line line = true
  /\ (NDEBUG = true \/ p_current ps = (length (p_frames ps) - 1)%nat)
  /\ exists c ad_type_string,
       char_at line 78 = Ret c
       /\ substr line 77 (if isspace c then 1 else 2) = Ret ad_type_string
       /\ parse_ad_type_string ad_type_string = AD_TYPE_SIZE
       /\ msg = ("Atom type " ++ ad_type_string
                 ++ " is not supported by idock.")%string.

Definition empty_branch (ps : parser fl) (line msg : string) : Prop :=
  starts_with line "ENDBRANCH" = true
  /\ habegin (p_frames ps !!! p_current ps) = length (p_heavy_atoms ps)
  /\ msg = "An empty BRANCH has been detected, indicating the input ligand structure is probably invalid."%string.

(** The frames partition the heavy atoms: each frame begins where the
    one before it ends, the indices of the rotors are those of heavy
    atoms, and a parent comes before its child; [count] is the number
    of heavy atoms. *)
Definition frames_ok (count : nat) (frames : list (frame fl)) : Prop :=
  (0 < length frames)%nat
  /\ (forall k, (k < length frames)%nat ->
        (habegin (frames !!! k) <= count)%nat
        /\ (parent (frames !!! k) <= k)%nat)
  /\ (forall k, (S k < length frames)%nat ->
        haend (frames !!! k) = habegin (frames !!! S k)
        /\ (habegin (frames !!! k) <= habegin (frames !!! S k))%nat)
  /\ (forall k, (1 <= k < length frames)%nat ->
        (rotorX (frames !!! k) < count)%nat
        /\ (rotorY (frames !!! k) < count)%nat
        /\ (parent (frames !!! k) < k)%nat).

(** The bond graph the constructor builds (lines 234-256): two heavy
    atoms of one frame that are neighbours, and the two rotors of each
    BRANCH frame. *)
Definition bonded (heavy_atoms : list (atom fl)) (frames : list (frame fl))
    (a b : nat) : Prop :=
  (exists k, (k < length frames)%nat
     /\ (habegin (frames !!! k) <= Nat.min a b)%nat
     /\ (Nat.max a b < haend (frames !!! k))%nat
     /\ a <> b
     /\ is_neighbor (heavy_atoms !!! Nat.min a b)
                    (heavy_atoms !!! Nat.max a b) = true)
  \/ (exists k, (1 <= k < length frames)%nat
        /\ ((a = rotorY (frames !!! k) /\ b = rotorX (frames !!! k))
            \/ (a = rotorX (frames !!! k) /\ b = rotorY (frames !!! k)))).

(** [j] is reached from [i] in one, two or three hops of [R]. *)
Definition within_3_hops (R : nat -> nat -> Prop) (i j : nat) : Prop :=
  R i j
  \/ (exists x, R i x /\ R x j)
  \/ (exists x y, R i x /\ R x y /\ R y j).

(** The pair [(i, j)] of heavy atoms of the frames [k1 < k2] that the
    constructor keeps. *)
Definition interacting (heavy_atoms : list (atom fl))
    (frames : list (frame fl)) (i j : nat) : Prop :=
  exists k1 k2, (k1 < k2 < length frames)%nat
    /\ (habegin (frames !!! k1) <= i < haend (frames !!! k1))%nat
    /\ (habegin (frames !!! k2) <= j < haend (frames !!! k2))%nat
    /\ ~ within_3_hops (bonded heavy_atoms frames) i j
    /\ ~ (k1 = parent (frames !!! k2)
          /\ (j = rotorY (frames !!! k2) \/ i = rotorX (frames !!! k2))).

(** The frames after a BRANCH line: the last frame is closed, and the
    new one follows it. *)
Definition branch_frames_after (ps : parser fl) (i : nat) : list (frame fl) :=
  <[(length (p_frames ps) - 1)%nat :=
      set_haend_hyend (p_frames ps !!! (length (p_frames ps) - 1)%nat)
        (length (p_heavy_atoms ps)) (length (p_hydrogens ps))]>
    (p_frames ps)
  ++ [frame_ctor (p_current ps) i (length (p_heavy_atoms ps))
        (length (p_hydrogens ps))].

(** The heavy atoms as they are when the bonds and the pairs are formed:
    in the coordinates of the file, after the pass over the hydrophobic
    carbons. *)
Definition bonded_atoms (ps : parser fl) : list (atom fl) :=
  let frames :=
    <[(length (p_frames ps) - 1)%nat :=
        set_haend_hyend (p_frames ps !!! (length (p_frames ps) - 1)%nat)
          (length (p_heavy_atoms ps)) (length (p_hydrogens ps))]>
      (p_frames ps) in
  foldl (fun heavy_atoms k =>
           dehydrophobicize_frame heavy_atoms k (frames !!! k))
        (p_heavy_atoms ps) (seq 0 (length (p_frames ps))).
(** What the parsing loop keeps true from line to line. *)
Definition parse_inv (ps : parser fl) : Prop :=
  frames_ok (length (p_heavy_atoms ps)) (p_frames ps)
  /\ length (p_numbers ps) = length (p_heavy_atoms ps)
  /\ (p_current ps < length (p_frames ps))%nat.

(** What a debug build keeps true, from line to line, of a BRANCH frame
    that is not active: its rotor Y is its first atom and its only one,
    it is not the current frame, and no frame has it as parent. *)
Definition inactive_inv (ps : parser fl) : Prop :=
  forall k, (1 <= k < length (p_frames ps))%nat ->
    active (p_frames ps !!! k) = false ->
    rotorY (p_frames ps !!! k) = habegin (p_frames ps !!! k)
    /\ (habegin (p_frames ps !!! k) + 1)%nat
       = (if decide (S k < length (p_frames ps))%nat
          then habegin (p_frames ps !!! S k)
          else length (p_heavy_atoms ps))
    /\ k <> p_current ps
    /\ forall j, (1 <= j < length (p_frames ps))%nat ->
         parent (p_frames ps !!! j) <> k.

(** The BRANCH frames open at frame [k]: the steps from [k] up to ROOT
    along [parent]; [fuel >= k] is enough, a parent coming before its
    child. *)
Fixpoint depth (frames : list (frame fl)) (fuel k : nat) : nat :=
  match fuel with
  | O => 0
  | S fuel' =>
      if (k =? 0)%nat then 0%nat
      else S (depth frames fuel' (parent (frames !!! k)))
  end.

(** Every active BRANCH frame is counted in [num_active_torsions] once
    it is closed. *)
Definition torsion_inv (ps : parser fl) : Prop :=
  (active_in (p_frames ps) (length (p_frames ps) - 1)
   <= p_num_active_torsions ps
      + depth (p_frames ps) (p_current ps) (p_current ps))%nat.

(** The [push_back]s of lines 234-256 in the order the loops make them:
    [(i, j)] stands for [bonds[i].push_back(j)]. *)
Definition frame_edges (heavy_atoms : list (atom fl)) (k : nat)
    (f : frame fl) : list (nat * nat) :=
  flat_map (fun i =>
              flat_map (fun j =>
                          if is_neighbor (heavy_atoms !!! i) (heavy_atoms !!! j)
                          then [(i, j); (j, i)] else [])
                       (seq (i + 1) (haend f - (i + 1))))
           (seq (habegin f) (haend f - habegin f))
  ++ (if (k =? 0)%nat then []
      else [(rotorY f, rotorX f); (rotorX f, rotorY f)]).

Definition edges (heavy_atoms : list (atom fl)) (frames : list (frame fl))
    : list (nat * nat) :=
  flat_map (fun k => frame_edges heavy_atoms k (frames !!! k))
           (seq 0 (length frames)).

Definition push_bonds (bonds : list (list nat)) (es : list (nat * nat))
    : list (list nat) :=
  foldl (fun bonds e => push_bond bonds e.1 e.2) bonds es.

(** The pairs that atom [i] of frame [k1] adds to the list (lines
    300-309), in the order of the loops. *)
Definition atom_pairs (heavy_atoms : list (atom fl))
    (frames : list (frame fl)) (neighbors : list nat) (k1 i : nat)
    : list interacting_pair :=
  flat_map (fun k2 =>
              let f2 := frames !!! k2 in
              flat_map (fun j =>
                          if ((k1 =? parent f2)%nat
                              && ((j =? rotorY f2)%nat || (i =? rotorX f2)%nat))
                             || contains neighbors j
                          then []
                          else [mk_interacting_pair i j
                                  (mp (xs (heavy_atoms !!! i))
                                      (xs (heavy_atoms !!! j)))])
                       (seq (habegin f2) (haend f2 - habegin f2)))
           (seq (k1 + 1) (length frames - (k1 + 1))).

(** The heavy atoms of the file [input] at the time the pairs are
    formed. *)
Definition file_atoms (NDEBUG : bool) (input : list string)
    : list (atom fl) :=
  match parse_lines NDEBUG input parser_init with
  | Ret ps => bonded_atoms ps
  | Fail _ => []
  end.
End ConstructorSpec.

(** ** The vocabulary of the statements about the constructed ligand *)

Section LigandSpec.
Context {fl : Type} `{Scalar fl} `{AtomModel fl} `{TextModel fl}.

Definition is_branch_line (line : string) : bool := starts_with line "BRANCH".

(** The lines the constructor pushes back into [lines]. *)
Definition kept_line (line : string) : bool :=
  is_atom_line line || is_branch_line line || starts_with line "ENDBRANCH"
  || starts_with line "ROOT" || starts_with line "ENDROOT"
  || starts_with line "TORSDOF".

(** The hydrogens of the file [input], in the coordinates of the file. *)
Definition file_hydrogens (NDEBUG : bool) (input : list string)
    : list (atom fl) :=
  match parse_lines NDEBUG input parser_init with
  | Ret ps => p_hydrogens ps
  | Fail _ => []
  end.

(** [ancestor frames c k]: frame [k] is [c] or lies on the way from [c]
    up to ROOT along [parent]: these are the frames that are open while
    [c] is the current frame. *)
Inductive ancestor (frames : list (frame fl)) : nat -> nat -> Prop :=
| ancestor_self c : ancestor frames c c
| ancestor_parent c k :
    c <> 0%nat -> ancestor frames (parent (frames !!! c)) k ->
    ancestor frames c k.

(** What the parsing loop keeps true of the ranges of hydrogens and of
    the rotors: ROOT begins at the first atom, the ranges of hydrogens
    follow one another, the rotor X of a BRANCH frame is an atom met
    before the frame was opened and not before its parent was, and the
    rotor Y of a frame that has been closed is not before its first
    atom. *)
Definition shape_inv (ps : parser fl) : Prop :=
  habegin (p_frames ps !!! 0%nat) = 0%nat
  /\ hybegin (p_frames ps !!! 0%nat) = 0%nat
  /\ (forall k, (k < length (p_frames ps))%nat ->
        (hybegin (p_frames ps !!! k) <= length (p_hydrogens ps))%nat)
  /\ (forall k, (S k < length (p_frames ps))%nat ->
        hyend (p_frames ps !!! k) = hybegin (p_frames ps !!! S k)
        /\ (hybegin (p_frames ps !!! k) <= hybegin (p_frames ps !!! S k))%nat)
  /\ (forall k, (1 <= k < length (p_frames ps))%nat ->
        (habegin (p_frames ps !!! parent (p_frames ps !!! k))
         <= rotorX (p_frames ps !!! k) < habegin (p_frames ps !!! k))%nat)
  /\ (forall k, (1 <= k < length (p_frames ps))%nat ->
        ~ ancestor (p_frames ps) (p_current ps) k ->
        (habegin (p_frames ps !!! k) <= rotorY (p_frames ps !!! k))%nat).
End LigandSpec.

(** ** Two sources of random numbers *)

Section StreamSpec.
Context {fl : Type}.

(** Two models of [<random>] give the same draws from the engine
    seeded with [seed]: [sim] relates the states the two engines go
    through, and related states give the same value to every draw. *)
Definition same_stream (R1 R2 : RandomModel fl)
    (sim : @engine fl R1 -> @engine fl R2 -> Prop) (seed : nat) : Prop :=
  sim (@mt19937_64 fl R1 seed) (@mt19937_64 fl R2 seed)
  /\ (forall a b e1 e2, sim e1 e2 ->
        (@uniform_real_distribution fl R1 a b e1).1
        = (@uniform_real_distribution fl R2 a b e2).1
        /\ sim (@uniform_real_distribution fl R1 a b e1).2
               (@uniform_real_distribution fl R2 a b e2).2)
  /\ (forall a b e1 e2, sim e1 e2 ->
        (@uniform_int_distribution fl R1 a b e1).1
        = (@uniform_int_distribution fl R2 a b e2).1
        /\ sim (@uniform_int_distribution fl R1 a b e1).2
               (@uniform_int_distribution fl R2 a b e2).2)
  /\ (forall a b e1 e2, sim e1 e2 ->
        (@normal_distribution fl R1 a b e1).1
        = (@normal_distribution fl R2 a b e2).1
        /\ sim (@normal_distribution fl R1 a b e1).2
               (@normal_distribution fl R2 a b e2).2).

(** The variables of the main loop in two runs: the same results, best
    energy and current pose, the slots of [c1] and [c2] the same but
    for the energies, and engines in related states. *)
Definition same_state (R1 R2 : RandomModel fl)
    (sim : @engine fl R1 -> @engine fl R2 -> Prop)
    (st : @task_state fl R1) (st' : @task_state fl R2) : Prop :=
  ts_results st = ts_results st'
  /\ ts_best_e st = ts_best_e st'
  /\ ts_p0 st = ts_p0 st'
  /\ same_slot (ts_p1 st) (ts_p1 st')
  /\ same_slot (ts_p2 st) (ts_p2 st')
  /\ sim (ts_eng st) (ts_eng st').
End StreamSpec.

(** ** A well-formed input file

    What section 6 of the specification asks of the lines of a ligand
    file, read off the text alone: no frame, no atom and no coordinate is
    kept, only the serial numbers and the nesting of the BRANCH lines. *)

Section InputSpec.
Context {fl : Type} `{Scalar fl} `{AtomModel fl} `{TextModel fl}.

(** What a scan of the lines keeps: the serial numbers of the heavy
    atoms read so far; for each BRANCH still open, the innermost first
    and ROOT last, the number of heavy atoms read before it; whether no
    ENDBRANCH has been read since the last BRANCH; and the number of
    lines that are neither ATOM/HETATM nor BRANCH nor ENDBRANCH. *)
Record scan : Type := mk_scan {
  s_serials : list nat;
  s_open : list nat;
  s_fresh : bool;
  s_others : nat;
}.

Definition scan_init : scan := mk_scan [] [0%nat] true 0.

(** [x] is the serial number of a heavy atom read since the innermost
    open frame began. *)
Definition names_atom (s : scan) (x : nat) : bool :=
  contains (drop (hd 0%nat (s_open s)) (s_serials s)) x.

(** An ATOM/HETATM line: the line reaches column 78, its atom type is
    supported, columns 31-54 hold three numbers and, for a heavy atom,
    columns 7-11 hold its serial number. Where assertions are compiled
    in, the atoms of a frame come before the BRANCHes inside it. *)
Definition scan_atom (NDEBUG : bool) (line : string) (s : scan)
    : option scan :=
  if negb (NDEBUG || s_fresh s) then None
  else
    match char_at line 78 with
    | Fail _ => None
    | Ret c =>
        match substr line 77 (if isspace c then 1 else 2) with
        | Fail _ => None
        | Ret ad_type_string =>
            let ad := parse_ad_type_string ad_type_string in
            if (ad =? AD_TYPE_SIZE)%nat then None
            else
              match right_cast_fl line 31 38, right_cast_fl line 39 46,
                    right_cast_fl line 47 54 with
              | Some x, Some y, Some z =>
                  if is_hydrogen (atom_ctor (x, y, z) ad) then Some s
                  else
                    match right_cast_size_t line 7 11 with
                    | Some number =>
                        Some (mk_scan (s_serials s ++ [number]) (s_open s)
                                (s_fresh s) (s_others s))
                    | None => None
                    end
              | _, _, _ => None
              end
        end
    end.

(** A BRANCH line: columns 7-10 name a heavy atom of the current
    frame. *)
Definition scan_branch (line : string) (s : scan) : option scan :=
  match right_cast_size_t line 7 10 with
  | Some x =>
      if names_atom s x then
        Some (mk_scan (s_serials s) (length (s_serials s) :: s_open s)
                true (s_others s))
      else None
  | None => None
  end.

(** An ENDBRANCH line: a BRANCH is open, it is not empty, and columns
    14-17 name a heavy atom read since it was opened. *)
Definition scan_endbranch (line : string) (s : scan) : option scan :=
  match s_open s with
  | start :: (_ :: _) as outer =>
      if (start =? length (s_serials s))%nat then None
      else
        match right_cast_size_t line 14 17 with
        | Some y =>
            if names_atom s y then
              Some (mk_scan (s_serials s) outer false (s_others s))
            else None
        | None => None
        end
  | _ => None
  end.

Definition scan_line (NDEBUG : bool) (line : string) (s : scan)
    : option scan :=
  if is_atom_line line then scan_atom NDEBUG line s
  else if is_branch_line line then scan_branch line s
  else if starts_with line "ENDBRANCH" then scan_endbranch line s
  else Some (mk_scan (s_serials s) (s_open s) (s_fresh s) (S (s_others s))).

Fixpoint scan_lines (NDEBUG : bool) (input : list string) (s : scan)
    : option scan :=
  match input with
  | [] => Some s
  | line :: input' =>
      match scan_line NDEBUG line s with
      | Some s' => scan_lines NDEBUG input' s'
      | None => None
      end
  end.

(** A well-formed input that is none of the three kinds of the
    specification: every line is as above, every BRANCH is closed at
    the end and, where assertions are compiled in, three lines at least
    (ROOT, ENDROOT and TORSDOF) are of another kind than ATOM/HETATM,
    BRANCH and ENDBRANCH. *)
Definition well_formed (NDEBUG : bool) (input : list string) : bool :=
  match scan_lines NDEBUG input scan_init with
  | Some s =>
      (length (s_open s) =? 1)%nat && (NDEBUG || (3 <=? s_others s)%nat)
  | None => false
  end.

(** The open frames of the constructor, from the current one up to
    ROOT along [parent], begin where the scan says. *)
Fixpoint open_chain (frames : list (frame fl)) (c : nat) (opens : list nat)
    : Prop :=
  match opens with
  | [] => False
  | start :: outer =>
      start = habegin (frames !!! c)
      /\ match outer with
         | [] => c = 0%nat
         | _ :: _ =>
             c <> 0%nat /\ open_chain frames (parent (frames !!! c)) outer
         end
  end.

(** The scan and the parsing loop of the constructor after the same
    lines. *)
Definition scan_sim (s : scan) (ps : parser fl) : Prop :=
  parse_inv ps
  /\ s_serials s = p_numbers ps
  /\ open_chain (p_frames ps) (p_current ps) (s_open s)
  /\ (s_fresh s = true -> p_current ps = (length (p_frames ps) - 1)%nat)
  /\ (length (p_heavy_atoms ps) + length (p_hydrogens ps)
      + 2 * (length (p_frames ps) - 1) + s_others s + 1
      <= p_num_lines ps + length (s_open s))%nat
  /\ (p_num_active_torsions ps + length (s_open s)
      <= length (p_frames ps))%nat.
End InputSpec.

(** ** The vocabulary of the statements about the results of a task *)

Section TaskSpec.
Context {fl : Type} `{Scalar fl} `{Libm fl}.
Context `{BoxModel fl} `{GridModel fl} `{ScoringModel fl}.
Context `{ResultModel fl} `{RandomModel fl} `{RotationModel fl}.

(** A slot that holds a conformation inside the box together with its
    total and its inter-molecular energy. *)
Definition evaluated (lig : ligand fl) (sf : scoring_function) (b : box)
    (grid_maps : list array3d) (p : pose fl) : Prop :=
  ~ outside_box lig b (pose_c p)
  /\ pose_e p = e_total lig sf b grid_maps (pose_c p)
  /\ pose_f p = e_inter lig sf b grid_maps (pose_c p).

(** [offered rs rs']: the container [rs'] comes from [rs] by adding, one
    after the other, results that [compose_result] returns for
    conformations inside the box, each with the total and the
    inter-molecular energy of its conformation. *)
Inductive offered (NDEBUG : bool) (lig : ligand fl) (sf : scoring_function)
    (b : box) (grid_maps : list array3d)
    : ptr_vector (result fl) -> ptr_vector (result fl) -> Prop :=
| offered_none rs : offered NDEBUG lig sf b grid_maps rs rs
| offered_add rs rs' c r :
    offered NDEBUG lig sf b grid_maps rs rs' ->
    ~ outside_box lig b c ->
    compose_result NDEBUG lig (e_total lig sf b grid_maps c)
      (e_inter lig sf b grid_maps c) c = Ret r ->
    offered NDEBUG lig sf b grid_maps rs
      (add_to_result_container rs' r
         (fl_of_size_t (1 * num_heavy_atoms lig))).

(** *** The initialization, in the words of the specification *)

(** [n] values drawn one after the other from [gen]. *)
Fixpoint draws (gen : engine -> fl * engine) (n : nat) (eng : engine)
    : list fl * engine :=
  match n with
  | O => ([], eng)
  | S n' =>
      let '(v, eng) := gen eng in
      let '(vs, eng) := draws gen n' eng in
      (v :: vs, eng)
  end.

(** A random conformation: the position uniform over the box, the
    orientation the normalization of four standard-normal samples, each
    torsion uniform in [[-pi, pi]], drawn in this order. *)
Definition random_conformation (lig : ligand fl) (b : box) (eng : engine)
    : conformation fl * engine :=
  let '(x0, eng) :=
    uniform_real_distribution (corner1 b).1.1 (corner2 b).1.1 eng in
  let '(x1, eng) :=
    uniform_real_distribution (corner1 b).1.2 (corner2 b).1.2 eng in
  let '(x2, eng) :=
    uniform_real_distribution (corner1 b).2 (corner2 b).2 eng in
  let '(q0, eng) := normal_distribution (flit 0) (flit 1) eng in
  let '(q1, eng) := normal_distribution (flit 0) (flit 1) eng in
  let '(q2, eng) := normal_distribution (flit 0) (flit 1) eng in
  let '(q3, eng) := normal_distribution (flit 0) (flit 1) eng in
  let '(ts, eng) :=
    draws (uniform_real_distribution (fneg pi) pi)
      (num_active_torsions lig) eng in
  ({| position := (x0, x1, x2);
      orientation := normalize4 (q0, q1, q2, q3);
      torsions := ts |}, eng).

(** The engine after [k] random conformations, and the random
    conformation number [k], counted from [0]. *)
Fixpoint engine_after (lig : ligand fl) (b : box) (k : nat) (eng : engine)
    : engine :=
  match k with
  | O => eng
  | S k' => engine_after lig b k' (random_conformation lig b eng).2
  end.

Definition random_start (lig : ligand fl) (b : box) (k : nat) (eng : engine)
    : conformation fl :=
  (random_conformation lig b (engine_after lig b k eng)).1.

(** The evaluator refuses a conformation that leaves the box or whose
    energy reaches the bound. *)
Definition refused (lig : ligand fl) (sf : scoring_function) (b : box)
    (grid_maps : list array3d) (bound : fl) (c : conformation fl) : Prop :=
  outside_box lig b c
  \/ fleb bound (e_total lig sf b grid_maps c) = true.

(** Up to [n] random conformations, one after the other, until the
    evaluator accepts one: the pose it accepts and the engine after it,
    or nothing. [slot] holds what the evaluator wrote last. *)
Fixpoint first_accepted (NDEBUG : bool) (lig : ligand fl)
    (sf : scoring_function) (b : box) (grid_maps : list array3d)
    (bound : fl) (n : nat) (slot : pose fl) (eng : engine)
    : outcome (option (pose fl * engine)) :=
  match n with
  | O => Ret None
  | S n' =>
      let '(c, eng) := random_conformation lig b eng in
      let* r := evaluate NDEBUG lig c sf b grid_maps bound
                  (pose_e slot) (pose_f slot) (pose_g slot) in
      let p := mk_pose c (e_out r) (f_out r) (g_out r) in
      if accepted r then Ret (Some (p, eng))
      else first_accepted NDEBUG lig sf b grid_maps bound n' p eng
  end.
End TaskSpec.

(** ** ligand::get_atom_types *)

Section AtomTypes.
Context {fl : Type} `{Scalar fl}.

(** Lines 332-342: the XScore types of the heavy atoms, each pushed back
    the first time it is met. *)
Definition get_atom_types (lig : ligand fl) : list nat :=
  foldl (fun atom_types i =>
           let t := xs (heavy_atoms lig !!! i) in
           if contains atom_types t then atom_types else atom_types ++ [t])
        [] (seq 0 (num_heavy_atoms lig)).

(** The same loop over the types themselves. *)
Definition first_seen (types : list nat) : list nat :=
  foldl (fun atom_types t =>
           if contains atom_types t then atom_types else atom_types ++ [t])
        [] types.
End AtomTypes.

(** ** ligand::write_models

    The function writes a text file; the embedding returns the lines it
    writes, each of them ended by ['\n'] in the file. [operator<<] of a
    [fl] on a stream in [fixed] notation with [setprecision(3)] is a
    library function, taken as an interface. *)

Class StreamModel (fl : Type) : Type := {
  fixed : nat -> fl -> string;
}.

(** [operator<<] of a [size_t]: its decimal digits. *)
Definition size_t_text (n : nat) : string :=
  NilEmpty.string_of_uint (Nat.to_uint n).

Fixpoint spaces (n : nat) : string :=
  match n with
  | O => EmptyString
  | S n' => String " " (spaces n')
  end.

(** [setw(n)] before one output: the text is padded with blanks on the
    left up to [n] characters, and is never cut. *)
Definition setw (n : nat) (s : string) : string :=
  String.append (spaces (n - String.length s)) s.

(** [v[i]] where the index is not known to be in range. *)
Definition subscript {A : Type} (v : list A) (i : nat) : outcome A :=
  match v !! i with
  | Some x => Ret x
  | None => Fail out_of_range
  end.

Section Output.
Context {fl : Type} `{Scalar fl} `{StreamModel fl}.

(** Lines 615-619: the line of an atom with the coordinate [c] in
    columns 31-54. *)
Definition atom_text (head tail : string) (c : vec3 fl) : string :=
  let '(c0, c1, c2) := c in
  String.append head
    (String.append (setw 8 (fixed 3 c0))
       (String.append (setw 8 (fixed 3 c1))
          (String.append (setw 8 (fixed 3 c2)) tail))).

(** The body of the loop over [j] (lines 610-626); the state is the text
    written so far and the counters [heavy_atom] and [hydrogen]. *)
Definition write_line (r : result fl) (line : string)
    (st : list string * nat * nat) : outcome (list string * nat * nat) :=
  let '(out, heavy_atom, hydrogen) := st in
  if (79 <=? String.length line)%nat then
    let* c := char_at line 77 in
    let* (coordinate, heavy_atom, hydrogen) :=
      if Ascii.eqb c "H" then
        let* v := subscript (result_hydrogens r) hydrogen in
        Ret (v, heavy_atom, S hydrogen)
      else
        let* v := subscript (result_heavy_atoms r) heavy_atom in
        Ret (v, S heavy_atom, hydrogen) in
    let* head := substr line 0 30 in
    let* tail := substr line 54 (String.length line) in
    Ret (out ++ [atom_text head tail coordinate], heavy_atom, hydrogen)
  else Ret (out ++ [line], heavy_atom, hydrogen).

Fixpoint write_lines (r : result fl) (lines : list string)
    (st : list string * nat * nat) : outcome (list string * nat * nat) :=
  match lines with
  | [] => Ret st
  | line :: lines' =>
      let* st' := write_line r line st in
      write_lines r lines' st'
  end.

(** The body of the loop over [i] (lines 604-629): one model. *)
Definition write_model (lig : ligand fl) (results : ptr_vector (result fl))
    (i : nat) (out : list string) : outcome (list string) :=
  let* r := subscript (items results) i in
  let out :=
    out ++ [String.append "MODEL     " (setw 4 (size_t_text (i + 1)));
            String.append "REMARK     FREE ENERGY PREDICTED BY IDOCK:"
              (String.append (setw 8 (fixed 3 (result_e r))) " KCAL/MOL")] in
  let* (out, _, _) := write_lines r (lines lig) (out, 0%nat, 0%nat) in
  Ret (out ++ ["ENDMDL"%string]).

(** [for (i = 0; i < num_conformations; ++i)], [n] models from [i]. *)
Fixpoint write_models_from (lig : ligand fl)
    (results : ptr_vector (result fl)) (i n : nat) (out : list string)
    : outcome (list string) :=
  match n with
  | O => Ret out
  | S n' =>
      let* out' := write_model lig results i out in
      write_models_from lig results (S i) n' out'
  end.

(** [ligand::write_models]: the lines of the output file. *)
Definition write_models (NDEBUG : bool) (lig : ligand fl)
    (results : ptr_vector (result fl)) (num_conformations : nat)
    : outcome (list string) :=
  let* _ := BOOST_ASSERT NDEBUG (0 <? num_conformations)%nat in
  let* _ := BOOST_ASSERT NDEBUG
              (num_conformations <=? length (items results))%nat in
  write_models_from lig results 0 num_conformations [].

(** The lines of the ligand that [write_models] takes for atoms, and
    among them those it takes for hydrogens. *)
Definition coordinate_line (line : string) : bool :=
  (79 <=? String.length line)%nat.

Definition hydrogen_line (line : string) : bool :=
  coordinate_line line
  && match String.get 77 line with
     | Some c => Ascii.eqb c "H"
     | None => false
     end.

Definition heavy_line (line : string) : bool :=
  coordinate_line line && negb (hydrogen_line line).

(** The number of lines before line [j] that are of the kind [P]. *)
Definition rank (P : string -> bool) (lines : list string) (j : nat) : nat :=
  length (List.filter P (take j lines)).
End Output.

(** ** The lines as the constructor and [write_models] read them *)

Section WriteSpec.
Context {fl : Type} `{Scalar fl} `{AtomModel fl} `{TextModel fl}.

(** The atom type the constructor reads in an ATOM/HETATM line (lines
    59-60): one or two characters from column 78 on. *)
Definition ad_type_of_line (line : string) : string :=
  String.substring 77
    (if isspace (match String.get 78 line with
                 | Some c => c
                 | None => zero
                 end)
     then 1 else 2)%nat line.

(** The lines of [input] that the constructor keeps are marked as
    [write_models] reads them: the ATOM/HETATM lines, and no others,
    have [79] characters or more, and the atoms that the constructor
    takes for hydrogens, and no others, have an [H] in column 78. *)
Definition marked_as_written (input : list string) : Prop :=
  forall line, line ∈ input -> kept_line line = true ->
    coordinate_line line = is_atom_line line
    /\ (is_atom_line line = true ->
        forall c,
          is_hydrogen
            (atom_ctor c (parse_ad_type_string (ad_type_of_line line)))
          = hydrogen_line line).
End WriteSpec.

(** ** The vocabulary of the statements in exact arithmetic *)

Section ExactSpec.
Context {fl : Type} `{Scalar fl}.
Local Open Scope fl_scope.

(** The arithmetic of [fl] without rounding: a commutative ring, in
    which the literal [2] is [1 + 1]. The rationals and the integers are
    models; IEEE arithmetic is one only up to rounding. *)
Definition exact_ring : Prop :=
  ring_theory 0 1 fadd fmul fsub fneg (@eq fl) /\ 2 = 1 + 1.

(** The sum of the vectors [f i] for [i] in [l], added in the order of
    [l]. *)
Definition vsum_over (f : nat -> vec3 fl) (l : list nat) : vec3 fl :=
  foldl (fun acc i => vadd acc (f i)) zero3 l.

(** The sum of the numbers [f i] for [i] in [l], added in the order of
    [l]. *)
Definition fsum_over (f : nat -> fl) (l : list nat) : fl :=
  foldl (fun acc i => acc + f i) 0 l.

(** The force on atom [i], and its moment about the point [o]. *)
Definition force_at (derivatives : list (vec3 fl)) (i : nat) : vec3 fl :=
  derivatives !!! i.

Definition moment_at (coordinates derivatives : list (vec3 fl))
    (o : vec3 fl) (i : nat) : vec3 fl :=
  cross_product (vsub (coordinates !!! i) o) (derivatives !!! i).

(** What frame [j] holds during the backward pass of [evaluate], as a
    moment about the origin of ROOT: its torque, and the moment of its
    force, which acts at its origin. *)
Definition held (origin force torque : list (vec3 fl)) (j : nat) : vec3 fl :=
  vadd (torque !!! j)
       (cross_product (vsub (origin !!! j) (origin !!! 0%nat)) (force !!! j)).

(** The ranges of heavy atoms of the frames follow one another from
    the first atom to the last, and a parent comes before its child. *)
Definition ranged (lig : ligand fl) : Prop :=
  let F := fun k => frames lig !!! k in
  (0 < num_frames lig)%nat
  /\ habegin (F 0%nat) = 0%nat
  /\ haend (F (num_frames lig - 1)%nat) = num_heavy_atoms lig
  /\ (forall k, (S k < num_frames lig)%nat -> haend (F k) = habegin (F (S k)))
  /\ (forall k, (k < num_frames lig)%nat -> (habegin (F k) <= haend (F k))%nat)
  /\ (forall k, (1 <= k < num_frames lig)%nat -> (parent (F k) < k)%nat).

(** [<cmath>] at [0]: [sin 0 = 0] and [cos 0 = 1], which hold in IEEE
    arithmetic. *)
Definition libm_at_0 `{Libm fl} : Prop := fsin 0 = 0 /\ fcos 0 = 1.

(** A ligand laid out over the atoms of a file: the frames cut
    [atoms] and [hyds], the heavy atoms and the hydrogens in the
    coordinates of the file, into ranges that follow one another; a
    parent comes before its child; and the ligand keeps every atom
    relative to the rotor Y of its frame, and for every BRANCH frame
    the vector from the rotor Y of its parent to its own. *)
Definition laid_out (lig : ligand fl) (atoms hyds : list (atom fl))
    : Prop :=
  let F := fun k => frames lig !!! k in
  let N := num_frames lig in
  let file := fun i => coordinate (atoms !!! i) in
  ((0 < N)%nat /\ length (frames lig) = N
   /\ length atoms = num_heavy_atoms lig
   /\ length hyds = num_hydrogens lig
   /\ length (heavy_atoms lig) = num_heavy_atoms lig
   /\ length (hydrogens lig) = num_hydrogens lig)
  /\ (habegin (F 0%nat) = 0%nat /\ hybegin (F 0%nat) = 0%nat
      /\ haend (F (N - 1)%nat) = num_heavy_atoms lig
      /\ hyend (F (N - 1)%nat) = num_hydrogens lig)
  /\ (forall k, (S k < N)%nat ->
        haend (F k) = habegin (F (S k))
        /\ hyend (F k) = hybegin (F (S k)))
  /\ (forall k, (k < N)%nat ->
        (habegin (F k) <= haend (F k) <= num_heavy_atoms lig)%nat
        /\ (hybegin (F k) <= hyend (F k) <= num_hydrogens lig)%nat)
  /\ (forall k, (1 <= k < N)%nat -> (parent (F k) < k)%nat)
  /\ (forall k, (k < N)%nat ->
        (forall i, (habegin (F k) <= i < haend (F k))%nat ->
           coordinate (heavy_atoms lig !!! i)
           = vsub (file i) (file (rotorY (F k))))
        /\ (forall i, (hybegin (F k) <= i < hyend (F k))%nat ->
              coordinate (hydrogens lig !!! i)
              = vsub (coordinate (hyds !!! i)) (file (rotorY (F k))))
        /\ ((1 <= k)%nat ->
            parent_rotorY_to_current_rotorY (F k)
            = vsub (file (rotorY (F k)))
                   (file (rotorY (F (parent (F k))))))).

(** The pose of the file: ROOT at its rotor Y, no rotation and every
    torsion at [0]. *)
Definition file_pose (lig : ligand fl) (atoms : list (atom fl))
    : conformation fl :=
  {| position := coordinate (atoms !!! rotorY (frames lig !!! 0%nat));
     orientation := qtn4id;
     torsions := replicate (num_active_torsions lig) 0 |}.

(** The vectors of [compose_result] once the frames up to [j] are
    placed at the pose of the file. *)
Definition placed (lig : ligand fl) (atoms hyds : list (atom fl))
    (j : nat) (cmp : composition fl) : Prop :=
  (length (origins cmp) = num_frames lig
   /\ length (orientations_q cmp) = num_frames lig
   /\ length (orientations_m cmp) = num_frames lig
   /\ length (out_heavy_atoms cmp) = num_heavy_atoms lig
   /\ length (out_hydrogens cmp) = num_hydrogens lig)
  /\ (forall j', (j' <= j)%nat ->
        origins cmp !!! j'
        = coordinate (atoms !!! rotorY (frames lig !!! j'))
        /\ orientations_q cmp !!! j' = qtn4id
        /\ orientations_m cmp !!! j' = qtn4_to_mat3_raw qtn4id)
  /\ (forall i, (i < haend (frames lig !!! j))%nat ->
        out_heavy_atoms cmp !!! i = coordinate (atoms !!! i))
  /\ (forall i, (i < hyend (frames lig !!! j))%nat ->
        out_hydrogens cmp !!! i = coordinate (hyds !!! i)).
End ExactSpec.

Section EnergySpec.
Context {fl : Type} `{Scalar fl} `{BoxModel fl} `{GridModel fl}.
Local Open Scope fl_scope.

(** The slope of the grid map of heavy atom [i] at the corner of the
    cell that holds it, along the three axes: what the loop of lines
    441-471 of [evaluate] writes into [derivatives[i]]. *)
Definition grid_slope (lig : ligand fl) (b : box)
    (grid_maps : list array3d) (coords : list (vec3 fl)) (i : nat)
    : vec3 fl :=
  let grid_map := grid_maps !!! xs (heavy_atoms lig !!! i) in
  let '(x0, y0, z0) := grid_index b (coords !!! i) in
  let e000 := grid_at grid_map x0 y0 z0 in
  let e100 := grid_at grid_map (x0 + 1) y0 z0 in
  let e010 := grid_at grid_map x0 (y0 + 1) z0 in
  let e001 := grid_at grid_map x0 y0 (z0 + 1) in
  ((e100 - e000) * grid_granularity_inverse b,
   (e010 - e000) * grid_granularity_inverse b,
   (e001 - e000) * grid_granularity_inverse b).

(** The moment of that slope about the point [o]. *)
Definition grid_moment (lig : ligand fl) (b : box)
    (grid_maps : list array3d) (coords : list (vec3 fl)) (o : vec3 fl)
    (i : nat) : vec3 fl :=
  cross_product (vsub (coords !!! i) o)
                (grid_slope lig b grid_maps coords i).
End EnergySpec.

Section TorsionSpec.
Context {fl : Type} `{Scalar fl}.

(** The first frame at or before [k] on the way from frame [m] up to
    ROOT along [parent]; [fuel >= m] is enough, a parent coming before
    its child. *)
Fixpoint first_at_or_before (frames : list (frame fl)) (fuel k m : nat)
    : nat :=
  if (m <=? k)%nat then m
  else
    match fuel with
    | O => m
    | S fuel' => first_at_or_before frames fuel' k (parent (frames !!! m))
    end.

(** Whether the torsion of frame [k] moves frame [m]: [m] is [k], or a
    frame of the branch that hangs on [k]. *)
Definition moves (lig : ligand fl) (k m : nat) : bool :=
  (first_at_or_before (frames lig) (num_frames lig) k m =? k)%nat.

(** The heavy atoms of frame [m]. *)
Definition atoms_of (lig : ligand fl) (m : nat) : list nat :=
  seq (habegin (frames lig !!! m))
      (haend (frames lig !!! m) - habegin (frames lig !!! m)).

(** The force on the atoms of frame [m], and its moment about [o]. *)
Definition frame_force (lig : ligand fl) (derivatives : list (vec3 fl))
    (m : nat) : vec3 fl :=
  vsum_over (force_at derivatives) (atoms_of lig m).

Definition frame_moment (lig : ligand fl) (kin : kinematics fl)
    (derivatives : list (vec3 fl)) (o : vec3 fl) (m : nat) : vec3 fl :=
  vsum_over (moment_at (coordinates kin) derivatives o) (atoms_of lig m).

(** The force on the branch that the torsion of [k] moves, and its
    torque about the origin of [k]. *)
Definition branch_force (lig : ligand fl) (derivatives : list (vec3 fl))
    (k : nat) : vec3 fl :=
  vsum_over (fun m => if moves lig k m then frame_force lig derivatives m
                      else zero3)
    (seq k (num_frames lig - k)).

Definition branch_torque (lig : ligand fl) (kin : kinematics fl)
    (derivatives : list (vec3 fl)) (k : nat) : vec3 fl :=
  vsum_over (fun m => if moves lig k m
                      then frame_moment lig kin derivatives
                             (origin kin !!! k) m
                      else zero3)
    (seq k (num_frames lig - k)).

(** What frame [j] holds when the backward pass of [evaluate] has gone
    through the frames after [K]: the forces on the frames after [K]
    that meet [j] first among the frames up to [K] on their way to
    ROOT, and their moment about the origin of [j]. *)
Definition held_force (lig : ligand fl) (derivatives : list (vec3 fl))
    (K j : nat) : vec3 fl :=
  vsum_over (fun m =>
               if (first_at_or_before (frames lig) (num_frames lig) K m
                   =? j)%nat
               then frame_force lig derivatives m else zero3)
    (seq (S K) (num_frames lig - S K)).

Definition held_torque (lig : ligand fl) (kin : kinematics fl)
    (derivatives : list (vec3 fl)) (K j : nat) : vec3 fl :=
  vsum_over (fun m =>
               if (first_at_or_before (frames lig) (num_frames lig) K m
                   =? j)%nat
               then frame_moment lig kin derivatives (origin kin !!! j) m
               else zero3)
    (seq (S K) (num_frames lig - S K)).

(** The entry of [g.torsions] that the backward pass writes for the
    active frame [k]: [t] starts at [num_active_torsions] and is
    decremented at every active frame from the last one down. *)
Definition torsion_index (lig : ligand fl) (k : nat) : nat :=
  (num_active_torsions lig
   - S (active_branches lig (num_frames lig - 1) - active_branches lig k))%nat.
End TorsionSpec.

(** ** Example inputs

    A chain of four carbons and a hydroxyl group: two ROOT atoms, a BRANCH
    of two atoms and, inside it, a BRANCH that holds the oxygen alone, so
    that its frame is not active. *)

Definition chain_lines : list string :=
  ["ROOT";
   "ATOM      1 C1   LIG A   1       0.000   0.000   0.000  0.00  0.00    +0.000 C ";
   "ATOM      2 C2   LIG A   1       1.500   0.000   0.000  0.00  0.00    +0.000 C ";
   "ENDROOT";
   "BRANCH   2   3";
   "ATOM      3 C3   LIG A   1       3.000   0.000   0.000  0.00  0.00    +0.000 C ";
   "ATOM      4 C4   LIG A   1       4.500   0.000   0.000  0.00  0.00    +0.000 C ";
   "BRANCH   4   5";
   "ATOM      5 O5   LIG A   1       6.000   0.000   0.000  0.00  0.00    +0.000 OA";
   "ATOM      6 H6   LIG A   1       6.500   0.800   0.000  0.00  0.00    +0.000 HD";
   "ENDBRANCH   4   5";
   "ENDBRANCH   2   3";
   "TORSDOF 2"]%string.

(** A ligand with one torsion, about an axis of length [1]: the rotors
    are one unit apart, and the second atom of the BRANCH lies off the
    axis. *)
Definition elbow_lines : list string :=
  ["ROOT";
   "ATOM      1 C1   LIG A   1       0.000   0.000   0.000  0.00  0.00    +0.000 C ";
   "ATOM      2 C2   LIG A   1       1.000   0.000   0.000  0.00  0.00    +0.000 C ";
   "ENDROOT";
   "BRANCH   2   3";
   "ATOM      3 C3   LIG A   1       2.000   0.000   0.000  0.00  0.00    +0.000 C ";
   "ATOM      4 C4   LIG A   1       2.000   1.000   0.000  0.00  0.00    +0.000 C ";
   "ENDBRANCH   2   3";
   "TORSDOF 1"]%string.

(** A ROOT atom and one atom behind a bond, which no torsion moves. *)
Definition hook_lines : list string :=
  ["ROOT";
   "ATOM      1 C1   LIG A   1       1.000   0.000   1.000  0.00  0.00    +0.000 C ";
   "ENDROOT";
   "BRANCH   1   2";
   "ATOM      2 O2   LIG A   1       0.000   0.000   0.000  0.00  0.00    +0.000 OA";
   "ENDBRANCH   1   2";
   "TORSDOF 1"]%string.

(** A BRANCH that no ENDBRANCH closes. *)
Definition unmatched_lines : list string :=
  ["ROOT";
   "ATOM      1 C1   LIG A   1       0.000   0.000   0.000  0.00  0.00    +0.000 C ";
   "ENDROOT";
   "BRANCH   1   2";
   "ATOM      2 O2   LIG A   1       1.400   0.000   0.000  0.00  0.00    +0.000 OA";
   "TORSDOF 1"]%string.

(** An ENDBRANCH that no BRANCH opens. *)
Definition stray_lines : list string :=
  ["ROOT";
   "ATOM      1 C1   LIG A   1       0.000   0.000   0.000  0.00  0.00    +0.000 C ";
   "ENDROOT";
   "ENDBRANCH   1   1";
   "TORSDOF 0"]%string.

Definition empty_ligand {fl : Type} `{Scalar fl} : ligand fl :=
  mk_ligand [] [] [] [] [] 0 0 0 0 0 (flit 0%float) (flit 0%float).

Definition returned {A : Type} (d : A) (m : outcome A) : A :=
  match m with
  | Ret a => a
  | Fail _ => d
  end.

Section Binary64Examples.
#[local] Existing Instance Float64.
#[local] Existing Instance series_libm.
#[local] Existing Instance function_grid.
#[local] Existing Instance function_scoring.
#[local] Existing Instance cell_box.
#[local] Existing Instance clustered_results.
#[local] Existing Instance lcg_random.
#[local] Existing Instance rotation_vector.
#[local] Existing Instance table_atoms.
#[local] Existing Instance column_text.

(** The ligand of [chain_lines]. *)
Definition chain : ligand float :=
  Eval vm_compute in returned empty_ligand (ligand_ctor false chain_lines).

Definition wide_box : box := ((-10, -10, -10)%float, (10, 10, 10)%float).

Definition flat_maps : list array3d := replicate 100 (fun _ _ _ => 1%float).

(** Maps on which every pose has an energy above the bound of the
    task. *)
Definition high_maps : list array3d :=
  replicate 100 (fun _ _ _ => 100%float).

Definition no_scoring : scoring_function := fun _ _ => (0%float, 0%float).

Definition upright : conformation float :=
  mk_conformation (1, 2, 3)%float (1, 0, 0, 0)%float [0%float].

(** [upright], moved to where the oxygen leaves the box. *)
Definition shifted : conformation float :=
  mk_conformation (5, 2, 3)%float (1, 0, 0, 0)%float [0%float].

Definition tilted : conformation float :=
  mk_conformation (1, 2, 3)%float (normalize4 (1, 2, 3, 4)%float) [0%float].

(** An orientation of norm [1 + 2^-8], within the tolerance of
    [normalized]: its squared norm is [1 + 2^-7 + 2^-16]. *)
Definition stretched : conformation float :=
  mk_conformation (1, 2, 3)%float (1.00390625, 0, 0, 0)%float [0%float].

Definition no_change : change float := change_init 1.

(** A gradient no evaluation leaves behind. *)
Definition marked_change : change float :=
  mk_change (1, 1, 1)%float (2, 2, 2)%float [3%float].

(** A ligand without an active torsion: no angle but [0] is taken. *)
Definition rigid_lines : list string :=
  ["ROOT";
   "ATOM      1 C1   LIG A   1       0.000   0.000   0.000  0.00  0.00    +0.000 C ";
   "ENDROOT";
   "BRANCH   1   2";
   "ATOM      2 O2   LIG A   1       1.400   0.000   0.000  0.00  0.00    +0.000 OA";
   "ENDBRANCH   1   2";
   "TORSDOF 1"]%string.

Definition rigid : ligand float :=
  Eval vm_compute in returned empty_ligand (ligand_ctor false rigid_lines).

(** The ligand of [hook_lines]. *)
Definition hook : ligand float :=
  Eval vm_compute in returned empty_ligand (ligand_ctor false hook_lines).

(** Half a turn about the first axis, at a position whose second
    coordinate is the negative zero. *)
Definition turned : conformation float :=
  mk_conformation (2, -0, 2)%float (0, 1, 0, 0)%float [].

(** Two values for the variables that the task declares without an
    initialiser. *)
Definition six_zeros : unset float :=
  mk_unset 0%float 0%float 0%float 0%float 0%float 0%float.

Definition six_others : unset float :=
  mk_unset 1%float (-2)%float infinity 4.5%float nan (-0)%float.

(** [upright] with what [evaluate] computes for it. *)
Definition pose_5 : pose float := mk_pose upright 5%float 5%float no_change.

(** The poses of an iteration that starts from the energy [4], the best
    so far, and finds the energy [3]. *)
Definition pose_4 : pose float := mk_pose upright 4%float 4%float no_change.

Definition pose_3 : pose float := mk_pose tilted 3%float 3%float no_change.

Definition empty_results : ptr_vector (result float) := mk_ptr_vector [] 5.
End Binary64Examples.

Section GridExamples.
#[local] Existing Instance Float64.
#[local] Existing Instance function_grid.
#[local] Existing Instance grid_box.

Definition bowl_box : box := ((0, 0, 0)%float, (20, 20, 20)%float).

(** A map that grows with the squared distance from the middle of
    [bowl_box]. *)
Definition bowl : array3d := fun x y z =>
  let d (i : nat) := (fl_of_size_t i - 80)%float in
  ((d x * d x + d y * d y + d z * d z) / 64)%float.

Definition bowl_maps : list array3d := replicate 100 bowl.
End GridExamples.

Section ExactExamples.
#[local] Existing Instance ExactInt.
#[local] Existing Instance series_libm.
#[local] Existing Instance table_atoms.
#[local] Existing Instance column_text.

(** The ligand of [chain_lines] with every number cut to an integer. *)
Definition chain_Z : ligand Z :=
  Eval vm_compute in returned empty_ligand (ligand_ctor true chain_lines).

Definition upright_Z : conformation Z :=
  mk_conformation (1, 2, 3)%Z (1, 0, 0, 0)%Z [0%Z].

(** The ligand of [elbow_lines]. *)
Definition elbow_Z : ligand Z :=
  Eval vm_compute in returned empty_ligand (ligand_ctor true elbow_lines).
End ExactExamples.

(** A stand-in for the stream: an integer in [fixed] notation is its
    decimal digits, a point and as many zeros as the precision asks. *)
Definition integer_stream : StreamModel Z :=
  {| fixed := fun precision x =>
       String.append (if (x <? 0)%Z then "-"%string else EmptyString)
         (String.append (size_t_text (Z.abs_nat x))
            (String.append "." (string_of_list_ascii
                                  (replicate precision "0"%char)))) |}.

Section OutputExamples.
#[local] Existing Instance ExactInt.
#[local] Existing Instance series_libm.
#[local] Existing Instance integer_stream.

(** What [compose_result] returns for [chain_Z] at [upright_Z]. *)
Definition chain_result : result Z :=
  Eval vm_compute in
    returned (mk_result 0%Z 0%Z [] [])
      (compose_result true chain_Z 1%Z 2%Z upright_Z).

Definition one_result : ptr_vector (result Z) := mk_ptr_vector [chain_result] 5.

(** The file written for [chain_Z] and [one_result]. *)
Definition chain_models : list string :=
  Eval vm_compute in returned [] (write_models false chain_Z one_result 1).

Definition exact_change : change Z :=
  mk_change (1, 2, 3)%Z (4, 5, 6)%Z [7%Z].
End OutputExamples.

Section ExactEvaluateExamples.
#[local] Existing Instance ExactInt.
#[local] Existing Instance series_libm.
#[local] Existing Instance function_grid.
#[local] Existing Instance function_scoring.
#[local] Existing Instance cell_box.

Definition wide_box_Z : box := ((-10, -10, -10)%Z, (10, 10, 10)%Z).

(** Grid maps of slope [(1, 2, 3)]. *)
Definition sloped_maps_Z : list array3d :=
  replicate 100
    (fun x y z => (Z.of_nat x + 2 * Z.of_nat y + 3 * Z.of_nat z)%Z).

(** A pair at the squared distance [r2] has the energy [r2]. *)
Definition spring_Z : scoring_function := fun _ r2 => (r2, 1%Z).

(** What [evaluate] leaves behind for [chain_Z] at [upright_Z]. *)
Definition chain_evaluation : evaluation Z :=
  mk_evaluation true 77%Z 0%Z
    (mk_change (5, 10, 15)%Z (0, -42, 28)%Z [0%Z]).

(** What [evaluate] leaves behind for [elbow_Z] at [upright_Z]. *)
Definition elbow_evaluation : evaluation Z :=
  mk_evaluation true 5%Z 0%Z
    (mk_change (4, 8, 12)%Z (3, -15, 9)%Z [3%Z]).
End ExactEvaluateExamples.

(** * Lemmas and theorems *)

Arguments vadd : simpl never.
Arguments vsub : simpl never.
Arguments smul : simpl never.
Arguments qmul : simpl never.
Arguments cross_product : simpl never.
Arguments dot3 : simpl never.
Arguments mat3_mul_vec3 : simpl never.
Arguments vec4_to_qtn4 : simpl never.
Arguments qtn4_to_mat3_raw : simpl never.
Arguments normalized3 : simpl never.
Arguments normalized4 : simpl never.
Arguments normalize4 : simpl never.
Arguments norm_sqr3 : simpl never.

(** ** The outcome monad *)

Lemma bind_Ret_inv {A B : Type} (m : outcome A) (k : A -> outcome B) (b : B) :
  bind m k = Ret b -> exists a, m = Ret a /\ k a = Ret b.
Proof. destruct m as [a|f]; simpl; [eauto | discriminate]. Qed.

Lemma BOOST_ASSERT_Ret NDEBUG c u :
  BOOST_ASSERT NDEBUG c = Ret u -> BOOST_ASSERT true c = Ret u.
Proof. destruct u. reflexivity. Qed.

Lemma BOOST_ASSERT_release c : BOOST_ASSERT true c = Ret tt.
Proof. reflexivity. Qed.

Lemma BOOST_ASSERT_holds c : BOOST_ASSERT false c = Ret tt -> c = true.
Proof. unfold BOOST_ASSERT. destruct c; simpl; [reflexivity | discriminate]. Qed.

(** [inv_bind H] splits a hypothesis [bind m k = Ret b]. *)
Ltac inv_bind H :=
  let a := fresh "a" in
  let Ha := fresh "Ha" in
  apply bind_Ret_inv in H; destruct H as (a & Ha & H).

Ltac inv_ret :=
  repeat match goal with
  | H : Ret _ = Ret _ |- _ => injection H as H; subst
  | H : Fail _ = Ret _ |- _ => discriminate H
  | H : Some _ = Some _ |- _ => injection H as H; subst
  end.

Section EvaluateFacts.
Context {fl : Type} `{Scalar fl} `{Libm fl}.
Context `{BoxModel fl} `{GridModel fl} `{ScoringModel fl}.

(** *** Assertions only abort: a call that returns, returns the same
    with assertions compiled out. *)

Lemma qtn4_to_mat3_release NDEBUG (q : qtn4 fl) m :
  qtn4_to_mat3 NDEBUG q = Ret m -> m = qtn4_to_mat3_raw q.
Proof.
  unfold qtn4_to_mat3. intros Hq. inv_bind Hq. congruence.
Qed.

Lemma qtn4_to_mat3_true (q : qtn4 fl) :
  qtn4_to_mat3 true q = Ret (qtn4_to_mat3_raw q).
Proof. reflexivity. Qed.

(** *** The atoms of one frame *)

Lemma place_atoms_Some chk (o : vec3 fl) m atoms n : forall i coords cs,
  place_atoms chk o m atoms i n coords = Some cs ->
  cs = transform_atoms o m atoms i n coords
  /\ forall j, (i <= j < i + n)%nat ->
       chk (vadd o (mat3_mul_vec3 m (coordinate (atoms !!! j)))) = true.
Proof.
  induction n as [|n IH]; intros i coords cs; simpl.
  - intros [= <-]. split; [reflexivity | intros j Hj; lia].
  - destruct (chk _) eqn:Hc; [|discriminate].
    intros Hp. apply IH in Hp as [-> Hall]. split; [reflexivity|].
    intros j Hj. destruct (decide (j = i)) as [->|Hne]; [exact Hc|].
    apply Hall. lia.
Qed.

Lemma place_atoms_None chk (o : vec3 fl) m atoms n : forall i coords,
  place_atoms chk o m atoms i n coords = None ->
  exists j, (i <= j < i + n)%nat
    /\ chk (vadd o (mat3_mul_vec3 m (coordinate (atoms !!! j)))) = false.
Proof.
  induction n as [|n IH]; intros i coords; simpl; [discriminate|].
  destruct (chk _) eqn:Hc.
  - intros Hp. apply IH in Hp as (j & Hj & Hjc). exists j. split; [lia | exact Hjc].
  - intros _. exists i. split; [lia | exact Hc].
Qed.

Lemma place_atoms_all chk (o : vec3 fl) m atoms n : forall i coords,
  (forall j, (i <= j < i + n)%nat ->
     chk (vadd o (mat3_mul_vec3 m (coordinate (atoms !!! j)))) = true) ->
  place_atoms chk o m atoms i n coords
  = Some (transform_atoms o m atoms i n coords).
Proof.
  induction n as [|n IH]; intros i coords Hall; simpl; [reflexivity|].
  rewrite Hall by lia. apply IH. intros j Hj. apply Hall. lia.
Qed.

Lemma transform_atoms_length (o : vec3 fl) m atoms n : forall i out,
  length (transform_atoms o m atoms i n out) = length out.
Proof.
  induction n as [|n IH]; intros i out; simpl; [reflexivity|].
  rewrite IH. apply length_insert.
Qed.

Lemma transform_atoms_lookup (o : vec3 fl) m atoms n : forall a out i,
  transform_atoms o m atoms a n out !!! i
  = if decide ((a <= i < a + n)%nat /\ (i < length out)%nat)
    then vadd o (mat3_mul_vec3 m (coordinate (atoms !!! i)))
    else out !!! i.
Proof.
  induction n as [|n IH]; intros a out i; cbn [transform_atoms].
  - rewrite decide_False by lia. reflexivity.
  - rewrite IH, length_insert.
    destruct (decide ((S a <= i < S a + n)%nat /\ (i < length out)%nat))
      as [Hin|Hout].
    + rewrite decide_True by lia. reflexivity.
    + destruct (decide (i = a)) as [->|Hne].
      * destruct (decide ((a < length out)%nat)) as [Hlt|Hge].
        -- rewrite decide_True by lia.
           apply list_lookup_total_insert_eq. exact Hlt.
        -- rewrite decide_False by lia.
           rewrite list_insert_ge by lia. reflexivity.
      * rewrite decide_False by lia.
        apply list_lookup_total_insert_ne. congruence.
Qed.

Lemma place_atoms_unchecked (o : vec3 fl) m atoms n i coords :
  place_atoms (fun _ => true) o m atoms i n coords
  = Some (transform_atoms o m atoms i n coords).
Proof. apply place_atoms_all. reflexivity. Qed.

(** *** The ROOT frame *)

Lemma root_frame_sim NDEBUG chk (lig : ligand fl) conf kin r :
  root_frame NDEBUG chk lig conf kin = Ret r ->
  exists kin0,
    root_frame true (fun _ => true) lig conf kin = Ret (Some kin0)
    /\ match r with
       | Some kin' =>
           kin' = kin0
           /\ forall i, (habegin (frames lig !!! 0%nat) <= i
                         < haend (frames lig !!! 0%nat))%nat ->
                chk (root_world lig conf i) = true
       | None =>
           exists i, (habegin (frames lig !!! 0%nat) <= i
                      < haend (frames lig !!! 0%nat))%nat
             /\ chk (root_world lig conf i) = false
       end.
Proof.
  unfold root_frame, quaternion_to_matrix. intros Hr.
  inv_bind Hr. apply qtn4_to_mat3_release in Ha. subst a.
  rewrite qtn4_to_mat3_true. simpl bind.
  rewrite place_atoms_unchecked. simpl.
  eexists. split; [reflexivity|].
  injection Hr as <-. simpl.
  destruct (place_atoms chk _ _ _ _ _ _) as [cs|] eqn:Hp; simpl.
  - apply place_atoms_Some in Hp as [-> Hall]. split; [reflexivity|].
    intros i Hi. apply Hall. lia.
  - apply place_atoms_None in Hp as (i & Hi & Hc).
    exists i. split; [lia | exact Hc].
Qed.

(** *** One BRANCH frame *)

Lemma branch_frame_unchecked (lig : ligand fl) conf k t kin :
  exists t1 kin1,
    branch_frame true (fun _ => true) lig conf k (t, kin) = Ret (Some (t1, kin1)).
Proof.
  unfold branch_frame. simpl.
  destruct (active (frames lig !!! k)); simpl; [|eauto].
  rewrite place_atoms_unchecked. simpl. eauto.
Qed.

Lemma branch_frame_frame NDEBUG chk (lig : ligand fl) conf k t kin t1 kin1 N :
  sized N kin ->
  branch_frame NDEBUG chk lig conf k (t, kin) = Ret (Some (t1, kin1)) ->
  sized N kin1
  /\ forall j, j <> k ->
       origin kin1 !!! j = origin kin !!! j
       /\ orientation_m kin1 !!! j = orientation_m kin !!! j.
Proof.
  intros [Ho Hm]. unfold branch_frame.
  destruct (negb (chk _)); [intros [=]|].
  destruct (negb (active _)).
  - intros Hb. inv_bind Hb. inv_bind Hb. injection Hb as <- <-. simpl.
    unfold sized. simpl. rewrite length_insert. split; [auto|].
    intros j Hj. rewrite list_lookup_total_insert_ne by congruence. auto.
  - intros Hb. do 4 inv_bind Hb.
    destruct (place_atoms _ _ _ _ _ _ _) as [cs|]; simpl in Hb; [|discriminate].
    injection Hb as <- <-. unfold sized. simpl. rewrite !length_insert.
    split; [auto|]. intros j Hj.
    rewrite !list_lookup_total_insert_ne by congruence. auto.
Qed.

Lemma branch_frame_sim NDEBUG chk (lig : ligand fl) conf k t kin r N :
  sized N kin -> (k < N)%nat ->
  branch_frame NDEBUG chk lig conf k (t, kin) = Ret r ->
  exists t1 kin1,
    branch_frame true (fun _ => true) lig conf k (t, kin) = Ret (Some (t1, kin1))
    /\ match r with
       | Some st => st = (t1, kin1) /\ frame_inside chk lig kin1 k
       | None => frame_outside chk lig kin1 k
       end.
Proof.
  intros [Ho Hm] Hk. unfold branch_frame, frame_inside, frame_outside, world_atom.
  simpl negb at 2. cbv iota.
  destruct (chk _) eqn:Hc; simpl negb; cbv iota.
  - destruct (active (frames lig !!! k)) eqn:Hact; simpl negb; cbv iota.
    + intros Hb. do 3 inv_bind Hb. inv_bind Hb.
      unfold quaternion_to_matrix in *. apply qtn4_to_mat3_release in Ha2. subst a2.
      rewrite !BOOST_ASSERT_release, qtn4_to_mat3_true. simpl bind.
      rewrite place_atoms_unchecked. simpl.
      do 2 eexists. split; [reflexivity|].
      injection Hb as <-.
      destruct (place_atoms chk _ _ _ _ _ _) as [cs|] eqn:Hp; simpl.
      * apply place_atoms_Some in Hp as [-> Hall].
        split; [reflexivity|]. simpl.
        rewrite !list_lookup_total_insert_eq by lia.
        split; [exact Hc|]. intros _ i Hi. apply Hall. lia.
      * apply place_atoms_None in Hp as (i & Hi & Hci).
        simpl. rewrite !list_lookup_total_insert_eq by lia.
        right. split; [reflexivity|]. exists i. split; [lia | exact Hci].
    + intros Hb. do 2 inv_bind Hb. injection Hb as <-.
      rewrite !BOOST_ASSERT_release. simpl bind.
      do 2 eexists. split; [reflexivity|]. simpl.
      rewrite !list_lookup_total_insert_eq by lia.
      split; [reflexivity|]. split; [exact Hc | discriminate].
  - intros [= <-].
    destruct (branch_frame_unchecked lig conf k t kin) as (t1 & kin1 & Hu).
    exists t1, kin1. split; [exact Hu|]. left.
    unfold branch_frame in Hu. simpl negb in Hu at 1. cbv iota in Hu.
    destruct (negb (active _)).
    + simpl in Hu. injection Hu as <- <-. simpl.
      rewrite list_lookup_total_insert_eq by lia. exact Hc.
    + simpl in Hu. rewrite place_atoms_unchecked in Hu. simpl in Hu.
      injection Hu as <- <-. simpl.
      rewrite list_lookup_total_insert_eq by lia. exact Hc.
Qed.

Lemma frame_inside_same chk (lig : ligand fl) kin kin' k :
  origin kin' !!! k = origin kin !!! k ->
  orientation_m kin' !!! k = orientation_m kin !!! k ->
  frame_inside chk lig kin k -> frame_inside chk lig kin' k.
Proof.
  unfold frame_inside, world_atom. intros -> ->. exact id.
Qed.

Lemma frame_outside_same chk (lig : ligand fl) kin kin' k :
  origin kin' !!! k = origin kin !!! k ->
  orientation_m kin' !!! k = orientation_m kin !!! k ->
  frame_outside chk lig kin k -> frame_outside chk lig kin' k.
Proof.
  unfold frame_outside, world_atom. intros -> ->. exact id.
Qed.

(** *** The loop over the BRANCH frames *)

Lemma branch_frames_unchecked (lig : ligand fl) conf n : forall k st,
  exists st', branch_frames true (fun _ => true) lig conf k n st = Ret (Some st').
Proof.
  induction n as [|n IH]; intros k [t kin]; cbn [branch_frames]; [eauto|].
  destruct (branch_frame_unchecked lig conf k t kin) as (t1 & kin1 & ->).
  cbn [bind]. apply IH.
Qed.

Lemma branch_frames_frame NDEBUG chk (lig : ligand fl) conf N n :
  forall k t kin t' kin',
  sized N kin ->
  branch_frames NDEBUG chk lig conf k n (t, kin) = Ret (Some (t', kin')) ->
  sized N kin' /\ same_below k kin kin'.
Proof.
  induction n as [|n IH]; intros k t kin t' kin' Hs; cbn [branch_frames].
  - intros [= <- <-]. split; [exact Hs | intros j _; auto].
  - intros Hb. inv_bind Hb. destruct a as [[t1 kin1]|]; [|discriminate].
    apply (branch_frame_frame _ _ _ _ _ _ _ _ _ N Hs) in Ha as [Hs1 Hne].
    apply (IH _ _ _ _ _ Hs1) in Hb as [Hs' Hsame]. split; [exact Hs'|].
    intros j Hj. destruct (Hsame j) as [-> ->]; [lia|]. apply Hne. lia.
Qed.

Lemma branch_frames_sim NDEBUG chk (lig : ligand fl) conf N n :
  forall k t kin r,
  sized N kin -> (k + n <= N \/ n = 0)%nat ->
  branch_frames NDEBUG chk lig conf k n (t, kin) = Ret r ->
  exists t' kin',
    branch_frames true (fun _ => true) lig conf k n (t, kin)
    = Ret (Some (t', kin'))
    /\ match r with
       | Some st =>
           st = (t', kin')
           /\ forall j, (k <= j < k + n)%nat -> frame_inside chk lig kin' j
       | None =>
           exists j, (k <= j < k + n)%nat /\ frame_outside chk lig kin' j
       end.
Proof.
  induction n as [|n IH]; intros k t kin r Hs Hn; cbn [branch_frames].
  - intros [= <-]. exists t, kin. split; [reflexivity|].
    split; [reflexivity | intros j Hj; lia].
  - intros Hb. inv_bind Hb.
    assert (Hk : (k < N)%nat) by lia.
    destruct (branch_frame_sim _ _ _ _ _ _ _ _ N Hs Hk Ha)
      as (t1 & kin1 & Hu & Hr1).
    rewrite Hu. cbn [bind].
    destruct (branch_frame_frame _ _ _ _ _ _ _ _ _ N Hs Hu) as [Hs1 _].
    destruct a as [st1|].
    + destruct Hr1 as [-> Hin].
      assert (Hn' : (S k + n <= N \/ n = 0)%nat) by lia.
      destruct (IH (S k) t1 kin1 r Hs1 Hn' Hb) as (t' & kin' & Hu' & Hr).
      exists t', kin'. split; [exact Hu'|].
      destruct (branch_frames_frame _ _ _ _ N _ _ _ _ _ _ Hs1 Hu') as [_ Hsame].
      destruct r as [st|].
      * destruct Hr as [-> Hall]. split; [reflexivity|].
        intros j Hj. destruct (decide (j = k)) as [->|Hne].
        -- destruct (Hsame k) as [Ho Hm]; [lia|].
           exact (frame_inside_same _ _ _ _ _ Ho Hm Hin).
        -- apply Hall. lia.
      * destruct Hr as (j & Hj & Hout). exists j. split; [lia | exact Hout].
    + injection Hb as <-.
      destruct (branch_frames_unchecked lig conf n (S k) (t1, kin1))
        as ([t' kin'] & Hu').
      exists t', kin'. split; [exact Hu'|].
      destruct (branch_frames_frame _ _ _ _ N _ _ _ _ _ _ Hs1 Hu') as [_ Hsame].
      exists k. split; [lia|].
      destruct (Hsame k) as [Ho Hm]; [lia|].
      exact (frame_outside_same _ _ _ _ _ Ho Hm Hr1).
Qed.

(** *** The whole forward pass *)

Lemma root_frame_sized NDEBUG chk (lig : ligand fl) conf kin0 :
  root_frame NDEBUG chk lig conf (kinematics_init lig) = Ret (Some kin0) ->
  sized (num_frames lig) kin0.
Proof.
  unfold root_frame. intros Hr. inv_bind Hr. injection Hr as Hr.
  destruct (place_atoms _ _ _ _ _ _ _); simpl in Hr; [|discriminate].
  injection Hr as <-. unfold sized. simpl.
  rewrite !length_insert, !length_replicate. auto.
Qed.

Lemma forward_kinematics_sim NDEBUG chk (lig : ligand fl) conf r :
  forward_kinematics NDEBUG chk lig conf = Ret r ->
  match r with
  | Some kin =>
      kin = world_kinematics lig conf
      /\ (forall i, (habegin (frames lig !!! 0%nat) <= i
                     < haend (frames lig !!! 0%nat))%nat ->
             chk (root_world lig conf i) = true)
      /\ forall k, (1 <= k < num_frames lig)%nat ->
           frame_inside chk lig (world_kinematics lig conf) k
  | None =>
      (exists i, (habegin (frames lig !!! 0%nat) <= i
                  < haend (frames lig !!! 0%nat))%nat
         /\ chk (root_world lig conf i) = false)
      \/ exists k, (1 <= k < num_frames lig)%nat
           /\ frame_outside chk lig (world_kinematics lig conf) k
  end.
Proof.
  unfold forward_kinematics, world_kinematics. intros Hf. inv_bind Hf.
  destruct (root_frame_sim _ _ _ _ _ _ Ha) as (kin0 & Hu0 & Hr0).
  unfold forward_kinematics. rewrite Hu0. simpl bind.
  pose proof (root_frame_sized _ _ _ _ _ Hu0) as Hs0.
  assert (Hn : (1 + (num_frames lig - 1) <= num_frames lig
                \/ num_frames lig - 1 = 0)%nat) by lia.
  destruct a as [kin1|].
  - destruct Hr0 as [-> Hroot]. inv_bind Hf. injection Hf as <-.
    destruct a as [[t1 kin1]|]; simpl.
    + destruct (branch_frames_sim _ _ _ _ (num_frames lig) _ _ _ _ _ Hs0
                  Hn Ha0) as (t' & kin' & Hu & [[= <- <-] Hall]).
      rewrite Hu. simpl. split; [reflexivity|]. split; [exact Hroot|].
      intros k Hk. apply Hall. lia.
    + destruct (branch_frames_sim _ _ _ _ (num_frames lig) _ _ _ _ _ Hs0
                  Hn Ha0) as (t' & kin' & Hu & (j & Hj & Hout)).
      rewrite Hu. simpl. right. exists j. split; [lia | exact Hout].
  - injection Hf as <-. left. exact Hr0.
Qed.

Lemma world_kinematics_eq (lig : ligand fl) conf kin :
  forward_kinematics true (fun _ => true) lig conf = Ret (Some kin) ->
  world_kinematics lig conf = kin.
Proof. unfold world_kinematics. intros ->. reflexivity. Qed.

(** *** The energy *)

Lemma inter_atoms_release NDEBUG (lig : ligand fl) b grid_maps coords n :
  forall i st st',
  inter_atoms NDEBUG lig b grid_maps coords i n st = Ret st' ->
  inter_atoms true lig b grid_maps coords i n st = Ret st'.
Proof.
  induction n as [|n IH]; intros i st st'; simpl; [auto|].
  intros Hi. inv_bind Hi. apply IH in Hi.
  assert (Hstep : inter_atom true lig b grid_maps coords i st = Ret a).
  { clear Hi. unfold inter_atom in *. destruct st as [[e energies] derivatives].
    inv_bind Ha. destruct (grid_index b _) as [[x0 y0] z0].
    destruct (num_grids b) as [[n0 n1] n2].
    do 3 inv_bind Ha. exact Ha. }
  rewrite Hstep. exact Hi.
Qed.

Lemma energy_release NDEBUG (lig : ligand fl) sf b grid_maps coords x :
  energy NDEBUG lig sf b grid_maps coords = Ret x ->
  energy true lig sf b grid_maps coords = Ret x.
Proof.
  unfold energy. intros He. inv_bind He.
  apply inter_atoms_release in Ha. rewrite Ha. exact He.
Qed.

Lemma world_energy_eq NDEBUG (lig : ligand fl) sf b grid_maps conf x :
  energy NDEBUG lig sf b grid_maps (coordinates (world_kinematics lig conf))
  = Ret x ->
  world_energy lig sf b grid_maps conf = x.
Proof.
  intros He. apply energy_release in He. unfold world_energy.
  rewrite He. reflexivity.
Qed.

Lemma frame_outside_outside_box (lig : ligand fl) b conf k :
  (1 <= k < num_frames lig)%nat ->
  frame_outside (within b) lig (world_kinematics lig conf) k ->
  frame_origin_outside lig b conf \/ branch_atom_outside lig b conf.
Proof.
  intros Hk [Ho | (Hact & i & Hi & Hc)].
  - left. exists k. auto.
  - right. exists k, i. auto.
Qed.

Lemma inside_not_outside_box (lig : ligand fl) b conf :
  within b (position conf) = true ->
  (forall i, (habegin (frames lig !!! 0%nat) <= i
              < haend (frames lig !!! 0%nat))%nat ->
     within b (root_world lig conf i) = true) ->
  (forall k, (1 <= k < num_frames lig)%nat ->
     frame_inside (within b) lig (world_kinematics lig conf) k) ->
  ~ outside_box lig b conf.
Proof.
  intros Hp Hroot Hall [Ho | [(i & Hi & Hc) | [(k & Hk & Hc) | (k & i & Hk & Hact & Hi & Hc)]]].
  - congruence.
  - rewrite Hroot in Hc by exact Hi. discriminate.
  - destruct (Hall k Hk) as [Hin _]. congruence.
  - destruct (Hall k Hk) as [_ Hin]. rewrite (Hin Hact i Hi) in Hc. discriminate.
Qed.

(** The three ways a call of [evaluate] returns. *)
Lemma evaluate_cases NDEBUG (lig : ligand fl) conf sf b grid_maps
    e_upper_bound e f g r :
  evaluate NDEBUG lig conf sf b grid_maps e_upper_bound e f g = Ret r ->
  (outside_box lig b conf /\ r = mk_evaluation false e f g)
  \/ (~ outside_box lig b conf
      /\ fleb e_upper_bound (e_total lig sf b grid_maps conf) = true
      /\ r = mk_evaluation false (e_total lig sf b grid_maps conf)
               (e_inter lig sf b grid_maps conf) g)
  \/ (~ outside_box lig b conf
      /\ fleb e_upper_bound (e_total lig sf b grid_maps conf) = false
      /\ exists g',
           gradient lig (world_kinematics lig conf)
             (world_energy lig sf b grid_maps conf).2 g = Ret g'
           /\ r = mk_evaluation true (e_total lig sf b grid_maps conf)
                    (e_inter lig sf b grid_maps conf) g').
Proof.
  unfold evaluate.
  destruct (within b (position conf)) eqn:Hp; cbn [negb].
  2: { intros [= <-]. left. split; [left; exact Hp | reflexivity]. }
  intros He. inv_bind He.
  apply forward_kinematics_sim in Ha.
  destruct a as [kin|].
  - destruct Ha as (-> & Hroot & Hall).
    pose proof (inside_not_outside_box _ _ _ Hp Hroot Hall) as Hin.
    inv_bind He. destruct a as [[f' e'] derivatives].
    pose proof (world_energy_eq _ _ _ _ _ _ _ Ha) as Hw.
    unfold e_total, e_inter. rewrite Hw. cbn [fst snd].
    destruct (fleb e_upper_bound e') eqn:Hb.
    + injection He as <-. right. left. auto.
    + inv_bind He. injection He as <-. right. right.
      split; [exact Hin|]. split; [reflexivity|]. eauto.
  - injection He as <-. left. split; [|reflexivity].
    destruct Ha as [Hroot | (k & Hk & Hout)].
    + right. left. exact Hroot.
    + right. right. exact (frame_outside_outside_box _ _ _ _ Hk Hout).
Qed.
End EvaluateFacts.

(** C10. Whenever [ligand::evaluate] returns [false], [g] is left as it
    was: the gradient is written only after the check [e >= e_upper_bound]
    has passed. [e] and [f] are left as they were when the pose is
    outside the box, and hold the total and the inter-molecular energy
    when the pose is refused on the energy bound. *)
Theorem evaluate_reject_frame {fl : Type} `{Scalar fl} `{Libm fl}
    `{BoxModel fl} `{GridModel fl} `{ScoringModel fl}
    (NDEBUG : bool) (lig : ligand fl) (conf : conformation fl)
    (sf : scoring_function) (b : box) (grid_maps : list array3d)
    (e_upper_bound e f : fl) (g : change fl) (r : evaluation fl) :
  evaluate NDEBUG lig conf sf b grid_maps e_upper_bound e f g = Ret r ->
  accepted r = false ->
  g_out r = g
  /\ (outside_box lig b conf -> e_out r = e /\ f_out r = f)
  /\ (~ outside_box lig b conf ->
      e_out r = e_total lig sf b grid_maps conf
      /\ f_out r = e_inter lig sf b grid_maps conf).
Proof.
  intros He Hrej. apply evaluate_cases in He.
  destruct He as [[Hout ->] | [(Hin & Hb & ->) | (Hin & Hb & g' & Hg & ->)]];
    cbn [accepted e_out f_out g_out] in *.
  - split; [reflexivity|]. split; [auto | contradiction].
  - split; [reflexivity|]. split; [contradiction | auto].
  - discriminate.
Qed.

(** ** A release build of [evaluate] returns *)

Section Returns.
Context {fl : Type} `{Scalar fl} `{Libm fl}.
Context `{BoxModel fl} `{GridModel fl} `{ScoringModel fl}.

Lemma root_frame_returns chk (lig : ligand fl) conf kin :
  exists r, root_frame true chk lig conf kin = Ret r.
Proof. unfold root_frame. cbn [quaternion_to_matrix]. eexists. reflexivity. Qed.

Lemma branch_frame_returns chk (lig : ligand fl) conf k st :
  exists r, branch_frame true chk lig conf k st = Ret r.
Proof.
  unfold branch_frame. destruct st as [t kin].
  destruct (negb (chk _)); [eauto|].
  destruct (negb (active _)); eexists; reflexivity.
Qed.

Lemma branch_frames_returns chk (lig : ligand fl) conf n : forall k st,
  exists r, branch_frames true chk lig conf k n st = Ret r.
Proof.
  induction n as [|n IH]; intros k st; cbn [branch_frames]; [eauto|].
  destruct (branch_frame_returns chk lig conf k st) as [[st'|] ->];
    cbn [bind]; [apply IH | eauto].
Qed.

Lemma forward_kinematics_returns chk (lig : ligand fl) conf :
  exists r, forward_kinematics true chk lig conf = Ret r.
Proof.
  unfold forward_kinematics.
  destruct (root_frame_returns chk lig conf (kinematics_init lig))
    as [[kin|] ->]; cbn [bind]; [|eauto].
  destruct (branch_frames_returns chk lig conf (num_frames lig - 1) 1
              (0%nat, kin)) as [r ->].
  cbn [bind]. eauto.
Qed.

Lemma inter_atoms_returns (lig : ligand fl) b grid_maps coords n :
  forall i st, exists st', inter_atoms true lig b grid_maps coords i n st = Ret st'.
Proof.
  induction n as [|n IH]; intros i st; cbn [inter_atoms]; [eauto|].
  assert (Hstep : exists st1, inter_atom true lig b grid_maps coords i st = Ret st1).
  { unfold inter_atom. destruct st as [[e energies] derivatives].
    cbn [BOOST_ASSERT orb bind].
    destruct (grid_index b _) as [[x0 y0] z0].
    destruct (num_grids b) as [[n0 n1] n2]. eauto. }
  destruct Hstep as [st1 ->]. cbn [bind]. apply IH.
Qed.

Lemma energy_returns (lig : ligand fl) sf b grid_maps coords :
  exists x, energy true lig sf b grid_maps coords = Ret x.
Proof.
  unfold energy.
  destruct (inter_atoms_returns lig b grid_maps coords (num_heavy_atoms lig) 0
              (flit 0%float, replicate (num_heavy_atoms lig) (flit 0%float),
               replicate (num_heavy_atoms lig) zero3))
    as [[[e energies] derivatives] ->].
  cbn [bind]. destruct (foldl _ _ _). eauto.
Qed.

Lemma active_branches_S (lig : ligand fl) k :
  active_branches lig (S k)
  = (active_branches lig k
     + if active (frames lig !!! S k) then 1 else 0)%nat.
Proof.
  unfold active_branches, active_in.
  rewrite seq_S, List.filter_app, length_app.
  cbn [List.filter Nat.add]. destruct (active _); reflexivity.
Qed.

(** The backward pass has a torsion left for every active frame it
    meets when the ligand counts at least as many. *)
Lemma aggregate_branches_returns (lig : ligand fl) kin derivatives k :
  forall t force torque g,
    (active_branches lig k <= t)%nat ->
    exists st,
      aggregate_branches lig kin derivatives k (t, force, torque, g) = Ret st.
Proof.
  induction k as [|k IH]; intros t force torque g Ht;
    cbn [aggregate_branches]; [eauto|].
  rewrite active_branches_S in Ht.
  unfold aggregate_branch.
  destruct (sum_atoms _ _ _ _ _ _) as [force1 torque1].
  destruct (active (frames lig !!! S k)); cbn [negb].
  - destruct t as [|t]; [lia|]. cbn [bind]. apply IH. lia.
  - cbn [bind]. apply IH. lia.
Qed.

Lemma gradient_returns (lig : ligand fl) kin derivatives g :
  (active_branches lig (num_frames lig - 1) <= num_active_torsions lig)%nat ->
  exists g', gradient lig kin derivatives g = Ret g'.
Proof.
  intros Ht. unfold gradient.
  destruct (aggregate_branches_returns lig kin derivatives
              (num_frames lig - 1) (num_active_torsions lig)
              (replicate (num_frames lig) zero3)
              (replicate (num_frames lig) zero3) g Ht)
    as [[[[t force] torque] g1] ->].
  cbn [bind]. destruct (sum_atoms _ _ _ _ _ _). eauto.
Qed.

(** With assertions compiled out, a call of [ligand::evaluate] returns,
    with either answer, provided the ligand counts at least as many
    active torsions as it has active BRANCH frames. *)
Lemma evaluate_release_returns (lig : ligand fl) conf sf b grid_maps
    e_upper_bound e f g :
  (active_branches lig (num_frames lig - 1) <= num_active_torsions lig)%nat ->
  exists r, evaluate true lig conf sf b grid_maps e_upper_bound e f g = Ret r.
Proof.
  intros Ht. unfold evaluate.
  destruct (negb (within b (position conf))); [eauto|].
  destruct (forward_kinematics_returns (within b) lig conf) as [[kin|] ->];
    cbn [bind]; [|eauto].
  destruct (energy_returns lig sf b grid_maps (coordinates kin))
    as [[[f' e'] derivatives] ->].
  cbn [bind]. destruct (fleb e_upper_bound e'); [eauto|].
  destruct (gradient_returns lig kin derivatives g Ht) as [g' ->].
  cbn [bind]. eauto.
Qed.

Lemma compose_branches_returns (lig : ligand fl) conf n : forall k st,
  exists st', compose_branches true lig conf k n st = Ret st'.
Proof.
  induction n as [|n IH]; intros k [t cmp]; cbn [compose_branches]; [eauto|].
  unfold compose_branch. cbn [quaternion_to_matrix qtn4_to_mat3 BOOST_ASSERT
                               orb bind].
  apply IH.
Qed.

(** With assertions compiled out, [ligand::compose_result] returns. *)
Lemma compose_result_release_returns (lig : ligand fl) e f conf :
  exists res, compose_result true lig e f conf = Ret res.
Proof.
  unfold compose_result, compose, compose_root.
  cbn [quaternion_to_matrix qtn4_to_mat3 BOOST_ASSERT orb bind].
  match goal with
  | |- context [compose_branches true lig conf 1 ?n ?st] =>
      destruct (compose_branches_returns lig conf n 1 st) as [[t cmp] ->]
  end.
  cbn [bind]. eauto.
Qed.
End Returns.

(** C4. For every conformation, a call of [ligand::evaluate] returns
    [false] if and only if the position is outside the box, or a ROOT
    atom's world coordinate is, or a BRANCH frame's origin is, or an atom
    of an active BRANCH frame is (a frame that is not active places its
    one atom at its origin), or the total energy [e] satisfies
    [e >= e_upper_bound]; otherwise it returns [true] and leaves the total
    energy in [e], the inter-molecular energy in [f] and the gradient in
    [g]. With assertions compiled out the call does return, for a ligand
    that counts at least as many active torsions as it has active BRANCH
    frames. *)
Theorem evaluate_rejects_iff {fl : Type} `{Scalar fl} `{Libm fl}
    `{BoxModel fl} `{GridModel fl} `{ScoringModel fl}
    (lig : ligand fl) (conf : conformation fl)
    (sf : scoring_function) (b : box) (grid_maps : list array3d)
    (e_upper_bound e f : fl) (g : change fl) :
  (forall NDEBUG r,
     evaluate NDEBUG lig conf sf b grid_maps e_upper_bound e f g = Ret r ->
     (accepted r = false <->
        outside_box lig b conf
        \/ fleb e_upper_bound (e_total lig sf b grid_maps conf) = true)
     /\ (accepted r = true ->
         e_out r = e_total lig sf b grid_maps conf
         /\ f_out r = e_inter lig sf b grid_maps conf
         /\ gradient lig (world_kinematics lig conf)
              (world_energy lig sf b grid_maps conf).2 g = Ret (g_out r)))
  /\ ((active_branches lig (num_frames lig - 1)
       <= num_active_torsions lig)%nat ->
      exists r,
        evaluate true lig conf sf b grid_maps e_upper_bound e f g = Ret r).
Proof.
  split; [|apply evaluate_release_returns].
  intros NDEBUG r He. apply evaluate_cases in He.
  destruct He as [[Hout ->] | [(Hin & Hb & ->) | (Hin & Hb & g' & Hg & ->)]];
    cbn [accepted e_out f_out g_out].
  - split; [split; auto | discriminate].
  - split; [split; auto | discriminate].
  - split.
    + split; [discriminate|]. intros [Hout | Hb']; [contradiction | congruence].
    + intros _. auto.
Qed.

(** ** [compose_result] against the forward pass of [evaluate] *)

(** *** The zeros of binary64 *)

Section Binary64Zeros.
#[local] Existing Instance Float64.

Lemma is_zero_binary64 (x : float) :
  is_zero x <-> exists s, Prim2SF x = S754_zero s.
Proof.
  unfold is_zero. cbn. split.
  - intros [->| ->]; [exists false|exists true]; reflexivity.
  - intros [s Hs]. destruct s; [right|left];
      apply Prim2SF_inj; rewrite Hs; reflexivity.
Qed.

Lemma finite_binary64 (x : float) :
  finite x ->
  match Prim2SF x with
  | S754_zero _ | S754_finite _ _ _ => True
  | _ => False
  end.
Proof.
  unfold finite. intros Hz. apply is_zero_binary64 in Hz as [s Hs].
  cbn in Hs. rewrite sub_spec in Hs.
  destruct (Prim2SF x) as [s0|s0| |s0 m e]; try exact I.
  - destruct s0; discriminate Hs.
  - discriminate Hs.
Qed.

(** Binary64 has the three laws. *)
Lemma zero_laws_binary64 : zero_laws.
Proof.
  unfold zero_laws. repeat split.
  - intros x z Hx Hz. apply finite_binary64 in Hx.
    apply is_zero_binary64 in Hz as [s Hs]. apply is_zero_binary64.
    cbn. rewrite mul_spec, Hs.
    destruct (Prim2SF x); try contradiction; eexists; reflexivity.
  - intros a b [->| ->] [->| ->]; vm_compute; auto.
  - intros x z Hz. apply is_zero_binary64 in Hz as [s Hs].
    unfold same_number. destruct (Prim2SF x) as [s0|s0| |s0 m e] eqn:Hx.
    + right. split; apply is_zero_binary64; [|eauto].
      cbn. rewrite add_spec, Hs, Hx. destruct s0, s; eexists; reflexivity.
    + left. apply Prim2SF_inj. cbn. rewrite add_spec, Hs, Hx. reflexivity.
    + left. apply Prim2SF_inj. cbn. rewrite add_spec, Hs, Hx. reflexivity.
    + left. apply Prim2SF_inj. cbn. rewrite add_spec, Hs, Hx. reflexivity.
Qed.
End Binary64Zeros.

Section ComposeFacts.
Context {fl : Type} `{Scalar fl} `{Libm fl}.
Context `{BoxModel fl} `{GridModel fl} `{ScoringModel fl}.

Lemma is_zero_0 : is_zero (0 : fl)%fl.
Proof. left. reflexivity. Qed.

Lemma same_number_refl (x : fl) : same_number x x.
Proof. left. reflexivity. Qed.

Lemma same_point_refl (u : vec3 fl) : same_point u u.
Proof. destruct u as [[u0 u1] u2]. repeat split; apply same_number_refl. Qed.

(** A row of a finite matrix times the zero vector. *)
Lemma row_zero (a b c : fl) :
  zero_laws -> finite a -> finite b -> finite c ->
  is_zero (a * 0 + b * 0 + c * 0)%fl.
Proof.
  intros (Hmul & Hadd & _) Ha Hb Hc.
  repeat apply Hadd; apply Hmul; auto using is_zero_0.
Qed.

(** What [compose_result] computes for the atom at the frame origin. *)
Lemma vadd_mat3_zero (o : vec3 fl) (m : mat3 fl) :
  zero_laws -> finite_matrix m ->
  same_point (vadd o (mat3_mul_vec3 m zero3)) o.
Proof.
  intros Hz Hm. pose proof Hz as (_ & _ & Hsame).
  destruct m as [[[[m0 m1] m2] [[m3 m4] m5]] [[m6 m7] m8]].
  destruct Hm as (F0 & F1 & F2 & F3 & F4 & F5 & F6 & F7 & F8).
  destruct o as [[o0 o1] o2].
  unfold mat3_mul_vec3, zero3, vadd, same_point.
  repeat split; apply Hsame; apply row_zero; assumption.
Qed.

Lemma compose_branch_release NDEBUG (lig : ligand fl) conf k st st' :
  compose_branch NDEBUG lig conf k st = Ret st' ->
  compose_branch true lig conf k st = Ret st'.
Proof.
  unfold compose_branch. destruct st as [t cmp]. intros Hc. inv_bind Hc.
  unfold quaternion_to_matrix in *. apply qtn4_to_mat3_release in Ha. subst a.
  rewrite qtn4_to_mat3_true. exact Hc.
Qed.

Lemma compose_branches_release NDEBUG (lig : ligand fl) conf n :
  forall k st st',
  compose_branches NDEBUG lig conf k n st = Ret st' ->
  compose_branches true lig conf k n st = Ret st'.
Proof.
  induction n as [|n IH]; intros k st st'; cbn [compose_branches]; [auto|].
  intros Hc. inv_bind Hc. apply compose_branch_release in Ha. rewrite Ha.
  cbn [bind]. apply IH. exact Hc.
Qed.

Lemma compose_release NDEBUG (lig : ligand fl) conf cmp :
  compose NDEBUG lig conf = Ret cmp -> compose true lig conf = Ret cmp.
Proof.
  unfold compose. intros Hc. inv_bind Hc.
  assert (Hroot : compose_root true lig conf (composition_init lig) = Ret a).
  { unfold compose_root in *. inv_bind Ha.
    unfold quaternion_to_matrix in *. apply qtn4_to_mat3_release in Ha0.
    subst a0. rewrite qtn4_to_mat3_true. exact Ha. }
  rewrite Hroot. cbn [bind]. inv_bind Hc.
  apply compose_branches_release in Ha0. rewrite Ha0. exact Hc.
Qed.

(** An atom that agrees before frame [k] agrees before the next frame,
    whose matrix goes to the entry [k]. *)
Lemma atom_agrees_next (lig : ligand fl) k ms m i x y :
  atom_agrees lig k ms i x y ->
  atom_agrees lig (S k) (<[k := m]> ms) i x y.
Proof.
  intros [->|(j & Hj & HjN & Hact & Hi & Hsame)]; [left; reflexivity|].
  right. exists j. rewrite list_lookup_total_insert_ne by lia.
  repeat split; auto; lia.
Qed.

Lemma branch_step_agree (lig : ligand fl) conf k st st' st1 st1' :
  zero_laws -> inactive_is_rotorY lig -> inactive_is_leaf lig ->
  (1 <= k < num_frames lig)%nat ->
  passes_agree lig (num_frames lig) k st st' ->
  branch_frame true (fun _ => true) lig conf k st = Ret (Some st1) ->
  compose_branch true lig conf k st' = Ret st1' ->
  passes_agree lig (num_frames lig) (S k) st1 st1'.
Proof.
  intros Hz Hin Hleaf Hk.
  destruct st as [t kin], st' as [t' cmp].
  intros (Ht & Ho & Hlen & Hc & Hlq & Hlq' & Hlm & Hlm' & Hent).
  cbn [fst snd] in *. subst t'.
  destruct (Hent (parent (frames lig !!! k))) as [Hpq Hpm].
  { destruct (Hleaf k Hk) as [-> | Hact]; auto. }
  unfold branch_frame, compose_branch, quaternion_to_matrix.
  rewrite !qtn4_to_mat3_true. cbn [negb bind BOOST_ASSERT orb].
  rewrite Ho, Hpq, Hpm.
  destruct (active (frames lig !!! k)) eqn:Hact; cbn [negb].
  - rewrite place_atoms_unchecked. cbn [mbind option_bind].
    intros [= <-] [= <-]. unfold passes_agree. cbn [fst snd origin coordinates
      orientation_q orientation_m origins out_heavy_atoms orientations_q
      orientations_m]. rewrite !length_insert, !transform_atoms_length.
    split; [reflexivity|]. split; [reflexivity|]. split; [exact Hlen|]. split.
    { intros i Hi. rewrite !transform_atoms_lookup, Hlen.
      destruct (decide _); [left; reflexivity|].
      apply atom_agrees_next, Hc, Hi. }
    repeat (split; [solve [auto]|]).
    intros j Hj. destruct (decide (j = k)) as [->|Hne].
    + rewrite !list_lookup_total_insert_eq by lia. auto.
    + rewrite !list_lookup_total_insert_ne by congruence. apply Hent.
      destruct Hj as [Hj|[Hj|Hj]]; [left; exact Hj | right; left; exact Hj | right; right; lia].
  - destruct (Hin k Hk Hact) as (Hone & Hrot & Hzero).
    intros [= <-] [= <-]. unfold passes_agree. cbn [fst snd origin coordinates
      orientation_q orientation_m origins out_heavy_atoms orientations_q
      orientations_m]. rewrite !length_insert, !transform_atoms_length.
    split; [reflexivity|]. split; [reflexivity|]. split; [exact Hlen|]. split.
    { intros i Hi.
      replace (haend (frames lig !!! k) - habegin (frames lig !!! k))%nat
        with 1%nat by lia.
      cbn [transform_atoms]. rewrite Hrot, Hzero.
      destruct (decide (i = rotorY (frames lig !!! k))) as [->|Hne].
      - rewrite !list_lookup_total_insert_eq by lia.
        right. exists k. rewrite list_lookup_total_insert_eq by lia.
        repeat split; auto; [lia..|].
        intros Hm. apply vadd_mat3_zero; assumption.
      - rewrite !list_lookup_total_insert_ne by congruence.
        apply atom_agrees_next, Hc, Hi. }
    repeat (split; [solve [auto]|]).
    intros j Hj. assert (j <> k) by (intros ->; destruct Hj as [?|[?|?]]; [lia|congruence|lia]).
    rewrite !list_lookup_total_insert_ne by congruence. apply Hent.
    destruct Hj as [Hj|[Hj|Hj]]; [left; exact Hj | right; left; exact Hj | right; right; lia].
Qed.

Lemma branch_loop_agree (lig : ligand fl) conf n :
  forall k st st' st1 st1',
  zero_laws -> inactive_is_rotorY lig -> inactive_is_leaf lig ->
  (1 <= k)%nat -> (k + n <= num_frames lig \/ n = 0)%nat ->
  passes_agree lig (num_frames lig) k st st' ->
  branch_frames true (fun _ => true) lig conf k n st = Ret (Some st1) ->
  compose_branches true lig conf k n st' = Ret st1' ->
  passes_agree lig (num_frames lig) (k + n) st1 st1'.
Proof.
  induction n as [|n IH]; intros k st st' st1 st1' Hz Hin Hleaf Hk Hn Hag;
    cbn [branch_frames compose_branches].
  - intros [= <-] [= <-]. rewrite Nat.add_0_r. exact Hag.
  - intros Hb Hc. inv_bind Hb. inv_bind Hc.
    destruct a as [sta|]; [|discriminate].
    assert (Hk' : (1 <= k < num_frames lig)%nat) by lia.
    pose proof (branch_step_agree _ _ _ _ _ _ _ Hz Hin Hleaf Hk' Hag Ha Ha0) as Hag'.
    assert (Hn' : (S k + n <= num_frames lig \/ n = 0)%nat) by lia.
    replace (k + S n)%nat with (S k + n)%nat by lia.
    exact (IH (S k) _ _ _ _ Hz Hin Hleaf ltac:(lia) Hn' Hag' Hb Hc).
Qed.

Lemma root_agree (lig : ligand fl) conf kin0 cmp0 :
  root_frame true (fun _ => true) lig conf (kinematics_init lig)
  = Ret (Some kin0) ->
  compose_root true lig conf (composition_init lig) = Ret cmp0 ->
  passes_agree lig (num_frames lig) 1 (0%nat, kin0) (0%nat, cmp0).
Proof.
  unfold root_frame, compose_root, quaternion_to_matrix.
  rewrite !qtn4_to_mat3_true. cbn [bind]. rewrite place_atoms_unchecked.
  cbn [mbind option_bind]. intros [= <-] [= <-].
  unfold passes_agree. cbn. rewrite !length_insert, !length_replicate.
  do 3 (split; [reflexivity|]).
  split; [intros i _; left; reflexivity|].
  repeat (split; [reflexivity|]). auto.
Qed.

(** The two passes, assertions compiled out and no box, end with
    coordinates that agree as numbers. *)
Lemma compose_world (lig : ligand fl) conf cmp :
  zero_laws -> inactive_is_rotorY lig -> inactive_is_leaf lig ->
  compose true lig conf = Ret cmp ->
  inactive_finite lig (orientations_m cmp) ->
  agree_as_numbers lig (out_heavy_atoms cmp)
    (coordinates (world_kinematics lig conf)).
Proof.
  intros Hz Hin Hleaf. unfold compose, world_kinematics, forward_kinematics.
  intros Hc Hfin. inv_bind Hc. inv_bind Hc. destruct a0 as [t' cmp'].
  injection Hc as ->.
  destruct (root_frame_sim true (fun _ => true) lig conf (kinematics_init lig))
    with (r := Some (A := kinematics fl)
                 (match root_frame true (fun _ => true) lig conf
                          (kinematics_init lig) with
                  | Ret (Some k) => k | _ => kinematics_init lig end))
    as (kin0 & Hr0 & _).
  { unfold root_frame, quaternion_to_matrix. rewrite qtn4_to_mat3_true.
    cbn [bind]. rewrite place_atoms_unchecked. reflexivity. }
  rewrite Hr0. cbn [bind].
  destruct (branch_frames_unchecked lig conf (num_frames lig - 1) 1 (0%nat, kin0))
    as ([t1 kin1] & Hb).
  rewrite Hb. cbn [bind fmap option_fmap option_map snd].
  pose proof (root_agree _ _ _ _ Hr0 Ha) as Hag.
  assert (Hn : (1 + (num_frames lig - 1) <= num_frames lig
                \/ num_frames lig - 1 = 0)%nat) by lia.
  pose proof (branch_loop_agree _ _ _ _ _ _ _ _ Hz Hin Hleaf (le_n 1) Hn Hag Hb Ha0)
    as (_ & _ & Hlen & Hcoords & _).
  cbn [fst snd] in Hlen, Hcoords.
  split; [exact Hlen|]. intros i Hi. rewrite Hlen in Hi.
  destruct (Hcoords i Hi) as [->|(j & Hj & HjN & Hact & -> & Hsame)].
  - split; [apply same_point_refl | left; reflexivity].
  - split.
    + apply Hsame, Hfin; [lia | exact Hact].
    + right. exists j. repeat split; auto; lia.
Qed.
End ComposeFacts.

(** C9. The heavy-atom world coordinates that [ligand::compose_result]
    returns agree, atom for atom, with those of the forward-kinematics
    pass of [ligand::evaluate] for the same conformation (the box and the
    assertions aside, which only end a pass early): they are the same for
    every atom but the rotor Y of a frame that is not active, and for
    that atom they are the same numbers, a zero coordinate possibly with
    the other sign. For such a frame [evaluate] places the rotor Y atom
    at the frame origin [o], while [compose_result] applies a torsion of
    0 and computes [o + m * 0] from the local coordinate zero of that
    atom, the only heavy atom of the frame; the matrix [m] is taken
    finite, so that [m * 0] is a zero. The arithmetic is any one with the
    three laws of zero that binary64 has. [compose_result] returns when
    assertions are compiled out, and a build that asserts returns the
    same result when it returns. *)
Theorem compose_result_matches_evaluate {fl : Type} `{Scalar fl} `{Libm fl}
    `{BoxModel fl} `{GridModel fl} `{ScoringModel fl}
    (lig : ligand fl) (conf : conformation fl) (e f : fl) :
  zero_laws -> inactive_is_rotorY lig -> inactive_is_leaf lig ->
  (forall cmp, compose true lig conf = Ret cmp ->
     inactive_finite lig (orientations_m cmp)) ->
  exists res,
    compose_result true lig e f conf = Ret res
    /\ (forall NDEBUG res',
          compose_result NDEBUG lig e f conf = Ret res' -> res' = res)
    /\ agree_as_numbers lig (result_heavy_atoms res)
         (coordinates (world_kinematics lig conf))
    /\ forall NDEBUG chk kin,
         forward_kinematics NDEBUG chk lig conf = Ret (Some kin) ->
         agree_as_numbers lig (result_heavy_atoms res) (coordinates kin).
Proof.
  intros Hz Hin Hleaf Hfin.
  destruct (compose_result_release_returns lig e f conf) as [res Hres].
  exists res. split; [exact Hres|]. split.
  { intros NDEBUG res' Hc. unfold compose_result in Hc, Hres.
    inv_bind Hc. apply compose_release in Ha. rewrite Ha in Hres.
    cbn [bind] in Hres. congruence. }
  unfold compose_result in Hres. inv_bind Hres.
  injection Hres as <-. cbn [result_heavy_atoms].
  pose proof (compose_world _ _ _ Hz Hin Hleaf Ha (Hfin _ Ha)) as Hw.
  split; [exact Hw|].
  intros NDEBUG chk kin Hf. apply forward_kinematics_sim in Hf as [-> _].
  exact Hw.
Qed.

(** ** [monte_carlo_task] *)

Section MonteCarloFacts.
Context {fl : Type} `{Scalar fl} `{Libm fl}.
Context `{BoxModel fl} `{GridModel fl} `{ScoringModel fl}.
Context `{ResultModel fl} `{RandomModel fl} `{RotationModel fl}.

(** *** Initialisation *)

Lemma initialize_valid NDEBUG (lig : ligand fl) sf b grid_maps eub n p0 eng :
  initialize NDEBUG lig sf b grid_maps eub n true p0 eng = Ret (true, p0, eng).
Proof. destruct n; reflexivity. Qed.

(** Lines 34-39: how a random conformation is drawn. *)
Lemma randomize_spec (lig : ligand fl) b c eng :
  exists x0 x1 x2 q0 q1 q2 q3 e1 e2 e3 e4 e5 e6 e7 ts e8,
    uniform_box0_gen b eng = (x0, e1)
    /\ uniform_box1_gen b e1 = (x1, e2)
    /\ uniform_box2_gen b e2 = (x2, e3)
    /\ normal_01_gen e3 = (q0, e4)
    /\ normal_01_gen e4 = (q1, e5)
    /\ normal_01_gen e5 = (q2, e6)
    /\ normal_01_gen e6 = (q3, e7)
    /\ randomize_torsions 0 (num_active_torsions lig) (torsions c) e7 = (ts, e8)
    /\ randomize lig b c eng
       = ({| position := (x0, x1, x2);
             orientation := normalize4 (q0, q1, q2, q3);
             torsions := ts |}, e8).
Proof.
  unfold randomize, draw3.
  destruct (uniform_box0_gen b eng) as [x0 e1] eqn:E0.
  destruct (uniform_box1_gen b e1) as [x1 e2] eqn:E1.
  destruct (uniform_box2_gen b e2) as [x2 e3] eqn:E2.
  destruct (normal_01_gen e3) as [q0 e4] eqn:E3.
  destruct (normal_01_gen e4) as [q1 e5] eqn:E4.
  destruct (normal_01_gen e5) as [q2 e6] eqn:E5.
  destruct (normal_01_gen e6) as [q3 e7] eqn:E6.
  destruct (randomize_torsions _ _ _ e7) as [ts e8] eqn:E7.
  exists x0, x1, x2, q0, q1, q2, q3, e1, e2, e3, e4, e5, e6, e7, ts, e8.
  rewrite E1, E2, E3, E4, E5, E6, E7. repeat split.
Qed.

(** The torsions are the draws, in their order. *)
Lemma randomize_torsions_draws n : forall i (ts : list fl) eng,
  (i + n <= length ts)%nat ->
  randomize_torsions i n ts eng
  = (take i ts ++ (draws uniform_pi_gen n eng).1 ++ drop (i + n) ts,
     (draws uniform_pi_gen n eng).2).
Proof.
  induction n as [|n IH]; intros i ts eng Hlen;
    cbn [randomize_torsions draws].
  - rewrite Nat.add_0_r. cbn [fst snd app]. rewrite take_drop. reflexivity.
  - destruct (uniform_pi_gen eng) as [v eng1].
    rewrite IH by (rewrite length_insert; lia).
    destruct (draws uniform_pi_gen n eng1) as [vs eng2]. cbn [fst snd].
    f_equal.
    rewrite (take_S_r _ _ v) by (apply list_lookup_insert_eq; lia).
    rewrite take_insert_ge by lia.
    rewrite drop_insert_lt by lia.
    rewrite <- app_assoc. cbn [app].
    replace (S i + n)%nat with (i + S n)%nat by lia. reflexivity.
Qed.

Lemma draws_length gen n : forall eng, length (draws gen n eng).1 = n.
Proof.
  induction n as [|n IH]; intros eng; cbn [draws]; [reflexivity|].
  destruct (gen eng) as [v eng1]. specialize (IH eng1).
  destruct (draws gen n eng1) as [vs eng2]. cbn [fst length] in *. lia.
Qed.

(** Lines 34-39 draw a random conformation. *)
Lemma randomize_random_conformation (lig : ligand fl) b c eng :
  length (torsions c) = num_active_torsions lig ->
  randomize lig b c eng = random_conformation lig b eng.
Proof.
  intros Hlen. unfold randomize, random_conformation, draw3,
    uniform_box0_gen, uniform_box1_gen, uniform_box2_gen, normal_01_gen.
  destruct (uniform_real_distribution _ _ eng) as [x0 e1].
  destruct (uniform_real_distribution _ _ e1) as [x1 e2].
  destruct (uniform_real_distribution _ _ e2) as [x2 e3].
  destruct (normal_distribution _ _ e3) as [q0 e4].
  destruct (normal_distribution _ _ e4) as [q1 e5].
  destruct (normal_distribution _ _ e5) as [q2 e6].
  destruct (normal_distribution _ _ e6) as [q3 e7].
  rewrite randomize_torsions_draws by lia.
  fold uniform_pi_gen.
  pose proof (draws_length uniform_pi_gen (num_active_torsions lig) e7) as Hd.
  destruct (draws uniform_pi_gen _ e7) as [ts e8]. cbn [fst snd] in *.
  rewrite take_0, drop_ge by (cbn; lia). rewrite app_nil_r. reflexivity.
Qed.

Lemma random_conformation_torsions (lig : ligand fl) b eng :
  length (torsions (random_conformation lig b eng).1)
  = num_active_torsions lig.
Proof.
  unfold random_conformation.
  destruct (uniform_real_distribution _ _ eng) as [x0 e1].
  destruct (uniform_real_distribution _ _ e1) as [x1 e2].
  destruct (uniform_real_distribution _ _ e2) as [x2 e3].
  destruct (normal_distribution _ _ e3) as [q0 e4].
  destruct (normal_distribution _ _ e4) as [q1 e5].
  destruct (normal_distribution _ _ e5) as [q2 e6].
  destruct (normal_distribution _ _ e6) as [q3 e7].
  pose proof (draws_length (uniform_real_distribution (fneg pi) pi)
                (num_active_torsions lig) e7) as Hd.
  destruct (draws _ _ e7) as [ts e8]. exact Hd.
Qed.

(** The body of the loop: a random conformation and its evaluation. *)
Lemma attempt_random_conformation NDEBUG (lig : ligand fl) sf b grid_maps
    bound p0 eng :
  length (torsions (pose_c p0)) = num_active_torsions lig ->
  attempt NDEBUG lig sf b grid_maps bound p0 eng
  = (let '(c, eng') := random_conformation lig b eng in
     let* r := evaluate NDEBUG lig c sf b grid_maps bound
                 (pose_e p0) (pose_f p0) (pose_g p0) in
     Ret (accepted r, mk_pose c (e_out r) (f_out r) (g_out r), eng')).
Proof.
  intros Hlen. unfold attempt, evaluate_into.
  rewrite randomize_random_conformation by exact Hlen.
  destruct (random_conformation lig b eng) as [c eng'].
  destruct (evaluate _ _ _ _ _ _ _ _ _ _) as [r|f]; reflexivity.
Qed.

(** The loop of lines 31-41 is the search for the first random
    conformation that the evaluator accepts; [k] is what follows it. *)
Lemma initialize_first_accepted {A : Type} NDEBUG (lig : ligand fl) sf b
    grid_maps bound (none : outcome A) (k : pose fl -> engine -> outcome A) n :
  forall p0 eng,
  length (torsions (pose_c p0)) = num_active_torsions lig ->
  (let* i := initialize NDEBUG lig sf b grid_maps bound n false p0 eng in
   let '(valid_conformation, p0, eng) := i in
   if negb valid_conformation then none else k p0 eng)
  = (let* s := first_accepted NDEBUG lig sf b grid_maps bound n p0 eng in
     match s with
     | None => none
     | Some (p0, eng) => k p0 eng
     end).
Proof.
  induction n as [|n IH]; intros p0 eng Hlen;
    cbn [initialize first_accepted]; [reflexivity|].
  rewrite attempt_random_conformation by exact Hlen.
  pose proof (random_conformation_torsions lig b eng) as Hc.
  destruct (random_conformation lig b eng) as [c eng']. cbn [fst] in Hc.
  destruct (evaluate _ _ _ _ _ _ _ _ _ _) as [r|f]; cbn [bind];
    [|reflexivity].
  destruct (accepted r).
  - rewrite initialize_valid. reflexivity.
  - apply IH. exact Hc.
Qed.

(** What the search returns. *)
Lemma first_accepted_spec NDEBUG (lig : ligand fl) sf b grid_maps bound n :
  forall slot eng s,
  first_accepted NDEBUG lig sf b grid_maps bound n slot eng = Ret s ->
  match s with
  | Some (p0, eng') =>
      exists k, (k < n)%nat
        /\ pose_c p0 = random_start lig b k eng
        /\ eng' = engine_after lig b (S k) eng
        /\ (forall j, (j < k)%nat ->
              refused lig sf b grid_maps bound (random_start lig b j eng))
        /\ ~ refused lig sf b grid_maps bound (random_start lig b k eng)
        /\ pose_e p0 = e_total lig sf b grid_maps (pose_c p0)
        /\ pose_f p0 = e_inter lig sf b grid_maps (pose_c p0)
  | None =>
      forall j, (j < n)%nat ->
        refused lig sf b grid_maps bound (random_start lig b j eng)
  end.
Proof.
  induction n as [|n IH]; intros slot eng s; cbn [first_accepted].
  - intros [= <-]. intros j Hj. lia.
  - destruct (random_conformation lig b eng) as [c eng1] eqn:Hrc.
    intros Hf. inv_bind Hf. rename a into r.
    assert (Hc0 : random_start lig b 0 eng = c).
    { unfold random_start. cbn [engine_after]. rewrite Hrc. reflexivity. }
    assert (Hshift : forall j, random_start lig b (S j) eng
                               = random_start lig b j eng1).
    { intros j. unfold random_start. cbn [engine_after]. rewrite Hrc.
      reflexivity. }
    assert (Heng : forall j, engine_after lig b (S j) eng
                             = engine_after lig b j eng1).
    { intros j. cbn [engine_after]. rewrite Hrc. reflexivity. }
    apply evaluate_cases in Ha.
    destruct Ha as [[Hout ->] | [(Hin & Hb & ->) | (Hin & Hb & g' & Hg & ->)]];
      cbn [accepted e_out f_out g_out] in Hf.
    + apply IH in Hf. destruct s as [[p0 eng']|].
      * destruct Hf as (k & Hk & Hc & He & Hrej & Hacc & Hef).
        exists (S k). rewrite !Hshift, Heng. split; [lia|].
        repeat (split; [assumption|]). split; [|split; assumption].
        intros [|j] Hj; [rewrite Hc0; left; exact Hout|].
        rewrite Hshift. apply Hrej. lia.
      * intros [|j] Hj; [rewrite Hc0; left; exact Hout|].
        rewrite Hshift. apply Hf. lia.
    + apply IH in Hf. destruct s as [[p0 eng']|].
      * destruct Hf as (k & Hk & Hc & He & Hrej & Hacc & Hef).
        exists (S k). rewrite !Hshift, Heng. split; [lia|].
        repeat (split; [assumption|]). split; [|split; assumption].
        intros [|j] Hj; [rewrite Hc0; right; exact Hb|].
        rewrite Hshift. apply Hrej. lia.
      * intros [|j] Hj; [rewrite Hc0; right; exact Hb|].
        rewrite Hshift. apply Hf. lia.
    + injection Hf as <-. exists 0%nat. rewrite Hc0.
      cbn [engine_after pose_c pose_e pose_f]. rewrite Hrc. cbn [snd].
      split; [lia|]. repeat split.
      * intros j Hj. lia.
      * intros [Hout | Hb']; [contradiction | congruence].
Qed.

(** With assertions compiled out the search returns. *)
Lemma first_accepted_returns (lig : ligand fl) sf b grid_maps bound n :
  (active_branches lig (num_frames lig - 1) <= num_active_torsions lig)%nat ->
  forall slot eng,
  exists s, first_accepted true lig sf b grid_maps bound n slot eng = Ret s.
Proof.
  intros Hlig. induction n as [|n IH]; intros slot eng;
    cbn [first_accepted]; [eauto|].
  destruct (random_conformation lig b eng) as [c eng1].
  destruct (evaluate_release_returns lig c sf b grid_maps bound
              (pose_e slot) (pose_f slot) (pose_g slot) Hlig) as [r ->].
  cbn [bind]. destruct (accepted r); [eauto | apply IH].
Qed.
End MonteCarloFacts.

(** C7. At the start of [monte_carlo_task] at most 1000 random
    conformations are generated, each with its position drawn uniformly
    between the corners of the box, its orientation the normalization of
    four standard-normal samples and each torsion drawn uniformly in
    [[-pi, pi]], and each is evaluated; the loop stops at the first one
    the evaluator accepts, and the task goes on from it; if all 1000 are
    refused, the task returns at once, the container as it was and no
    error raised. The first part is about the body of the loop, the
    second about the task as a whole, the third about the conformation
    the task starts from, and the last two about a task none of whose
    1000 conformations is accepted. *)
Theorem initialization_first_of_1000 {fl : Type} `{Scalar fl} `{Libm fl}
    `{BoxModel fl} `{GridModel fl} `{ScoringModel fl}
    `{ResultModel fl} `{RandomModel fl} `{RotationModel fl}
    (fuel : nat) (NDEBUG : bool) (results : ptr_vector (result fl))
    (lig : ligand fl) (seed : nat) (sf : scoring_function) (b : box)
    (grid_maps : list array3d) :
  let n := num_active_torsions lig in
  let bound := fl_of_size_t (4 * num_heavy_atoms lig) in
  let eng0 := mt19937_64 seed in
  let search :=
    first_accepted NDEBUG lig sf b grid_maps bound 1000 (pose_init n) eng0 in
  (forall p0 eng,
     length (torsions (pose_c p0)) = n ->
     randomize lig b (pose_c p0) eng = random_conformation lig b eng
     /\ attempt NDEBUG lig sf b grid_maps bound p0 eng
        = (let '(c, eng') := random_conformation lig b eng in
           let* r := evaluate NDEBUG lig c sf b grid_maps bound
                       (pose_e p0) (pose_f p0) (pose_g p0) in
           Ret (accepted r, mk_pose c (e_out r) (f_out r) (g_out r), eng')))
  /\ monte_carlo_task fuel NDEBUG results lig seed sf b grid_maps
     = (let* s := search in
        match s with
        | None => Ret results
        | Some (p0, eng) =>
            let* st := mc_iterations fuel NDEBUG lig sf b grid_maps
                         (100 * num_heavy_atoms lig)
                         (mk_task_state results (pose_e p0) p0
                            (pose_init n) (pose_init n) eng) in
            Ret (ts_results st)
        end)
  /\ (forall p0 eng,
        search = Ret (Some (p0, eng)) ->
        exists k, (k < 1000)%nat
          /\ pose_c p0 = random_start lig b k eng0
          /\ eng = engine_after lig b (S k) eng0
          /\ (forall j, (j < k)%nat ->
                refused lig sf b grid_maps bound (random_start lig b j eng0))
          /\ ~ refused lig sf b grid_maps bound (random_start lig b k eng0)
          /\ pose_e p0 = e_total lig sf b grid_maps (pose_c p0)
          /\ pose_f p0 = e_inter lig sf b grid_maps (pose_c p0))
  /\ (search = Ret None ->
      (forall j, (j < 1000)%nat ->
         refused lig sf b grid_maps bound (random_start lig b j eng0))
      /\ monte_carlo_task fuel NDEBUG results lig seed sf b grid_maps
         = Ret results)
  /\ (NDEBUG = true ->
      (active_branches lig (num_frames lig - 1) <= num_active_torsions lig)%nat ->
      (forall j, (j < 1000)%nat ->
         refused lig sf b grid_maps bound (random_start lig b j eng0)) ->
      monte_carlo_task fuel NDEBUG results lig seed sf b grid_maps
      = Ret results).
Proof.
  intros n bound eng0 search.
  assert (Htask : monte_carlo_task fuel NDEBUG results lig seed sf b grid_maps
     = (let* s := search in
        match s with
        | None => Ret results
        | Some (p0, eng) =>
            let* st := mc_iterations fuel NDEBUG lig sf b grid_maps
                         (100 * num_heavy_atoms lig)
                         (mk_task_state results (pose_e p0) p0
                            (pose_init n) (pose_init n) eng) in
            Ret (ts_results st)
        end)).
  { unfold monte_carlo_task. cbv zeta.
    apply (initialize_first_accepted NDEBUG lig sf b grid_maps bound
             (Ret results)
             (fun p0 eng =>
                let* st := mc_iterations fuel NDEBUG lig sf b grid_maps
                             (100 * num_heavy_atoms lig)
                             (mk_task_state results (pose_e p0) p0
                                (pose_init n) (pose_init n) eng) in
                Ret (ts_results st))).
    cbn. apply length_replicate. }
  split; [|split; [exact Htask|split; [|split]]].
  - intros p0 eng Hlen. split.
    + apply randomize_random_conformation. exact Hlen.
    + apply attempt_random_conformation. exact Hlen.
  - intros p0 eng Hs.
    exact (first_accepted_spec _ _ _ _ _ _ _ _ _ _ Hs).
  - intros Hs. split.
    + exact (first_accepted_spec _ _ _ _ _ _ _ _ _ _ Hs).
    + rewrite Htask, Hs. reflexivity.
  - intros -> Hlig Hall. rewrite Htask.
    destruct (first_accepted_returns lig sf b grid_maps bound 1000 Hlig
                (pose_init n) eng0) as [s Hs].
    fold search in Hs.
    subst search. rewrite Hs. cbn [bind].
    destruct s as [[p0 eng]|]; [|reflexivity].
    apply first_accepted_spec in Hs
      as (k & Hk & _ & _ & _ & Hacc & _).
    exfalso. apply Hacc, Hall, Hk.
Qed.

Section LineSearchFacts.
Context {fl : Type} `{Scalar fl} `{Libm fl}.
Context `{BoxModel fl} `{GridModel fl} `{ScoringModel fl}.
Context `{ResultModel fl} `{RandomModel fl} `{RotationModel fl}.

Lemma alpha_after_S k : forall alpha : fl,
  alpha_after (S k) alpha = fmul (alpha_after k alpha) (flit 0.1%float).
Proof.
  induction k as [|k IH]; intros alpha; [reflexivity|].
  change (alpha_after (S (S k)) alpha)
    with (alpha_after (S k) (fmul alpha (flit 0.1%float))).
  rewrite IH. reflexivity.
Qed.

Lemma line_search_spec NDEBUG (lig : ligand fl) sf b grid_maps p1 p pg1 n :
  forall trials0 alpha0 p2 trials alpha p2',
  line_search NDEBUG lig sf b grid_maps p1 p pg1 n trials0 alpha0 p2
  = Ret (trials, alpha, p2') ->
  exists k, trials = (trials0 + k)%nat /\ (k <= n)%nat
    /\ ((k < n)%nat ->
        exists q,
          failed_trials NDEBUG lig sf b grid_maps p1 p pg1 k alpha0 p2 q
          /\ alpha = alpha_after (S k) alpha0
          /\ trial NDEBUG lig sf b grid_maps p1 p pg1 alpha q = Ret (true, p2'))
    /\ (k = n ->
        failed_trials NDEBUG lig sf b grid_maps p1 p pg1 n alpha0 p2 p2'
        /\ alpha = alpha_after n alpha0).
Proof.
  induction n as [|n IH]; intros trials0 alpha0 p2 trials alpha p2';
    cbn [line_search].
  - intros [= <- <- <-]. exists 0%nat. split; [lia|]. split; [lia|].
    split; [lia|]. intros _. split; [constructor | reflexivity].
  - intros Hl. inv_bind Hl. destruct a as [found q1]. destruct found.
    + injection Hl as <- <- <-. exists 0%nat. split; [lia|]. split; [lia|].
      split; [|lia]. intros _. exists p2. split; [constructor|].
      split; [reflexivity | exact Ha].
    + apply IH in Hl as (k & -> & Hk & Hlt & Heq).
      exists (S k). split; [lia|]. split; [lia|]. split.
      * intros Hk'. destruct Hlt as (q & Hf & -> & Ht); [lia|].
        exists q. split; [econstructor; eassumption|].
        split; [reflexivity | exact Ht].
      * intros Hk'. destruct Heq as [Hf ->]; [lia|].
        split; [econstructor; eassumption | reflexivity].
Qed.

Lemma trial_spec NDEBUG (lig : ligand fl) sf b grid_maps p1 p pg1 alpha q
    found q' :
  trial NDEBUG lig sf b grid_maps p1 p pg1 alpha q = Ret (found, q') ->
  exists c2 r,
    step_conformation NDEBUG lig (pose_c p1) (pose_c q) p alpha = Ret c2
    /\ evaluate NDEBUG lig c2 sf b grid_maps
         (fadd (pose_e p1) (fmul (fmul (flit 0.0001%float) alpha) pg1))
         (pose_e q) (pose_f q) (pose_g q) = Ret r
    /\ q' = mk_pose c2 (e_out r) (f_out r) (g_out r)
    /\ found
       = accepted r
         && fleb (fmul (flit 0.9%float) pg1)
                 (change_dot p (g_out r) (6 + num_active_torsions lig)).
Proof.
  unfold trial, evaluate_into. intros Ht. inv_bind Ht. inv_bind Ht.
  inv_bind Ha0. injection Ha0 as <-. injection Ht as <- <-.
  exists a, a1. auto.
Qed.
End LineSearchFacts.

(** C5. In the line search of [monte_carlo_task] the step length [alpha]
    starts at 1 and is multiplied by 0.1 for each trial, the first
    included, and at most [num_alphas = 5] trials are made; a trial with
    step [alpha] is accepted if and only if the evaluator accepts the
    stepped conformation [c2] under the bound [e1 + 1e-4 * alpha * pg1] and
    [p . g2 >= 0.9 * pg1]; the search stops at the first trial accepted,
    and if none of the 5 is, the BFGS loop ends. *)
Theorem line_search_wolfe {fl : Type} `{Scalar fl} `{Libm fl}
    `{BoxModel fl} `{GridModel fl} `{ScoringModel fl}
    `{ResultModel fl} `{RandomModel fl} `{RotationModel fl}
    (NDEBUG : bool) (lig : ligand fl) (sf : scoring_function) (b : box)
    (grid_maps : list array3d) (h : list fl) (p1 p2 : pose fl) :
  let n := num_active_torsions lig in
  let p := minus_h_times h (pose_g p1) n in
  let pg1 := change_dot p (pose_g p1) (6 + n) in
  num_alphas = 5%nat
  /\ alpha_after 0 (flit 1%float) = flit 1%float
  /\ (forall k, alpha_after (S k) (flit 1%float)
                = fmul (alpha_after k (flit 1%float)) (flit 0.1%float))
  /\ (forall trials alpha p2',
        line_search NDEBUG lig sf b grid_maps p1 p pg1 num_alphas 0
          (flit 1%float) p2 = Ret (trials, alpha, p2') ->
        (trials <= 5)%nat
        /\ ((trials < 5)%nat ->
            exists q,
              failed_trials NDEBUG lig sf b grid_maps p1 p pg1 trials
                (flit 1%float) p2 q
              /\ alpha = alpha_after (S trials) (flit 1%float)
              /\ trial NDEBUG lig sf b grid_maps p1 p pg1 alpha q
                 = Ret (true, p2'))
        /\ (trials = 5%nat ->
            failed_trials NDEBUG lig sf b grid_maps p1 p pg1 5
              (flit 1%float) p2 p2'
            /\ forall fuel,
                 bfgs (S fuel) NDEBUG lig sf b grid_maps h p1 p2
                 = Ret (p1, p2')))
  /\ (forall alpha q found q',
        trial NDEBUG lig sf b grid_maps p1 p pg1 alpha q = Ret (found, q') ->
        exists c2 r,
          step_conformation NDEBUG lig (pose_c p1) (pose_c q) p alpha = Ret c2
          /\ evaluate NDEBUG lig c2 sf b grid_maps
               (fadd (pose_e p1) (fmul (fmul (flit 0.0001%float) alpha) pg1))
               (pose_e q) (pose_f q) (pose_g q) = Ret r
          /\ q' = mk_pose c2 (e_out r) (f_out r) (g_out r)
          /\ found
             = accepted r
               && fleb (fmul (flit 0.9%float) pg1)
                       (change_dot p (g_out r) (6 + n))).
Proof.
  intros n p pg1. split; [reflexivity|]. split; [reflexivity|].
  split; [intros k; apply alpha_after_S|]. split.
  - intros trials alpha p2' Hl. pose proof Hl as Hl'.
    apply line_search_spec in Hl as (k & -> & Hk & Hlt & Heq).
    cbn [Nat.add]. change num_alphas with 5%nat in *.
    split; [exact Hk|]. split; [exact Hlt|].
    intros ->. destruct (Heq eq_refl) as [Hf _]. split; [exact Hf|].
    intros fuel. cbn [bfgs]. fold n. fold p. fold pg1.
    change num_alphas with 5%nat. rewrite Hl'. reflexivity.
  - intros alpha q found q'. apply trial_spec.
Qed.

Section OrientationFacts.
Context {fl : Type} `{Scalar fl} `{Libm fl}.
Context `{BoxModel fl} `{GridModel fl} `{ScoringModel fl}.
Context `{ResultModel fl} `{RandomModel fl} `{RotationModel fl}.

Lemma assert_debug c u : assert false c = Ret u -> c = true.
Proof. destruct u. apply BOOST_ASSERT_holds. Qed.

Lemma mutate_orientation NDEBUG (lig : ligand fl) c0 eng c1 eng' :
  mutate NDEBUG lig c0 eng = Ret (c1, eng') ->
  let me := uniform_int_distribution 0 (2 + num_active_torsions lig - 1) eng in
  let d := (draw3 uniform_11_gen uniform_11_gen uniform_11_gen me.2).1 in
  ((me.1 <= num_active_torsions lig)%nat /\ orientation c1 = orientation c0)
  \/ ((num_active_torsions lig < me.1)%nat
      /\ orientation c1
         = qmul (vec3_to_qtn4 (smul (flit 0.01%float) d)) (orientation c0)
      /\ (NDEBUG = false -> normalized4 (orientation c1) = true)).
Proof.
  unfold mutate. destruct (uniform_int_distribution _ _ _) as [me e1].
  cbn [fst snd]. intros Hm. inv_bind Hm. clear Ha.
  destruct (me <? num_active_torsions lig)%nat eqn:Hlt.
  - destruct (uniform_pi_gen e1). injection Hm as <- <-.
    apply Nat.ltb_lt in Hlt. left. split; [lia | reflexivity].
  - destruct (me =? num_active_torsions lig)%nat eqn:Heq.
    + destruct (draw3 _ _ _ _). injection Hm as <- <-.
      apply Nat.eqb_eq in Heq. left. split; [lia | reflexivity].
    + destruct (draw3 _ _ _ _) as [d e2]. inv_bind Hm.
      injection Hm as <- <-. cbn [fst orientation].
      apply Nat.ltb_ge in Hlt. apply Nat.eqb_neq in Heq.
      right. split; [lia|]. split; [reflexivity|].
      intros ->. exact (assert_debug _ _ Ha).
Qed.

Lemma step_conformation_orientation NDEBUG (lig : ligand fl) c1 c2 p alpha c :
  step_conformation NDEBUG lig c1 c2 p alpha = Ret c ->
  orientation c
  = qmul (vec3_to_qtn4
            (smul alpha (change_get p 3, change_get p 4, change_get p 5)))
         (orientation c1)
  /\ (NDEBUG = false ->
      normalized4 (orientation c1) = true /\ normalized4 (orientation c) = true).
Proof.
  unfold step_conformation. intros Hs. do 2 inv_bind Hs.
  injection Hs as <-. cbn [orientation]. split; [reflexivity|].
  intros ->. split; eapply assert_debug; eassumption.
Qed.

Lemma evaluate_asserts_normalized (lig : ligand fl) conf sf b grid_maps bound
    e f g r :
  evaluate false lig conf sf b grid_maps bound e f g = Ret r ->
  within b (position conf) = true ->
  normalized4 (orientation conf) = true.
Proof.
  unfold evaluate. intros He Hw. rewrite Hw in He. cbn [negb] in He.
  inv_bind He.
  unfold forward_kinematics in Ha. inv_bind Ha.
  unfold root_frame, quaternion_to_matrix in Ha0. inv_bind Ha0.
  match goal with
  | Hq : qtn4_to_mat3 false _ = Ret _ |- _ =>
      unfold qtn4_to_mat3 in Hq; inv_bind Hq
  end.
  match goal with
  | Hb : BOOST_ASSERT false _ = Ret ?u |- _ =>
      destruct u; exact (BOOST_ASSERT_holds _ Hb)
  end.
Qed.
End OrientationFacts.

(** C2, as the code has it. An orientation mutation and a line-search
    step form the product of a small rotation quaternion with the
    orientation they start from and do not re-normalize it; with
    assertions compiled in they assert that the product is within 1e-2 of
    unit norm, and every conformation the evaluator is given inside the
    box is asserted to be so. The one explicit normalization is that of
    the four normal samples of a random start. *)
Theorem orientation_asserted_not_renormalized {fl : Type} `{Scalar fl}
    `{Libm fl} `{BoxModel fl} `{GridModel fl} `{ScoringModel fl}
    `{ResultModel fl} `{RandomModel fl} `{RotationModel fl}
    (lig : ligand fl) :
  (forall NDEBUG c0 eng c1 eng',
     mutate NDEBUG lig c0 eng = Ret (c1, eng') ->
     let me := uniform_int_distribution 0 (2 + num_active_torsions lig - 1) eng in
     let d := (draw3 uniform_11_gen uniform_11_gen uniform_11_gen me.2).1 in
     ((me.1 <= num_active_torsions lig)%nat /\ orientation c1 = orientation c0)
     \/ ((num_active_torsions lig < me.1)%nat
         /\ orientation c1
            = qmul (vec3_to_qtn4 (smul (flit 0.01%float) d)) (orientation c0)
         /\ (NDEBUG = false -> normalized4 (orientation c1) = true)))
  /\ (forall NDEBUG c1 c2 p alpha c,
        step_conformation NDEBUG lig c1 c2 p alpha = Ret c ->
        orientation c
        = qmul (vec3_to_qtn4
                  (smul alpha (change_get p 3, change_get p 4, change_get p 5)))
               (orientation c1)
        /\ (NDEBUG = false ->
            normalized4 (orientation c1) = true
            /\ normalized4 (orientation c) = true))
  /\ (forall conf sf b grid_maps bound e f g r,
        evaluate false lig conf sf b grid_maps bound e f g = Ret r ->
        within b (position conf) = true ->
        normalized4 (orientation conf) = true)
  /\ (forall b c eng,
        exists q0 q1 q2 q3,
          orientation (randomize lig b c eng).1 = normalize4 (q0, q1, q2, q3)).
Proof.
  split; [|split; [|split]].
  - intros NDEBUG c0 eng c1 eng'. apply mutate_orientation.
  - intros NDEBUG c1 c2 p alpha c. apply step_conformation_orientation.
  - intros conf sf b grid_maps bound e f g r. apply evaluate_asserts_normalized.
  - intros b c eng.
    destruct (randomize_spec lig b c eng)
      as (x0 & x1 & x2 & q0 & q1 & q2 & q3 & e1 & e2 & e3 & e4 & e5 & e6 & e7
          & ts & e8 & _ & _ & _ & _ & _ & _ & _ & _ & ->).
    exists q0, q1, q2, q3. reflexivity.
Qed.

Section MetropolisFacts.
Context {fl : Type} `{Scalar fl} `{Libm fl}.
Context `{BoxModel fl} `{GridModel fl} `{ScoringModel fl}.
Context `{ResultModel fl} `{RandomModel fl} `{RotationModel fl}.

(** What the Metropolis step does, case by case. *)
Lemma metropolis_spec NDEBUG (lig : ligand fl) rse results best_e p0 p1 eng
    results' best_e' p0' eng' :
  metropolis NDEBUG lig rse results best_e p0 p1 eng
  = Ret (results', best_e', p0', eng') ->
  let delta := fsub (pose_e p0) (pose_e p1) in
  let accept :=
    fltb (flit 0%float) delta
    || fltb (uniform_01_gen eng).1 (fexp delta) in
  let offered :=
    fltb (pose_e p1) best_e
    || (length (items results) <? capacity results)%nat in
  eng' = (if fltb (flit 0%float) delta then eng else (uniform_01_gen eng).2)
  /\ (accept = false ->
      results' = results /\ best_e' = best_e /\ p0' = p0)
  /\ (accept = true ->
      p0' = mk_pose (pose_c p1) (pose_e p1) (pose_f p0) (pose_g p0)
      /\ (offered = false -> results' = results /\ best_e' = best_e)
      /\ (offered = true ->
          exists r,
            compose_result NDEBUG lig (pose_e p1) (pose_f p1) (pose_c p1)
            = Ret r
            /\ results' = add_to_result_container results r rse
            /\ best_e' = if fltb (pose_e p1) best_e then pose_e p0
                         else best_e)).
Proof.
  unfold metropolis. cbv zeta.
  destruct (fltb (flit 0%float) (fsub (pose_e p0) (pose_e p1))) eqn:Hd.
  - cbn [orb]. intros Hm. inv_bind Hm. destruct a as [rs be].
    injection Hm as <- <- <- <-. split; [reflexivity|].
    split; [discriminate|]. intros _. split; [reflexivity|].
    destruct (_ || _).
    + inv_bind Ha. injection Ha as <- <-. split; [discriminate|]. eauto.
    + injection Ha as <- <-. split; [auto | discriminate].
  - cbn [orb]. destruct (uniform_01_gen eng) as [u eng1]. cbn [fst snd].
    destruct (fltb u _).
    + intros Hm. inv_bind Hm. destruct a as [rs be].
      injection Hm as <- <- <- <-. split; [reflexivity|].
      split; [discriminate|]. intros _. split; [reflexivity|].
      destruct (_ || _).
      * inv_bind Ha. injection Ha as <- <-. split; [discriminate|]. eauto.
      * injection Ha as <- <-. split; [auto | discriminate].
    + intros [= <- <- <- <-]. split; [reflexivity|].
      split; [auto | discriminate].
Qed.
End MetropolisFacts.

(** C1, as the code runs. When the candidate is lower in energy than the
    conformation it started from ([delta > 0], so it is accepted) and
    lower than [best_e], the result composed from [(e1, f1, c1)] is
    offered to the pool and [c0], [e0] become [c1], [e1]; [best_e],
    however, is set to [e0], the energy of the conformation that is
    replaced, where the minimum of [best_e] and [e1] is [e1]. *)
Theorem metropolis_best_e_is_e0 {fl : Type} `{Scalar fl} `{Libm fl}
    `{BoxModel fl} `{GridModel fl} `{ScoringModel fl}
    `{ResultModel fl} `{RandomModel fl} `{RotationModel fl}
    (NDEBUG : bool) (lig : ligand fl) (required_square_error : fl)
    (results : ptr_vector (result fl)) (best_e : fl) (p0 p1 : pose fl)
    (eng : engine) results' best_e' p0' eng' :
  metropolis NDEBUG lig required_square_error results best_e p0 p1 eng
  = Ret (results', best_e', p0', eng') ->
  fltb (flit 0%float) (fsub (pose_e p0) (pose_e p1)) = true ->
  fltb (pose_e p1) best_e = true ->
  best_e' = pose_e p0
  /\ p0' = mk_pose (pose_c p1) (pose_e p1) (pose_f p0) (pose_g p0)
  /\ eng' = eng
  /\ exists r,
       compose_result NDEBUG lig (pose_e p1) (pose_f p1) (pose_c p1) = Ret r
       /\ results' = add_to_result_container results r required_square_error.
Proof.
  intros Hm Hdelta Hbest. apply metropolis_spec in Hm. cbv zeta in Hm.
  rewrite Hdelta, Hbest in Hm. cbn [orb] in Hm.
  destruct Hm as (-> & _ & Hacc).
  destruct (Hacc eq_refl) as (-> & _ & Hoff).
  destruct (Hoff eq_refl) as (r & Hr & -> & ->).
  repeat split; eauto.
Qed.

(** ** Assertions only end a run early

    A call that returns with assertions checked returns the same value
    with assertions compiled out. *)

Section Release.
Context {fl : Type} `{Scalar fl} `{Libm fl}.
Context `{BoxModel fl} `{GridModel fl} `{ScoringModel fl}.
Context `{ResultModel fl} `{RandomModel fl} `{RotationModel fl}.

Lemma qtn4_to_mat3_rel NDEBUG (q : qtn4 fl) m :
  qtn4_to_mat3 NDEBUG q = Ret m -> qtn4_to_mat3 true q = Ret m.
Proof. intros Hq. apply qtn4_to_mat3_release in Hq. subst. reflexivity. Qed.

Lemma root_frame_release NDEBUG chk (lig : ligand fl) conf kin r :
  root_frame NDEBUG chk lig conf kin = Ret r ->
  root_frame true chk lig conf kin = Ret r.
Proof.
  unfold root_frame, quaternion_to_matrix. intros Hr. inv_bind Hr.
  apply qtn4_to_mat3_rel in Ha. rewrite Ha. exact Hr.
Qed.

Lemma branch_frame_release NDEBUG chk (lig : ligand fl) conf k st r :
  branch_frame NDEBUG chk lig conf k st = Ret r ->
  branch_frame true chk lig conf k st = Ret r.
Proof.
  unfold branch_frame, quaternion_to_matrix. destruct st as [t kin].
  destruct (negb (chk _)); [auto|].
  destruct (negb (active _)).
  - intros Hb. do 2 inv_bind Hb. exact Hb.
  - intros Hb. do 4 inv_bind Hb. apply qtn4_to_mat3_rel in Ha2.
    cbn [BOOST_ASSERT orb bind]. rewrite Ha2. exact Hb.
Qed.

Lemma branch_frames_release NDEBUG chk (lig : ligand fl) conf n :
  forall k st r,
  branch_frames NDEBUG chk lig conf k n st = Ret r ->
  branch_frames true chk lig conf k n st = Ret r.
Proof.
  induction n as [|n IH]; intros k st r; cbn [branch_frames]; [auto|].
  intros Hb. inv_bind Hb. apply branch_frame_release in Ha. rewrite Ha.
  cbn [bind]. destruct a; [apply IH|]; exact Hb.
Qed.

Lemma forward_kinematics_release NDEBUG chk (lig : ligand fl) conf r :
  forward_kinematics NDEBUG chk lig conf = Ret r ->
  forward_kinematics true chk lig conf = Ret r.
Proof.
  unfold forward_kinematics. intros Hf. inv_bind Hf.
  apply root_frame_release in Ha. rewrite Ha. cbn [bind].
  destruct a; [|exact Hf]. inv_bind Hf.
  apply branch_frames_release in Ha0. rewrite Ha0. exact Hf.
Qed.

Lemma evaluate_release NDEBUG (lig : ligand fl) conf sf b grid_maps bound
    e f g r :
  evaluate NDEBUG lig conf sf b grid_maps bound e f g = Ret r ->
  evaluate true lig conf sf b grid_maps bound e f g = Ret r.
Proof.
  unfold evaluate. destruct (negb _); [auto|]. intros He. inv_bind He.
  apply forward_kinematics_release in Ha. rewrite Ha. cbn [bind].
  destruct a; [|exact He]. inv_bind He.
  apply energy_release in Ha0. rewrite Ha0. exact He.
Qed.

Lemma evaluate_into_release NDEBUG (lig : ligand fl) sf b grid_maps bound
    c slot r :
  evaluate_into NDEBUG lig sf b grid_maps bound c slot = Ret r ->
  evaluate_into true lig sf b grid_maps bound c slot = Ret r.
Proof.
  unfold evaluate_into. intros He. inv_bind He.
  apply evaluate_release in Ha. rewrite Ha. exact He.
Qed.

Lemma compose_result_release NDEBUG (lig : ligand fl) e f conf r :
  compose_result NDEBUG lig e f conf = Ret r ->
  compose_result true lig e f conf = Ret r.
Proof.
  unfold compose_result. intros Hc. inv_bind Hc.
  apply compose_release in Ha. rewrite Ha. exact Hc.
Qed.

Lemma attempt_release NDEBUG (lig : ligand fl) sf b grid_maps bound p0 eng r :
  attempt NDEBUG lig sf b grid_maps bound p0 eng = Ret r ->
  attempt true lig sf b grid_maps bound p0 eng = Ret r.
Proof.
  unfold attempt. destruct (randomize _ _ _ _) as [c0 eng1].
  intros Ha. inv_bind Ha. apply evaluate_into_release in Ha0.
  rewrite Ha0. exact Ha.
Qed.

Lemma initialize_release NDEBUG (lig : ligand fl) sf b grid_maps bound n :
  forall valid p0 eng r,
  initialize NDEBUG lig sf b grid_maps bound n valid p0 eng = Ret r ->
  initialize true lig sf b grid_maps bound n valid p0 eng = Ret r.
Proof.
  induction n as [|n IH]; intros valid p0 eng r; cbn [initialize]; [auto|].
  destruct valid; [auto|]. intros Hi. inv_bind Hi.
  apply attempt_release in Ha. rewrite Ha. cbn [bind].
  destruct a as [[v p] e]. apply IH. exact Hi.
Qed.

Lemma mutate_release NDEBUG (lig : ligand fl) c0 eng r :
  mutate NDEBUG lig c0 eng = Ret r -> mutate true lig c0 eng = Ret r.
Proof.
  unfold mutate, assert. destruct (uniform_int_distribution _ _ _) as [me e1].
  intros Hm. inv_bind Hm. clear Ha. cbn [BOOST_ASSERT orb bind].
  destruct (me <? num_active_torsions lig)%nat.
  - destruct (uniform_pi_gen e1). exact Hm.
  - destruct (me =? num_active_torsions lig)%nat.
    + destruct (draw3 _ _ _ _). exact Hm.
    + destruct (draw3 _ _ _ _). inv_bind Hm. exact Hm.
Qed.

Lemma step_conformation_release NDEBUG (lig : ligand fl) c1 c2 p alpha r :
  step_conformation NDEBUG lig c1 c2 p alpha = Ret r ->
  step_conformation true lig c1 c2 p alpha = Ret r.
Proof.
  unfold step_conformation, assert. intros Hs. do 2 inv_bind Hs. exact Hs.
Qed.

Lemma trial_release NDEBUG (lig : ligand fl) sf b grid_maps p1 p pg1 alpha
    p2 r :
  trial NDEBUG lig sf b grid_maps p1 p pg1 alpha p2 = Ret r ->
  trial true lig sf b grid_maps p1 p pg1 alpha p2 = Ret r.
Proof.
  unfold trial. intros Ht. inv_bind Ht.
  apply step_conformation_release in Ha. rewrite Ha. cbn [bind].
  inv_bind Ht. apply evaluate_into_release in Ha0. rewrite Ha0. exact Ht.
Qed.

Lemma line_search_release NDEBUG (lig : ligand fl) sf b grid_maps p1 p pg1 n :
  forall trials alpha p2 r,
  line_search NDEBUG lig sf b grid_maps p1 p pg1 n trials alpha p2 = Ret r ->
  line_search true lig sf b grid_maps p1 p pg1 n trials alpha p2 = Ret r.
Proof.
  induction n as [|n IH]; intros trials alpha p2 r; cbn [line_search]; [auto|].
  intros Hl. inv_bind Hl. apply trial_release in Ha. rewrite Ha. cbn [bind].
  destruct a as [found q]. destruct found; [exact Hl | apply IH; exact Hl].
Qed.

Lemma metropolis_release NDEBUG (lig : ligand fl) rse results best_e p0 p1
    eng r :
  metropolis NDEBUG lig rse results best_e p0 p1 eng = Ret r ->
  metropolis true lig rse results best_e p0 p1 eng = Ret r.
Proof.
  unfold metropolis.
  destruct (if fltb _ _ then _ else _) as [accept eng1].
  destruct accept; [|auto]. intros Hm. inv_bind Hm.
  assert (Hrel : (if fltb (pose_e p1) best_e
                     || (length (items results) <? capacity results)%nat
                  then
                    bind (compose_result true lig (pose_e p1) (pose_f p1)
                            (pose_c p1))
                      (fun r0 =>
                         Ret (add_to_result_container results r0 rse,
                              if fltb (pose_e p1) best_e then pose_e p0
                              else best_e))
                  else Ret (results, best_e)) = Ret a).
  { destruct (_ || _); [|exact Ha]. inv_bind Ha.
    apply compose_result_release in Ha0. rewrite Ha0. exact Ha. }
  rewrite Hrel. exact Hm.
Qed.

(** *** More fuel changes nothing

    A run of an unbounded loop that returns with some fuel returns the
    same with more, and with assertions compiled out. *)

Lemma mutate_until_valid_mono (lig : ligand fl) sf b grid_maps bound c0 fuel :
  forall fuel' NDEBUG p1 eng r, (fuel <= fuel')%nat ->
  mutate_until_valid fuel NDEBUG lig sf b grid_maps bound c0 p1 eng = Ret r ->
  mutate_until_valid fuel' true lig sf b grid_maps bound c0 p1 eng = Ret r.
Proof.
  induction fuel as [|fuel IH]; intros fuel' NDEBUG p1 eng r Hle;
    cbn [mutate_until_valid]; [discriminate|].
  destruct fuel' as [|fuel']; [lia|]. cbn [mutate_until_valid].
  intros Hm. inv_bind Hm. apply mutate_release in Ha. rewrite Ha.
  cbn [bind]. destruct a as [c1 eng1]. inv_bind Hm.
  apply evaluate_into_release in Ha0. rewrite Ha0. cbn [bind].
  destruct a as [valid q]. destruct valid; [exact Hm|].
  apply (IH fuel' NDEBUG); [lia | exact Hm].
Qed.

Lemma bfgs_mono (lig : ligand fl) sf b grid_maps fuel :
  forall fuel' NDEBUG h p1 p2 r, (fuel <= fuel')%nat ->
  bfgs fuel NDEBUG lig sf b grid_maps h p1 p2 = Ret r ->
  bfgs fuel' true lig sf b grid_maps h p1 p2 = Ret r.
Proof.
  induction fuel as [|fuel IH]; intros fuel' NDEBUG h p1 p2 r Hle;
    cbn [bfgs]; [discriminate|].
  destruct fuel' as [|fuel']; [lia|]. cbn [bfgs].
  intros Hb. inv_bind Hb. apply line_search_release in Ha. rewrite Ha.
  cbn [bind]. destruct a as [[trials alpha] q].
  destruct (trials =? num_alphas)%nat; [exact Hb|].
  apply (IH fuel' NDEBUG); [lia | exact Hb].
Qed.

Lemma mc_iteration_mono (lig : ligand fl) sf b grid_maps fuel fuel' NDEBUG
    st r :
  (fuel <= fuel')%nat ->
  mc_iteration fuel NDEBUG lig sf b grid_maps st = Ret r ->
  mc_iteration fuel' true lig sf b grid_maps st = Ret r.
Proof.
  intros Hle. unfold mc_iteration. intros Hi. inv_bind Hi.
  apply (mutate_until_valid_mono _ _ _ _ _ _ _ fuel' _ _ _ _ Hle) in Ha.
  rewrite Ha. cbn [bind]. destruct a as [p1 eng]. inv_bind Hi.
  apply (bfgs_mono _ _ _ _ _ fuel' _ _ _ _ _ Hle) in Ha0.
  rewrite Ha0. cbn [bind]. destruct a as [q1 q2]. inv_bind Hi.
  apply metropolis_release in Ha1. rewrite Ha1. exact Hi.
Qed.

Lemma mc_iterations_mono (lig : ligand fl) sf b grid_maps fuel fuel' NDEBUG n :
  forall st r, (fuel <= fuel')%nat ->
  mc_iterations fuel NDEBUG lig sf b grid_maps n st = Ret r ->
  mc_iterations fuel' true lig sf b grid_maps n st = Ret r.
Proof.
  induction n as [|n IH]; intros st r Hle; cbn [mc_iterations]; [auto|].
  intros Hi. inv_bind Hi.
  apply (mc_iteration_mono _ _ _ _ _ fuel' _ _ _ Hle) in Ha.
  rewrite Ha. cbn [bind]. apply IH; [exact Hle | exact Hi].
Qed.

Lemma monte_carlo_task_mono fuel fuel' NDEBUG results (lig : ligand fl)
    seed sf b grid_maps r :
  (fuel <= fuel')%nat ->
  monte_carlo_task fuel NDEBUG results lig seed sf b grid_maps = Ret r ->
  monte_carlo_task fuel' true results lig seed sf b grid_maps = Ret r.
Proof.
  intros Hle. unfold monte_carlo_task. intros Hm. inv_bind Hm.
  apply initialize_release in Ha. rewrite Ha. cbn [bind].
  destruct a as [[valid p0] eng]. destruct (negb valid); [exact Hm|].
  inv_bind Hm.
  apply (mc_iterations_mono _ _ _ _ _ fuel' _ _ _ _ Hle) in Ha0.
  rewrite Ha0. exact Hm.
Qed.
Lemma monte_carlo_task_from_mono u fuel fuel' NDEBUG results
    (lig : ligand fl) seed sf b grid_maps r :
  (fuel <= fuel')%nat ->
  monte_carlo_task_from u fuel NDEBUG results lig seed sf b grid_maps
  = Ret r ->
  monte_carlo_task_from u fuel' true results lig seed sf b grid_maps
  = Ret r.
Proof.
  intros Hle. unfold monte_carlo_task_from. intros Hm. inv_bind Hm.
  apply initialize_release in Ha. rewrite Ha. cbn [bind].
  destruct a as [[valid p0] eng]. destruct (negb valid); [exact Hm|].
  inv_bind Hm.
  apply (mc_iterations_mono _ _ _ _ _ fuel' _ _ _ _ Hle) in Ha0.
  rewrite Ha0. exact Hm.
Qed.
End Release.

(** ** Two runs of a task

    A run that returns, and a second run with another source of random
    numbers that gives the same draws, other values in the variables
    declared without an initialiser, more fuel and assertions compiled
    out. *)

Section TwoRuns.
Context {fl : Type} `{Scalar fl} `{Libm fl}.
Context `{BoxModel fl} `{GridModel fl} `{ScoringModel fl}.
Context `{ResultModel fl} `{RotationModel fl}.
Variables R1 R2 : RandomModel fl.
Variable sim : @engine fl R1 -> @engine fl R2 -> Prop.
Hypothesis Hreal : forall a b e1 e2, sim e1 e2 ->
  (@uniform_real_distribution fl R1 a b e1).1
  = (@uniform_real_distribution fl R2 a b e2).1
  /\ sim (@uniform_real_distribution fl R1 a b e1).2
         (@uniform_real_distribution fl R2 a b e2).2.
Hypothesis Hint : forall a b e1 e2, sim e1 e2 ->
  (@uniform_int_distribution fl R1 a b e1).1
  = (@uniform_int_distribution fl R2 a b e2).1
  /\ sim (@uniform_int_distribution fl R1 a b e1).2
         (@uniform_int_distribution fl R2 a b e2).2.
Hypothesis Hnormal : forall a b e1 e2, sim e1 e2 ->
  (@normal_distribution fl R1 a b e1).1
  = (@normal_distribution fl R2 a b e2).1
  /\ sim (@normal_distribution fl R1 a b e1).2
         (@normal_distribution fl R2 a b e2).2.

(** The same draw from the two engines: the values are named [v], the
    engines after it [e1'] and [e2']. *)
Ltac draw Hlaw Hsim v e1' e2' Hsim' :=
  match goal with
  | |- context [@uniform_real_distribution fl R1 ?a ?b ?e1] =>
      match goal with
      | |- context [@uniform_real_distribution fl R2 a b ?e2] =>
          let Hv := fresh "Hv" in
          let v' := fresh "v" in
          destruct (Hlaw a b e1 e2 Hsim) as [Hv Hsim'];
          destruct (@uniform_real_distribution fl R1 a b e1) as [v e1'];
          destruct (@uniform_real_distribution fl R2 a b e2) as [v' e2'];
          cbn [fst snd] in Hv, Hsim'; subst v'
      end
  | |- context [@normal_distribution fl R1 ?a ?b ?e1] =>
      match goal with
      | |- context [@normal_distribution fl R2 a b ?e2] =>
          let Hv := fresh "Hv" in
          let v' := fresh "v" in
          destruct (Hlaw a b e1 e2 Hsim) as [Hv Hsim'];
          destruct (@normal_distribution fl R1 a b e1) as [v e1'];
          destruct (@normal_distribution fl R2 a b e2) as [v' e2'];
          cbn [fst snd] in Hv, Hsim'; subst v'
      end
  | |- context [@uniform_int_distribution fl R1 ?a ?b ?e1] =>
      match goal with
      | |- context [@uniform_int_distribution fl R2 a b ?e2] =>
          let Hv := fresh "Hv" in
          let v' := fresh "v" in
          destruct (Hlaw a b e1 e2 Hsim) as [Hv Hsim'];
          destruct (@uniform_int_distribution fl R1 a b e1) as [v e1'];
          destruct (@uniform_int_distribution fl R2 a b e2) as [v' e2'];
          cbn [fst snd] in Hv, Hsim'; subst v'
      end
  end.

Lemma randomize_torsions_sim n : forall i (ts : list fl) e1 e2,
  sim e1 e2 ->
  (randomize_torsions (H5:=R1) i n ts e1).1
  = (randomize_torsions (H5:=R2) i n ts e2).1
  /\ sim (randomize_torsions (H5:=R1) i n ts e1).2
         (randomize_torsions (H5:=R2) i n ts e2).2.
Proof using Hreal.
  induction n as [|n IH]; intros i ts e1 e2 Hsim; cbn [randomize_torsions].
  - auto.
  - unfold uniform_pi_gen. draw Hreal Hsim v e1' e2' Hsim'.
    apply IH. exact Hsim'.
Qed.

Lemma randomize_sim (lig : ligand fl) b c e1 e2 :
  sim e1 e2 ->
  (randomize (H5:=R1) lig b c e1).1 = (randomize (H5:=R2) lig b c e2).1
  /\ sim (randomize (H5:=R1) lig b c e1).2 (randomize (H5:=R2) lig b c e2).2.
Proof using Hreal Hnormal.
  intros Hsim. unfold randomize, draw3, uniform_box0_gen, uniform_box1_gen,
    uniform_box2_gen, normal_01_gen.
  draw Hreal Hsim x0 a1 b1 Hs1.
  draw Hreal Hs1 x1 a2 b2 Hs2.
  draw Hreal Hs2 x2 a3 b3 Hs3.
  draw Hnormal Hs3 q0 a4 b4 Hs4.
  draw Hnormal Hs4 q1 a5 b5 Hs5.
  draw Hnormal Hs5 q2 a6 b6 Hs6.
  draw Hnormal Hs6 q3 a7 b7 Hs7.
  destruct (randomize_torsions_sim (num_active_torsions lig) 0 (torsions c)
              a7 b7 Hs7) as [Hts Hs8].
  destruct (randomize_torsions (H5:=R1) _ _ _ a7) as [ts a8].
  destruct (randomize_torsions (H5:=R2) _ _ _ b7) as [ts' b8].
  cbn [fst snd] in *. subst ts'. auto.
Qed.

(** [evaluate] reads the two energies it is given only to leave them
    where they are. *)
Lemma evaluate_slots NDEBUG (lig : ligand fl) c sf b grid_maps bound
    e f e' f' g r :
  evaluate NDEBUG lig c sf b grid_maps bound e f g = Ret r ->
  exists r',
    evaluate NDEBUG lig c sf b grid_maps bound e' f' g = Ret r'
    /\ accepted r' = accepted r /\ g_out r' = g_out r
    /\ (accepted r = true -> r' = r).
Proof.
  unfold evaluate.
  destruct (negb _).
  { intros [= <-]. eexists. split; [reflexivity|]. cbn.
    repeat split; discriminate. }
  destruct (forward_kinematics _ _ _ _) as [[kin|]|fail]; cbn [bind].
  - destruct (energy _ _ _ _ _ _) as [[[f1 e1] d]|fail]; cbn [bind];
      [|discriminate].
    destruct (fleb bound e1).
    + intros [= <-]. eexists. split; [reflexivity|]. cbn.
      repeat split; discriminate.
    + destruct (gradient _ _ _ _) as [g'|fail]; cbn [bind]; [|discriminate].
      intros [= <-]. eexists. split; [reflexivity|]. cbn.
      repeat split.
  - intros [= <-]. eexists. split; [reflexivity|]. cbn.
    repeat split; discriminate.
  - discriminate.
Qed.

Lemma evaluate_into_slots NDEBUG (lig : ligand fl) sf b grid_maps bound c
    slot slot' v q :
  same_slot slot slot' ->
  evaluate_into NDEBUG lig sf b grid_maps bound c slot = Ret (v, q) ->
  exists q',
    evaluate_into NDEBUG lig sf b grid_maps bound c slot' = Ret (v, q')
    /\ same_slot q q' /\ (v = true -> q' = q).
Proof.
  intros [_ Hg]. unfold evaluate_into. intros He. inv_bind He.
  injection He as <- <-.
  destruct (evaluate_slots _ _ _ _ _ _ _ _ _ (pose_e slot') (pose_f slot')
              _ _ Ha) as (r' & Hr' & Hacc & Hgo & Heq).
  rewrite <- Hg, Hr'. cbn [bind]. rewrite Hacc. eexists. split; [reflexivity|].
  split.
  - split; cbn; congruence.
  - intros Hv. rewrite (Heq Hv). reflexivity.
Qed.

Lemma attempt_sim NDEBUG (lig : ligand fl) sf b grid_maps bound p p' e1 e2
    v q e1' :
  sim e1 e2 -> same_slot p p' ->
  attempt (H5:=R1) NDEBUG lig sf b grid_maps bound p e1 = Ret (v, q, e1') ->
  exists q' e2',
    attempt (H5:=R2) NDEBUG lig sf b grid_maps bound p' e2 = Ret (v, q', e2')
    /\ sim e1' e2' /\ same_slot q q' /\ (v = true -> q' = q).
Proof using Hreal Hnormal.
  intros Hsim Hslot. unfold attempt.
  destruct (randomize_sim lig b (pose_c p) e1 e2 Hsim) as [Hc Hs].
  destruct Hslot as [Hpc Hpg]. rewrite <- Hpc.
  destruct (randomize (H5:=R1) lig b (pose_c p) e1) as [c a1].
  destruct (randomize (H5:=R2) lig b (pose_c p) e2) as [c' b1].
  cbn [fst snd] in Hc, Hs. subst c'.
  intros Ha. inv_bind Ha. destruct a as [v0 q0]. injection Ha as <- <- <-.
  destruct (evaluate_into_slots _ _ _ _ _ _ _ p p' _ _
              (conj Hpc Hpg) Ha0) as (q' & -> & Hq & Heq).
  cbn [bind]. eauto 10.
Qed.

Lemma initialize_sim NDEBUG (lig : ligand fl) sf b grid_maps bound n :
  forall valid p p' e1 e2 v q e1',
  sim e1 e2 -> same_slot p p' -> (valid = true -> p' = p) ->
  initialize (H5:=R1) NDEBUG lig sf b grid_maps bound n valid p e1
  = Ret (v, q, e1') ->
  exists q' e2',
    initialize (H5:=R2) NDEBUG lig sf b grid_maps bound n valid p' e2
    = Ret (v, q', e2')
    /\ sim e1' e2' /\ (v = true -> q' = q).
Proof using Hreal Hnormal.
  induction n as [|n IH]; intros valid p p' e1 e2 v q e1' Hsim Hslot Hval;
    cbn [initialize].
  - intros [= <- <- <-]. eauto.
  - destruct valid.
    + intros [= <- <- <-]. eauto.
    + intros Hi. inv_bind Hi. destruct a as [[v1 p1] a1].
      destruct (attempt_sim _ _ _ _ _ _ _ _ _ _ _ _ _ Hsim Hslot Ha)
        as (p1' & b1 & -> & Hs1 & Hslot1 & Heq1).
      cbn [bind]. exact (IH _ _ _ _ _ _ _ _ Hs1 Hslot1 Heq1 Hi).
Qed.

Lemma draw3_11_sim e1 e2 :
  sim e1 e2 ->
  (draw3 (H5:=R1) uniform_11_gen uniform_11_gen uniform_11_gen e1).1
  = (draw3 (H5:=R2) uniform_11_gen uniform_11_gen uniform_11_gen e2).1
  /\ sim (draw3 (H5:=R1) uniform_11_gen uniform_11_gen uniform_11_gen e1).2
         (draw3 (H5:=R2) uniform_11_gen uniform_11_gen uniform_11_gen e2).2.
Proof using Hreal.
  intros Hsim. unfold draw3, uniform_11_gen.
  draw Hreal Hsim x0 a1 b1 Hs1.
  draw Hreal Hs1 x1 a2 b2 Hs2.
  draw Hreal Hs2 x2 a3 b3 Hs3.
  auto.
Qed.

Lemma mutate_sim NDEBUG (lig : ligand fl) c0 e1 e2 c1 e1' :
  sim e1 e2 ->
  mutate (H5:=R1) NDEBUG lig c0 e1 = Ret (c1, e1') ->
  exists e2', mutate (H5:=R2) NDEBUG lig c0 e2 = Ret (c1, e2') /\ sim e1' e2'.
Proof using Hreal Hint.
  intros Hsim. unfold mutate, assert.
  draw Hint Hsim me a1 b1 Hs1.
  destruct (BOOST_ASSERT NDEBUG (me <? _)%nat) as [[]|fail]; cbn [bind];
    [|discriminate].
  destruct (me <? num_active_torsions lig)%nat.
  - unfold uniform_pi_gen. draw Hreal Hs1 v a2 b2 Hs2.
    intros [= <- <-]. eauto.
  - destruct (draw3_11_sim a1 b1 Hs1) as [Hd Hs2].
    destruct (draw3 (H5:=R1) _ _ _ a1) as [d a2].
    destruct (draw3 (H5:=R2) _ _ _ b1) as [d' b2].
    cbn [fst snd] in Hd, Hs2. subst d'.
    destruct (me =? num_active_torsions lig)%nat;
      [intros [= <- <-]; eauto|].
    destruct (BOOST_ASSERT NDEBUG _) as [[]|fail]; cbn [bind];
      [|discriminate].
    intros [= <- <-]. eauto.
Qed.

Lemma mutate_until_valid_sim (lig : ligand fl) sf b grid_maps bound c0 fuel :
  forall fuel' NDEBUG p p' e1 e2 q e1', (fuel <= fuel')%nat ->
  sim e1 e2 -> same_slot p p' ->
  mutate_until_valid (H5:=R1) fuel NDEBUG lig sf b grid_maps bound c0 p e1
  = Ret (q, e1') ->
  exists e2',
    mutate_until_valid (H5:=R2) fuel' NDEBUG lig sf b grid_maps bound c0 p' e2
    = Ret (q, e2')
    /\ sim e1' e2'.
Proof using Hreal Hint.
  induction fuel as [|fuel IH];
    intros fuel' NDEBUG p p' e1 e2 q e1' Hle Hsim Hslot;
    cbn [mutate_until_valid]; [discriminate|].
  destruct fuel' as [|fuel']; [lia|]. cbn [mutate_until_valid].
  intros Hm. inv_bind Hm. destruct a as [c1 a1].
  destruct (mutate_sim _ _ _ _ _ _ _ Hsim Ha) as (b1 & -> & Hs1).
  cbn [bind]. inv_bind Hm. destruct a as [valid p1].
  destruct (evaluate_into_slots _ _ _ _ _ _ _ _ _ _ _ Hslot Ha0)
    as (p1' & -> & Hslot1 & Heq1).
  cbn [bind]. destruct valid.
  - injection Hm as <- <-. rewrite (Heq1 eq_refl). eauto.
  - apply (IH fuel' NDEBUG p1 p1' a1 b1); [lia | assumption..].
Qed.

Lemma trial_slots NDEBUG (lig : ligand fl) sf b grid_maps p1 p pg1 alpha
    p2 p2' found q :
  same_slot p2 p2' ->
  trial NDEBUG lig sf b grid_maps p1 p pg1 alpha p2 = Ret (found, q) ->
  exists q',
    trial NDEBUG lig sf b grid_maps p1 p pg1 alpha p2' = Ret (found, q')
    /\ same_slot q q' /\ (found = true -> q' = q).
Proof.
  intros Hslot. unfold trial. intros Ht. inv_bind Ht.
  destruct Hslot as [Hc Hg].
  rewrite <- Hc, Ha. cbn [bind]. inv_bind Ht. destruct a0 as [valid q0].
  injection Ht as <- <-.
  destruct (evaluate_into_slots _ _ _ _ _ _ _ p2 p2' _ _ (conj Hc Hg) Ha0)
    as (q' & -> & Hslot' & Heq).
  cbn [bind]. destruct Hslot' as [Hc' Hg']. rewrite <- Hg'.
  eexists. split; [reflexivity|]. split; [split; assumption|].
  intros Hf. apply andb_true_iff in Hf as [Hv _]. exact (Heq Hv).
Qed.

Lemma line_search_slots NDEBUG (lig : ligand fl) sf b grid_maps p1 p pg1 n :
  forall trials alpha p2 p2' trials' alpha' q,
  same_slot p2 p2' ->
  line_search NDEBUG lig sf b grid_maps p1 p pg1 n trials alpha p2
  = Ret (trials', alpha', q) ->
  exists q',
    line_search NDEBUG lig sf b grid_maps p1 p pg1 n trials alpha p2'
    = Ret (trials', alpha', q')
    /\ same_slot q q' /\ (trials' <> (trials + n)%nat -> q' = q).
Proof.
  induction n as [|n IH]; intros trials alpha p2 p2' trials' alpha' q Hslot;
    cbn [line_search].
  - intros [= <- <- <-]. eexists. split; [reflexivity|].
    split; [exact Hslot | intros Hne; lia].
  - intros Hl. inv_bind Hl. destruct a as [found q0].
    destruct (trial_slots _ _ _ _ _ _ _ _ _ _ _ _ _ Hslot Ha)
      as (q0' & -> & Hslot0 & Heq0).
    cbn [bind]. destruct found.
    + injection Hl as <- <- <-. eexists. split; [reflexivity|].
      split; [exact Hslot0 | intros _; exact (Heq0 eq_refl)].
    + destruct (IH _ _ _ _ _ _ _ Hslot0 Hl) as (q' & Hq' & Hs' & Heq').
      exists q'. split; [exact Hq'|]. split; [exact Hs'|].
      intros Hne. apply Heq'. lia.
Qed.

Lemma bfgs_slots (lig : ligand fl) sf b grid_maps fuel :
  forall fuel' NDEBUG h p1 p2 p2' q1 q2, (fuel <= fuel')%nat ->
  same_slot p2 p2' ->
  bfgs fuel NDEBUG lig sf b grid_maps h p1 p2 = Ret (q1, q2) ->
  exists q2',
    bfgs fuel' NDEBUG lig sf b grid_maps h p1 p2' = Ret (q1, q2')
    /\ same_slot q2 q2'.
Proof.
  induction fuel as [|fuel IH]; intros fuel' NDEBUG h p1 p2 p2' q1 q2 Hle Hslot;
    cbn [bfgs]; [discriminate|].
  destruct fuel' as [|fuel']; [lia|]. cbn [bfgs].
  intros Hb. inv_bind Hb. destruct a as [[trials alpha] q].
  destruct (line_search_slots _ _ _ _ _ _ _ _ _ _ _ p2 p2' _ _ _ Hslot Ha)
    as (q' & -> & Hslot' & Heq').
  cbn [bind]. destruct (trials =? num_alphas)%nat eqn:Ht.
  - injection Hb as <- <-. eauto.
  - apply Nat.eqb_neq in Ht. rewrite (Heq' ltac:(cbn; lia)).
    apply (IH fuel' NDEBUG _ q q q); [lia | split; reflexivity | exact Hb].
Qed.

Lemma metropolis_sim NDEBUG (lig : ligand fl) rse results best_e p0 p1
    e1 e2 rs be q0 e1' :
  sim e1 e2 ->
  metropolis (H5:=R1) NDEBUG lig rse results best_e p0 p1 e1
  = Ret (rs, be, q0, e1') ->
  exists e2',
    metropolis (H5:=R2) NDEBUG lig rse results best_e p0 p1 e2
    = Ret (rs, be, q0, e2')
    /\ sim e1' e2'.
Proof using Hreal.
  intros Hsim. unfold metropolis.
  set (delta := fsub (pose_e p0) (pose_e p1)).
  assert (Hacc : exists accept a1 b1,
    (if fltb (flit 0) delta then (true, e1)
     else let '(u, eng) := uniform_01_gen (H5:=R1) e1 in
          (fltb u (fexp delta), eng)) = (accept, a1)
    /\ (if fltb (flit 0) delta then (true, e2)
        else let '(u, eng) := uniform_01_gen (H5:=R2) e2 in
             (fltb u (fexp delta), eng)) = (accept, b1)
    /\ sim a1 b1).
  { destruct (fltb (flit 0) delta); [eauto 10|].
    unfold uniform_01_gen. draw Hreal Hsim u a1 b1 Hs1. eauto 10. }
  destruct Hacc as (accept & a1 & b1 & -> & -> & Hs1).
  destruct accept.
  - destruct (if _ || _ then _ else _) as [[rs' be']|fail]; cbn [bind];
      [|discriminate].
    intros [= <- <- <- <-]. eauto.
  - intros [= <- <- <- <-]. eauto.
Qed.

Lemma mc_iteration_sim (lig : ligand fl) sf b grid_maps fuel fuel' NDEBUG
    st st' r :
  (fuel <= fuel')%nat -> same_state R1 R2 sim st st' ->
  mc_iteration (H5:=R1) fuel NDEBUG lig sf b grid_maps st = Ret r ->
  exists r',
    mc_iteration (H5:=R2) fuel' NDEBUG lig sf b grid_maps st' = Ret r'
    /\ same_state R1 R2 sim r r'.
Proof using Hreal Hint.
  intros Hle (Hrs & Hbe & Hp0 & Hp1 & Hp2 & Hsim).
  unfold mc_iteration. intros Hi. inv_bind Hi. destruct a as [p1 a1].
  rewrite <- Hrs, <- Hbe, <- Hp0.
  destruct (mutate_until_valid_sim _ _ _ _ _ _ _ fuel' _ _ _ _ _ _ _ Hle
              Hsim Hp1 Ha) as (b1 & -> & Hs1).
  cbn [bind]. inv_bind Hi. destruct a as [q1 q2].
  destruct (bfgs_slots _ _ _ _ _ fuel' _ _ _ _ _ _ _ Hle Hp2 Ha0)
    as (q2' & -> & Hq2).
  cbn [bind]. inv_bind Hi. destruct a as [[[rs be] q0] a2].
  destruct (metropolis_sim _ _ _ _ _ _ _ _ _ _ _ _ _ Hs1 Ha1)
    as (b2 & -> & Hs2).
  cbn [bind]. injection Hi as <-. eexists. split; [reflexivity|].
  unfold same_state. cbn. repeat split; auto; apply Hq2.
Qed.

Lemma mc_iterations_sim (lig : ligand fl) sf b grid_maps fuel fuel' NDEBUG n :
  forall st st' r, (fuel <= fuel')%nat -> same_state R1 R2 sim st st' ->
  mc_iterations (H5:=R1) fuel NDEBUG lig sf b grid_maps n st = Ret r ->
  exists r',
    mc_iterations (H5:=R2) fuel' NDEBUG lig sf b grid_maps n st' = Ret r'
    /\ same_state R1 R2 sim r r'.
Proof using Hreal Hint.
  induction n as [|n IH]; intros st st' r Hle Hst; cbn [mc_iterations].
  - intros [= <-]. eauto.
  - intros Hi. inv_bind Hi.
    destruct (mc_iteration_sim _ _ _ _ _ fuel' _ _ _ _ Hle Hst Ha)
      as (a' & -> & Hst').
    cbn [bind]. exact (IH _ _ _ Hle Hst' Hi).
Qed.

(** A run that returns, and the second run. *)
Lemma monte_carlo_task_from_sim u u' fuel fuel' NDEBUG results
    (lig : ligand fl) seed sf b grid_maps r :
  (fuel <= fuel')%nat ->
  sim (@mt19937_64 fl R1 seed) (@mt19937_64 fl R2 seed) ->
  monte_carlo_task_from (H5:=R1) u fuel NDEBUG results lig seed sf b
    grid_maps = Ret r ->
  monte_carlo_task_from (H5:=R2) u' fuel' NDEBUG results lig seed sf b
    grid_maps = Ret r.
Proof using Hreal Hint Hnormal.
  intros Hle Hseed. unfold monte_carlo_task_from. intros Hm. inv_bind Hm.
  destruct a as [[valid p0] a1].
  set (n := num_active_torsions lig) in *.
  assert (Hslot0 : same_slot
            (mk_pose (conformation_init n) (u_e0 u) (u_f0 u) (change_init n))
            (mk_pose (conformation_init n) (u_e0 u') (u_f0 u')
               (change_init n))) by (split; reflexivity).
  destruct (initialize_sim _ _ _ _ _ _ _ false _ _ _ _ _ _ _ Hseed Hslot0
              ltac:(intros Hf; discriminate Hf) Ha)
    as (p0' & b1 & -> & Hs1 & Heq).
  cbn [bind]. destruct valid; cbn [negb] in *; [|exact Hm].
  rewrite (Heq eq_refl). inv_bind Hm.
  assert (Hst : same_state R1 R2 sim
            (mk_task_state (H5:=R1) results (pose_e p0) p0
               (mk_pose (conformation_init n) (u_e1 u) (u_f1 u)
                  (change_init n))
               (mk_pose (conformation_init n) (u_e2 u) (u_f2 u)
                  (change_init n)) a1)
            (mk_task_state (H5:=R2) results (pose_e p0) p0
               (mk_pose (conformation_init n) (u_e1 u') (u_f1 u')
                  (change_init n))
               (mk_pose (conformation_init n) (u_e2 u') (u_f2 u')
                  (change_init n)) b1)).
  { unfold same_state, same_slot. cbn. auto 10. }
  destruct (mc_iterations_sim _ _ _ _ _ fuel' _ _ _ _ _ Hle Hst Ha0)
    as (st' & -> & Hst').
  cbn [bind]. injection Hm as <-. destruct Hst' as [-> _]. reflexivity.
Qed.
End TwoRuns.

(** C8. [monte_carlo_task] is deterministic: for a fixed seed, ligand,
    scoring function, box and grid maps (and the container it is given),
    a second run returns the results of the first. The two runs may
    differ in all that the code does not fix: what the six variables
    declared without an initialiser hold when the task begins, whether
    assertions are compiled in, the fuel that bounds the loops of the
    model, and the source of random numbers, as long as the engine seeded
    with [seed] gives the same draws in both: no random number comes
    from elsewhere. When the first run returns, so does the second, with
    the same assertions or none and with as much fuel; and a second run
    that returns, returns the same results. [monte_carlo_task] is the run
    that begins with six zeros. *)
Theorem monte_carlo_task_deterministic {fl : Type} `{Scalar fl} `{Libm fl}
    `{BoxModel fl} `{GridModel fl} `{ScoringModel fl}
    `{ResultModel fl} `{RotationModel fl}
    (R1 R2 : RandomModel fl) (sim : @engine fl R1 -> @engine fl R2 -> Prop)
    (u1 u2 : unset fl) (fuel1 : nat) (NDEBUG1 : bool)
    (results : ptr_vector (result fl)) (lig : ligand fl) (seed : nat)
    (sf : scoring_function) (b : box) (grid_maps : list array3d)
    (r1 : ptr_vector (result fl)) :
  same_stream R1 R2 sim seed ->
  monte_carlo_task_from (H5:=R1) u1 fuel1 NDEBUG1 results lig seed sf b
    grid_maps = Ret r1 ->
  (forall fuel2, (fuel1 <= fuel2)%nat ->
     monte_carlo_task_from (H5:=R2) u2 fuel2 NDEBUG1 results lig seed sf b
       grid_maps = Ret r1
     /\ monte_carlo_task_from (H5:=R2) u2 fuel2 true results lig seed sf b
          grid_maps = Ret r1)
  /\ (forall fuel2 NDEBUG2 r2,
        monte_carlo_task_from (H5:=R2) u2 fuel2 NDEBUG2 results lig seed sf b
          grid_maps = Ret r2 ->
        r2 = r1)
  /\ monte_carlo_task (H5:=R1) fuel1 NDEBUG1 results lig seed sf b grid_maps
     = monte_carlo_task_from (H5:=R1)
         (mk_unset (flit 0) (flit 0) (flit 0) (flit 0) (flit 0) (flit 0))
         fuel1 NDEBUG1 results lig seed sf b grid_maps.
Proof.
  intros (Hseed & Hreal & Hint & Hnormal) Hrun1.
  assert (Hsecond : forall fuel2, (fuel1 <= fuel2)%nat ->
            monte_carlo_task_from (H5:=R2) u2 fuel2 NDEBUG1 results lig seed
              sf b grid_maps = Ret r1).
  { intros fuel2 Hle.
    exact (monte_carlo_task_from_sim R1 R2 sim Hreal Hint Hnormal u1 u2 fuel1
             fuel2 NDEBUG1 results lig seed sf b grid_maps r1 Hle Hseed
             Hrun1). }
  split; [|split; [|reflexivity]].
  - intros fuel2 Hle. split; [exact (Hsecond fuel2 Hle)|].
    apply (monte_carlo_task_from_mono u2 fuel2 fuel2 NDEBUG1); [lia|].
    exact (Hsecond fuel2 Hle).
  - intros fuel2 NDEBUG2 r2 Hrun2.
    pose proof (Hsecond (Nat.max fuel1 fuel2) ltac:(lia)) as Hs.
    apply (monte_carlo_task_from_mono u2 _ (Nat.max fuel1 fuel2)) in Hs;
      [|lia].
    apply (monte_carlo_task_from_mono u2 _ (Nat.max fuel1 fuel2)) in Hrun2;
      [|lia].
    congruence.
Qed.

(** ** The constructor *)

Section ParseFacts.
Context {fl : Type} `{Scalar fl} `{AtomModel fl} `{TextModel fl}.

Lemma bind_Fail_inv {A B : Type} (m : outcome A) (k : A -> outcome B) f :
  bind m k = Fail f ->
  m = Fail f \/ exists a, m = Ret a /\ k a = Fail f.
Proof. destruct m as [a|f']; simpl; [eauto | intros [= ->]; auto]. Qed.

Lemma BOOST_ASSERT_Fail NDEBUG c f :
  BOOST_ASSERT NDEBUG c = Fail f -> f = assertion_failed.
Proof. unfold BOOST_ASSERT. destruct (_ || _); congruence. Qed.

Lemma BOOST_ASSERT_passes NDEBUG c u :
  BOOST_ASSERT NDEBUG c = Ret u <-> NDEBUG = true \/ c = true.
Proof.
  unfold BOOST_ASSERT. destruct u, NDEBUG, c; simpl; split;
    intros; try discriminate; auto; destruct H2; discriminate.
Qed.

Lemma lexical_Fail {A : Type} (o : option A) f :
  lexical o = Fail f -> f = bad_lexical_cast.
Proof. destruct o; simpl; congruence. Qed.

Lemma char_at_Fail line i f : char_at line i = Fail f -> f = out_of_range.
Proof.
  unfold char_at. destruct (String.get i line); [discriminate|].
  destruct (_ =? _)%nat; congruence.
Qed.

Lemma substr_Fail line pos n f : substr line pos n = Fail f -> f = out_of_range.
Proof. unfold substr. destruct (_ <=? _)%nat; congruence. Qed.

Lemma find_serial_Fail x numbers : forall i f,
  find_serial x numbers i = Fail f -> f = out_of_range.
Proof.
  induction numbers as [|n numbers IH]; intros i f; simpl; [congruence|].
  destruct (n =? x)%nat; [discriminate | apply IH].
Qed.

(** A line that starts with ENDBRANCH starts with none of ATOM, HETATM
    and BRANCH. *)
Lemma starts_with_ENDBRANCH line :
  starts_with line "ENDBRANCH" = true ->
  is_atom_line line = false /\ starts_with line "BRANCH" = false.
Proof.
  unfold is_atom_line, starts_with. destruct line as [|c line]; [discriminate|].
  cbn [String.prefix]. destruct (ascii_dec "E" c) as [<-|]; [|discriminate].
  intros _. split; reflexivity.
Qed.

(** [not_parsing_error H]: [H] says that a step which throws no
    [parsing_error] failed with one. *)
Ltac not_parsing_error H :=
  first [ apply BOOST_ASSERT_Fail in H | apply lexical_Fail in H
        | apply char_at_Fail in H | apply substr_Fail in H
        | apply find_serial_Fail in H ];
  discriminate H.

(** [split_fail H]: case analysis on [H : bind m k = Fail _]. *)
Ltac split_fail H :=
  let a := fresh "a" in
  let Ha := fresh "Ha" in
  apply bind_Fail_inv in H;
  destruct H as [H | (a & Ha & H)]; [try not_parsing_error H|].

Lemma parse_atom_error NDEBUG line (ps : parser fl) n msg :
  parse_atom NDEBUG line ps = Fail (parsing_error n msg) <->
  n = p_num_lines ps
  /\ (NDEBUG = true \/ p_current ps = (length (p_frames ps) - 1)%nat)
  /\ exists c ad_type_string,
       char_at line 78 = Ret c
       /\ substr line 77 (if isspace c then 1 else 2) = Ret ad_type_string
       /\ parse_ad_type_string ad_type_string = AD_TYPE_SIZE
       /\ msg = ("Atom type " ++ ad_type_string
                 ++ " is not supported by idock.")%string.
Proof.
  unfold parse_atom. split.
  - intros Hp. split_fail Hp. split_fail Hp. split_fail Hp.
    apply BOOST_ASSERT_passes in Ha. rewrite Nat.eqb_eq in Ha.
    destruct (parse_ad_type_string a1 =? AD_TYPE_SIZE)%nat eqn:Had.
    + injection Hp as <- <-. apply Nat.eqb_eq in Had. eauto 10.
    + split_fail Hp. split_fail Hp. split_fail Hp.
      destruct (is_hydrogen _); [discriminate|]. split_fail Hp. discriminate.
  - intros (-> & Hassert & c & ts & Hc & Hs & Had & ->).
    assert (Ha : BOOST_ASSERT NDEBUG
                   (p_current ps =? length (p_frames ps) - 1)%nat = Ret tt).
    { apply BOOST_ASSERT_passes. rewrite Nat.eqb_eq. exact Hassert. }
    rewrite Ha, Hc. cbn [bind]. rewrite Hs. cbn [bind].
    rewrite Had, Nat.eqb_refl. reflexivity.
Qed.

Lemma parse_branch_error line (ps : parser fl) n msg :
  parse_branch line ps <> Fail (parsing_error n msg).
Proof.
  unfold parse_branch. intros Hp. split_fail Hp. split_fail Hp. discriminate.
Qed.

Lemma parse_endbranch_error line (ps : parser fl) n msg :
  parse_endbranch line ps = Fail (parsing_error n msg) <->
  n = p_num_lines ps
  /\ habegin (p_frames ps !!! p_current ps) = length (p_heavy_atoms ps)
  /\ msg = "An empty BRANCH has been detected, indicating the input ligand structure is probably invalid."%string.
Proof.
  unfold parse_endbranch.
  destruct (habegin _ =? length _)%nat eqn:He.
  - apply Nat.eqb_eq in He. split.
    + intros [= <- <-]. auto.
    + intros (-> & _ & ->). reflexivity.
  - apply Nat.eqb_neq in He. split.
    + intros Hp. split_fail Hp. split_fail Hp. discriminate.
    + intros (_ & Hempty & _). contradiction.
Qed.

Lemma parse_line_error NDEBUG line (ps : parser fl) n msg :
  parse_line NDEBUG line ps = Fail (parsing_error n msg) <->
  n = S (p_num_lines ps)
  /\ (unsupported_atom_type NDEBUG ps line msg \/ empty_branch ps line msg).
Proof.
  unfold parse_line, unsupported_atom_type, empty_branch.
  fold (is_atom_line line).
  destruct (is_atom_line line) eqn:Hatom.
  - rewrite parse_atom_error. cbn [p_num_lines p_current p_frames].
    split.
    + intros (-> & Hassert & Hty). split; [reflexivity|]. left. auto.
    + intros (-> & [(_ & Hassert & Hty) | (Hend & _)]).
      * auto.
      * apply starts_with_ENDBRANCH in Hend as [Hcontra _]. congruence.
  - destruct (starts_with line "BRANCH") eqn:Hbranch.
    + split.
      * intros Hp. exfalso. exact (parse_branch_error _ _ _ _ Hp).
      * intros (_ & [(Hcontra & _) | (Hend & _)]); [discriminate|].
        apply starts_with_ENDBRANCH in Hend as [_ Hcontra]. congruence.
    + destruct (starts_with line "ENDBRANCH") eqn:Hend.
      * rewrite parse_endbranch_error.
        cbn [p_num_lines p_current p_frames p_heavy_atoms].
        split.
        -- intros (-> & Hempty & ->). split; [reflexivity|]. right. auto.
        -- intros (-> & [(Hcontra & _) | (_ & Hempty & ->)]);
             [discriminate | auto].
      * split.
        -- destruct (_ || _); discriminate.
        -- intros (_ & [(Hcontra & _) | (Hcontra & _)]); discriminate.
Qed.

Lemma parse_atom_Ret NDEBUG line (ps ps' : parser fl) :
  parse_atom NDEBUG line ps = Ret ps' ->
  p_frames ps' = p_frames ps
  /\ p_current ps' = p_current ps
  /\ p_num_active_torsions ps' = p_num_active_torsions ps
  /\ p_num_lines ps' = p_num_lines ps
  /\ p_lines ps' = p_lines ps ++ [line]
  /\ ((length (p_heavy_atoms ps') = length (p_heavy_atoms ps)
       /\ p_numbers ps' = p_numbers ps)
      \/ (exists a number,
            p_heavy_atoms ps' = p_heavy_atoms ps ++ [a]
            /\ p_numbers ps' = p_numbers ps ++ [number])).
Proof.
  unfold parse_atom. intros Hp. do 3 inv_bind Hp.
  destruct (parse_ad_type_string _ =? AD_TYPE_SIZE)%nat; [discriminate|].
  do 3 inv_bind Hp.
  destruct (is_hydrogen _).
  - injection Hp as <-. cbn. repeat (split; [reflexivity|]). left.
    split; [|reflexivity].
    destruct (_ =? AD_TYPE_HD)%nat; [|reflexivity].
    generalize (length (p_heavy_atoms ps)) at 1. intros n.
    induction n as [|n IH]; cbn [donorize_bonded]; [reflexivity|].
    destruct (_ <? _)%nat; [|reflexivity].
    destruct (negb _); [exact IH|].
    destruct (is_neighbor _ _); [apply length_insert | exact IH].
  - inv_bind Hp. injection Hp as <-. cbn. repeat (split; [reflexivity|]).
    right. eauto.
Qed.

Lemma parse_branch_Ret line (ps ps' : parser fl) :
  (0 < length (p_frames ps))%nat ->
  parse_branch line ps = Ret ps' ->
  exists x i,
    find_serial x (drop (habegin (p_frames ps !!! p_current ps)) (p_numbers ps))
      (habegin (p_frames ps !!! p_current ps)) = Ret i
    /\ ps' =
       mk_parser (p_lines ps ++ [line]) (branch_frames_after ps i)
         (p_heavy_atoms ps) (p_hydrogens ps) (p_numbers ps)
         (length (p_frames ps)) (p_num_active_torsions ps) (p_num_lines ps).
Proof.
  unfold parse_branch, branch_frames_after. intros Hlen Hp.
  inv_bind Hp. inv_bind Hp.
  injection Hp as <-. exists a, a0. split; [assumption|].
  rewrite length_app. cbn [length frame_ctor habegin hybegin].
  replace (length (p_frames ps) + 1 - 1)%nat with (length (p_frames ps))
    by lia.
  f_equal.
  destruct (p_frames ps) as [|f0 l _] using rev_ind; [cbn in Hlen; lia|].
  rewrite length_app. cbn [length].
  replace (length l + 1 - 1)%nat with (length l) by lia.
  rewrite <- app_assoc. cbn [app].
  rewrite (list_lookup_total_middle l [_] f0 (length l) eq_refl).
  rewrite (list_lookup_total_middle l [] f0 (length l) eq_refl).
  rewrite !insert_app_r_alt by lia.
  rewrite Nat.sub_diag. cbn. rewrite <- app_assoc. reflexivity.
Qed.

Lemma parse_branch_counts line (ps ps' : parser fl) :
  parse_branch line ps = Ret ps' ->
  p_num_lines ps' = p_num_lines ps /\ p_lines ps' = p_lines ps ++ [line].
Proof.
  unfold parse_branch. intros Hp. inv_bind Hp. inv_bind Hp.
  injection Hp as <-. auto.
Qed.

Lemma parse_endbranch_Ret line (ps ps' : parser fl) :
  parse_endbranch line ps = Ret ps' ->
  exists y i inactive,
    find_serial y (drop (habegin (p_frames ps !!! p_current ps)) (p_numbers ps))
      (habegin (p_frames ps !!! p_current ps)) = Ret i
    /\ habegin (p_frames ps !!! p_current ps) <> length (p_heavy_atoms ps)
    /\ let f := set_rotorY (p_frames ps !!! p_current ps) i in
       let f := if inactive : bool then set_active f false else f in
       let frames := <[p_current ps := f]> (p_frames ps) in
       ps' =
       mk_parser (p_lines ps ++ [line]) frames (p_heavy_atoms ps)
         (p_hydrogens ps) (p_numbers ps) (parent (frames !!! p_current ps))
         (if inactive then p_num_active_torsions ps
          else S (p_num_active_torsions ps))
         (p_num_lines ps).
Proof.
  unfold parse_endbranch.
  destruct (habegin _ =? length _)%nat eqn:He; [discriminate|].
  apply Nat.eqb_neq in He.
  intros Hp. inv_bind Hp. inv_bind Hp. injection Hp as <-.
  eexists a, a0, _. split; [eassumption|]. split; [assumption|].
  reflexivity.
Qed.

(** [next_line ps] is [ps] after [++num_lines]. *)
Lemma parse_line_Ret NDEBUG line (ps ps' : parser fl) :
  parse_line NDEBUG line ps = Ret ps' ->
  let ps0 :=
    mk_parser (p_lines ps) (p_frames ps) (p_heavy_atoms ps) (p_hydrogens ps)
      (p_numbers ps) (p_current ps) (p_num_active_torsions ps)
      (S (p_num_lines ps)) in
  parse_atom NDEBUG line ps0 = Ret ps'
  \/ parse_branch line ps0 = Ret ps'
  \/ parse_endbranch line ps0 = Ret ps'
  \/ ps' = mk_parser (p_lines ps ++ [line]) (p_frames ps) (p_heavy_atoms ps)
             (p_hydrogens ps) (p_numbers ps) (p_current ps)
             (p_num_active_torsions ps) (S (p_num_lines ps))
  \/ ps' = ps0.
Proof.
  unfold parse_line. cbv zeta.
  destruct (_ || _); [auto|].
  destruct (starts_with line "BRANCH"); [auto|].
  destruct (starts_with line "ENDBRANCH"); [auto|].
  destruct (_ || _); intros [= <-]; auto.
Qed.

Lemma parse_line_num_lines NDEBUG line (ps ps' : parser fl) :
  parse_line NDEBUG line ps = Ret ps' ->
  p_num_lines ps' = S (p_num_lines ps)
  /\ (length (p_lines ps') <= S (length (p_lines ps)))%nat.
Proof.
  intros Hp. apply parse_line_Ret in Hp. cbv zeta in Hp.
  destruct Hp as [Hp | [Hp | [Hp | [-> | ->]]]].
  - apply parse_atom_Ret in Hp as (_ & _ & _ & -> & -> & _).
    rewrite length_app. cbn. lia.
  - apply parse_branch_counts in Hp as [-> ->].
    rewrite length_app. cbn. lia.
  - apply parse_endbranch_Ret in Hp as (y & i & b & _ & _ & Hp).
    cbv zeta in Hp. subst ps'. cbn. rewrite length_app. cbn. lia.
  - cbn. rewrite length_app. cbn. lia.
  - cbn. lia.
Qed.

Lemma parse_lines_app NDEBUG pre : forall post (ps : parser fl),
  parse_lines NDEBUG (pre ++ post) ps
  = bind (parse_lines NDEBUG pre ps) (parse_lines NDEBUG post).
Proof.
  induction pre as [|line pre IH]; intros post ps; cbn [parse_lines app];
    [reflexivity|].
  destruct (parse_line NDEBUG line ps) as [ps'|f]; cbn [bind]; [apply IH|].
  reflexivity.
Qed.

Lemma parse_lines_num_lines NDEBUG input : forall (ps ps' : parser fl),
  parse_lines NDEBUG input ps = Ret ps' ->
  p_num_lines ps' = (p_num_lines ps + length input)%nat.
Proof.
  induction input as [|line input IH]; intros ps ps'; cbn [parse_lines].
  - intros [= <-]. cbn [length]. lia.
  - intros Hp. inv_bind Hp. apply parse_line_num_lines in Ha.
    apply proj1 in Ha. apply IH in Hp. cbn [length]. lia.
Qed.

(** The loop fails with a [parsing_error] exactly at the first line of
    one of the two kinds. *)
Lemma parse_lines_error NDEBUG input : forall (ps : parser fl) n msg,
  parse_lines NDEBUG input ps = Fail (parsing_error n msg) <->
  exists pre line post ps',
    input = pre ++ line :: post
    /\ n = S (p_num_lines ps + length pre)
    /\ parse_lines NDEBUG pre ps = Ret ps'
    /\ (unsupported_atom_type NDEBUG ps' line msg
        \/ empty_branch ps' line msg).
Proof.
  induction input as [|line input IH]; intros ps n msg; cbn [parse_lines].
  - split; [discriminate|]. intros (pre & l & post & ps' & Hin & _).
    destruct pre; discriminate.
  - split.
    + intros Hp. apply bind_Fail_inv in Hp as [Hp | (ps1 & Hp1 & Hp)].
      * apply parse_line_error in Hp as [-> Hoff].
        exists [], line, input, ps. cbn [length app parse_lines].
        rewrite Nat.add_0_r. auto.
      * apply IH in Hp as (pre & l & post & ps' & -> & -> & Hpre & Hoff).
        exists (line :: pre), l, post, ps'. cbn [length app parse_lines].
        rewrite Hp1. cbn [bind]. apply parse_line_num_lines, proj1 in Hp1.
        rewrite Hp1. split; [reflexivity|]. split; [lia|]. auto.
    + intros (pre & l & post & ps' & Hin & -> & Hpre & Hoff).
      destruct pre as [|l0 pre]; cbn [app] in Hin; injection Hin as <- ->.
      * cbn [parse_lines] in Hpre. injection Hpre as <-.
        assert (Hl : parse_line NDEBUG line ps
                     = Fail (parsing_error (S (p_num_lines ps)) msg)).
        { apply parse_line_error. auto. }
        rewrite Hl. cbn [bind length]. rewrite Nat.add_0_r. reflexivity.
      * cbn [parse_lines] in Hpre. inv_bind Hpre. rewrite Ha. cbn [bind].
        apply IH. exists pre, l, post, ps'.
        apply parse_line_num_lines, proj1 in Ha. rewrite Ha. cbn [length].
        split; [reflexivity|]. split; [lia|]. auto.
Qed.

Lemma finish_error NDEBUG (ps : parser fl) n msg :
  finish NDEBUG ps <> Fail (parsing_error n msg).
Proof.
  unfold finish. intros Hf. do 6 split_fail Hf.
  destruct (relativize _ _). discriminate.
Qed.

Lemma parse_lines_lines NDEBUG input : forall (ps ps' : parser fl),
  parse_lines NDEBUG input ps = Ret ps' ->
  (length (p_lines ps) <= p_num_lines ps)%nat ->
  (length (p_lines ps') <= p_num_lines ps')%nat.
Proof.
  induction input as [|line input IH]; intros ps ps'; cbn [parse_lines].
  - intros [= <-]. auto.
  - intros Hp Hle. inv_bind Hp. apply (IH _ _ Hp).
    pose proof (parse_line_num_lines _ _ _ _ Ha). lia.
Qed.

Lemma finish_unmatched (ps : parser fl) :
  (length (p_lines ps) <= p_num_lines ps)%nat ->
  p_current ps <> 0%nat ->
  finish false ps = Fail assertion_failed.
Proof.
  intros Hlines Hcur. unfold finish.
  apply Nat.leb_le in Hlines. apply Nat.eqb_neq in Hcur.
  rewrite Hlines, Hcur. reflexivity.
Qed.
End ParseFacts.

(** ** The bonds and the interacting pairs *)

Section ListFacts.
Lemma foldl_flat_map {A B C : Type} (f : A -> B -> A) (g : C -> list B) l :
  forall a, foldl f a (flat_map g l) = foldl (fun a x => foldl f a (g x)) a l.
Proof.
  induction l as [|x l IH]; intros a; cbn [flat_map foldl]; [reflexivity|].
  rewrite foldl_app. apply IH.
Qed.

Lemma foldl_ext {A B : Type} (f g : A -> B -> A) l :
  (forall a x, f a x = g a x) -> forall a, foldl f a l = foldl g a l.
Proof.
  intros Hfg. induction l as [|x l IH]; intros a; cbn [foldl]; [reflexivity|].
  rewrite Hfg. apply IH.
Qed.

Lemma foldl_append {A B : Type} (f : list A -> B -> list A) (h : B -> list A) :
  (forall acc x, f acc x = acc ++ h x) ->
  forall l acc, foldl f acc l = acc ++ flat_map h l.
Proof.
  intros Hf. induction l as [|x l IH]; intros acc; cbn [foldl flat_map].
  - symmetry. apply app_nil_r.
  - rewrite IH, Hf, <- app_assoc. reflexivity.
Qed.

Lemma foldl_In {B : Type} (f : list nat -> B -> list nat)
    (P : B -> nat -> Prop) :
  (forall acc y x, In x (f acc y) <-> In x acc \/ P y x) ->
  forall l acc x,
    In x (foldl f acc l) <-> In x acc \/ exists y, In y l /\ P y x.
Proof.
  intros Hf. induction l as [|y l IH]; intros acc x; cbn [foldl].
  - split; [auto|]. intros [Hx | (y & [] & _)]. exact Hx.
  - rewrite IH, Hf. split.
    + intros [[Hx | Hy] | (z & Hz & Hx)]; [auto | right | right].
      * exists y. split; [left; reflexivity | assumption].
      * exists z. split; [right; assumption | assumption].
    + intros [Hx | (z & [<- | Hz] & Hx)]; [auto | auto |].
      right. exists z. auto.
Qed.

Lemma foldl_length {A B : Type} (f : list A -> B -> list A) :
  (forall acc x, length (f acc x) = length acc) ->
  forall l acc, length (foldl f acc l) = length acc.
Proof.
  intros Hf. induction l as [|x l IH]; intros acc; cbn [foldl]; [reflexivity|].
  rewrite IH. apply Hf.
Qed.

Lemma in_seq_range (a b x : nat) :
  In x (seq a (b - a)) <-> (a <= x < b)%nat.
Proof. rewrite in_seq. lia. Qed.
End ListFacts.

Section PairFacts.
Context {fl : Type} `{Scalar fl} `{AtomModel fl} `{TextModel fl}.

Lemma push_bonds_app bonds es1 es2 :
  push_bonds bonds (es1 ++ es2) = push_bonds (push_bonds bonds es1) es2.
Proof. apply foldl_app. Qed.

Lemma frame_bonds_edges (heavy_atoms : list (atom fl)) bonds k f :
  frame_bonds heavy_atoms bonds k f
  = push_bonds bonds (frame_edges heavy_atoms k f).
Proof.
  assert (Hinner : forall i l a,
    foldl (fun bonds j =>
             if is_neighbor (heavy_atoms !!! i) (heavy_atoms !!! j)
             then push_bond (push_bond bonds i j) j i else bonds) a l
    = push_bonds a
        (flat_map (fun j =>
                     if is_neighbor (heavy_atoms !!! i) (heavy_atoms !!! j)
                     then [(i, j); (j, i)] else []) l)).
  { intros i l a. unfold push_bonds. rewrite foldl_flat_map.
    apply foldl_ext. intros a' j. destruct (is_neighbor _ _); reflexivity. }
  unfold frame_bonds, frame_edges. rewrite push_bonds_app.
  unfold push_bonds at 2. rewrite foldl_flat_map.
  rewrite (foldl_ext _ _ _ (fun a i => Hinner i _ a)).
  destruct (k =? 0)%nat; reflexivity.
Qed.

Lemma all_bonds_edges (heavy_atoms : list (atom fl)) frames :
  all_bonds heavy_atoms frames
  = push_bonds (replicate (length heavy_atoms) []) (edges heavy_atoms frames).
Proof.
  unfold all_bonds, edges, push_bonds. rewrite foldl_flat_map.
  apply foldl_ext. intros a k. apply frame_bonds_edges.
Qed.

Lemma push_bond_length bonds i j :
  length (push_bond bonds i j) = length bonds.
Proof. apply length_insert. Qed.

Lemma push_bonds_In es : forall bonds a b,
  (forall e, In e es -> (e.1 < length bonds)%nat) ->
  In b (push_bonds bonds es !!! a) <-> In b (bonds !!! a) \/ In (a, b) es.
Proof.
  induction es as [|[i j] es IH]; intros bonds a b Hrange;
    cbn [push_bonds foldl].
  - cbn. tauto.
  - fold (push_bonds (push_bond bonds i j) es).
    rewrite IH.
    2:{ intros e He. rewrite push_bond_length. apply Hrange. right. exact He. }
    assert (Hi : (i < length bonds)%nat) by (apply (Hrange (i, j)); left; reflexivity).
    unfold push_bond. cbn [fst snd].
    destruct (decide (i = a)) as [->|Hne].
    + rewrite list_lookup_total_insert_eq by exact Hi.
      rewrite in_app_iff. cbn [In]. split.
      * intros [[Hb | [<- | []]] | He]; auto.
      * intros [Hb | [[= <-] | He]]; auto.
    + rewrite list_lookup_total_insert_ne by exact Hne. cbn [In]. split.
      * intros [Hb | He]; auto.
      * intros [Hb | [[= -> _] | He]]; [auto | contradiction | auto].
Qed.

Lemma In_frame_edges (heavy_atoms : list (atom fl)) k f a b :
  In (a, b) (frame_edges heavy_atoms k f) <->
  ((habegin f <= Nat.min a b)%nat
   /\ (Nat.max a b < haend f)%nat
   /\ a <> b
   /\ is_neighbor (heavy_atoms !!! Nat.min a b)
                  (heavy_atoms !!! Nat.max a b) = true)
  \/ (k <> 0%nat
      /\ ((a = rotorY f /\ b = rotorX f) \/ (a = rotorX f /\ b = rotorY f))).
Proof.
  unfold frame_edges. rewrite in_app_iff, in_flat_map. split.
  - intros [(i & Hi & Hin) | Hrot].
    + apply in_flat_map in Hin as (j & Hj & Hin).
      apply in_seq_range in Hi, Hj.
      destruct (is_neighbor _ _) eqn:Hnb; [|contradiction].
      left. destruct Hin as [[= <- <-] | [[= <- <-] | []]].
      * replace (Nat.min i j) with i by lia.
        replace (Nat.max i j) with j by lia.
        repeat split; auto; lia.
      * replace (Nat.min j i) with i by lia.
        replace (Nat.max j i) with j by lia.
        repeat split; auto; lia.
    + right. destruct (k =? 0)%nat eqn:Hk; [contradiction|].
      apply Nat.eqb_neq in Hk. split; [assumption|].
      destruct Hrot as [[= <- <-] | [[= <- <-] | []]]; auto.
  - intros [(Hmin & Hmax & Hab & Hnb) | (Hk & Hrot)].
    + left. exists (Nat.min a b). split; [apply in_seq_range; lia|].
      apply in_flat_map. exists (Nat.max a b).
      split; [apply in_seq_range; lia|].
      rewrite Hnb. destruct (Nat.le_ge_cases a b).
      * left. f_equal; lia.
      * right. left. f_equal; lia.
    + right. apply Nat.eqb_neq in Hk. rewrite Hk.
      destruct Hrot as [[-> ->] | [-> ->]]; [left | right; left]; reflexivity.
Qed.

Lemma In_edges (heavy_atoms : list (atom fl)) frames a b :
  In (a, b) (edges heavy_atoms frames) <-> bonded heavy_atoms frames a b.
Proof.
  unfold edges, bonded. rewrite in_flat_map. split.
  - intros (k & Hk & Hin). apply in_seq in Hk.
    apply In_frame_edges in Hin as [Hnb | (Hk0 & Hrot)].
    + left. exists k. split; [lia | exact Hnb].
    + right. exists k. split; [lia | exact Hrot].
  - intros [(k & Hk & Hnb) | (k & Hk & Hrot)].
    + exists k. split; [apply in_seq; lia|]. apply In_frame_edges. auto.
    + exists k. split; [apply in_seq; lia|]. apply In_frame_edges.
      right. split; [lia | exact Hrot].
Qed.

Lemma frames_ok_haend c (frames : list (frame fl)) k :
  frames_ok c frames ->
  haend (frames !!! (length frames - 1)%nat) = c ->
  (k < length frames)%nat -> (haend (frames !!! k) <= c)%nat.
Proof.
  intros (_ & Hbegin & Hnext & _) Hlast Hk.
  destruct (decide (S k < length frames)%nat) as [Hs|Hs].
  - destruct (Hnext k Hs) as [-> _]. apply (Hbegin (S k) Hs).
  - replace k with (length frames - 1)%nat by lia. lia.
Qed.

Lemma frames_ok_begin_le c (frames : list (frame fl)) k1 k2 :
  frames_ok c frames -> (k1 <= k2 < length frames)%nat ->
  (habegin (frames !!! k1) <= habegin (frames !!! k2))%nat.
Proof.
  intros (_ & _ & Hnext & _) [Hle Hk2].
  induction Hle as [|k2 Hle IH]; [lia|].
  destruct (Hnext k2 Hk2) as [_ Hstep]. specialize (IH ltac:(lia)). lia.
Qed.

Lemma frames_ok_ordered c (frames : list (frame fl)) k1 k2 :
  frames_ok c frames -> (k1 < k2 < length frames)%nat ->
  (haend (frames !!! k1) <= habegin (frames !!! k2))%nat.
Proof.
  intros Hok [Hlt Hk2].
  pose proof Hok as (_ & _ & Hnext & _).
  destruct (Hnext k1 ltac:(lia)) as [-> _].
  apply (frames_ok_begin_le c); [exact Hok | lia].
Qed.

Lemma edges_range c (heavy_atoms : list (atom fl)) frames e :
  frames_ok c frames ->
  haend (frames !!! (length frames - 1)%nat) = c ->
  In e (edges heavy_atoms frames) -> (e.1 < c)%nat.
Proof.
  intros Hok Hlast He. destruct e as [a b]. cbn [fst].
  apply In_edges in He as [(k & Hk & _ & Hmax & _) | (k & Hk & Hrot)].
  - pose proof (frames_ok_haend c frames k Hok Hlast Hk). lia.
  - destruct Hok as (_ & _ & _ & Hrotors).
    destruct (Hrotors k Hk) as (HX & HY & _).
    destruct Hrot as [[-> _] | [-> _]]; assumption.
Qed.

Lemma replicate_nil_lookup (n a : nat) :
  replicate n ([] : list nat) !!! a = [].
Proof.
  destruct (decide (a < n)%nat) as [Ha|Ha].
  - apply lookup_total_replicate_2. exact Ha.
  - rewrite list_lookup_total_alt.
    replace (replicate n ([] : list nat) !! a) with (@None (list nat));
      [reflexivity|].
    symmetry. apply lookup_replicate_None. lia.
Qed.

Lemma all_bonds_In (heavy_atoms : list (atom fl)) frames a b :
  frames_ok (length heavy_atoms) frames ->
  haend (frames !!! (length frames - 1)%nat) = length heavy_atoms ->
  In b (all_bonds heavy_atoms frames !!! a) <-> bonded heavy_atoms frames a b.
Proof.
  intros Hok Hlast. rewrite all_bonds_edges, push_bonds_In.
  - rewrite replicate_nil_lookup, In_edges. cbn [In]. tauto.
  - intros e He. rewrite length_replicate.
    exact (edges_range _ _ _ _ Hok Hlast He).
Qed.

Lemma contains_In l x : contains l x = true <-> In x l.
Proof.
  unfold contains. rewrite existsb_exists. split.
  - intros (y & Hy & Heq). apply Nat.eqb_eq in Heq. subst. exact Hy.
  - intros Hx. exists x. split; [exact Hx | apply Nat.eqb_refl].
Qed.

Lemma add_neighbor_In neighbors b x :
  In x (add_neighbor neighbors b) <-> In x neighbors \/ b = x.
Proof.
  unfold add_neighbor. destruct (contains neighbors b) eqn:Hc.
  - apply contains_In in Hc. split; [auto|]. intros [Hx | <-]; assumption.
  - rewrite in_app_iff. cbn [In]. tauto.
Qed.

Lemma neighbors_within_3_In bonds i x :
  In x (neighbors_within_3 bonds i) <->
  within_3_hops (fun a b => In b (bonds !!! a)) i x.
Proof.
  unfold neighbors_within_3, within_3_hops.
  rewrite (foldl_In _
    (fun b1 x => b1 = x
       \/ exists b2, In b2 (bonds !!! b1)
            /\ (b2 = x \/ exists b3, In b3 (bonds !!! b2) /\ b3 = x))).
  - cbn [In]. split.
    + intros [[] | (b1 & Hop1 & [<- | (b2 & Hop2 & [<- | (b3 & Hop3 & <-)])])].
      * auto.
      * right. left. eauto.
      * right. right. eauto.
    + intros [Hop1 | [(b1 & Hop1 & Hop2) | (b1 & b2 & Hop1 & Hop2 & Hop3)]];
        right; eauto 10.
  - intros acc b1 y.
    rewrite (foldl_In _
      (fun b2 x => b2 = x \/ exists b3, In b3 (bonds !!! b2) /\ b3 = x)).
    + rewrite add_neighbor_In. tauto.
    + intros acc' b2 z.
      rewrite (foldl_In _ (fun b3 x => b3 = x)).
      * rewrite add_neighbor_In. tauto.
      * intros acc'' b3 w. apply add_neighbor_In.
Qed.

Lemma within_3_hops_iff (R R' : nat -> nat -> Prop) i j :
  (forall a b, R a b <-> R' a b) ->
  within_3_hops R i j <-> within_3_hops R' i j.
Proof.
  intros HR. unfold within_3_hops. split.
  - intros [Hop1 | [(x & Hop1 & Hop2) | (x & y & Hop1 & Hop2 & Hop3)]].
    + left. apply HR, Hop1.
    + right. left. exists x. split; apply HR; assumption.
    + right. right. exists x, y. repeat split; apply HR; assumption.
  - intros [Hop1 | [(x & Hop1 & Hop2) | (x & y & Hop1 & Hop2 & Hop3)]].
    + left. apply HR, Hop1.
    + right. left. exists x. split; apply HR; assumption.
    + right. right. exists x, y. repeat split; apply HR; assumption.
Qed.

Lemma pairs_of_atom_eq (heavy_atoms : list (atom fl)) frames neighbors k1 i
    pairs :
  pairs_of_atom heavy_atoms frames neighbors k1 i pairs
  = pairs ++ atom_pairs heavy_atoms frames neighbors k1 i.
Proof.
  unfold pairs_of_atom, atom_pairs.
  apply foldl_append. intros acc k2. cbv zeta.
  apply foldl_append. intros acc' j.
  destruct (_ || _); [symmetry; apply app_nil_r | reflexivity].
Qed.

Lemma find_interacting_pairs_eq (heavy_atoms : list (atom fl)) frames bonds :
  find_interacting_pairs heavy_atoms frames bonds
  = flat_map (fun k1 =>
                flat_map (fun i =>
                            atom_pairs heavy_atoms frames
                              (neighbors_within_3 bonds i) k1 i)
                         (seq (habegin (frames !!! k1))
                              (haend (frames !!! k1) - habegin (frames !!! k1))))
             (seq 0 (length frames)).
Proof.
  unfold find_interacting_pairs.
  rewrite (foldl_append _
    (fun k1 => flat_map (fun i =>
                 atom_pairs heavy_atoms frames (neighbors_within_3 bonds i) k1 i)
               (seq (habegin (frames !!! k1))
                    (haend (frames !!! k1) - habegin (frames !!! k1))))).
  - reflexivity.
  - intros acc k1. cbv zeta. apply foldl_append. intros acc' i.
    apply pairs_of_atom_eq.
Qed.

Lemma In_atom_pairs (heavy_atoms : list (atom fl)) frames neighbors k1 i p :
  In p (atom_pairs heavy_atoms frames neighbors k1 i) <->
  exists k2 j,
    (k1 < k2 < length frames)%nat
    /\ (habegin (frames !!! k2) <= j < haend (frames !!! k2))%nat
    /\ ~ (k1 = parent (frames !!! k2)
          /\ (j = rotorY (frames !!! k2) \/ i = rotorX (frames !!! k2)))
    /\ ~ In j neighbors
    /\ p = mk_interacting_pair i j
             (mp (xs (heavy_atoms !!! i)) (xs (heavy_atoms !!! j))).
Proof.
  unfold atom_pairs. rewrite in_flat_map. split.
  - intros (k2 & Hk2 & Hin). cbv zeta in Hin.
    apply in_flat_map in Hin as (j & Hj & Hin).
    apply in_seq_range in Hj. rewrite Nat.add_1_r in Hk2.
    apply in_seq_range in Hk2.
    destruct (_ || _) eqn:Hskip; [contradiction|].
    destruct Hin as [<- | []].
    apply orb_false_iff in Hskip as [Hjoint Hnb].
    exists k2, j. split; [lia|]. split; [assumption|]. split.
    + intros [Hpar Hrot]. apply Nat.eqb_eq in Hpar.
      rewrite Hpar in Hjoint. cbn [andb] in Hjoint.
      apply orb_false_iff in Hjoint as [HY HX].
      apply Nat.eqb_neq in HY, HX. tauto.
    + split; [|reflexivity]. intros Hin. apply contains_In in Hin.
      congruence.
  - intros (k2 & j & Hk2 & Hj & Hjoint & Hnb & ->).
    exists k2. split; [rewrite Nat.add_1_r; apply in_seq_range; lia|].
    cbv zeta. apply in_flat_map. exists j.
    split; [apply in_seq_range; exact Hj|].
    assert (Hskip :
      ((k1 =? parent (frames !!! k2))%nat
       && ((j =? rotorY (frames !!! k2))%nat
           || (i =? rotorX (frames !!! k2))%nat))
      || contains neighbors j = false).
    { apply orb_false_iff. split.
      - destruct (k1 =? _)%nat eqn:Hpar; [|reflexivity].
        apply Nat.eqb_eq in Hpar. cbn [andb]. apply orb_false_iff.
        split; apply Nat.eqb_neq; intros Heq; apply Hjoint; auto.
      - destruct (contains neighbors j) eqn:Hc; [|reflexivity].
        apply contains_In in Hc. contradiction. }
    rewrite Hskip. left. reflexivity.
Qed.

(** The pairs the constructor finds, given frames that partition the
    heavy atoms. *)
Lemma find_interacting_pairs_In (heavy_atoms : list (atom fl)) frames p :
  frames_ok (length heavy_atoms) frames ->
  haend (frames !!! (length frames - 1)%nat) = length heavy_atoms ->
  In p (find_interacting_pairs heavy_atoms frames
          (all_bonds heavy_atoms frames)) <->
  interacting heavy_atoms frames (i1 p) (i2 p)
  /\ type_pair_index p
     = mp (xs (heavy_atoms !!! i1 p)) (xs (heavy_atoms !!! i2 p)).
Proof.
  intros Hok Hlast. rewrite find_interacting_pairs_eq, in_flat_map.
  unfold interacting.
  assert (Hnb : forall i j,
    In j (neighbors_within_3 (all_bonds heavy_atoms frames) i) <->
    within_3_hops (bonded heavy_atoms frames) i j).
  { intros i j. rewrite neighbors_within_3_In. apply within_3_hops_iff.
    intros a b. apply all_bonds_In; assumption. }
  split.
  - intros (k1 & Hk1 & Hin). apply in_seq in Hk1.
    apply in_flat_map in Hin as (i & Hi & Hin). apply in_seq_range in Hi.
    apply In_atom_pairs in Hin as (k2 & j & Hk2 & Hj & Hjoint & Hnot & ->).
    cbn [i1 i2 type_pair_index]. split; [|reflexivity].
    exists k1, k2. rewrite <- Hnb. auto.
  - intros [(k1 & k2 & Hk & Hi & Hj & Hnot & Hjoint) Ht].
    exists k1. split; [apply in_seq; lia|].
    apply in_flat_map. exists (i1 p). split; [apply in_seq_range; exact Hi|].
    apply In_atom_pairs. exists k2, (i2 p). rewrite Hnb.
    repeat (split; [assumption|]).
    destruct p as [a b t]. cbn in *. congruence.
Qed.

Lemma NoDup_flat_map {A B : Type} (f : A -> list B) l :
  NoDup l ->
  (forall x, In x l -> NoDup (f x)) ->
  (forall x y b, In x l -> In y l -> In b (f x) -> In b (f y) -> x = y) ->
  NoDup (flat_map f l).
Proof.
  induction l as [|a l IH]; intros Hl Hf Hdisj; cbn [flat_map];
    [constructor|].
  apply NoDup_cons in Hl as [Ha Hl]. apply NoDup_app.
  split; [apply Hf; left; reflexivity|]. split.
  - intros b Hb Hb'. apply list_elem_of_In in Hb, Hb'.
    apply in_flat_map in Hb' as (y & Hy & Hby).
    assert (Heq : a = y).
    { apply (Hdisj a y b); [left; reflexivity | right; exact Hy | | ];
        assumption. }
    subst y. apply Ha, list_elem_of_In, Hy.
  - apply IH; [exact Hl | |].
    + intros x Hx. apply Hf. right. exact Hx.
    + intros x y b Hx Hy. apply Hdisj; right; assumption.
Qed.

Lemma frames_disjoint c (frames : list (frame fl)) k k' x :
  frames_ok c frames ->
  (k < length frames)%nat -> (k' < length frames)%nat ->
  (habegin (frames !!! k) <= x < haend (frames !!! k))%nat ->
  (habegin (frames !!! k') <= x < haend (frames !!! k'))%nat ->
  k = k'.
Proof.
  intros Hok Hk Hk' Hx Hx'.
  destruct (Nat.lt_trichotomy k k') as [Hlt | [Heq | Hgt]]; [|exact Heq|].
  - pose proof (frames_ok_ordered c frames k k' Hok ltac:(lia)). lia.
  - pose proof (frames_ok_ordered c frames k' k Hok ltac:(lia)). lia.
Qed.

Lemma atom_pairs_NoDup c (heavy_atoms : list (atom fl)) frames neighbors k1 i :
  frames_ok c frames ->
  NoDup (atom_pairs heavy_atoms frames neighbors k1 i).
Proof.
  intros Hok. unfold atom_pairs.
  assert (Hinner : forall k2 p,
    In p (flat_map
            (fun j =>
               if ((k1 =? parent (frames !!! k2))%nat
                   && ((j =? rotorY (frames !!! k2))%nat
                       || (i =? rotorX (frames !!! k2))%nat))
                  || contains neighbors j
               then []
               else [mk_interacting_pair i j
                       (mp (xs (heavy_atoms !!! i))
                           (xs (heavy_atoms !!! j)))])
            (seq (habegin (frames !!! k2))
                 (haend (frames !!! k2) - habegin (frames !!! k2)))) ->
    (habegin (frames !!! k2) <= i2 p < haend (frames !!! k2))%nat).
  { intros k2 p Hp. apply in_flat_map in Hp as (j & Hj & Hp).
    apply in_seq_range in Hj.
    destruct (_ || _); [contradiction|]. destruct Hp as [<- | []].
    exact Hj. }
  apply NoDup_flat_map; [apply NoDup_seq | |].
  - intros k2 _. cbv zeta.
    apply NoDup_flat_map; [apply NoDup_seq | |].
    + intros j _. destruct (_ || _); [constructor|].
      apply NoDup_singleton.
    + intros j j' p _ _ Hp Hp'.
      destruct (_ || _); [contradiction|]. destruct Hp as [<- | []].
      destruct (_ || _); [contradiction|]. destruct Hp' as [[= ->] | []].
      reflexivity.
  - intros k2 k2' p Hk2 Hk2' Hp Hp'. cbv zeta in Hp, Hp'.
    apply in_seq in Hk2, Hk2'.
    apply (frames_disjoint c frames k2 k2' (i2 p) Hok); [lia | lia | |].
    + apply Hinner, Hp.
    + apply Hinner, Hp'.
Qed.

Lemma find_interacting_pairs_NoDup c (heavy_atoms : list (atom fl)) frames
    bonds :
  frames_ok c frames ->
  NoDup (find_interacting_pairs heavy_atoms frames bonds).
Proof.
  intros Hok. rewrite find_interacting_pairs_eq.
  assert (Hfirst : forall nb k1 i p,
    In p (atom_pairs heavy_atoms frames nb k1 i) -> i1 p = i).
  { intros nb k1 i p Hp.
    apply In_atom_pairs in Hp as (k2 & j & _ & _ & _ & _ & ->). reflexivity. }
  apply NoDup_flat_map; [apply NoDup_seq | |].
  - intros k1 _.
    apply NoDup_flat_map; [apply NoDup_seq | |].
    + intros i _. apply (atom_pairs_NoDup c). exact Hok.
    + intros i i' p _ _ Hp Hp'.
      apply Hfirst in Hp, Hp'. congruence.
  - intros k1 k1' p Hk1 Hk1' Hp Hp'. apply in_seq in Hk1, Hk1'.
    apply in_flat_map in Hp as (i & Hi & Hp).
    apply in_flat_map in Hp' as (i' & Hi' & Hp').
    apply in_seq_range in Hi, Hi'. apply Hfirst in Hp, Hp'. subst i i'.
    apply (frames_disjoint c frames k1 k1' (i1 p) Hok); [lia | lia | |];
      assumption.
Qed.

Lemma interacting_lt (heavy_atoms : list (atom fl)) frames i j :
  frames_ok (length heavy_atoms) frames ->
  interacting heavy_atoms frames i j -> (i < j)%nat.
Proof.
  intros Hok (k1 & k2 & Hk & Hi & Hj & _).
  pose proof (frames_ok_ordered _ frames k1 k2 Hok Hk). lia.
Qed.
End PairFacts.

(** ** What the parsing loop establishes *)

Section ParseInvariant.
Context {fl : Type} `{Scalar fl} `{AtomModel fl} `{TextModel fl}.

Lemma frames_ok_mono c c' (frames : list (frame fl)) :
  (c <= c')%nat -> frames_ok c frames -> frames_ok c' frames.
Proof.
  intros Hle (Hpos & Hbegin & Hnext & Hrot).
  split; [exact Hpos|]. split; [|split].
  - intros k Hk. destruct (Hbegin k Hk). lia.
  - exact Hnext.
  - intros k Hk. destruct (Hrot k Hk) as (HX & HY & Hpar). lia.
Qed.

Lemma find_serial_range x numbers : forall i r,
  find_serial x numbers i = Ret r -> (i <= r < i + length numbers)%nat.
Proof.
  induction numbers as [|n numbers IH]; intros i r; cbn [find_serial length].
  - discriminate.
  - destruct (n =? x)%nat.
    + intros [= <-]. lia.
    + intros Hr. apply IH in Hr. lia.
Qed.

Lemma find_serial_drop x (numbers : list nat) b r :
  find_serial x (drop b numbers) b = Ret r -> (r < length numbers)%nat.
Proof.
  intros Hr. apply find_serial_range in Hr. rewrite length_drop in Hr. lia.
Qed.

Lemma parse_inv_init : parse_inv (fl:=fl) parser_init.
Proof.
  unfold parse_inv, frames_ok, parser_init. cbn.
  repeat split; intros; try lia;
    replace k with 0%nat by lia; cbn; lia.
Qed.

Lemma parse_atom_inv NDEBUG line (ps ps' : parser fl) :
  parse_atom NDEBUG line ps = Ret ps' -> parse_inv ps -> parse_inv ps'.
Proof.
  intros Hp (Hok & Hnum & Hcur).
  apply parse_atom_Ret in Hp
    as (Hf & Hc & _ & _ & _ & [[Hlen Hn] | (a & n & Hha & Hn)]);
    unfold parse_inv; rewrite Hf, Hc, Hn.
  - rewrite Hlen. auto.
  - rewrite Hha, !length_app. cbn [length]. split; [|split].
    + apply (frames_ok_mono (length (p_heavy_atoms ps))); [lia | exact Hok].
    + lia.
    + exact Hcur.
Qed.

Lemma branch_frames_after_length (ps : parser fl) i :
  length (branch_frames_after ps i) = S (length (p_frames ps)).
Proof.
  unfold branch_frames_after. rewrite length_app, length_insert. cbn. lia.
Qed.

Lemma branch_frames_after_new (ps : parser fl) i :
  branch_frames_after ps i !!! length (p_frames ps)
  = frame_ctor (p_current ps) i (length (p_heavy_atoms ps))
      (length (p_hydrogens ps)).
Proof.
  unfold branch_frames_after.
  rewrite lookup_total_app_r by (rewrite length_insert; lia).
  rewrite length_insert, Nat.sub_diag. reflexivity.
Qed.

Lemma branch_frames_after_old (ps : parser fl) i k :
  (k < length (p_frames ps))%nat ->
  let g := branch_frames_after ps i !!! k in
  let f := p_frames ps !!! k in
  habegin g = habegin f /\ parent g = parent f
  /\ rotorX g = rotorX f /\ rotorY g = rotorY f
  /\ haend g = (if decide (k = length (p_frames ps) - 1)%nat
                then length (p_heavy_atoms ps) else haend f).
Proof.
  intros Hk. cbv zeta. unfold branch_frames_after.
  rewrite lookup_total_app_l by (rewrite length_insert; exact Hk).
  rewrite list_lookup_total_insert.
  destruct (decide (k = length (p_frames ps) - 1)%nat) as [->|Hne].
  - rewrite decide_True by (split; [reflexivity | lia]). cbn. auto.
  - rewrite decide_False by (intros [Heq _]; congruence). auto.
Qed.

Lemma parse_branch_inv line (ps ps' : parser fl) :
  parse_branch line ps = Ret ps' -> parse_inv ps -> parse_inv ps'.
Proof.
  intros Hp (Hok & Hnum & Hcur).
  pose proof Hok as (Hpos & Hbegin & Hnext & Hrot).
  apply parse_branch_Ret in Hp as (x & i & Hfind & ->); [|exact Hpos].
  apply find_serial_drop in Hfind. rewrite Hnum in Hfind.
  unfold parse_inv. cbn [p_frames p_heavy_atoms p_numbers p_current].
  rewrite branch_frames_after_length.
  split; [|split; [exact Hnum | lia]].
  unfold frames_ok. rewrite branch_frames_after_length.
  split; [lia|]. split; [|split].
  - intros k Hk. destruct (decide (k = length (p_frames ps))) as [->|Hne].
    + rewrite branch_frames_after_new. cbn. lia.
    + destruct (branch_frames_after_old ps i k ltac:(lia))
        as (-> & -> & _). apply Hbegin. lia.
  - intros k Hk.
    destruct (branch_frames_after_old ps i k ltac:(lia))
      as (-> & _ & _ & _ & ->).
    destruct (decide (S k = length (p_frames ps))) as [Heq|Hne].
    + rewrite Heq, branch_frames_after_new.
      rewrite decide_True by lia. cbn.
      split; [reflexivity|]. apply Hbegin. lia.
    + destruct (branch_frames_after_old ps i (S k) ltac:(lia))
        as (-> & _).
      rewrite decide_False by lia. apply Hnext. lia.
  - intros k Hk. destruct (decide (k = length (p_frames ps))) as [->|Hne].
    + rewrite branch_frames_after_new. cbn. lia.
    + destruct (branch_frames_after_old ps i k ltac:(lia))
        as (_ & -> & -> & -> & _). apply Hrot. lia.
Qed.

Lemma parse_endbranch_inv line (ps ps' : parser fl) :
  parse_endbranch line ps = Ret ps' -> parse_inv ps -> parse_inv ps'.
Proof.
  intros Hp (Hok & Hnum & Hcur).
  pose proof Hok as (Hpos & Hbegin & Hnext & Hrot).
  apply parse_endbranch_Ret in Hp as (y & i & inactive & Hfind & _ & Hp).
  cbv zeta in Hp. subst ps'.
  apply find_serial_drop in Hfind. rewrite Hnum in Hfind.
  set (f' := if inactive then _ else _).
  assert (Hf' : habegin f' = habegin (p_frames ps !!! p_current ps)
                /\ haend f' = haend (p_frames ps !!! p_current ps)
                /\ parent f' = parent (p_frames ps !!! p_current ps)
                /\ rotorX f' = rotorX (p_frames ps !!! p_current ps)
                /\ rotorY f' = i).
  { subst f'. destruct inactive; cbn; auto. }
  destruct Hf' as (Hb' & He' & Hp' & HX' & HY').
  assert (Hlook : forall k,
    let g := <[p_current ps := f']> (p_frames ps) !!! k in
    habegin g = habegin (p_frames ps !!! k)
    /\ haend g = haend (p_frames ps !!! k)
    /\ parent g = parent (p_frames ps !!! k)
    /\ rotorX g = rotorX (p_frames ps !!! k)
    /\ (rotorY g = rotorY (p_frames ps !!! k) \/ rotorY g = i)).
  { intros k. cbv zeta. rewrite list_lookup_total_insert.
    destruct (decide (p_current ps = k /\ _)) as [[<- _]|_]; auto 10. }
  unfold parse_inv. cbn [p_frames p_heavy_atoms p_numbers p_current].
  rewrite length_insert.
  split; [|split; [exact Hnum|]].
  - unfold frames_ok. rewrite length_insert.
    split; [exact Hpos|]. split; [|split].
    + intros k Hk. destruct (Hlook k) as (-> & _ & -> & _).
      apply Hbegin, Hk.
    + intros k Hk. destruct (Hlook k) as (-> & -> & _).
      destruct (Hlook (S k)) as (-> & _). apply Hnext, Hk.
    + intros k Hk. destruct (Hlook k) as (_ & _ & -> & -> & HY).
      destruct (Hrot k Hk) as (HX & HYk & Hpar).
      repeat split; [exact HX | | exact Hpar].
      destruct HY as [-> | ->]; assumption.
  - destruct (Hlook (p_current ps)) as (_ & _ & -> & _).
    destruct (Hbegin (p_current ps) Hcur). lia.
Qed.

Lemma parse_line_inv NDEBUG line (ps ps' : parser fl) :
  parse_line NDEBUG line ps = Ret ps' -> parse_inv ps -> parse_inv ps'.
Proof.
  intros Hp Hinv. apply parse_line_Ret in Hp. cbv zeta in Hp.
  destruct Hp as [Hp | [Hp | [Hp | [-> | ->]]]].
  - exact (parse_atom_inv _ _ _ _ Hp Hinv).
  - exact (parse_branch_inv _ _ _ Hp Hinv).
  - exact (parse_endbranch_inv _ _ _ Hp Hinv).
  - exact Hinv.
  - exact Hinv.
Qed.

Lemma parse_lines_inv NDEBUG input : forall (ps ps' : parser fl),
  parse_lines NDEBUG input ps = Ret ps' -> parse_inv ps -> parse_inv ps'.
Proof.
  induction input as [|line input IH]; intros ps ps'; cbn [parse_lines].
  - intros [= <-]. auto.
  - intros Hp Hinv. inv_bind Hp.
    exact (IH _ _ Hp (parse_line_inv _ _ _ _ Ha Hinv)).
Qed.
End ParseInvariant.

(** ** What the constructor does with the parsed file *)

Section FinishFacts.
Context {fl : Type} `{Scalar fl} `{AtomModel fl} `{TextModel fl}.

(** The frames of the constructed ligand. *)
Lemma finish_Ret NDEBUG (ps : parser fl) lig :
  finish NDEBUG ps = Ret lig ->
  let n := length (p_frames ps) in
  let frames0 :=
    <[(n - 1)%nat :=
        set_haend_hyend (p_frames ps !!! (n - 1)%nat)
          (length (p_heavy_atoms ps)) (length (p_hydrogens ps))]>
      (p_frames ps) in
  let atoms := bonded_atoms ps in
  let frames1 := foldl (rotor_geometry atoms) frames0 (seq 1 (n - 1)) in
  frames lig = frames1
  /\ interacting_pairs lig
     = find_interacting_pairs atoms frames1 (all_bonds atoms frames1)
  /\ heavy_atoms lig = (relativize frames1 (atoms, p_hydrogens ps)).1.
Proof.
  unfold finish. intros Hf. do 6 inv_bind Hf.
  destruct (relativize _ _) as [heavy hyd] eqn:Hrel.
  injection Hf as <-. cbv zeta. cbn [frames interacting_pairs heavy_atoms].
  auto.
Qed.

Lemma rotor_geometry_fields (atoms : list (atom fl)) ks : forall frames,
  let frames' := foldl (rotor_geometry atoms) frames ks in
  length frames' = length frames
  /\ forall k,
       habegin (frames' !!! k) = habegin (frames !!! k)
       /\ haend (frames' !!! k) = haend (frames !!! k)
       /\ parent (frames' !!! k) = parent (frames !!! k)
       /\ rotorX (frames' !!! k) = rotorX (frames !!! k)
       /\ rotorY (frames' !!! k) = rotorY (frames !!! k).
Proof.
  induction ks as [|k0 ks IH]; intros frames; cbv zeta; cbn [foldl].
  - split; [reflexivity|]. intros k. repeat split.
  - destruct (IH (rotor_geometry atoms frames k0)) as [Hlen Hfields].
    assert (Hstep : length (rotor_geometry atoms frames k0) = length frames)
      by apply length_insert.
    split; [congruence|]. intros k.
    destruct (Hfields k) as (-> & -> & -> & -> & ->).
    unfold rotor_geometry. rewrite list_lookup_total_insert.
    destruct (decide (k0 = k /\ _)) as [[<- _]|_]; cbn; repeat split.
Qed.

Lemma dehydrophobicize_neighbors_length (f : frame fl) i atoms :
  length (dehydrophobicize_neighbors f i atoms) = length atoms.
Proof.
  unfold dehydrophobicize_neighbors. apply foldl_length.
  intros acc j. cbv zeta. destruct (is_hetero _); [reflexivity|].
  destruct (is_neighbor _ _); [apply length_insert | reflexivity].
Qed.

Lemma dehydrophobicize_frame_length (atoms : list (atom fl)) k f :
  length (dehydrophobicize_frame atoms k f) = length atoms.
Proof.
  unfold dehydrophobicize_frame. cbv zeta.
  assert (Hloop :
    length (foldl (fun heavy_atoms i =>
                     if negb (is_hetero (heavy_atoms !!! i)) then heavy_atoms
                     else dehydrophobicize_neighbors f i heavy_atoms)
                  atoms (seq (habegin f) (haend f - habegin f)))
    = length atoms).
  { apply foldl_length. intros acc i.
    destruct (negb _); [reflexivity|].
    apply dehydrophobicize_neighbors_length. }
  destruct (k =? 0)%nat; [exact Hloop|].
  repeat match goal with
         | |- context [if ?c then _ else _] => destruct c
         end;
    rewrite ?length_insert; exact Hloop.
Qed.

Lemma bonded_atoms_length (ps : parser fl) :
  length (bonded_atoms ps) = length (p_heavy_atoms ps).
Proof.
  unfold bonded_atoms. cbv zeta. apply foldl_length.
  intros acc k. apply dehydrophobicize_frame_length.
Qed.

Lemma relativize_atoms_xs origin ks : forall (atoms : list (atom fl)) i,
  xs (foldl (fun atoms i =>
               <[i := set_coordinate (atoms !!! i)
                        (vsub (coordinate (atoms !!! i)) origin)]> atoms)
            atoms ks !!! i)
  = xs (atoms !!! i).
Proof.
  induction ks as [|k ks IH]; intros atoms i; cbn [foldl]; [reflexivity|].
  rewrite IH, list_lookup_total_insert.
  destruct (decide (k = i /\ _)) as [[<- _]|_]; reflexivity.
Qed.

Lemma relativize_xs (frames : list (frame fl)) atoms hydrogens i :
  xs ((relativize frames (atoms, hydrogens)).1 !!! i) = xs (atoms !!! i).
Proof.
  unfold relativize. generalize (seq 0 (length frames)). intros ks.
  revert atoms hydrogens.
  induction ks as [|k ks IH]; intros atoms hydrogens; cbn [foldl];
    [reflexivity|].
  rewrite IH. apply relativize_atoms_xs.
Qed.

(** The frames of the constructed ligand partition its heavy atoms. *)
Lemma finish_frames_ok NDEBUG (ps : parser fl) lig :
  finish NDEBUG ps = Ret lig -> parse_inv ps ->
  frames_ok (length (bonded_atoms ps)) (frames lig)
  /\ haend (frames lig !!! (length (frames lig) - 1)%nat)
     = length (bonded_atoms ps).
Proof.
  intros Hf (Hok & _ & _).
  apply finish_Ret in Hf as (-> & _ & _).
  rewrite bonded_atoms_length.
  set (n := length (p_frames ps)).
  set (frames0 := <[(n - 1)%nat := _]> (p_frames ps)).
  destruct (rotor_geometry_fields (bonded_atoms ps) (seq 1 (n - 1)) frames0)
    as [Hlen Hfields].
  assert (Hlen0 : length frames0 = n) by apply length_insert.
  rewrite Hlen, Hlen0.
  destruct Hok as (Hpos & Hbegin & Hnext & Hrot). fold n in Hpos, Hbegin, Hnext, Hrot.
  assert (Hlook : forall k,
    habegin (frames0 !!! k) = habegin (p_frames ps !!! k)
    /\ parent (frames0 !!! k) = parent (p_frames ps !!! k)
    /\ rotorX (frames0 !!! k) = rotorX (p_frames ps !!! k)
    /\ rotorY (frames0 !!! k) = rotorY (p_frames ps !!! k)
    /\ haend (frames0 !!! k)
       = (if decide (k = n - 1)%nat then length (p_heavy_atoms ps)
          else haend (p_frames ps !!! k))).
  { intros k. subst frames0. rewrite list_lookup_total_insert.
    destruct (decide (k = n - 1)%nat) as [->|Hne].
    - rewrite decide_True by (split; [reflexivity | lia]). cbn. auto.
    - rewrite decide_False by (intros [Heq _]; congruence). auto. }
  split.
  - unfold frames_ok. rewrite Hlen, Hlen0.
    split; [exact Hpos|]. split; [|split].
    + intros k Hk. destruct (Hfields k) as (-> & _ & -> & _).
      destruct (Hlook k) as (-> & -> & _). apply Hbegin, Hk.
    + intros k Hk. destruct (Hfields k) as (-> & -> & _).
      destruct (Hfields (S k)) as (-> & _).
      destruct (Hlook k) as (-> & _ & _ & _ & ->).
      destruct (Hlook (S k)) as (-> & _).
      rewrite decide_False by lia. apply Hnext, Hk.
    + intros k Hk. destruct (Hfields k) as (_ & _ & -> & -> & ->).
      destruct (Hlook k) as (_ & -> & -> & -> & _). apply Hrot, Hk.
  - destruct (Hfields (n - 1)%nat) as (_ & -> & _).
    destruct (Hlook (n - 1)%nat) as (_ & _ & _ & _ & ->).
    rewrite decide_True; reflexivity.
Qed.

(** C6. The interacting pairs of a constructed ligand are the triples
    [(i, j, type_pair_index)] with [i] a heavy atom of a frame [k1] and
    [j] one of a later frame [k2], but for the pairs at most three bonds
    apart (a bond joins two neighbouring heavy atoms of one frame, or
    the two rotors of a BRANCH frame) and the pairs with [k1] the parent
    of [k2] and [j] the rotorY or [i] the rotorX of [k2]; the index is
    that of the XScore types of the two atoms, no triple is listed
    twice, and every pair has [i < j]. *)
Theorem interacting_pairs_exact NDEBUG input (lig : ligand fl) :
  ligand_ctor NDEBUG input = Ret lig ->
  (forall i j t,
     In (mk_interacting_pair i j t) (interacting_pairs lig) <->
     interacting (file_atoms NDEBUG input) (frames lig) i j
     /\ t = mp (xs (heavy_atoms lig !!! i)) (xs (heavy_atoms lig !!! j)))
  /\ NoDup (interacting_pairs lig)
  /\ (forall p, In p (interacting_pairs lig) -> (i1 p < i2 p)%nat).
Proof.
  unfold ligand_ctor, file_atoms. intros Hctor. inv_bind Hctor.
  rename a into ps. rewrite Ha.
  pose proof (parse_lines_inv _ _ _ _ Ha parse_inv_init) as Hinv.
  destruct (finish_frames_ok _ _ _ Hctor Hinv) as [Hok Hlast].
  pose proof (finish_Ret _ _ _ Hctor) as (Hframes & Hpairs & Hatoms).
  cbv zeta in Hframes, Hpairs, Hatoms.
  rewrite <- Hframes in Hpairs, Hatoms.
  assert (Hxs : forall i,
    xs (heavy_atoms lig !!! i) = xs (bonded_atoms ps !!! i)).
  { intros i. rewrite Hatoms. apply relativize_xs. }
  rewrite Hpairs. split; [|split].
  - intros i j t. rewrite !Hxs.
    apply (find_interacting_pairs_In _ _ (mk_interacting_pair i j t) Hok Hlast).
  - exact (find_interacting_pairs_NoDup _ _ _ _ Hok).
  - intros p Hp.
    apply (find_interacting_pairs_In _ _ p Hok Hlast) in Hp as [Hint _].
    exact (interacting_lt _ _ _ _ Hok Hint).
Qed.
End FinishFacts.

(** ** The frames that are not active *)

Section InactiveFrames.
Context {fl : Type} `{Scalar fl} `{AtomModel fl} `{TextModel fl}.

Lemma parse_atom_debug line (ps ps' : parser fl) :
  parse_atom false line ps = Ret ps' ->
  p_current ps = (length (p_frames ps) - 1)%nat.
Proof.
  unfold parse_atom. intros Hp. inv_bind Hp.
  destruct a. apply BOOST_ASSERT_holds in Ha. apply Nat.eqb_eq in Ha.
  exact Ha.
Qed.

Lemma branch_frames_after_active (ps : parser fl) i k :
  (k < length (p_frames ps))%nat ->
  active (branch_frames_after ps i !!! k) = active (p_frames ps !!! k).
Proof.
  intros Hk. unfold branch_frames_after.
  rewrite lookup_total_app_l by (rewrite length_insert; exact Hk).
  rewrite list_lookup_total_insert.
  destruct (decide (_ /\ _)) as [[<- _]|_]; reflexivity.
Qed.

Lemma inactive_inv_init : inactive_inv (fl:=fl) parser_init.
Proof. intros k Hk. cbn in Hk. lia. Qed.

Lemma parse_atom_inactive line (ps ps' : parser fl) :
  parse_atom false line ps = Ret ps' ->
  inactive_inv ps -> inactive_inv ps'.
Proof.
  intros Hp Hinv. pose proof (parse_atom_debug _ _ _ Hp) as Hlast.
  apply parse_atom_Ret in Hp as (Hf & Hc & _ & _ & _ & Hatoms).
  intros k. rewrite Hf, Hc. intros Hk Hact.
  destruct (Hinv k Hk Hact) as (HY & Hone & Hcur & Hleaf).
  split; [exact HY|]. split; [|split; assumption].
  destruct (decide (S k < length (p_frames ps))%nat) as [Hs|Hs];
    [exact Hone|].
  exfalso. apply Hcur. lia.
Qed.

Lemma parse_branch_inactive line (ps ps' : parser fl) :
  parse_branch line ps = Ret ps' ->
  parse_inv ps -> inactive_inv ps -> inactive_inv ps'.
Proof.
  intros Hp (Hok & Hnum & Hcur) Hinv.
  pose proof Hok as (Hpos & _).
  apply parse_branch_Ret in Hp as (x & i & _ & ->); [|exact Hpos].
  intros k. cbn [p_frames p_heavy_atoms p_current].
  rewrite branch_frames_after_length. intros Hk Hact.
  destruct (decide (k = length (p_frames ps))) as [->|Hne].
  { rewrite branch_frames_after_new in Hact. discriminate. }
  assert (Hk' : (1 <= k < length (p_frames ps))%nat) by lia.
  rewrite branch_frames_after_active in Hact by lia.
  destruct (Hinv k Hk' Hact) as (HY & Hone & Hc & Hleaf).
  destruct (branch_frames_after_old ps i k ltac:(lia))
    as (-> & _ & _ & -> & _).
  split; [exact HY|]. split; [|split].
  - rewrite decide_True by lia.
    destruct (decide (S k < length (p_frames ps))%nat) as [Hs|Hs].
    + destruct (branch_frames_after_old ps i (S k) Hs) as (-> & _).
      exact Hone.
    + replace (S k) with (length (p_frames ps)) by lia.
      rewrite branch_frames_after_new. exact Hone.
  - lia.
  - intros j Hj. destruct (decide (j = length (p_frames ps))) as [->|Hnej].
    + rewrite branch_frames_after_new. cbn. congruence.
    + destruct (branch_frames_after_old ps i j ltac:(lia))
        as (_ & -> & _). apply Hleaf. lia.
Qed.

Lemma parse_endbranch_shape line (ps ps' : parser fl) :
  parse_endbranch line ps = Ret ps' ->
  exists y i,
    find_serial y (drop (habegin (p_frames ps !!! p_current ps)) (p_numbers ps))
      (habegin (p_frames ps !!! p_current ps)) = Ret i
    /\ let inactive :=
         (p_current ps =? length (p_frames ps) - 1)%nat
         && (habegin (p_frames ps !!! p_current ps) + 1
             =? length (p_heavy_atoms ps))%nat in
       let f := set_rotorY (p_frames ps !!! p_current ps) i in
       let f := if inactive then set_active f false else f in
       p_frames ps' = <[p_current ps := f]> (p_frames ps)
       /\ p_heavy_atoms ps' = p_heavy_atoms ps
       /\ p_current ps' = parent (p_frames ps' !!! p_current ps).
Proof.
  unfold parse_endbranch.
  destruct (habegin _ =? length _)%nat eqn:He; [discriminate|].
  intros Hp. inv_bind Hp. inv_bind Hp. injection Hp as <-.
  exists a, a0. split; [assumption|]. cbn. auto.
Qed.

Lemma parse_endbranch_inactive line (ps ps' : parser fl) :
  parse_endbranch line ps = Ret ps' ->
  parse_inv ps -> inactive_inv ps -> inactive_inv ps'.
Proof.
  intros Hp (Hok & Hnum & Hcur) Hinv.
  pose proof Hok as (Hpos & Hbegin & Hnext & Hrot).
  apply parse_endbranch_shape in Hp as (y & i & Hfind & Hp).
  cbv zeta in Hp. destruct Hp as (Hf & Hha & Hc).
  apply find_serial_range in Hfind. rewrite length_drop, Hnum in Hfind.
  set (c := p_current ps) in *. set (F := p_frames ps) in *.
  assert (Hparent : p_current ps' = parent (F !!! c)).
  { rewrite Hc, Hf, list_lookup_total_insert_eq by exact Hcur.
    destruct (_ && _); reflexivity. }
  assert (Hpc : (parent (F !!! c) <= c)%nat) by apply (Hbegin c Hcur).
  assert (Hlook : forall k, k <> c -> p_frames ps' !!! k = F !!! k).
  { intros k Hk. rewrite Hf. apply list_lookup_total_insert_ne. congruence. }
  assert (Hfields : forall k,
    habegin (p_frames ps' !!! k) = habegin (F !!! k)
    /\ parent (p_frames ps' !!! k) = parent (F !!! k)).
  { intros k. destruct (decide (k = c)) as [->|Hk].
    - rewrite Hf, list_lookup_total_insert_eq by exact Hcur.
      destruct (_ && _); auto.
    - rewrite (Hlook k Hk). auto. }
  assert (Hlen : length (p_frames ps') = length F)
    by (rewrite Hf; apply length_insert).
  intros k. rewrite Hlen, Hha, Hparent. intros Hk Hact.
  destruct (Hfields k) as [Hb Hp]. rewrite Hb.
  destruct (Hfields (S k)) as [-> _].
  assert (Hleaf' : forall leaf : Prop,
    (forall j, (1 <= j < length F)%nat -> parent (F !!! j) <> k) ->
    forall j, (1 <= j < length F)%nat -> parent (p_frames ps' !!! j) <> k).
  { intros _ Hleaf j Hj. destruct (Hfields j) as [_ ->]. apply Hleaf, Hj. }
  destruct (decide (k = c)) as [->|Hkc].
  - (* the frame this line closes *)
    assert (Hclosed : p_frames ps' !!! c
                      = if (c =? length F - 1)%nat
                           && (habegin (F !!! c) + 1
                               =? length (p_heavy_atoms ps))%nat
                        then set_active (set_rotorY (F !!! c) i) false
                        else set_rotorY (F !!! c) i).
    { rewrite Hf. apply list_lookup_total_insert_eq. exact Hcur. }
    rewrite Hclosed in Hact |- *.
    destruct (_ && _) eqn:Hin; [|cbn in Hact].
    2:{ (* still active: [Hact] says it was not active before *)
        destruct (Hinv c Hk Hact) as (_ & _ & Hcontra & _).
        exfalso. apply Hcontra. reflexivity. }
    apply andb_true_iff in Hin as [Hlast Hone].
    apply Nat.eqb_eq in Hlast, Hone. cbn [rotorY set_active set_rotorY].
    split; [lia|]. split; [|split].
    + rewrite decide_False by lia. exact Hone.
    + destruct (Hrot c Hk) as (_ & _ & Hlt). lia.
    + intros j Hj. destruct (Hfields j) as [_ ->].
      destruct (Hrot j Hj) as (_ & _ & Hlt). lia.
  - rewrite (Hlook k Hkc) in Hact |- *.
    destruct (Hinv k Hk Hact) as (HY & Hone & Hcur' & Hleaf).
    split; [exact HY|]. split; [exact Hone|]. split.
    + destruct (decide (c = 0)%nat) as [Hc0|Hc0].
      * lia.
      * apply not_eq_sym, Hleaf. fold F c. lia.
    + exact (Hleaf' True Hleaf).
Qed.

Lemma parse_line_inactive line (ps ps' : parser fl) :
  parse_line false line ps = Ret ps' ->
  parse_inv ps -> inactive_inv ps -> inactive_inv ps'.
Proof.
  intros Hp Hpi Hinv. apply parse_line_Ret in Hp. cbv zeta in Hp.
  destruct Hp as [Hp | [Hp | [Hp | [-> | ->]]]].
  - exact (parse_atom_inactive _ _ _ Hp Hinv).
  - exact (parse_branch_inactive _ _ _ Hp Hpi Hinv).
  - exact (parse_endbranch_inactive _ _ _ Hp Hpi Hinv).
  - exact Hinv.
  - exact Hinv.
Qed.

Lemma parse_lines_inactive input : forall (ps ps' : parser fl),
  parse_lines false input ps = Ret ps' ->
  parse_inv ps -> inactive_inv ps -> inactive_inv ps'.
Proof.
  induction input as [|line input IH]; intros ps ps'; cbn [parse_lines].
  - intros [= <-]. auto.
  - intros Hp Hpi Hinv. inv_bind Hp.
    exact (IH _ _ Hp (parse_line_inv _ _ _ _ Ha Hpi)
             (parse_line_inactive _ _ _ Ha Hpi Hinv)).
Qed.
End InactiveFrames.

Section InactiveLigand.
Context {fl : Type} `{Scalar fl} `{AtomModel fl} `{TextModel fl}.

Lemma rotor_geometry_active (atoms : list (atom fl)) ks : forall frames k,
  active (foldl (rotor_geometry atoms) frames ks !!! k)
  = active (frames !!! k).
Proof.
  induction ks as [|k0 ks IH]; intros frames k; cbn [foldl]; [reflexivity|].
  rewrite IH. unfold rotor_geometry. rewrite list_lookup_total_insert.
  destruct (decide (k0 = k /\ _)) as [[<- _]|_]; reflexivity.
Qed.

Lemma finish_counts NDEBUG (ps : parser fl) lig :
  finish NDEBUG ps = Ret lig ->
  num_frames lig = length (p_frames ps)
  /\ length (frames lig) = length (p_frames ps).
Proof.
  intros Hf. pose proof (finish_Ret _ _ _ Hf) as (Hframes & _).
  cbv zeta in Hframes. split.
  - unfold finish in Hf. do 6 inv_bind Hf.
    destruct (relativize _ _). injection Hf as <-. reflexivity.
  - rewrite Hframes.
    destruct (rotor_geometry_fields (bonded_atoms ps)
                (seq 1 (length (p_frames ps) - 1))
                (<[(length (p_frames ps) - 1)%nat :=
                     set_haend_hyend
                       (p_frames ps !!! (length (p_frames ps) - 1)%nat)
                       (length (p_heavy_atoms ps)) (length (p_hydrogens ps))]>
                   (p_frames ps))) as [-> _].
    apply length_insert.
Qed.

(** The fields of the frames that the steps after the parsing loop
    leave as they are. *)
Lemma finish_fields NDEBUG (ps : parser fl) lig k :
  finish NDEBUG ps = Ret lig ->
  habegin (frames lig !!! k) = habegin (p_frames ps !!! k)
  /\ parent (frames lig !!! k) = parent (p_frames ps !!! k)
  /\ rotorY (frames lig !!! k) = rotorY (p_frames ps !!! k)
  /\ active (frames lig !!! k) = active (p_frames ps !!! k).
Proof.
  intros Hf. apply finish_Ret in Hf as (-> & _). cbv zeta.
  rewrite rotor_geometry_active.
  destruct (rotor_geometry_fields (bonded_atoms ps)
              (seq 1 (length (p_frames ps) - 1))
              (<[(length (p_frames ps) - 1)%nat :=
                   set_haend_hyend
                     (p_frames ps !!! (length (p_frames ps) - 1)%nat)
                     (length (p_heavy_atoms ps)) (length (p_hydrogens ps))]>
                 (p_frames ps))) as [_ Hfields].
  destruct (Hfields k) as (-> & _ & -> & _ & ->).
  rewrite list_lookup_total_insert.
  destruct (decide (_ /\ _)) as [[<- _]|_]; cbn; auto.
Qed.

Lemma relativize_atoms_length origin i n (atoms : list (atom fl)) :
  length (relativize_atoms origin i n atoms) = length atoms.
Proof.
  unfold relativize_atoms. apply foldl_length. intros acc j.
  apply length_insert.
Qed.

Lemma relativize_atoms_outside origin a n : forall (atoms : list (atom fl)) i,
  ~ (a <= i < a + n)%nat ->
  relativize_atoms origin a n atoms !!! i = atoms !!! i.
Proof.
  unfold relativize_atoms. revert a.
  induction n as [|n IH]; intros a atoms i Hi; cbn [seq foldl]; [reflexivity|].
  rewrite IH by lia. apply list_lookup_total_insert_ne. lia.
Qed.

Lemma relativize_step_outside (frames : list (frame fl)) ks i :
  forall atoms hydrogens,
    (forall j, In j ks ->
       ~ (habegin (frames !!! j) <= i < haend (frames !!! j))%nat) ->
    let out :=
      foldl (fun '(heavy_atoms, hydrogens) k =>
               let f := frames !!! k in
               let origin := coordinate (heavy_atoms !!! rotorY f) in
               (relativize_atoms origin (habegin f) (haend f - habegin f)
                  heavy_atoms,
                relativize_atoms origin (hybegin f) (hyend f - hybegin f)
                  hydrogens))
            (atoms, hydrogens) ks in
    out.1 !!! i = atoms !!! i /\ length out.1 = length atoms.
Proof.
  induction ks as [|k ks IH]; intros atoms hydrogens Hout; cbv zeta;
    cbn [foldl]; [auto|].
  destruct (IH (relativize_atoms (coordinate (atoms !!! rotorY (frames !!! k)))
                  (habegin (frames !!! k))
                  (haend (frames !!! k) - habegin (frames !!! k)) atoms)
               (relativize_atoms (coordinate (atoms !!! rotorY (frames !!! k)))
                  (hybegin (frames !!! k))
                  (hyend (frames !!! k) - hybegin (frames !!! k)) hydrogens))
    as [Hi Hlen].
  { intros j Hj. apply Hout. right. exact Hj. }
  cbv zeta in Hi, Hlen. rewrite Hi, Hlen, relativize_atoms_length.
  split; [|reflexivity].
  apply relativize_atoms_outside.
  specialize (Hout k (or_introl eq_refl)). lia.
Qed.

(** The only atom of a frame that has but its rotor Y ends at the
    origin of the frame. *)
Lemma relativize_single c (frames : list (frame fl)) atoms hydrogens k :
  (forall x : fl, fsub x x = flit 0%float) ->
  frames_ok c frames ->
  haend (frames !!! (length frames - 1)%nat) = c ->
  length atoms = c ->
  (k < length frames)%nat ->
  (habegin (frames !!! k) + 1)%nat = haend (frames !!! k) ->
  rotorY (frames !!! k) = habegin (frames !!! k) ->
  coordinate ((relativize frames (atoms, hydrogens)).1
                !!! rotorY (frames !!! k)) = zero3.
Proof.
  intros Hsub Hok Hlast Hlen Hk Hone HY. rewrite HY.
  set (i := habegin (frames !!! k)) in *.
  assert (Hi : (i < length atoms)%nat).
  { pose proof (frames_ok_haend c frames k Hok Hlast Hk). lia. }
  unfold relativize.
  replace (seq 0 (length frames))
    with (seq 0 k ++ [k] ++ seq (S k) (length frames - S k)).
  2:{ change ([k] ++ seq (S k) (length frames - S k))
        with (seq k (S (length frames - S k))).
      rewrite <- seq_app. f_equal. lia. }
  rewrite !foldl_app.
  destruct (foldl _ (atoms, hydrogens) (seq 0 k)) as [atoms1 hyd1] eqn:Hbefore.
  destruct (relativize_step_outside frames (seq 0 k) i atoms hydrogens)
    as [Hi1 Hlen1].
  { intros j Hj. apply in_seq in Hj.
    pose proof (frames_ok_ordered c frames j k Hok ltac:(lia)). lia. }
  cbv zeta in Hi1, Hlen1. rewrite Hbefore in Hi1, Hlen1. cbn [fst] in Hi1, Hlen1.
  cbn [foldl]. fold i. rewrite HY. fold i.
  match goal with
  | |- context [foldl ?step (?a2, ?h2) (seq (S k) ?n)] =>
      destruct (relativize_step_outside frames (seq (S k) n) i a2 h2)
        as [Hi2 _]
  end.
  { intros j Hj. apply in_seq in Hj.
    pose proof (frames_ok_ordered c frames k j Hok ltac:(lia)). lia. }
  cbv zeta in Hi2. rewrite Hi2.
  replace (haend (frames !!! k) - i)%nat with 1%nat by lia.
  unfold relativize_atoms. cbn [seq foldl].
  rewrite list_lookup_total_insert_eq by lia.
  cbn [coordinate set_coordinate].
  destruct (coordinate (atoms1 !!! i)) as [[x0 x1] x2].
  unfold vsub, zero3. rewrite !Hsub. reflexivity.
Qed.
End InactiveLigand.

(** X2. A ligand that a debug build constructs is as [compose_result] and
    [evaluate] take it to be: a BRANCH frame that is not active has no
    child frame, and its rotor Y is its first and only heavy atom, at the
    origin of the frame when [x - x = 0] is exact. *)
Theorem ligand_ctor_inactive_frames {fl : Type} `{Scalar fl} `{AtomModel fl}
    `{TextModel fl} (input : list string) (lig : ligand fl) :
  ligand_ctor false input = Ret lig ->
  inactive_is_leaf lig
  /\ (forall k, (1 <= k < num_frames lig)%nat ->
        active (frames lig !!! k) = false ->
        (habegin (frames lig !!! k) + 1)%nat = haend (frames lig !!! k)
        /\ habegin (frames lig !!! k) = rotorY (frames lig !!! k))
  /\ (exact_sub -> inactive_is_rotorY lig).
Proof.
  unfold ligand_ctor. intros Hctor. inv_bind Hctor. rename a into ps.
  pose proof (parse_lines_inv _ _ _ _ Ha parse_inv_init) as Hpi.
  pose proof (parse_lines_inactive _ _ _ Ha parse_inv_init inactive_inv_init)
    as Hinv.
  destruct (finish_frames_ok _ _ _ Hctor Hpi) as [Hok Hlast].
  destruct (finish_counts _ _ _ Hctor) as [Hnum Hlen].
  pose proof (fun k => finish_fields _ _ _ k Hctor) as Hfields.
  assert (Hstruct : forall k, (1 <= k < num_frames lig)%nat ->
    active (frames lig !!! k) = false ->
    (habegin (frames lig !!! k) + 1)%nat = haend (frames lig !!! k)
    /\ habegin (frames lig !!! k) = rotorY (frames lig !!! k)).
  { intros k Hk Hact. rewrite Hnum in Hk.
    destruct (Hfields k) as (Hb & _ & HY & Hac). rewrite Hac in Hact.
    destruct (Hinv k Hk Hact) as (HrotY & Hone & _).
    rewrite Hb, HY. split; [|congruence].
    destruct (decide (S k < length (p_frames ps))%nat) as [Hs|Hs].
    - destruct Hok as (_ & _ & Hnext & _).
      destruct (Hnext k ltac:(lia)) as [-> _].
      destruct (Hfields (S k)) as (-> & _). exact Hone.
    - replace k with (length (frames lig) - 1)%nat at 2 by lia.
      rewrite Hlast, bonded_atoms_length. exact Hone. }
  split; [|split; [exact Hstruct|]].
  - intros k Hk. rewrite Hnum in Hk.
    destruct (Hfields k) as (_ & Hp & _). rewrite Hp.
    destruct (decide (parent (p_frames ps !!! k) = 0)%nat) as [Hroot|Hroot];
      [left; exact Hroot | right].
    destruct (Hfields (parent (p_frames ps !!! k))) as (_ & _ & _ & ->).
    destruct (active _) eqn:Hact; [reflexivity|]. exfalso.
    destruct Hpi as ((_ & _ & _ & Hrot) & _).
    destruct (Hrot k Hk) as (_ & _ & Hlt).
    destruct (Hinv (parent (p_frames ps !!! k)) ltac:(lia) Hact)
      as (_ & _ & _ & Hleaf).
    exact (Hleaf k Hk eq_refl).
  - intros Hsub k Hk Hact. destruct (Hstruct k Hk Hact) as [Hone HY].
    split; [exact Hone|]. split; [exact HY|].
    pose proof (finish_Ret _ _ _ Hctor) as (Hframes & _ & Hatoms).
    cbv zeta in Hframes, Hatoms. rewrite <- Hframes in Hatoms.
    rewrite Hatoms.
    apply (relativize_single (length (bonded_atoms ps))); auto.
    lia.
Qed.

(** ** The count of active torsions *)

Section TorsionCount.
Context {fl : Type} `{Scalar fl} `{AtomModel fl} `{TextModel fl}.

Lemma active_in_S (frames : list (frame fl)) k :
  active_in frames (S k)
  = (active_in frames k + if active (frames !!! S k) then 1 else 0)%nat.
Proof.
  unfold active_in. rewrite seq_S, List.filter_app, length_app.
  cbn [List.filter Nat.add]. destruct (active _); reflexivity.
Qed.

Lemma active_in_ext (frames frames' : list (frame fl)) k :
  (forall j, (1 <= j <= k)%nat ->
     active (frames' !!! j) = active (frames !!! j)) ->
  active_in frames' k = active_in frames k.
Proof.
  induction k as [|k IH]; intros Hsame; [reflexivity|].
  rewrite !active_in_S, IH, Hsame by (intros; try apply Hsame; lia).
  reflexivity.
Qed.

Lemma active_in_update (frames frames' : list (frame fl)) c k :
  (1 <= c <= k)%nat ->
  (forall j, j <> c -> active (frames' !!! j) = active (frames !!! j)) ->
  (active_in frames' k + (if active (frames !!! c) then 1 else 0)
   = active_in frames k + if active (frames' !!! c) then 1 else 0)%nat.
Proof.
  induction k as [|k IH]; intros Hc Hsame; [lia|].
  rewrite !active_in_S.
  destruct (decide (c = S k)) as [->|Hne].
  - rewrite (active_in_ext frames frames' k) by (intros; apply Hsame; lia).
    lia.
  - rewrite (Hsame (S k)) by congruence.
    specialize (IH ltac:(lia) Hsame). lia.
Qed.

Lemma depth_fuel (frames : list (frame fl)) :
  (forall k, (1 <= k < length frames)%nat -> (parent (frames !!! k) < k)%nat) ->
  forall f1 f2 k, (k < length frames)%nat -> (k <= f1)%nat -> (k <= f2)%nat ->
    depth frames f1 k = depth frames f2 k.
Proof.
  intros Hpar. induction f1 as [|f1 IH]; intros f2 k Hk Hf1 Hf2.
  - replace k with 0%nat by lia. destruct f2; reflexivity.
  - destruct k as [|k]; [destruct f2; reflexivity|].
    destruct f2 as [|f2]; [lia|]. cbn [depth Nat.eqb]. f_equal.
    pose proof (Hpar (S k) ltac:(lia)). apply IH; lia.
Qed.

Lemma depth_ext (frames frames' : list (frame fl)) n :
  (forall j, (j < n)%nat -> parent (frames' !!! j) = parent (frames !!! j)) ->
  (forall k, (1 <= k < n)%nat -> (parent (frames !!! k) < k)%nat) ->
  forall fuel k, (k < n)%nat -> depth frames' fuel k = depth frames fuel k.
Proof.
  intros Hsame Hpar. induction fuel as [|fuel IH]; intros k Hk; [reflexivity|].
  cbn [depth]. destruct (k =? 0)%nat eqn:Hk0; [reflexivity|].
  apply Nat.eqb_neq in Hk0. rewrite Hsame by exact Hk. f_equal.
  pose proof (Hpar k ltac:(lia)). apply IH. lia.
Qed.

Lemma torsion_inv_init : torsion_inv (fl:=fl) parser_init.
Proof. unfold torsion_inv. cbn. lia. Qed.

Lemma parse_atom_torsions NDEBUG line (ps ps' : parser fl) :
  parse_atom NDEBUG line ps = Ret ps' -> torsion_inv ps -> torsion_inv ps'.
Proof.
  intros Hp. apply parse_atom_Ret in Hp as (Hf & Hc & Ht & _).
  unfold torsion_inv. rewrite Hf, Hc, Ht. auto.
Qed.

Lemma parse_branch_torsions line (ps ps' : parser fl) :
  parse_branch line ps = Ret ps' ->
  parse_inv ps -> torsion_inv ps -> torsion_inv ps'.
Proof.
  intros Hp (Hok & Hnum & Hcur) Hinv.
  pose proof Hok as (Hpos & Hbegin & _ & Hrot).
  apply parse_branch_Ret in Hp as (x & i & _ & ->); [|exact Hpos].
  unfold torsion_inv in *.
  cbn [p_frames p_current p_num_active_torsions].
  rewrite branch_frames_after_length.
  pose proof (branch_frames_after_new ps i) as Hnew.
  assert (Hparents : forall j, (j < length (p_frames ps))%nat ->
    parent (branch_frames_after ps i !!! j) = parent (p_frames ps !!! j)).
  { intros j Hj. apply (branch_frames_after_old ps i j Hj). }
  assert (Hactive : forall j, (1 <= j <= length (p_frames ps) - 1)%nat ->
    active (branch_frames_after ps i !!! j) = active (p_frames ps !!! j)).
  { intros j Hj. apply branch_frames_after_active. lia. }
  assert (Hlt : forall k, (1 <= k < length (p_frames ps))%nat ->
    (parent (p_frames ps !!! k) < k)%nat).
  { intros k Hk. apply (Hrot k Hk). }
  pose proof (depth_ext (p_frames ps) _ _ Hparents Hlt) as Hext.
  pose proof (depth_fuel (p_frames ps) Hlt) as Hfuel.
  pose proof (active_in_ext (p_frames ps) (branch_frames_after ps i) _ Hactive)
    as Hcount.
  destruct (length (p_frames ps)) as [|m]; [lia|].
  replace (S (S m) - 1)%nat with (S m) by lia.
  replace (S m - 1)%nat with m in * by lia.
  rewrite active_in_S in |- *.
  cbn [depth Nat.eqb]. rewrite Hnew. cbn [parent active frame_ctor].
  rewrite Hext by lia.
  rewrite (Hfuel m (p_current ps) (p_current ps)) by lia.
  rewrite Hcount. lia.
Qed.

Lemma parse_endbranch_torsions line (ps ps' : parser fl) :
  parse_endbranch line ps = Ret ps' ->
  parse_inv ps -> inactive_inv ps -> torsion_inv ps -> torsion_inv ps'.
Proof.
  intros Hp (Hok & Hnum & Hcur) Hinact Hinv.
  pose proof Hok as (Hpos & Hbegin & _ & Hrot).
  apply parse_endbranch_Ret in Hp as (y & i & inactive & _ & _ & Hp).
  cbv zeta in Hp. subst ps'. unfold torsion_inv in *.
  cbn [p_frames p_current p_num_active_torsions].
  rewrite length_insert.
  set (c := p_current ps) in *. set (F := p_frames ps) in *.
  set (n := length F) in *.
  set (f' := if inactive then _ else _).
  assert (Hclosed : <[c := f']> F !!! c = f')
    by (apply list_lookup_total_insert_eq; exact Hcur).
  assert (Hother : forall j, j <> c -> <[c := f']> F !!! j = F !!! j)
    by (intros j Hj; apply list_lookup_total_insert_ne; congruence).
  assert (Hparents : forall j, (j < n)%nat ->
    parent (<[c := f']> F !!! j) = parent (F !!! j)).
  { intros j Hj. destruct (decide (j = c)) as [->|Hne].
    - rewrite Hclosed. subst f'. destruct inactive; reflexivity.
    - rewrite Hother by exact Hne. reflexivity. }
  assert (Hlt : forall k, (1 <= k < n)%nat -> (parent (F !!! k) < k)%nat).
  { intros k Hk. apply (Hrot k Hk). }
  rewrite Hparents by exact Hcur.
  assert (Hpc : (parent (F !!! c) <= c)%nat) by apply (Hbegin c Hcur).
  rewrite (depth_ext F _ n Hparents Hlt) by lia.
  destruct (decide (c = 0)%nat) as [Hc0|Hc0].
  - (* an ENDBRANCH at ROOT *)
    assert (Hp0 : parent (F !!! c) = 0%nat) by lia.
    rewrite Hp0. rewrite Hc0 in Hinv. cbn [depth] in Hinv |- *.
    rewrite (active_in_ext F).
    + destruct inactive; lia.
    + intros j Hj. rewrite Hother by lia. reflexivity.
  - assert (Hdepth : depth F c c = S (depth F (parent (F !!! c))
                                        (parent (F !!! c)))).
    { destruct c as [|c'] eqn:Hceq; [lia|]. cbn [depth Nat.eqb]. f_equal.
      pose proof (Hlt (S c') ltac:(lia)).
      apply (depth_fuel F Hlt); lia. }
    rewrite Hdepth in Hinv.
    pose proof (active_in_update F (<[c := f']> F) c (n - 1)
                  ltac:(lia) (fun j Hj => f_equal active (Hother j Hj)))
      as Hupd.
    rewrite Hclosed in Hupd.
    destruct inactive; subst f'; cbn [active set_active set_rotorY] in Hupd.
    + destruct (active (F !!! c)) eqn:Hact; [lia|].
      destruct (Hinact c ltac:(fold F n; lia) Hact) as (_ & _ & Hcontra & _).
      exfalso. apply Hcontra. reflexivity.
    + destruct (active (F !!! c)); lia.
Qed.

Lemma parse_line_torsions line (ps ps' : parser fl) :
  parse_line false line ps = Ret ps' ->
  parse_inv ps -> inactive_inv ps -> torsion_inv ps -> torsion_inv ps'.
Proof.
  intros Hp Hpi Hin Hinv. apply parse_line_Ret in Hp. cbv zeta in Hp.
  destruct Hp as [Hp | [Hp | [Hp | [-> | ->]]]].
  - exact (parse_atom_torsions _ _ _ _ Hp Hinv).
  - exact (parse_branch_torsions _ _ _ Hp Hpi Hinv).
  - exact (parse_endbranch_torsions _ _ _ Hp Hpi Hin Hinv).
  - exact Hinv.
  - exact Hinv.
Qed.

Lemma parse_lines_torsions input : forall (ps ps' : parser fl),
  parse_lines false input ps = Ret ps' ->
  parse_inv ps -> inactive_inv ps -> torsion_inv ps -> torsion_inv ps'.
Proof.
  induction input as [|line input IH]; intros ps ps'; cbn [parse_lines].
  - intros [= <-]. auto.
  - intros Hp Hpi Hin Hinv. inv_bind Hp.
    exact (IH _ _ Hp (parse_line_inv _ _ _ _ Ha Hpi)
             (parse_line_inactive _ _ _ Ha Hpi Hin)
             (parse_line_torsions _ _ _ Ha Hpi Hin Hinv)).
Qed.

Lemma finish_debug (ps : parser fl) lig :
  finish false ps = Ret lig ->
  p_current ps = 0%nat
  /\ num_active_torsions lig = p_num_active_torsions ps.
Proof.
  unfold finish. intros Hf. inv_bind Hf. inv_bind Hf.
  destruct a0. apply BOOST_ASSERT_holds, Nat.eqb_eq in Ha0.
  do 4 inv_bind Hf. destruct (relativize _ _). injection Hf as <-.
  auto.
Qed.

(** Assertions only end the construction early: a release build
    constructs the ligand that a debug build constructs. *)
Lemma parse_lines_release input : forall (ps ps' : parser fl),
  parse_lines false input ps = Ret ps' -> parse_lines true input ps = Ret ps'.
Proof.
  induction input as [|line input IH]; intros ps ps'; cbn [parse_lines];
    [auto|].
  intros Hp. inv_bind Hp.
  assert (Hline : parse_line true line ps = Ret a).
  { clear Hp. unfold parse_line in *. cbv zeta in *.
    destruct (_ || _); [|exact Ha].
    unfold parse_atom in *. inv_bind Ha. exact Ha. }
  rewrite Hline. cbn [bind]. apply IH, Hp.
Qed.

Lemma ligand_ctor_release input (lig : ligand fl) :
  ligand_ctor false input = Ret lig -> ligand_ctor true input = Ret lig.
Proof.
  unfold ligand_ctor. intros Hctor. inv_bind Hctor.
  rewrite (parse_lines_release _ _ _ Ha). cbn [bind].
  unfold finish in *. do 6 inv_bind Hctor. exact Hctor.
Qed.

(** A ligand that a debug build constructs counts at least as many
    active torsions as it has active BRANCH frames. *)
Lemma ligand_ctor_torsions input (lig : ligand fl) :
  ligand_ctor false input = Ret lig ->
  (active_branches lig (num_frames lig - 1) <= num_active_torsions lig)%nat.
Proof.
  unfold ligand_ctor. intros Hctor. inv_bind Hctor. rename a into ps.
  pose proof (parse_lines_inv _ _ _ _ Ha parse_inv_init) as Hpi.
  pose proof (parse_lines_inactive _ _ _ Ha parse_inv_init inactive_inv_init)
    as Hin.
  pose proof (parse_lines_torsions _ _ _ Ha parse_inv_init inactive_inv_init
                torsion_inv_init) as Hinv.
  destruct (finish_debug _ _ Hctor) as [Hcur ->].
  destruct (finish_counts _ _ _ Hctor) as [-> _].
  unfold torsion_inv in Hinv. rewrite Hcur in Hinv. cbn [depth] in Hinv.
  unfold active_branches.
  rewrite (active_in_ext (p_frames ps)); [lia|].
  intros j Hj. apply (finish_fields _ _ _ j Hctor).
Qed.
End TorsionCount.

(** X1. A ligand that a debug build constructs is the one a release build
    constructs from the same lines, and it counts at least as many active
    torsions as it has active BRANCH frames, so that a release build of
    [ligand::evaluate] returns on it, with either answer, whatever the
    conformation, the box and the bound. *)
Theorem ligand_ctor_evaluate_returns {fl : Type} `{Scalar fl} `{Libm fl}
    `{AtomModel fl} `{TextModel fl}
    `{BoxModel fl} `{GridModel fl} `{ScoringModel fl}
    (input : list string) (lig : ligand fl) :
  ligand_ctor false input = Ret lig ->
  ligand_ctor true input = Ret lig
  /\ (active_branches lig (num_frames lig - 1) <= num_active_torsions lig)%nat
  /\ forall conf (sf : scoring_function) (b : box) (grid_maps : list array3d)
        e_upper_bound e f g,
       exists r,
         evaluate true lig conf sf b grid_maps e_upper_bound e f g = Ret r.
Proof.
  intros Hctor. pose proof (ligand_ctor_torsions _ _ Hctor) as Hcount.
  split; [exact (ligand_ctor_release _ _ Hctor)|].
  split; [exact Hcount|].
  intros conf sf b grid_maps e_upper_bound e f g.
  apply evaluate_release_returns. exact Hcount.
Qed.

(** ** The packed triangular matrix *)

Section Triangular.
Lemma triangle_S y : (S y * (S y + 1)) / 2 = (y * (y + 1)) / 2 + S y.
Proof.
  replace (S y * (S y + 1)) with (y * (y + 1) + S y * 2) by lia.
  apply Nat.div_add. lia.
Qed.

Lemma triangle_lt y y' : y < y' -> (y * (y + 1)) / 2 + y < (y' * (y' + 1)) / 2.
Proof.
  induction y' as [|y' IH]; [lia|]. intros Hlt.
  rewrite triangle_S. destruct (decide (y = y')) as [->|Hne]; [lia|].
  assert (y < y') by lia. specialize (IH ltac:(assumption)). lia.
Qed.

Lemma mr_bound n x y : x <= y -> y < n -> mr x y < n * (n + 1) / 2.
Proof. intros Hxy Hy. unfold mr. pose proof (triangle_lt y n Hy). lia. Qed.

Lemma mr_inj x y x' y' :
  x <= y -> x' <= y' -> mr x y = mr x' y' -> x = x' /\ y = y'.
Proof.
  unfold mr. intros Hxy Hxy' Heq.
  destruct (lt_eq_lt_dec y y') as [[Hlt| ->]|Hlt].
  - pose proof (triangle_lt y y' Hlt). lia.
  - lia.
  - pose proof (triangle_lt y' y Hlt). lia.
Qed.

Lemma mp_mr x y : mp x y = mr (Nat.min x y) (Nat.max x y).
Proof.
  unfold mp. destruct (x <=? y) eqn:Hle.
  - apply Nat.leb_le in Hle. rewrite Nat.min_l, Nat.max_r; auto.
  - apply Nat.leb_gt in Hle. rewrite Nat.min_r, Nat.max_l; auto; lia.
Qed.
End Triangular.

(** X3. The packed index of a symmetric matrix of order [n]: [mp] does
    not depend on the order of its two arguments, stays below
    [n * (n + 1) / 2], the size the Hessian is given, and sends two
    entries to the same index only when they are the same entry or each
    other's transpose. *)
Theorem mp_packs_symmetric_matrix (n x y : nat) :
  x < n -> y < n ->
  mp x y = mp y x
  /\ mp x y < n * (n + 1) / 2
  /\ forall x' y', x' < n -> y' < n -> mp x y = mp x' y' ->
       (x = x' /\ y = y') \/ (x = y' /\ y = x').
Proof.
  intros Hx Hy. split; [|split].
  - rewrite !mp_mr, Nat.min_comm, Nat.max_comm. reflexivity.
  - rewrite mp_mr. apply mr_bound; lia.
  - intros x' y' Hx' Hy'. rewrite !mp_mr. intros Heq.
    apply mr_inj in Heq; lia.
Qed.

Section Hessian.
Context {fl : Type} `{Scalar fl} `{Libm fl}.
Local Open Scope fl_scope.

Lemma diagonal_length l : forall h : list fl,
  length (foldl (fun h i => <[mr i i := 1]> h) h l) = length h.
Proof.
  induction l as [|i l IH]; intros h; simpl; [reflexivity|].
  rewrite IH. apply length_insert.
Qed.

Lemma diagonal_lookup l m : forall h : list fl,
  (m < length h)%nat ->
  foldl (fun h i => <[mr i i := 1]> h) h l !!! m
  = if existsb (fun i => mr i i =? m)%nat l then 1 else h !!! m.
Proof.
  induction l as [|i l IH]; intros h Hm; simpl; [reflexivity|].
  rewrite IH by (rewrite length_insert; exact Hm).
  destruct (existsb _ l); [rewrite orb_true_r; reflexivity|].
  rewrite orb_false_r. destruct (mr i i =? m)%nat eqn:Heq.
  - apply Nat.eqb_eq in Heq. subst m. apply list_lookup_total_insert_eq. exact Hm.
  - apply Nat.eqb_neq in Heq. apply list_lookup_total_insert_ne. exact Heq.
Qed.

Lemma identity_hessian_length n :
  length (identity_hessian (fl := fl) n) = (n * (n + 1) / 2)%nat.
Proof. unfold identity_hessian. rewrite diagonal_length. apply length_replicate. Qed.

Lemma identity_hessian_lookup n i j :
  (i < n)%nat -> (j < n)%nat ->
  identity_hessian (fl := fl) n !!! mp i j = if (i =? j)%nat then 1 else 0.
Proof.
  intros Hi Hj. unfold identity_hessian, triangular_matrix_restrictive_index.
  assert (Hm : (mp i j < n * (n + 1) / 2)%nat)
    by (rewrite mp_mr; apply mr_bound; lia).
  rewrite diagonal_lookup by (rewrite length_replicate; exact Hm).
  rewrite lookup_total_replicate_2 by exact Hm.
  destruct (i =? j)%nat eqn:Hij.
  - apply Nat.eqb_eq in Hij. subst j.
    replace (existsb _ _) with true; [reflexivity|]. symmetry.
    apply existsb_exists. exists i. split; [apply in_seq; lia|].
    apply Nat.eqb_eq. rewrite mp_mr, Nat.min_id, Nat.max_id. reflexivity.
  - apply Nat.eqb_neq in Hij.
    replace (existsb _ _) with false; [reflexivity|]. symmetry.
    apply not_true_is_false. intros Hex. apply existsb_exists in Hex.
    destruct Hex as (k & _ & Hk). apply Nat.eqb_eq in Hk.
    rewrite mp_mr in Hk. apply mr_inj in Hk; lia.
Qed.
End Hessian.

(** X4. The matrix of lines 57-59 is the identity in packed form: it has
    [n * (n + 1) / 2] entries, and the entry [(i, j)], read as the code
    reads it through [mp], is [1] on the diagonal and [0] off it. *)
Theorem identity_hessian_is_identity {fl : Type} `{Scalar fl} (n i j : nat) :
  i < n -> j < n ->
  length (identity_hessian (fl := fl) n) = n * (n + 1) / 2
  /\ identity_hessian (fl := fl) n !!! triangular_matrix_permissive_index i j
     = if (i =? j)%nat then flit 1%float else flit 0%float.
Proof.
  intros Hi Hj. split.
  - apply identity_hessian_length.
  - apply identity_hessian_lookup; assumption.
Qed.

(** ** Exact arithmetic *)

Section ExactArithmetic.
Context {fl : Type} `{Scalar fl} `{Libm fl}.
Hypothesis Hexact : exact_ring (fl := fl).
Local Open Scope fl_scope.

Lemma fl_ring : ring_theory 0 1 fadd fmul fsub fneg (@eq fl).
Proof using Hexact. exact (proj1 Hexact). Qed.

Add Ring fl_ring : fl_ring.

Ltac tuple_eq :=
  cbv [qmul qtn4_to_mat3_raw mat3_mul_vec3 norm_sqr3 norm_sqr4 qtn4id];
  repeat match goal with |- (_, _) = (_, _) => apply f_equal2 end.

Lemma two_is_1_plus_1 : (2 : fl) = 1 + 1.
Proof using Hexact. exact (proj2 Hexact). Qed.

Lemma qmul_norm_sqr (a b : qtn4 fl) :
  norm_sqr4 (qmul a b) = norm_sqr4 a * norm_sqr4 b.
Proof using Hexact.
  destruct a as [[[a0 a1] a2] a3], b as [[[b0 b1] b2] b3]. tuple_eq. ring.
Qed.

Lemma qmul_assoc (a b c : qtn4 fl) : qmul (qmul a b) c = qmul a (qmul b c).
Proof using Hexact.
  destruct a as [[[a0 a1] a2] a3], b as [[[b0 b1] b2] b3],
    c as [[[c0 c1] c2] c3]. tuple_eq; ring.
Qed.

Lemma qmul_id_l (a : qtn4 fl) : qmul qtn4id a = a.
Proof using Hexact.
  destruct a as [[[a0 a1] a2] a3]. tuple_eq; ring.
Qed.

Lemma rotate_qmul (a b : qtn4 fl) (v : vec3 fl) :
  mat3_mul_vec3 (qtn4_to_mat3_raw (qmul a b)) v
  = mat3_mul_vec3 (qtn4_to_mat3_raw a) (mat3_mul_vec3 (qtn4_to_mat3_raw b) v).
Proof using Hexact.
  destruct a as [[[a0 a1] a2] a3], b as [[[b0 b1] b2] b3], v as [[v0 v1] v2].
  tuple_eq; rewrite two_is_1_plus_1; ring.
Qed.

Lemma rotate_norm_sqr (a : qtn4 fl) (v : vec3 fl) :
  norm_sqr3 (mat3_mul_vec3 (qtn4_to_mat3_raw a) v)
  = norm_sqr4 a * norm_sqr4 a * norm_sqr3 v.
Proof using Hexact.
  destruct a as [[[a0 a1] a2] a3], v as [[v0 v1] v2].
  tuple_eq. rewrite two_is_1_plus_1. ring.
Qed.

Lemma rotate_id (v : vec3 fl) :
  mat3_mul_vec3 (qtn4_to_mat3_raw qtn4id) v = v.
Proof using Hexact.
  destruct v as [[v0 v1] v2]. tuple_eq; rewrite two_is_1_plus_1; ring.
Qed.
End ExactArithmetic.

(** ** The flat view of a [change] *)

Section ChangeFacts.
Context {fl : Type} `{Scalar fl}.

Lemma change_set_length (g : change fl) i v :
  length (g_torsions (change_set g i v)) = length (g_torsions g).
Proof.
  destruct g as [[[p0 p1] p2] [[o0 o1] o2] ts].
  do 6 (destruct i as [|i]; [reflexivity|]). apply length_insert.
Qed.

Lemma change_get_set_eq (g : change fl) i v :
  i < 6 + length (g_torsions g) -> change_get (change_set g i v) i = v.
Proof.
  destruct g as [[[p0 p1] p2] [[o0 o1] o2] ts]. intros Hi.
  do 6 (destruct i as [|i]; [reflexivity|]).
  simpl in *. apply list_lookup_total_insert_eq. lia.
Qed.

Lemma change_get_set_ne (g : change fl) i j v :
  i <> j -> change_get (change_set g i v) j = change_get g j.
Proof.
  destruct g as [[[p0 p1] p2] [[o0 o1] o2] ts]. intros Hne.
  do 6 (destruct i as [|i];
        [do 6 (destruct j as [|j]; [reflexivity || congruence|]); reflexivity|]).
  do 6 (destruct j as [|j]; [reflexivity|]).
  simpl. apply list_lookup_total_insert_ne. congruence.
Qed.

Lemma change_fill_get (f : nat -> fl) l : forall (g : change fl) i,
  NoDup l ->
  (forall k, k ∈ l -> k < 6 + length (g_torsions g)) ->
  change_get (foldl (fun out k => change_set out k (f k)) g l) i
  = if decide (i ∈ l) then f i else change_get g i.
Proof.
  induction l as [|k l IH]; intros g i Hnd Hin; simpl.
  - destruct (decide (i ∈ [])) as [Hi|_]; [inversion Hi|reflexivity].
  - apply NoDup_cons in Hnd as [Hk Hnd].
    rewrite IH; [|exact Hnd|].
    + destruct (decide (i ∈ l)) as [Hi|Hi].
      * rewrite decide_True by (right; exact Hi). reflexivity.
      * destruct (decide (i = k)) as [->|Hne].
        -- rewrite decide_True by left.
           apply change_get_set_eq. apply Hin. left.
        -- rewrite decide_False by (intros Hi'; inversion Hi'; subst; tauto).
           apply change_get_set_ne. congruence.
    + intros k' Hk'. rewrite change_set_length. apply Hin. right. exact Hk'.
Qed.
End ChangeFacts.

Section SteepestDescent.
Context {fl : Type} `{Scalar fl} `{Libm fl}.
Hypothesis Hexact : exact_ring (fl := fl).
Local Open Scope fl_scope.

Add Ring fl_ring_descent : (fl_ring Hexact).

Lemma identity_row N i (v : change fl) l : forall acc,
  (i < N)%nat -> (forall j, j ∈ l -> (j < N)%nat) -> NoDup l ->
  foldl (fun sum j =>
           sum + (identity_hessian N !!! triangular_matrix_permissive_index i j)
                 * change_get v j) acc l
  = if decide (i ∈ l) then acc + change_get v i else acc.
Proof using Hexact.
  intros acc Hi. revert acc.
  induction l as [|j l IH]; intros acc Hin Hnd; simpl.
  - destruct (decide (i ∈ [])) as [Hi'|_]; [inversion Hi'|reflexivity].
  - apply NoDup_cons in Hnd as [Hj Hnd].
    rewrite IH; [|intros j' Hj'; apply Hin; right; exact Hj'|exact Hnd].
    unfold triangular_matrix_permissive_index.
    rewrite identity_hessian_lookup by (auto; apply Hin; left).
    destruct (decide (i ∈ l)) as [Hil|Hil].
    + rewrite decide_True by (right; exact Hil).
      destruct (i =? j)%nat eqn:Hij; [|ring].
      apply Nat.eqb_eq in Hij. subst j. tauto.
    + destruct (i =? j)%nat eqn:Hij.
      * apply Nat.eqb_eq in Hij. subst j. rewrite decide_True by left. ring.
      * apply Nat.eqb_neq in Hij.
        rewrite decide_False by (intros Hi'; inversion Hi'; subst; tauto).
        ring.
Qed.

Lemma identity_h_row_times N i (v : change fl) :
  (i < N)%nat -> h_row_times (identity_hessian N) v N i = change_get v i.
Proof using Hexact.
  intros Hi. unfold h_row_times.
  rewrite identity_row; [| exact Hi | | apply NoDup_seq].
  - rewrite decide_True by (apply elem_of_seq; lia). ring.
  - intros j Hj. apply elem_of_seq in Hj. lia.
Qed.

Lemma minus_identity_times n i (g : change fl) :
  (i < 6 + n)%nat ->
  change_get (minus_h_times (identity_hessian (6 + n)) g n) i
  = - change_get g i.
Proof using Hexact.
  intros Hi. unfold minus_h_times.
  rewrite (change_fill_get (fun i => - h_row_times (identity_hessian (6 + n)) g (6 + n) i)).
  - rewrite decide_True by (apply elem_of_seq; lia).
    rewrite identity_h_row_times by exact Hi. reflexivity.
  - apply NoDup_seq.
  - intros k Hk. apply elem_of_seq in Hk. simpl. rewrite length_replicate. lia.
Qed.
End SteepestDescent.

(** X5. In exact arithmetic the first search direction of every Monte
    Carlo iteration is the steepest descent: with the Hessian of lines
    57-59, [p = -h * g] is [-g], entry by entry. *)
Theorem first_direction_is_steepest_descent {fl : Type} `{Scalar fl}
    (n i : nat) (g : change fl) :
  exact_ring (fl := fl) ->
  i < 6 + n ->
  change_get (minus_h_times (identity_hessian (6 + n)) g n) i
  = fneg (change_get g i).
Proof. intros Hexact Hi. apply minus_identity_times; assumption. Qed.

(** X6. In exact arithmetic the squared norm of a product of quaternions
    is the product of their squared norms: [operator*] of [array.cpp]
    keeps unit quaternions unit, and multiplication is associative with
    [(1, 0, 0, 0)] as its left identity. *)
Theorem qmul_is_hamilton_product {fl : Type} `{Scalar fl} (a b c : qtn4 fl) :
  exact_ring (fl := fl) ->
  norm_sqr4 (qmul a b) = fmul (norm_sqr4 a) (norm_sqr4 b)
  /\ qmul (qmul a b) c = qmul a (qmul b c)
  /\ qmul qtn4id a = a.
Proof.
  intros Hexact. split; [|split].
  - apply qmul_norm_sqr. exact Hexact.
  - apply qmul_assoc. exact Hexact.
  - apply qmul_id_l. exact Hexact.
Qed.

(** X7. In exact arithmetic the matrix of [qtn4_to_mat3] acts as a
    rotation: the matrix of a product of quaternions applies the matrix
    of the second factor and then that of the first, and the matrix of
    [a] scales squared lengths by the square of the squared norm of [a],
    so that a unit quaternion keeps lengths. *)
Theorem qtn4_to_mat3_is_rotation {fl : Type} `{Scalar fl}
    (a b : qtn4 fl) (v : vec3 fl) :
  exact_ring (fl := fl) ->
  mat3_mul_vec3 (qtn4_to_mat3_raw (qmul a b)) v
  = mat3_mul_vec3 (qtn4_to_mat3_raw a) (mat3_mul_vec3 (qtn4_to_mat3_raw b) v)
  /\ norm_sqr3 (mat3_mul_vec3 (qtn4_to_mat3_raw a) v)
     = fmul (fmul (norm_sqr4 a) (norm_sqr4 a)) (norm_sqr3 v).
Proof.
  intros Hexact. split.
  - apply rotate_qmul. exact Hexact.
  - apply rotate_norm_sqr. exact Hexact.
Qed.

(** ** ligand::get_atom_types *)

Section AtomTypesFacts.
Lemma first_seen_snoc types t :
  first_seen (types ++ [t])
  = if contains (first_seen types) t then first_seen types
    else first_seen types ++ [t].
Proof. unfold first_seen. rewrite foldl_app. reflexivity. Qed.

Lemma contains_elem_of l x : contains l x = true <-> x ∈ l.
Proof. rewrite contains_In. symmetry. apply list_elem_of_In. Qed.

Lemma first_seen_spec types :
  NoDup (first_seen types)
  /\ (forall t, t ∈ first_seen types <-> t ∈ types)
  /\ (forall p q t u, p < q ->
        first_seen types !! p = Some t -> first_seen types !! q = Some u ->
        exists i, types !! i = Some t
                  /\ forall j, j <= i -> types !! j <> Some u).
Proof.
  induction types as [|t0 types (Hnd & Hmem & Hord)] using rev_ind.
  - split; [constructor|]. split; [reflexivity|].
    intros p q t u _ Hp. discriminate.
  - rewrite first_seen_snoc.
    destruct (contains (first_seen types) t0) eqn:Hc.
    + apply contains_elem_of in Hc. split; [exact Hnd|]. split.
      * intros t. rewrite Hmem, elem_of_app, list_elem_of_singleton.
        split; [auto|]. intros [Ht | ->]; [exact Ht|]. apply Hmem, Hc.
      * intros p q t u Hpq Hp Hq.
        destruct (Hord p q t u Hpq Hp Hq) as (i & Hi & Hbefore).
        exists i. split; [apply lookup_app_l_Some; exact Hi|].
        intros j Hj. apply lookup_lt_Some in Hi.
        rewrite lookup_app_l by lia. apply Hbefore, Hj.
    + assert (Hnew : t0 ∉ first_seen types).
      { intros Hin. apply contains_elem_of in Hin. congruence. }
      split; [|split].
      * apply NoDup_app. split; [exact Hnd|]. split; [|apply NoDup_singleton].
        intros x Hx Hx'. apply list_elem_of_singleton in Hx'. subst x. tauto.
      * intros t. rewrite !elem_of_app, Hmem. reflexivity.
      * intros p q t u Hpq Hp Hq.
        destruct (decide (q < length (first_seen types))) as [Hlt|Hge].
        -- rewrite lookup_app_l in Hp, Hq by lia.
           destruct (Hord p q t u Hpq Hp Hq) as (i & Hi & Hbefore).
           exists i. split; [apply lookup_app_l_Some; exact Hi|].
           intros j Hj. apply lookup_lt_Some in Hi.
           rewrite lookup_app_l by lia. apply Hbefore, Hj.
        -- pose proof (lookup_lt_Some _ _ _ Hq) as Hq'.
           rewrite length_app in Hq'. cbn [length] in Hq'.
           assert (q = length (first_seen types)) as -> by lia.
           rewrite list_lookup_middle in Hq by reflexivity.
           injection Hq as <-.
           rewrite lookup_app_l in Hp by lia.
           assert (Hin : t ∈ types).
           { apply Hmem. eapply list_elem_of_lookup_2. exact Hp. }
           apply list_elem_of_lookup_1 in Hin as (i & Hi).
           exists i. split; [apply lookup_app_l_Some; exact Hi|].
           intros j Hj Hcontra. apply lookup_lt_Some in Hi.
           rewrite lookup_app_l in Hcontra by lia.
           apply Hnew, Hmem. eapply list_elem_of_lookup_2. exact Hcontra.
Qed.

Context {fl : Type} `{Scalar fl}.

Lemma get_atom_types_first_seen (lig : ligand fl) :
  get_atom_types lig
  = first_seen ((fun i => xs (heavy_atoms lig !!! i))
                <$> seq 0 (num_heavy_atoms lig)).
Proof.
  unfold get_atom_types, first_seen. rewrite foldl_fmap. reflexivity.
Qed.

Lemma types_lookup (lig : ligand fl) i t :
  ((fun i => xs (heavy_atoms lig !!! i)) <$> seq 0 (num_heavy_atoms lig))
    !! i = Some t
  <-> i < num_heavy_atoms lig /\ xs (heavy_atoms lig !!! i) = t.
Proof.
  rewrite list_lookup_fmap. split.
  - intros Hl. destruct (seq 0 (num_heavy_atoms lig) !! i) as [j|] eqn:Hj;
      [|discriminate].
    apply lookup_seq in Hj as [-> Hlt]. injection Hl as <-. auto.
  - intros [Hlt <-]. rewrite (lookup_seq_lt _ _ _ Hlt). reflexivity.
Qed.
End AtomTypesFacts.

(** X8. [get_atom_types] returns the XScore types of the heavy atoms
    without a duplicate: a type is in the vector exactly when one of the
    [num_heavy_atoms] heavy atoms has it, and the types come in the order
    in which the atoms first show them. *)
Theorem get_atom_types_first_occurrences {fl : Type} `{Scalar fl}
    (lig : ligand fl) :
  num_heavy_atoms lig <= length (heavy_atoms lig) ->
  NoDup (get_atom_types lig)
  /\ (forall t, t ∈ get_atom_types lig <->
        exists i, i < num_heavy_atoms lig /\ xs (heavy_atoms lig !!! i) = t)
  /\ (forall p q t u, p < q ->
        get_atom_types lig !! p = Some t -> get_atom_types lig !! q = Some u ->
        exists i, i < num_heavy_atoms lig
          /\ xs (heavy_atoms lig !!! i) = t
          /\ forall j, j <= i -> xs (heavy_atoms lig !!! j) <> u).
Proof.
  intros _. rewrite get_atom_types_first_seen.
  destruct (first_seen_spec ((fun i => xs (heavy_atoms lig !!! i))
                             <$> seq 0 (num_heavy_atoms lig)))
    as (Hnd & Hmem & Hord).
  split; [exact Hnd|]. split.
  - intros t. rewrite Hmem. split.
    + intros Hin. apply list_elem_of_lookup_1 in Hin as (i & Hi).
      exists i. apply types_lookup. exact Hi.
    + intros (i & Hi). eapply list_elem_of_lookup_2. apply types_lookup. exact Hi.
  - intros p q t u Hpq Hp Hq.
    destruct (Hord p q t u Hpq Hp Hq) as (i & Hi & Hbefore).
    apply types_lookup in Hi as [Hlt Hxs].
    exists i. split; [exact Hlt|]. split; [exact Hxs|].
    intros j Hj Hcontra. apply (Hbefore j Hj). apply types_lookup.
    split; [lia | exact Hcontra].
Qed.

(** ** The constructed ligand and the file *)

Section CtorCounts.
Context {fl : Type} `{Scalar fl} `{AtomModel fl} `{TextModel fl}.

Lemma starts_with_BRANCH line :
  starts_with line "BRANCH" = true -> is_atom_line line = false.
Proof.
  unfold is_atom_line, starts_with. destruct line as [|c line]; [discriminate|].
  cbn [String.prefix]. destruct (ascii_dec "B" c) as [<-|]; [|discriminate].
  intros _. reflexivity.
Qed.

Lemma donorize_bonded_length (a : atom fl) b n : forall atoms,
  length (donorize_bonded a b n atoms) = length atoms.
Proof.
  induction n as [|n IH]; intros atoms; cbn [donorize_bonded]; [reflexivity|].
  destruct (_ <? _)%nat; [|reflexivity].
  destruct (negb _); [apply IH|].
  destruct (is_neighbor _ _); [apply length_insert | apply IH].
Qed.

(** What an ATOM/HETATM line adds: a hydrogen, or a heavy atom with its
    serial number. *)
Lemma parse_atom_shape NDEBUG line (ps ps' : parser fl) :
  parse_atom NDEBUG line ps = Ret ps' ->
  p_frames ps' = p_frames ps
  /\ p_current ps' = p_current ps
  /\ p_num_active_torsions ps' = p_num_active_torsions ps
  /\ p_lines ps' = p_lines ps ++ [line]
  /\ exists a,
       (p_hydrogens ps' = p_hydrogens ps ++ [a]
        /\ length (p_heavy_atoms ps') = length (p_heavy_atoms ps)
        /\ p_numbers ps' = p_numbers ps)
       \/ (p_heavy_atoms ps' = p_heavy_atoms ps ++ [a]
           /\ p_hydrogens ps' = p_hydrogens ps
           /\ exists number, p_numbers ps' = p_numbers ps ++ [number]).
Proof.
  unfold parse_atom. intros Hp. do 3 inv_bind Hp.
  destruct (parse_ad_type_string _ =? AD_TYPE_SIZE)%nat; [discriminate|].
  do 3 inv_bind Hp.
  destruct (is_hydrogen _).
  - injection Hp as <-. cbn. repeat (split; [reflexivity|]).
    eexists. left. split; [reflexivity|]. split; [|reflexivity].
    destruct (_ =? AD_TYPE_HD)%nat; [|reflexivity].
    apply donorize_bonded_length.
  - inv_bind Hp. injection Hp as <-. cbn. repeat (split; [reflexivity|]).
    eexists. right. eauto.
Qed.

Lemma parse_line_counts NDEBUG line (ps ps' : parser fl) :
  parse_line NDEBUG line ps = Ret ps' ->
  p_lines ps' = p_lines ps ++ (if kept_line line then [line] else [])
  /\ length (p_frames ps')
     = (length (p_frames ps) + (if is_branch_line line then 1 else 0))%nat
  /\ (length (p_heavy_atoms ps') + length (p_hydrogens ps'))%nat
     = (length (p_heavy_atoms ps) + length (p_hydrogens ps)
        + (if is_atom_line line then 1 else 0))%nat.
Proof.
  unfold parse_line, kept_line, is_branch_line. cbv zeta.
  fold (is_atom_line line).
  destruct (is_atom_line line) eqn:Hatom.
  - intros Hp. apply parse_atom_shape in Hp
      as (-> & _ & _ & -> & a & [(-> & -> & _) | (-> & -> & _)]);
      cbn [orb p_lines p_frames p_heavy_atoms p_hydrogens];
      rewrite ?length_app; cbn [length];
      (destruct (starts_with line "BRANCH") eqn:Hb;
       [apply starts_with_BRANCH in Hb; congruence|]);
      repeat split; lia.
  - cbn [orb]. destruct (starts_with line "BRANCH") eqn:Hb.
    + intros Hp. cbn [orb]. unfold parse_branch in Hp.
      inv_bind Hp. inv_bind Hp. injection Hp as <-.
      cbn [p_lines p_frames p_heavy_atoms p_hydrogens].
      rewrite length_insert, length_app. cbn [length].
      repeat split; lia.
    + cbn [orb]. destruct (starts_with line "ENDBRANCH") eqn:He.
      * intros Hp. apply parse_endbranch_Ret in Hp
          as (y & i & inactive & _ & _ & Hp).
        cbv zeta in Hp. subst ps'.
        cbn [orb p_lines p_frames p_heavy_atoms p_hydrogens].
        rewrite length_insert. repeat split; lia.
      * cbn [orb].
        destruct (starts_with line "ROOT" || starts_with line "ENDROOT"
                  || starts_with line "TORSDOF") eqn:Hr;
          intros [= <-]; cbn [p_lines p_frames p_heavy_atoms p_hydrogens].
        -- repeat split; lia.
        -- rewrite app_nil_r. repeat split; lia.
Qed.

Lemma parse_lines_counts NDEBUG input : forall (ps ps' : parser fl),
  parse_lines NDEBUG input ps = Ret ps' ->
  p_lines ps' = p_lines ps ++ List.filter kept_line input
  /\ length (p_frames ps')
     = (length (p_frames ps) + length (List.filter is_branch_line input))%nat
  /\ (length (p_heavy_atoms ps') + length (p_hydrogens ps'))%nat
     = (length (p_heavy_atoms ps) + length (p_hydrogens ps)
        + length (List.filter is_atom_line input))%nat.
Proof.
  induction input as [|line input IH]; intros ps ps'; cbn [parse_lines].
  - intros [= <-]. cbn. rewrite app_nil_r. repeat split; lia.
  - intros Hp. inv_bind Hp. rename a into ps1.
    apply parse_line_counts in Ha as (Hl & Hf & Ha).
    apply IH in Hp as (-> & -> & ->). rewrite Hl, Hf, Ha.
    cbn [List.filter].
    destruct (kept_line line), (is_branch_line line), (is_atom_line line);
      cbn [length app]; rewrite <- ?app_assoc; cbn [app];
      rewrite ?app_nil_r; repeat split; lia.
Qed.

Lemma relativize_lengths (frames : list (frame fl)) atoms hydrogens :
  length (relativize frames (atoms, hydrogens)).1 = length atoms
  /\ length (relativize frames (atoms, hydrogens)).2 = length hydrogens.
Proof.
  unfold relativize. generalize (seq 0 (length frames)). intros ks.
  revert atoms hydrogens.
  induction ks as [|k ks IH]; intros atoms hydrogens; cbn [foldl]; [auto|].
  destruct (IH (relativize_atoms (coordinate (atoms !!! rotorY (frames !!! k)))
                  (habegin (frames !!! k))
                  (haend (frames !!! k) - habegin (frames !!! k)) atoms)
               (relativize_atoms (coordinate (atoms !!! rotorY (frames !!! k)))
                  (hybegin (frames !!! k))
                  (hyend (frames !!! k) - hybegin (frames !!! k)) hydrogens))
    as [-> ->].
  rewrite !relativize_atoms_length. auto.
Qed.

(** The fields of the constructed ligand that are counts. *)
Lemma finish_sizes NDEBUG (ps : parser fl) lig :
  finish NDEBUG ps = Ret lig ->
  lines lig = p_lines ps
  /\ num_frames lig = length (p_frames ps)
  /\ num_torsions lig = (length (p_frames ps) - 1)%nat
  /\ num_active_torsions lig = p_num_active_torsions ps
  /\ num_heavy_atoms lig = length (p_heavy_atoms ps)
  /\ num_hydrogens lig = length (p_hydrogens ps)
  /\ length (heavy_atoms lig) = length (p_heavy_atoms ps)
  /\ length (hydrogens lig) = length (p_hydrogens ps)
  /\ hydrogens lig
     = (relativize (frames lig) (bonded_atoms ps, p_hydrogens ps)).2.
Proof.
  intros Hf. unfold finish in Hf. do 6 inv_bind Hf.
  destruct (relativize _ _) as [heavy hyd] eqn:Hrel.
  injection Hf as <-.
  cbn [lines num_frames num_torsions num_active_torsions num_heavy_atoms
       num_hydrogens heavy_atoms hydrogens frames].
  repeat (split; [reflexivity|]).
  pose proof (bonded_atoms_length ps) as Hb.
  unfold bonded_atoms in *. cbv zeta in *.
  match type of Hrel with
  | relativize ?F (?X, ?Y) = _ =>
      pose proof (relativize_lengths F X Y) as [Hl1 Hl2]
  end.
  rewrite Hrel in Hl1, Hl2 |- *. cbn [fst snd] in *.
  rewrite Hb in Hl1. auto.
Qed.
End CtorCounts.

(** X9. What the constructor keeps of the file: [lines] holds the lines
    that start with one of the seven keywords, in the order of the file,
    and no other line; there is one frame for ROOT and one for each
    BRANCH line, and one atom, heavy or hydrogen, for each ATOM or HETATM
    line; the counters are the sizes of the vectors. *)
Theorem ligand_ctor_keeps_lines {fl : Type} `{Scalar fl} `{AtomModel fl}
    `{TextModel fl} (NDEBUG : bool) (input : list string) (lig : ligand fl) :
  ligand_ctor NDEBUG input = Ret lig ->
  lines lig = List.filter kept_line input
  /\ num_frames lig = S (length (List.filter is_branch_line input))
  /\ num_torsions lig = length (List.filter is_branch_line input)
  /\ num_heavy_atoms lig + num_hydrogens lig
     = length (List.filter is_atom_line input)
  /\ length (frames lig) = num_frames lig
  /\ length (heavy_atoms lig) = num_heavy_atoms lig
  /\ length (hydrogens lig) = num_hydrogens lig.
Proof.
  unfold ligand_ctor. intros Hctor. inv_bind Hctor. rename a into ps.
  apply parse_lines_counts in Ha as (Hl & Hf & Hatoms).
  destruct (finish_counts _ _ _ Hctor) as [_ Hlen].
  apply finish_sizes in Hctor
    as (-> & -> & -> & _ & -> & -> & -> & -> & _).
  cbn in Hl, Hf, Hatoms. rewrite Hl, Hlen. repeat split; lia.
Qed.

(** ** The ranges of the frames and their rotors *)

Section CtorShape.
Context {fl : Type} `{Scalar fl} `{AtomModel fl} `{TextModel fl}.

Lemma ancestor_root (frames : list (frame fl)) k :
  ancestor frames 0 k -> k = 0.
Proof. intros Ha. inversion Ha; [reflexivity | congruence]. Qed.

Lemma ancestor_ext (frames frames' : list (frame fl)) c k :
  ancestor frames c k ->
  (forall j, j <= c -> parent (frames !!! j) <= j
             /\ parent (frames' !!! j) = parent (frames !!! j)) ->
  ancestor frames' c k.
Proof.
  induction 1 as [c | c k Hc Ha IH]; intros Hsame.
  - constructor.
  - apply ancestor_parent; [exact Hc|].
    destruct (Hsame c (le_n c)) as [Hle ->]. apply IH.
    intros j Hj. apply Hsame. lia.
Qed.

Lemma branch_frames_after_hy (ps : parser fl) i k :
  k < length (p_frames ps) ->
  hybegin (branch_frames_after ps i !!! k) = hybegin (p_frames ps !!! k)
  /\ hyend (branch_frames_after ps i !!! k)
     = (if decide (k = length (p_frames ps) - 1)
        then length (p_hydrogens ps) else hyend (p_frames ps !!! k)).
Proof.
  intros Hk. unfold branch_frames_after.
  rewrite lookup_total_app_l by (rewrite length_insert; exact Hk).
  rewrite list_lookup_total_insert.
  destruct (decide (k = length (p_frames ps) - 1)) as [->|Hne].
  - rewrite decide_True by (split; [reflexivity | lia]). cbn. auto.
  - rewrite decide_False by (intros [Heq _]; congruence). auto.
Qed.

Lemma shape_inv_init : shape_inv (fl := fl) parser_init.
Proof.
  unfold shape_inv, parser_init. cbn.
  repeat split; intros; try lia; replace k with 0 by lia; cbn; lia.
Qed.

Lemma parse_atom_shape_inv NDEBUG line (ps ps' : parser fl) :
  parse_atom NDEBUG line ps = Ret ps' -> shape_inv ps -> shape_inv ps'.
Proof.
  intros Hp (Hb0 & Hy0 & Hyb & Hynext & HX & HY).
  apply parse_atom_shape in Hp as (Hf & Hc & _ & _ & a & Hatoms).
  unfold shape_inv. rewrite Hf, Hc.
  repeat (split; [assumption|]). split; [|auto].
  intros k Hk. specialize (Hyb k Hk).
  destruct Hatoms as [(-> & _) | (_ & -> & _)]; [|exact Hyb].
  rewrite length_app. lia.
Qed.

Lemma parse_branch_shape_inv line (ps ps' : parser fl) :
  parse_branch line ps = Ret ps' -> parse_inv ps -> shape_inv ps ->
  shape_inv ps'.
Proof.
  intros Hp (Hok & Hnum & Hcur) (Hb0 & Hy0 & Hyb & Hynext & HX & HY).
  pose proof Hok as (Hpos & Hbegin & Hnext & Hrot).
  apply parse_branch_Ret in Hp as (x & i & Hfind & ->); [|exact Hpos].
  apply find_serial_range in Hfind. rewrite length_drop, Hnum in Hfind.
  pose proof (Hbegin _ Hcur) as [Hbc _].
  unfold shape_inv. cbn [p_frames p_hydrogens p_current].
  rewrite branch_frames_after_length.
  split; [|split; [|split; [|split; [|split]]]].
  - destruct (branch_frames_after_old ps i 0 Hpos) as (-> & _). exact Hb0.
  - destruct (branch_frames_after_hy ps i 0 Hpos) as (-> & _). exact Hy0.
  - intros k Hk. destruct (decide (k = length (p_frames ps))) as [->|Hne].
    + rewrite branch_frames_after_new. cbn. lia.
    + destruct (branch_frames_after_hy ps i k ltac:(lia)) as (-> & _).
      apply Hyb. lia.
  - intros k Hk.
    destruct (branch_frames_after_hy ps i k ltac:(lia)) as (-> & ->).
    destruct (decide (S k = length (p_frames ps))) as [Heq|Hne].
    + rewrite Heq, branch_frames_after_new.
      rewrite decide_True by lia. cbn.
      split; [reflexivity|]. apply Hyb. lia.
    + destruct (branch_frames_after_hy ps i (S k) ltac:(lia)) as (-> & _).
      rewrite decide_False by lia. apply Hynext. lia.
  - intros k Hk. destruct (decide (k = length (p_frames ps))) as [->|Hne].
    + rewrite branch_frames_after_new. cbn.
      destruct (branch_frames_after_old ps i (p_current ps) Hcur) as (-> & _).
      lia.
    + destruct (branch_frames_after_old ps i k ltac:(lia))
        as (-> & -> & -> & _).
      destruct (Hrot k ltac:(lia)) as (_ & _ & Hpar).
      destruct (branch_frames_after_old ps i (parent (p_frames ps !!! k))
                  ltac:(lia)) as (-> & _).
      apply HX. lia.
  - intros k Hk Hopen.
    destruct (decide (k = length (p_frames ps))) as [->|Hne];
      [exfalso; apply Hopen; constructor|].
    destruct (branch_frames_after_old ps i k ltac:(lia))
      as (-> & _ & _ & -> & _).
    apply HY; [lia|]. intros Hanc. apply Hopen.
    apply ancestor_parent; [lia|].
    rewrite branch_frames_after_new. cbn [frame_ctor parent].
    apply (ancestor_ext (p_frames ps)); [exact Hanc|].
    intros j Hj. destruct (Hbegin j ltac:(lia)) as [_ Hle].
    destruct (branch_frames_after_old ps i j ltac:(lia)) as (_ & -> & _).
    auto.
Qed.

Lemma parse_endbranch_shape_inv line (ps ps' : parser fl) :
  parse_endbranch line ps = Ret ps' -> parse_inv ps -> shape_inv ps ->
  shape_inv ps'.
Proof.
  intros Hp (Hok & Hnum & Hcur) (Hb0 & Hy0 & Hyb & Hynext & HX & HY).
  pose proof Hok as (Hpos & Hbegin & Hnext & Hrot).
  apply parse_endbranch_Ret in Hp as (y & i & inactive & Hfind & _ & Hp).
  cbv zeta in Hp. subst ps'.
  apply find_serial_range in Hfind.
  set (f' := if inactive then _ else _).
  assert (Hf' : habegin f' = habegin (p_frames ps !!! p_current ps)
                /\ hybegin f' = hybegin (p_frames ps !!! p_current ps)
                /\ hyend f' = hyend (p_frames ps !!! p_current ps)
                /\ parent f' = parent (p_frames ps !!! p_current ps)
                /\ rotorX f' = rotorX (p_frames ps !!! p_current ps)
                /\ rotorY f' = i).
  { subst f'. destruct inactive; cbn; auto 10. }
  destruct Hf' as (Hb' & Hyb' & Hye' & Hp' & HX' & HY'). clearbody f'.
  assert (Hlook : forall k,
    let g := <[p_current ps := f']> (p_frames ps) !!! k in
    habegin g = habegin (p_frames ps !!! k)
    /\ hybegin g = hybegin (p_frames ps !!! k)
    /\ hyend g = hyend (p_frames ps !!! k)
    /\ parent g = parent (p_frames ps !!! k)
    /\ rotorX g = rotorX (p_frames ps !!! k)
    /\ (k <> p_current ps -> rotorY g = rotorY (p_frames ps !!! k))).
  { intros k. cbv zeta. rewrite list_lookup_total_insert.
    destruct (decide (p_current ps = k /\ _)) as [[<- _]|Hn].
    - repeat (split; [assumption|]). congruence.
    - repeat (split; [reflexivity|]). reflexivity. }
  unfold shape_inv. cbn [p_frames p_hydrogens p_current].
  rewrite length_insert.
  split; [|split; [|split; [|split; [|split]]]].
  - destruct (Hlook 0) as (-> & _). exact Hb0.
  - destruct (Hlook 0) as (_ & -> & _). exact Hy0.
  - intros k Hk. destruct (Hlook k) as (_ & -> & _). apply Hyb, Hk.
  - intros k Hk. destruct (Hlook k) as (_ & -> & -> & _).
    destruct (Hlook (S k)) as (_ & -> & _). apply Hynext, Hk.
  - intros k Hk. destruct (Hlook k) as (-> & _ & _ & -> & -> & _).
    destruct (Hlook (parent (p_frames ps !!! k))) as (-> & _).
    apply HX, Hk.
  - intros k Hk Hopen. destruct (Hlook k) as (-> & _ & _ & _ & _ & HrY).
    destruct (Hlook (p_current ps)) as (_ & _ & _ & Hpar & _).
    cbv zeta in Hpar. rewrite Hpar in Hopen.
    destruct (decide (k = p_current ps)) as [->|Hne].
    + rewrite list_lookup_total_insert_eq by exact Hcur. rewrite HY'. lia.
    + rewrite (HrY Hne). apply HY; [exact Hk|]. intros Hanc. apply Hopen.
      inversion Hanc as [|c k' Hc Hanc']; subst; [congruence|].
      apply (ancestor_ext (p_frames ps)); [exact Hanc'|].
      intros j Hj. destruct (Hlook j) as (_ & _ & _ & -> & _).
      destruct (Hbegin (p_current ps) Hcur) as [_ Hle].
      destruct (Hbegin j ltac:(lia)) as [_ Hlej]. auto.
Qed.

Lemma parse_line_shape_inv NDEBUG line (ps ps' : parser fl) :
  parse_line NDEBUG line ps = Ret ps' -> parse_inv ps -> shape_inv ps ->
  shape_inv ps'.
Proof.
  intros Hp Hinv Hshape. apply parse_line_Ret in Hp. cbv zeta in Hp.
  destruct Hp as [Hp | [Hp | [Hp | [-> | ->]]]].
  - exact (parse_atom_shape_inv _ _ _ _ Hp Hshape).
  - exact (parse_branch_shape_inv _ _ _ Hp Hinv Hshape).
  - exact (parse_endbranch_shape_inv _ _ _ Hp Hinv Hshape).
  - exact Hshape.
  - exact Hshape.
Qed.

Lemma parse_lines_shape_inv NDEBUG input : forall (ps ps' : parser fl),
  parse_lines NDEBUG input ps = Ret ps' -> parse_inv ps -> shape_inv ps ->
  shape_inv ps'.
Proof.
  induction input as [|line input IH]; intros ps ps'; cbn [parse_lines].
  - intros [= <-]. auto.
  - intros Hp Hinv Hshape. inv_bind Hp.
    exact (IH _ _ Hp (parse_line_inv _ _ _ _ Ha Hinv)
             (parse_line_shape_inv _ _ _ _ Ha Hinv Hshape)).
Qed.
End CtorShape.

Section CtorFrames.
Context {fl : Type} `{Scalar fl} `{AtomModel fl} `{TextModel fl}.

Lemma rotor_geometry_lookup (atoms : list (atom fl)) frames k0 k :
  k0 < length frames ->
  rotor_geometry atoms frames k0 !!! k
  = if decide (k = k0)
    then set_rotor_vectors (frames !!! k)
           (vsub (coordinate (atoms !!! rotorY (frames !!! k)))
                 (coordinate
                    (atoms !!! rotorY (frames !!! parent (frames !!! k)))))
           (normalize3
              (vsub (coordinate (atoms !!! rotorY (frames !!! k)))
                    (coordinate (atoms !!! rotorX (frames !!! k)))))
    else frames !!! k.
Proof.
  intros Hk0. unfold rotor_geometry. rewrite list_lookup_total_insert.
  destruct (decide (k = k0)) as [->|Hne].
  - rewrite decide_True by auto. reflexivity.
  - rewrite decide_False by (intros [Heq _]; congruence). reflexivity.
Qed.

Lemma rotor_geometry_frame (atoms : list (atom fl)) ks : forall frames k,
  NoDup ks -> (forall j, j ∈ ks -> j < length frames) ->
  foldl (rotor_geometry atoms) frames ks !!! k
  = if decide (k ∈ ks)
    then set_rotor_vectors (frames !!! k)
           (vsub (coordinate (atoms !!! rotorY (frames !!! k)))
                 (coordinate
                    (atoms !!! rotorY (frames !!! parent (frames !!! k)))))
           (normalize3
              (vsub (coordinate (atoms !!! rotorY (frames !!! k)))
                    (coordinate (atoms !!! rotorX (frames !!! k)))))
    else frames !!! k.
Proof.
  induction ks as [|k0 ks IH]; intros frames k Hnd Hin; cbn [foldl].
  - rewrite decide_False by (intros Hk; inversion Hk). reflexivity.
  - apply NoDup_cons in Hnd as [Hk0 Hnd].
    assert (Hlt : k0 < length frames) by (apply Hin; left).
    rewrite IH; [|exact Hnd|].
    2:{ intros j Hj. unfold rotor_geometry. rewrite length_insert.
        apply Hin. right. exact Hj. }
    assert (HrY : forall j,
      rotorY (rotor_geometry atoms frames k0 !!! j) = rotorY (frames !!! j)).
    { intros j. rewrite rotor_geometry_lookup by exact Hlt.
      destruct (decide (j = k0)); reflexivity. }
    destruct (decide (k = k0)) as [->|Hne].
    + rewrite decide_False by exact Hk0. rewrite decide_True by left.
      rewrite rotor_geometry_lookup by exact Hlt.
      rewrite decide_True by reflexivity. reflexivity.
    + destruct (decide (k ∈ ks)) as [Hk|Hk].
      * rewrite decide_True by (right; exact Hk).
        rewrite HrY.
        rewrite (rotor_geometry_lookup atoms frames k0 k Hlt).
        rewrite decide_False by exact Hne. rewrite HrY. reflexivity.
      * rewrite decide_False by (intros Hk'; inversion Hk'; subst; tauto).
        rewrite rotor_geometry_lookup by exact Hlt.
        rewrite decide_False by exact Hne. reflexivity.
Qed.

(** The frames of the constructed ligand, field by field. *)
Lemma finish_frame NDEBUG (ps : parser fl) lig k :
  finish NDEBUG ps = Ret lig -> k < length (p_frames ps) ->
  let f := frames lig !!! k in
  let g := p_frames ps !!! k in
  let atoms := bonded_atoms ps in
  let last := length (p_frames ps) - 1 in
  habegin f = habegin g /\ hybegin f = hybegin g
  /\ parent f = parent g /\ rotorX f = rotorX g /\ rotorY f = rotorY g
  /\ active f = active g
  /\ haend f = (if decide (k = last) then length (p_heavy_atoms ps)
                else haend g)
  /\ hyend f = (if decide (k = last) then length (p_hydrogens ps)
                else hyend g)
  /\ (1 <= k ->
      parent_rotorY_to_current_rotorY f
      = vsub (coordinate (atoms !!! rotorY g))
             (coordinate (atoms !!! rotorY (p_frames ps !!! parent g)))
      /\ parent_rotorX_to_current_rotorY f
         = normalize3 (vsub (coordinate (atoms !!! rotorY g))
                            (coordinate (atoms !!! rotorX g)))).
Proof.
  intros Hf Hk. apply finish_Ret in Hf as (-> & _). cbv zeta.
  set (n := length (p_frames ps)) in *.
  set (frames0 := <[n - 1 := _]> (p_frames ps)).
  assert (Hlen0 : length frames0 = n) by apply length_insert.
  rewrite rotor_geometry_frame;
    [|apply NoDup_seq|intros j Hj; apply elem_of_seq in Hj; lia].
  assert (Hlook : forall j,
    frames0 !!! j
    = if decide (j = n - 1 /\ j < n)
      then set_haend_hyend (p_frames ps !!! j)
             (length (p_heavy_atoms ps)) (length (p_hydrogens ps))
      else p_frames ps !!! j).
  { intros j. subst frames0. rewrite list_lookup_total_insert.
    destruct (decide (n - 1 = j /\ n - 1 < length (p_frames ps)))
      as [[<- Hlt]|Hn].
    - rewrite decide_True by (split; [reflexivity | exact Hlt]). reflexivity.
    - rewrite decide_False by (intros [-> Hlt]; apply Hn; auto). reflexivity. }
  assert (HrY : forall j, rotorY (frames0 !!! j) = rotorY (p_frames ps !!! j)).
  { intros j. rewrite Hlook. destruct (decide _); reflexivity. }
  rewrite HrY. rewrite !(Hlook k).
  destruct (decide (k ∈ seq 1 (n - 1))) as [Hin|Hin].
  - destruct (decide (k = n - 1 /\ k < n)) as [[Heq _]|Hne];
      rewrite ?HrY;
      cbn [set_rotor_vectors set_haend_hyend habegin hybegin parent rotorX
           rotorY active haend hyend parent_rotorY_to_current_rotorY
           parent_rotorX_to_current_rotorY].
    + rewrite !decide_True by exact Heq. auto 10.
    + rewrite !decide_False by (intros Heq; apply Hne; auto). auto 10.
  - destruct (decide (k = n - 1 /\ k < n)) as [[Heq _]|Hne]; cbn.
    + rewrite !decide_True by exact Heq. repeat (split; [reflexivity|]).
      intros Hk1. exfalso. apply Hin, elem_of_seq. lia.
    + rewrite !decide_False by (intros Heq; apply Hne; auto).
      repeat (split; [reflexivity|]).
      intros Hk1. exfalso. apply Hin, elem_of_seq. lia.
Qed.

(** Ranges that follow one another from [0] to [c] hold every index
    below [c] exactly once. *)
Lemma ranges_partition (b e : nat -> nat) n c i :
  0 < n -> b 0 = 0 ->
  (forall k, S k < n -> e k = b (S k) /\ b k <= b (S k)) ->
  e (n - 1) = c -> i < c ->
  exists k, k < n /\ b k <= i < e k
    /\ forall k', k' < n -> b k' <= i < e k' -> k' = k.
Proof.
  intros Hn Hb0 Hnext Hlast Hi.
  assert (Hmono : forall k k', k <= k' -> k' < n -> b k <= b k').
  { intros k k' Hle. induction Hle as [|k' Hle IH]; intros Hk'; [lia|].
    destruct (Hnext k' Hk') as [_ Hstep]. specialize (IH ltac:(lia)). lia. }
  assert (Hex : forall d m, n - m <= d -> m < n -> b m <= i ->
            exists k, k < n /\ b k <= i < e k).
  { induction d as [|d IH]; intros m Hd Hm Hbm; [lia|].
    destruct (decide (S m < n)) as [Hs|Hs].
    - destruct (Hnext m Hs) as [He _].
      destruct (decide (b (S m) <= i)) as [Hle|Hgt].
      + apply (IH (S m)); [lia | exact Hs | exact Hle].
      + exists m. split; [exact Hm|]. lia.
    - exists m. split; [exact Hm|].
      replace m with (n - 1) in * by lia. lia. }
  destruct (Hex n 0 ltac:(lia) Hn ltac:(lia)) as (k & Hk & Hrange).
  exists k. split; [exact Hk|]. split; [exact Hrange|].
  intros k' Hk' Hrange'.
  destruct (Nat.lt_trichotomy k k') as [Hlt | [Heq | Hgt]]; [|auto|].
  - destruct (Hnext k ltac:(lia)) as [He _].
    pose proof (Hmono (S k) k' ltac:(lia) Hk'). lia.
  - destruct (Hnext k' ltac:(lia)) as [He _].
    pose proof (Hmono (S k') k ltac:(lia) Hk). lia.
Qed.
End CtorFrames.

(** X10. The frames of a constructed ligand cut the heavy atoms and the
    hydrogens into ranges that follow one another: ROOT begins at the
    first atom of each kind, every frame begins where the one before it
    ends, and the last frame ends at the last atom; so every heavy atom,
    and every hydrogen, lies in the range of exactly one frame. *)
Theorem ligand_ctor_partitions_atoms {fl : Type} `{Scalar fl} `{AtomModel fl}
    `{TextModel fl} (NDEBUG : bool) (input : list string) (lig : ligand fl) :
  ligand_ctor NDEBUG input = Ret lig ->
  let F := fun k => frames lig !!! k in
  habegin (F 0) = 0 /\ hybegin (F 0) = 0
  /\ (forall k, S k < num_frames lig ->
        haend (F k) = habegin (F (S k)) /\ hyend (F k) = hybegin (F (S k)))
  /\ haend (F (num_frames lig - 1)) = num_heavy_atoms lig
  /\ hyend (F (num_frames lig - 1)) = num_hydrogens lig
  /\ (forall i, i < num_heavy_atoms lig ->
        exists k, k < num_frames lig /\ habegin (F k) <= i < haend (F k)
          /\ forall k', k' < num_frames lig ->
               habegin (F k') <= i < haend (F k') -> k' = k)
  /\ (forall i, i < num_hydrogens lig ->
        exists k, k < num_frames lig /\ hybegin (F k) <= i < hyend (F k)
          /\ forall k', k' < num_frames lig ->
               hybegin (F k') <= i < hyend (F k') -> k' = k).
Proof.
  unfold ligand_ctor. intros Hctor. inv_bind Hctor. rename a into ps.
  pose proof (parse_lines_inv _ _ _ _ Ha parse_inv_init) as Hinv.
  pose proof (parse_lines_shape_inv _ _ _ _ Ha parse_inv_init shape_inv_init)
    as (Hb0 & Hy0 & Hyb & Hynext & _).
  destruct Hinv as ((Hpos & Hbegin & Hnext & _) & _).
  pose proof (fun k => finish_frame _ _ _ k Hctor) as Hframe.
  apply finish_sizes in Hctor as (_ & Hn & _ & _ & Hha & Hhy & _).
  cbv zeta in Hframe |- *. rewrite Hn, Hha, Hhy.
  set (n := length (p_frames ps)) in *.
  assert (Hfirst : habegin (frames lig !!! 0) = 0
                   /\ hybegin (frames lig !!! 0) = 0).
  { destruct (Hframe 0 Hpos) as (-> & -> & _). auto. }
  assert (Hchain : forall k, S k < n ->
    (haend (frames lig !!! k) = habegin (frames lig !!! S k)
     /\ habegin (frames lig !!! k) <= habegin (frames lig !!! S k))
    /\ (hyend (frames lig !!! k) = hybegin (frames lig !!! S k)
        /\ hybegin (frames lig !!! k) <= hybegin (frames lig !!! S k))).
  { intros k Hk.
    destruct (Hframe k ltac:(lia)) as (-> & -> & _ & _ & _ & _ & -> & -> & _).
    destruct (Hframe (S k) Hk) as (-> & -> & _).
    rewrite !decide_False by lia.
    split; [apply Hnext | apply Hynext]; exact Hk. }
  assert (Hends : haend (frames lig !!! (n - 1)) = length (p_heavy_atoms ps)
                  /\ hyend (frames lig !!! (n - 1)) = length (p_hydrogens ps)).
  { destruct (Hframe (n - 1) ltac:(lia)) as (_ & _ & _ & _ & _ & _ & -> & -> & _).
    rewrite !decide_True by reflexivity. auto. }
  destruct Hfirst as [Hfa Hfy]. destruct Hends as [Hea Hey].
  split; [exact Hfa|]. split; [exact Hfy|]. split; [|split; [exact Hea|]].
  - intros k Hk. destruct (Hchain k Hk) as [[-> _] [-> _]]. auto.
  - split; [exact Hey|]. split.
    + intros i Hi.
      apply (ranges_partition (fun k => habegin (frames lig !!! k))
               (fun k => haend (frames lig !!! k)) n
               (length (p_heavy_atoms ps)) i); auto.
      intros k Hk. apply Hchain, Hk.
    + intros i Hi.
      apply (ranges_partition (fun k => hybegin (frames lig !!! k))
               (fun k => hyend (frames lig !!! k)) n
               (length (p_hydrogens ps)) i); auto.
      intros k Hk. apply Hchain, Hk.
Qed.

Section CtorGeometry.
Context {fl : Type} `{Scalar fl} `{AtomModel fl} `{TextModel fl}.

Lemma relativize_atoms_inside origin n : forall a (atoms : list (atom fl)) i,
  a <= i < a + n -> i < length atoms ->
  relativize_atoms origin a n atoms !!! i
  = set_coordinate (atoms !!! i) (vsub (coordinate (atoms !!! i)) origin).
Proof.
  induction n as [|n IH]; intros a atoms i Hi Hlen; [lia|].
  unfold relativize_atoms. cbn [seq foldl].
  change (foldl _ ?l (seq (S a) n)) with (relativize_atoms origin (S a) n l).
  destruct (decide (i = a)) as [->|Hne].
  - rewrite relativize_atoms_outside by lia.
    apply list_lookup_total_insert_eq. exact Hlen.
  - rewrite IH by (rewrite ?length_insert; lia).
    rewrite list_lookup_total_insert_ne by congruence. reflexivity.
Qed.

(** The frames [ks] leave alone the atoms outside their ranges. *)
Lemma relativize_steps_outside (frames : list (frame fl)) ks :
  forall atoms hydrogens,
    let out :=
      foldl (fun '(heavy_atoms, hydrogens) k =>
               let f := frames !!! k in
               let origin := coordinate (heavy_atoms !!! rotorY f) in
               (relativize_atoms origin (habegin f) (haend f - habegin f)
                  heavy_atoms,
                relativize_atoms origin (hybegin f) (hyend f - hybegin f)
                  hydrogens))
            (atoms, hydrogens) ks in
    length out.1 = length atoms /\ length out.2 = length hydrogens
    /\ (forall i,
          (forall j, j ∈ ks ->
             ~ (habegin (frames !!! j) <= i < haend (frames !!! j))) ->
          out.1 !!! i = atoms !!! i)
    /\ (forall i,
          (forall j, j ∈ ks ->
             ~ (hybegin (frames !!! j) <= i < hyend (frames !!! j))) ->
          out.2 !!! i = hydrogens !!! i).
Proof.
  induction ks as [|k ks IH]; intros atoms hydrogens; cbv zeta;
    cbn [foldl]; [auto|].
  destruct (IH (relativize_atoms (coordinate (atoms !!! rotorY (frames !!! k)))
                  (habegin (frames !!! k))
                  (haend (frames !!! k) - habegin (frames !!! k)) atoms)
               (relativize_atoms (coordinate (atoms !!! rotorY (frames !!! k)))
                  (hybegin (frames !!! k))
                  (hyend (frames !!! k) - hybegin (frames !!! k)) hydrogens))
    as (Hl1 & Hl2 & Ha & Hh).
  cbv zeta in Hl1, Hl2, Ha, Hh.
  rewrite Hl1, Hl2, !relativize_atoms_length.
  split; [reflexivity|]. split; [reflexivity|]. split.
  - intros i Hout. rewrite Ha by (intros j Hj; apply Hout; right; exact Hj).
    apply relativize_atoms_outside.
    specialize (Hout k ltac:(left)). lia.
  - intros i Hout. rewrite Hh by (intros j Hj; apply Hout; right; exact Hj).
    apply relativize_atoms_outside.
    specialize (Hout k ltac:(left)). lia.
Qed.

(** The atoms of frame [k] after the last pass of the constructor. *)
Lemma relativize_frame (frames : list (frame fl)) atoms hydrogens k :
  (forall j j', j < j' < length frames ->
     haend (frames !!! j) <= habegin (frames !!! j')
     /\ hyend (frames !!! j) <= hybegin (frames !!! j')) ->
  k < length frames ->
  haend (frames !!! k) <= length atoms ->
  hyend (frames !!! k) <= length hydrogens ->
  habegin (frames !!! k) <= rotorY (frames !!! k) ->
  let out := relativize frames (atoms, hydrogens) in
  let o := coordinate (atoms !!! rotorY (frames !!! k)) in
  (forall i, habegin (frames !!! k) <= i < haend (frames !!! k) ->
     out.1 !!! i
     = set_coordinate (atoms !!! i) (vsub (coordinate (atoms !!! i)) o))
  /\ (forall i, hybegin (frames !!! k) <= i < hyend (frames !!! k) ->
        out.2 !!! i
        = set_coordinate (hydrogens !!! i)
            (vsub (coordinate (hydrogens !!! i)) o)).
Proof.
  intros Hord Hk Hla Hlh HY. cbv zeta. unfold relativize.
  replace (seq 0 (length frames))
    with (seq 0 k ++ [k] ++ seq (S k) (length frames - S k)).
  2:{ change ([k] ++ seq (S k) (length frames - S k))
        with (seq k (S (length frames - S k))).
      rewrite <- seq_app. f_equal. lia. }
  rewrite !foldl_app.
  destruct (relativize_steps_outside frames (seq 0 k) atoms hydrogens)
    as (Hl1 & Hl2 & Ha1 & Hh1).
  cbv zeta in Hl1, Hl2, Ha1, Hh1.
  destruct (foldl _ (atoms, hydrogens) (seq 0 k)) as [atoms1 hyd1].
  cbn [fst snd] in Hl1, Hl2, Ha1, Hh1.
  assert (Hbefore : forall i, habegin (frames !!! k) <= i ->
            atoms1 !!! i = atoms !!! i).
  { intros i Hi. apply Ha1. intros j Hj. apply elem_of_seq in Hj.
    destruct (Hord j k ltac:(lia)). lia. }
  assert (Hbefore' : forall i, hybegin (frames !!! k) <= i ->
            hyd1 !!! i = hydrogens !!! i).
  { intros i Hi. apply Hh1. intros j Hj. apply elem_of_seq in Hj.
    destruct (Hord j k ltac:(lia)). lia. }
  cbn [foldl]. rewrite (Hbefore _ HY).
  match goal with
  | |- context [foldl ?step (?a2, ?h2) (seq (S k) ?n)] =>
      destruct (relativize_steps_outside frames (seq (S k) n) a2 h2)
        as (_ & _ & Ha2 & Hh2)
  end.
  cbv zeta in Ha2, Hh2. split.
  - intros i Hi. rewrite Ha2.
    2:{ intros j Hj. apply elem_of_seq in Hj.
        destruct (Hord k j ltac:(lia)). lia. }
    rewrite relativize_atoms_inside by lia.
    rewrite Hbefore by lia. reflexivity.
  - intros i Hi. rewrite Hh2.
    2:{ intros j Hj. apply elem_of_seq in Hj.
        destruct (Hord k j ltac:(lia)). lia. }
    rewrite relativize_atoms_inside by lia.
    rewrite Hbefore' by lia. reflexivity.
Qed.

(** What a constructed ligand is, in terms of the state of the parser
    at the end of the file. *)
Lemma finish_geometry NDEBUG (ps : parser fl) lig k :
  finish NDEBUG ps = Ret lig -> parse_inv ps -> shape_inv ps ->
  k < length (p_frames ps) ->
  habegin (p_frames ps !!! k) <= rotorY (p_frames ps !!! k) ->
  let o := coordinate (bonded_atoms ps !!! rotorY (frames lig !!! k)) in
  (forall i, habegin (frames lig !!! k) <= i < haend (frames lig !!! k) ->
     heavy_atoms lig !!! i
     = set_coordinate (bonded_atoms ps !!! i)
         (vsub (coordinate (bonded_atoms ps !!! i)) o))
  /\ (forall i, hybegin (frames lig !!! k) <= i < hyend (frames lig !!! k) ->
        hydrogens lig !!! i
        = set_coordinate (p_hydrogens ps !!! i)
            (vsub (coordinate (p_hydrogens ps !!! i)) o)).
Proof.
  intros Hf Hinv Hshape Hk HY. cbv zeta.
  pose proof (fun j => finish_frame _ _ _ j Hf) as Hframe.
  cbv zeta in Hframe.
  destruct (finish_counts _ _ _ Hf) as [_ Hlen].
  pose proof (finish_Ret _ _ _ Hf) as (Hframes & _ & Hatoms).
  cbv zeta in Hframes, Hatoms. rewrite <- Hframes in Hatoms.
  pose proof (finish_sizes _ _ _ Hf) as (_ & _ & _ & _ & _ & _ & _ & _ & Hhyd).
  destruct Hinv as ((Hpos & Hbegin & Hnext & _) & _).
  destruct Hshape as (Hb0 & Hy0 & Hyb & Hynext & _).
  set (n := length (p_frames ps)) in *.
  assert (Hchain : forall j, S j < n ->
    (haend (frames lig !!! j) = habegin (frames lig !!! S j)
     /\ habegin (frames lig !!! j) <= habegin (frames lig !!! S j))
    /\ (hyend (frames lig !!! j) = hybegin (frames lig !!! S j)
        /\ hybegin (frames lig !!! j) <= hybegin (frames lig !!! S j))).
  { intros j Hj.
    destruct (Hframe j ltac:(lia)) as (-> & -> & _ & _ & _ & _ & -> & -> & _).
    destruct (Hframe (S j) Hj) as (-> & -> & _).
    rewrite !decide_False by lia.
    split; [apply Hnext | apply Hynext]; exact Hj. }
  assert (Hmono : forall j j', j <= j' -> j' < n ->
    habegin (frames lig !!! j) <= habegin (frames lig !!! j')
    /\ hybegin (frames lig !!! j) <= hybegin (frames lig !!! j')).
  { intros j j' Hle. induction Hle as [|j' Hle IH]; intros Hj'; [lia|].
    destruct (Hchain j' Hj') as [[_ Hs1] [_ Hs2]].
    specialize (IH ltac:(lia)). lia. }
  assert (Hend : forall j, j < n ->
    haend (frames lig !!! j) <= length (p_heavy_atoms ps)
    /\ hyend (frames lig !!! j) <= length (p_hydrogens ps)).
  { intros j Hj. destruct (decide (S j < n)) as [Hs|Hs].
    - destruct (Hchain j Hs) as [[-> _] [-> _]].
      destruct (Hframe (S j) Hs) as (-> & -> & _).
      destruct (Hbegin (S j) Hs) as [Hle _].
      pose proof (Hyb (S j) Hs). lia.
    - destruct (Hframe j Hj) as (_ & _ & _ & _ & _ & _ & -> & -> & _).
      rewrite !decide_True by lia. lia. }
  rewrite Hatoms, Hhyd.
  apply relativize_frame.
  - intros j j' Hj. rewrite Hlen in Hj.
    destruct (Hchain j ltac:(lia)) as [[-> _] [-> _]].
    apply Hmono; lia.
  - rewrite Hlen. exact Hk.
  - rewrite bonded_atoms_length. apply Hend, Hk.
  - apply Hend, Hk.
  - destruct (Hframe k Hk) as (-> & _ & _ & _ & -> & _). exact HY.
Qed.
End CtorGeometry.

(** X11. The rotors of a constructed ligand: the parent of a BRANCH frame
    is an earlier frame; its rotor X is a heavy atom that comes before
    the atoms of the frame and not before those of its parent; its rotor
    Y is a heavy atom, and in a ligand that a debug build constructs it
    does not come before the atoms of the frame. *)
Theorem ligand_ctor_rotors {fl : Type} `{Scalar fl} `{AtomModel fl}
    `{TextModel fl} (NDEBUG : bool) (input : list string) (lig : ligand fl)
    (k : nat) :
  ligand_ctor NDEBUG input = Ret lig ->
  1 <= k < num_frames lig ->
  let f := frames lig !!! k in
  parent f < k
  /\ habegin (frames lig !!! parent f) <= rotorX f < habegin f
  /\ rotorY f < num_heavy_atoms lig
  /\ (NDEBUG = false -> habegin f <= rotorY f).
Proof.
  unfold ligand_ctor. intros Hctor Hk. inv_bind Hctor. rename a into ps.
  pose proof (parse_lines_inv _ _ _ _ Ha parse_inv_init) as Hinv.
  pose proof (parse_lines_shape_inv _ _ _ _ Ha parse_inv_init shape_inv_init)
    as (_ & _ & _ & _ & HX & HY).
  destruct Hinv as ((Hpos & Hbegin & Hnext & Hrot) & _).
  pose proof (fun j => finish_frame _ _ _ j Hctor) as Hframe.
  cbv zeta in Hframe |- *.
  pose proof (finish_sizes _ _ _ Hctor) as (_ & Hn & _ & _ & Hha & _).
  rewrite Hn in Hk. rewrite Hha.
  destruct (Hframe k ltac:(lia)) as (-> & _ & -> & -> & -> & _).
  destruct (Hrot k Hk) as (_ & HrY & Hpar).
  destruct (Hframe (parent (p_frames ps !!! k)) ltac:(lia)) as (-> & _).
  split; [exact Hpar|]. split; [apply HX, Hk|]. split; [exact HrY|].
  intros ->. apply HY; [exact Hk|].
  apply finish_debug in Hctor as [-> _].
  intros Hanc. apply ancestor_root in Hanc. lia.
Qed.

(** X12. The geometry of a ligand that a debug build constructs, in the
    coordinates of the file: a heavy atom or a hydrogen of a frame is kept
    relative to the rotor Y of the frame, and the two vectors of a BRANCH
    frame are the one from the rotor Y of its parent to its own rotor Y
    and the normalized one from its rotor X to its rotor Y. *)
Theorem ligand_ctor_relative_coordinates {fl : Type} `{Scalar fl}
    `{AtomModel fl} `{TextModel fl} (input : list string) (lig : ligand fl)
    (k : nat) :
  ligand_ctor false input = Ret lig ->
  k < num_frames lig ->
  let f := frames lig !!! k in
  let file := fun i => coordinate (file_atoms false input !!! i) in
  (forall i, habegin f <= i < haend f ->
     coordinate (heavy_atoms lig !!! i) = vsub (file i) (file (rotorY f)))
  /\ (forall i, hybegin f <= i < hyend f ->
        coordinate (hydrogens lig !!! i)
        = vsub (coordinate (file_hydrogens false input !!! i))
               (file (rotorY f)))
  /\ (1 <= k ->
      parent_rotorY_to_current_rotorY f
      = vsub (file (rotorY f)) (file (rotorY (frames lig !!! parent f)))
      /\ parent_rotorX_to_current_rotorY f
         = normalize3 (vsub (file (rotorY f)) (file (rotorX f)))).
Proof.
  unfold ligand_ctor, file_atoms, file_hydrogens. intros Hctor Hk.
  inv_bind Hctor. rename a into ps. rewrite Ha.
  pose proof (parse_lines_inv _ _ _ _ Ha parse_inv_init) as Hinv.
  pose proof (parse_lines_shape_inv _ _ _ _ Ha parse_inv_init shape_inv_init)
    as Hshape.
  pose proof (fun j => finish_frame _ _ _ j Hctor) as Hframe.
  cbv zeta in Hframe |- *.
  pose proof (finish_sizes _ _ _ Hctor) as (_ & Hn & _).
  rewrite Hn in Hk.
  assert (HY : habegin (p_frames ps !!! k) <= rotorY (p_frames ps !!! k)).
  { destruct (decide (k = 0)) as [->|Hk0].
    - destruct Hshape as (-> & _). lia.
    - destruct Hshape as (_ & _ & _ & _ & _ & HY). apply HY; [lia|].
      apply finish_debug in Hctor as [-> _].
      intros Hanc. apply ancestor_root in Hanc. lia. }
  destruct (finish_geometry _ _ _ k Hctor Hinv Hshape Hk HY) as [Hheavy Hhyd].
  cbv zeta in Hheavy, Hhyd.
  split; [|split].
  - intros i Hi. rewrite (Hheavy i Hi). reflexivity.
  - intros i Hi. rewrite (Hhyd i Hi). reflexivity.
  - intros Hk1.
    destruct (Hframe k Hk) as (_ & _ & Hpar & HrX & HrY & _ & _ & _ & Hvec).
    destruct (Hvec Hk1) as [-> ->]. rewrite Hpar, HrX, HrY.
    destruct Hinv as ((_ & Hbegin & _) & _).
    destruct (Hbegin k Hk) as [_ Hle].
    destruct (Hframe (parent (p_frames ps !!! k)) ltac:(lia))
      as (_ & _ & _ & _ & -> & _).
    auto.
Qed.

(** ** The pose of the file *)

Section LaidOut.
Context {fl : Type} `{Scalar fl} `{AtomModel fl} `{TextModel fl}.

Lemma finish_ranges NDEBUG (ps : parser fl) lig :
  finish NDEBUG ps = Ret lig -> parse_inv ps -> shape_inv ps ->
  let F := fun k => frames lig !!! k in
  let n := length (p_frames ps) in
  (habegin (F 0) = 0 /\ hybegin (F 0) = 0
   /\ haend (F (n - 1)) = length (p_heavy_atoms ps)
   /\ hyend (F (n - 1)) = length (p_hydrogens ps))
  /\ (forall k, S k < n ->
        haend (F k) = habegin (F (S k)) /\ hyend (F k) = hybegin (F (S k)))
  /\ (forall k, k < n ->
        habegin (F k) <= haend (F k) <= length (p_heavy_atoms ps)
        /\ hybegin (F k) <= hyend (F k) <= length (p_hydrogens ps)).
Proof.
  intros Hf Hinv Hshape. cbv zeta.
  pose proof (fun j => finish_frame _ _ _ j Hf) as Hframe.
  cbv zeta in Hframe.
  destruct Hinv as ((Hpos & Hbegin & Hnext & _) & _).
  destruct Hshape as (Hb0 & Hy0 & Hyb & Hynext & _).
  set (n := length (p_frames ps)) in *.
  assert (Hchain : forall j, S j < n ->
    (haend (frames lig !!! j) = habegin (frames lig !!! S j)
     /\ habegin (frames lig !!! j) <= habegin (frames lig !!! S j))
    /\ (hyend (frames lig !!! j) = hybegin (frames lig !!! S j)
        /\ hybegin (frames lig !!! j) <= hybegin (frames lig !!! S j))).
  { intros j Hj.
    destruct (Hframe j ltac:(lia)) as (-> & -> & _ & _ & _ & _ & -> & -> & _).
    destruct (Hframe (S j) Hj) as (-> & -> & _).
    rewrite !decide_False by lia.
    split; [apply Hnext | apply Hynext]; exact Hj. }
  split; [|split].
  - destruct (Hframe 0 Hpos) as (-> & -> & _).
    destruct (Hframe (n - 1) ltac:(lia))
      as (_ & _ & _ & _ & _ & _ & -> & -> & _).
    rewrite !decide_True by reflexivity. auto.
  - intros k Hk. destruct (Hchain k Hk) as [[-> _] [-> _]]. auto.
  - intros k Hk. destruct (decide (S k < n)) as [Hs|Hs].
    + destruct (Hchain k Hs) as [[-> Hle1] [-> Hle2]].
      destruct (Hframe (S k) Hs) as (Hb & Hy & _).
      destruct (Hbegin (S k) Hs) as [Hle _].
      pose proof (Hyb (S k) Hs). lia.
    + destruct (Hframe k Hk) as (-> & -> & _ & _ & _ & _ & -> & -> & _).
      rewrite !decide_True by lia.
      destruct (Hbegin k Hk) as [Hle _]. pose proof (Hyb k Hk). lia.
Qed.

Lemma ligand_ctor_laid_out input (lig : ligand fl) :
  ligand_ctor false input = Ret lig ->
  laid_out lig (file_atoms false input) (file_hydrogens false input).
Proof.
  unfold ligand_ctor, file_atoms, file_hydrogens. intros Hctor.
  inv_bind Hctor. rename a into ps. rewrite Ha.
  pose proof (parse_lines_inv _ _ _ _ Ha parse_inv_init) as Hinv.
  pose proof (parse_lines_shape_inv _ _ _ _ Ha parse_inv_init shape_inv_init)
    as Hshape.
  pose proof (fun j => finish_frame _ _ _ j Hctor) as Hframe.
  cbv zeta in Hframe.
  destruct (finish_counts _ _ _ Hctor) as [_ Hlen].
  pose proof (finish_sizes _ _ _ Hctor)
    as (_ & Hn & _ & _ & Hha & Hhy & Hlha & Hlhy & _).
  destruct (finish_ranges _ _ _ Hctor Hinv Hshape) as (Hfirst & Hchain & Hle).
  cbv zeta in Hfirst, Hchain, Hle.
  pose proof Hinv as ((Hpos & Hbegin & _ & Hrot) & _).
  unfold laid_out. cbv zeta. rewrite Hn, Hha, Hhy, Hlha, Hlhy.
  rewrite bonded_atoms_length.
  split; [auto 10|]. split; [exact Hfirst|]. split; [exact Hchain|].
  split; [exact Hle|]. split.
  - intros k Hk. destruct (Hframe k ltac:(lia)) as (_ & _ & -> & _).
    apply Hrot, Hk.
  - intros k Hk.
    assert (HY : habegin (p_frames ps !!! k) <= rotorY (p_frames ps !!! k)).
    { destruct (decide (k = 0)) as [->|Hk0].
      - destruct Hshape as (-> & _). lia.
      - destruct Hshape as (_ & _ & _ & _ & _ & HY). apply HY; [lia|].
        apply finish_debug in Hctor as [-> _].
        intros Hanc. apply ancestor_root in Hanc. lia. }
    destruct (finish_geometry _ _ _ k Hctor Hinv Hshape Hk HY)
      as [Hheavy Hhyd].
    cbv zeta in Hheavy, Hhyd. split; [|split].
    + intros i Hi. rewrite (Hheavy i Hi). reflexivity.
    + intros i Hi. rewrite (Hhyd i Hi). reflexivity.
    + intros Hk1.
      destruct (Hframe k Hk) as (_ & _ & Hpar & _ & HrY & _ & _ & _ & Hvec).
      destruct (Hvec Hk1) as [-> _]. rewrite Hpar, HrY.
      destruct (Hbegin k Hk) as [_ Hpk].
      destruct (Hframe (parent (p_frames ps !!! k)) ltac:(lia))
        as (_ & _ & _ & _ & -> & _).
      reflexivity.
Qed.
End LaidOut.

Section RoundTrip.
Context {fl : Type} `{Scalar fl} `{Libm fl}.
Hypothesis Hexact : exact_ring (fl := fl).
Hypothesis Hlibm : libm_at_0 (fl := fl).
Local Open Scope fl_scope.

Add Ring fl_ring_round_trip : (fl_ring Hexact).

Ltac tuple_eq :=
  cbv [qmul qtn4_to_mat3_raw mat3_mul_vec3 vadd vsub qtn4id vec4_to_qtn4];
  repeat match goal with |- (_, _) = (_, _) => apply f_equal2 end.

Lemma back_to_world (a b : vec3 fl) :
  vadd a (mat3_mul_vec3 (qtn4_to_mat3_raw qtn4id) (vsub b a)) = b.
Proof using Hexact.
  destruct a as [[a0 a1] a2], b as [[b0 b1] b2].
  tuple_eq; rewrite (two_is_1_plus_1 Hexact); ring.
Qed.

Lemma no_torsion (ax : vec3 fl) (q : qtn4 fl) :
  qmul (vec4_to_qtn4 ax 0) q = q.
Proof using Hexact Hlibm.
  destruct ax as [[x0 x1] x2], q as [[[q0 q1] q2] q3].
  destruct Hlibm as [Hsin Hcos].
  assert (Hh : (0 : fl) * flit 0.5%float = 0) by ring.
  unfold vec4_to_qtn4. cbv zeta. rewrite Hh, Hsin, Hcos.
  tuple_eq; ring.
Qed.

Lemma zero_torsion n t : replicate n (0 : fl) !!! t = 0.
Proof.
  destruct (decide (t < n)%nat) as [Hlt|Hge].
  - apply lookup_total_replicate_2. exact Hlt.
  - rewrite list_lookup_total_alt.
    replace (replicate n (0 : fl) !! t) with (@None fl); [reflexivity|].
    symmetry. apply lookup_replicate_None. lia.
Qed.

Variable lig : ligand fl.
Variables atoms hyds : list (atom fl).
Hypothesis Hlaid : laid_out lig atoms hyds.

Lemma compose_root_placed :
  exists cmp,
    compose_root true lig (file_pose lig atoms) (composition_init lig)
    = Ret cmp
    /\ placed lig atoms hyds 0 cmp.
Proof using Hexact Hlaid.
  destruct Hlaid as (Hsizes & Hfirst & Hchain & Hle & Hpar & Hgeo).
  cbv zeta in *.
  destruct Hsizes as (HN & HlF & Hla & Hlh & Hlha & Hlhy).
  destruct Hfirst as (Hb0 & Hy0 & _).
  destruct (Hle 0%nat HN) as [Hle0 Hley0].
  destruct (Hgeo 0%nat HN) as (Hheavy & Hhyd & _).
  unfold compose_root.
  cbn [quaternion_to_matrix qtn4_to_mat3 BOOST_ASSERT orb bind].
  eexists. split; [reflexivity|].
  unfold placed, composition_init, file_pose.
  cbn [origins orientations_q orientations_m out_heavy_atoms out_hydrogens
       position orientation].
  rewrite !length_insert, !transform_atoms_length, !length_replicate.
  split; [auto 10|]. split; [|split].
  - intros j' Hj'. replace j' with 0%nat by lia.
    rewrite !list_lookup_total_insert_eq by (rewrite length_replicate; lia).
    auto.
  - intros i Hi. rewrite transform_atoms_lookup, length_replicate.
    rewrite decide_True by lia.
    rewrite (Hheavy i) by lia. apply back_to_world.
  - intros i Hi. rewrite transform_atoms_lookup, length_replicate.
    rewrite decide_True by lia.
    rewrite (Hhyd i) by lia. apply back_to_world.
Qed.

Lemma compose_branch_placed k t cmp :
  (1 <= k < num_frames lig)%nat -> placed lig atoms hyds (k - 1) cmp ->
  exists t' cmp',
    compose_branch true lig (file_pose lig atoms) k (t, cmp) = Ret (t', cmp')
    /\ placed lig atoms hyds k cmp'.
Proof using Hexact Hlibm Hlaid.
  intros Hk (Hlens & Hframes & Hheavy & Hhyd).
  destruct Hlaid as (Hsizes & Hfirst & Hchain & Hle & Hpar & Hgeo).
  cbv zeta in *.
  destruct Hsizes as (HN & HlF & Hla & Hlh & Hlha & Hlhy).
  destruct Hlens as (Hlo & Hlq & Hlm & Hloh & Hloy).
  pose proof (Hpar k Hk) as Hp.
  destruct (Hframes (parent (frames lig !!! k)) ltac:(lia)) as (Ho & Hq & Hm).
  destruct (Hgeo k ltac:(lia)) as (Hlocal & Hlocaly & Hvec).
  specialize (Hvec ltac:(lia)).
  destruct (Hchain (k - 1)%nat ltac:(lia)) as [Hnext Hnexty].
  replace (S (k - 1)) with k in Hnext, Hnexty by lia.
  destruct (Hle k ltac:(lia)) as [Hlek Hleyk].
  unfold compose_branch.
  cbn [quaternion_to_matrix qtn4_to_mat3 BOOST_ASSERT orb bind].
  do 2 eexists. split; [reflexivity|].
  assert (Hangle : (if active (frames lig !!! k)
                    then torsions (file_pose lig atoms) !!! t else 0) = 0).
  { destruct (active _); [|reflexivity]. apply zero_torsion. }
  rewrite Hangle, Ho, Hq, Hm, Hvec, back_to_world, no_torsion.
  unfold placed.
  cbn [origins orientations_q orientations_m out_heavy_atoms out_hydrogens].
  rewrite !length_insert, !transform_atoms_length.
  split; [auto 10|]. split; [|split].
  - intros j' Hj'. destruct (decide (j' = k)) as [->|Hne].
    + rewrite !list_lookup_total_insert_eq by lia. auto.
    + rewrite !list_lookup_total_insert_ne by congruence.
      apply Hframes. lia.
  - intros i Hi. rewrite transform_atoms_lookup.
    destruct (decide (habegin (frames lig !!! k) <= i)%nat) as [Hin|Hout].
    + rewrite decide_True by lia.
      rewrite (Hlocal i) by lia. apply back_to_world.
    + rewrite decide_False by lia. apply Hheavy. lia.
  - intros i Hi. rewrite transform_atoms_lookup.
    destruct (decide (hybegin (frames lig !!! k) <= i)%nat) as [Hin|Hout].
    + rewrite decide_True by lia.
      rewrite (Hlocaly i) by lia. apply back_to_world.
    + rewrite decide_False by lia. apply Hhyd. lia.
Qed.

Lemma compose_branches_placed n : forall k t cmp,
  (1 <= k)%nat -> (k + n = num_frames lig)%nat -> placed lig atoms hyds (k - 1) cmp ->
  exists t' cmp',
    compose_branches true lig (file_pose lig atoms) k n (t, cmp)
    = Ret (t', cmp')
    /\ placed lig atoms hyds (num_frames lig - 1) cmp'.
Proof using Hexact Hlibm Hlaid.
  induction n as [|n IH]; intros k t cmp Hk Hkn Hplaced;
    cbn [compose_branches].
  - exists t, cmp. split; [reflexivity|].
    replace (num_frames lig - 1)%nat with (k - 1)%nat by lia. exact Hplaced.
  - destruct (compose_branch_placed k t cmp ltac:(lia) Hplaced)
      as (t1 & cmp1 & -> & Hplaced1).
    cbn [bind]. apply IH; [lia | lia |].
    replace (S k - 1)%nat with k by lia. exact Hplaced1.
Qed.

Lemma lookups_eq {A : Type} {IA : Inhabited A} (l1 l2 : list A) :
  length l1 = length l2 ->
  (forall i, (i < length l1)%nat -> l1 !!! i = l2 !!! i) -> l1 = l2.
Proof.
  intros Hlen Hall. apply (list_eq_same_length _ _ (length l1));
    [congruence | reflexivity|].
  intros i x y Hi Hx Hy. specialize (Hall i Hi).
  apply list_lookup_total_correct in Hx, Hy. congruence.
Qed.

Lemma compose_file_pose e f :
  compose_result true lig e f (file_pose lig atoms)
  = Ret (mk_result e f (coordinate <$> atoms) (coordinate <$> hyds)).
Proof using Hexact Hlibm Hlaid.
  unfold compose_result, compose.
  destruct compose_root_placed as (cmp0 & -> & Hplaced0). cbn [bind].
  pose proof Hlaid as (Hsizes & Hfirst & _). cbv zeta in Hsizes, Hfirst.
  destruct Hsizes as (HN & HlF & Hla & Hlh & Hlha & Hlhy).
  destruct Hfirst as (_ & _ & Hea & Hey).
  destruct (compose_branches_placed (num_frames lig - 1) 1 0%nat cmp0)
    as (t & cmp & -> & Hlens & _ & Hheavy & Hhyd); [lia | lia | exact Hplaced0|].
  destruct Hlens as (_ & _ & _ & Hloh & Hloy).
  cbn [bind]. do 2 f_equal.
  - apply (@lookups_eq (vec3 fl) _); [rewrite length_fmap; congruence|].
    intros i Hi. rewrite (list_lookup_total_fmap coordinate atoms i) by lia.
    apply Hheavy. lia.
  - apply (@lookups_eq (vec3 fl) _); [rewrite length_fmap; congruence|].
    intros i Hi. rewrite (list_lookup_total_fmap coordinate hyds i) by lia.
    apply Hhyd. lia.
Qed.
End RoundTrip.

(** X13. Round trip, in exact arithmetic: for a ligand that a debug
    build constructs, [compose_result] at the pose of the file (ROOT at
    its rotor Y, the identity orientation and every torsion at [0])
    returns the heavy atoms and the hydrogens at the coordinates they
    have in the file. *)
Theorem compose_result_round_trip {fl : Type} `{Scalar fl} `{Libm fl}
    `{AtomModel fl} `{TextModel fl} (input : list string) (lig : ligand fl)
    (e f : fl) :
  exact_ring (fl := fl) -> libm_at_0 (fl := fl) ->
  ligand_ctor false input = Ret lig ->
  compose_result true lig e f (file_pose lig (file_atoms false input))
  = Ret (mk_result e f (coordinate <$> file_atoms false input)
           (coordinate <$> file_hydrogens false input)).
Proof.
  intros Hexact Hlibm Hctor.
  apply compose_file_pose; [exact Hexact | exact Hlibm|].
  apply ligand_ctor_laid_out. exact Hctor.
Qed.

(** ** ligand::write_models *)

Section Strings.
Lemma length_append s1 s2 :
  String.length (String.append s1 s2) = String.length s1 + String.length s2.
Proof. induction s1 as [|c s1 IH]; cbn; [reflexivity | rewrite IH; reflexivity]. Qed.

Lemma length_substring s : forall n m,
  String.length (String.substring n m s) = Nat.min m (String.length s - n).
Proof.
  induction s as [|c s IH]; intros n m.
  - destruct n, m; reflexivity.
  - destruct n as [|n]; cbn.
    + destruct m as [|m]; cbn; [reflexivity|]. rewrite IH.
      rewrite Nat.sub_0_r. reflexivity.
    + apply IH.
Qed.

Lemma get_Some s : forall i,
  i < String.length s -> exists c, String.get i s = Some c.
Proof.
  induction s as [|c s IH]; intros i Hi; cbn in Hi; [lia|].
  destruct i as [|i]; cbn; [eauto|]. apply IH. lia.
Qed.

Lemma get_None s : forall i, String.length s <= i -> String.get i s = None.
Proof.
  induction s as [|c s IH]; intros i Hi; [destruct i; reflexivity|].
  destruct i as [|i]; cbn in *; [lia|]. apply IH. lia.
Qed.

Lemma get_append_r s1 s2 p :
  String.length s1 <= p ->
  String.get p (String.append s1 s2) = String.get (p - String.length s1) s2.
Proof.
  intros Hp. rewrite (append_correct2 s1 s2 (p - String.length s1)).
  f_equal. lia.
Qed.

Lemma length_spaces n : String.length (spaces n) = n.
Proof. induction n as [|n IH]; cbn; [reflexivity | rewrite IH; reflexivity]. Qed.

Lemma length_setw n s : String.length (setw n s) = Nat.max n (String.length s).
Proof. unfold setw. rewrite length_append, length_spaces. lia. Qed.
End Strings.

Section WriteModels.
Context {fl : Type} `{Scalar fl} `{StreamModel fl}.

Lemma subscript_Ret {A : Type} (v : list A) i x :
  subscript v i = Ret x <-> v !! i = Some x.
Proof. unfold subscript. destruct (v !! i); split; congruence. Qed.

Lemma subscript_Fail {A : Type} (v : list A) i f :
  subscript v i = Fail f <-> f = out_of_range /\ length v <= i.
Proof.
  unfold subscript. destruct (v !! i) as [x|] eqn:Hv.
  - apply lookup_lt_Some in Hv. split; [discriminate | lia].
  - apply lookup_ge_None in Hv. split; [intros [= <-]; auto|].
    intros [-> _]. reflexivity.
Qed.

Lemma rank_cons (P : string -> bool) line lines j :
  rank P (line :: lines) (S j) = (if P line then 1 else 0) + rank P lines j.
Proof. unfold rank. cbn. destruct (P line); reflexivity. Qed.

Lemma rank_all (P : string -> bool) lines :
  rank P lines (length lines) = length (List.filter P lines).
Proof. unfold rank. rewrite firstn_all. reflexivity. Qed.

Lemma rank_le (P : string -> bool) lines j :
  j <= length lines -> rank P lines j <= length (List.filter P lines).
Proof.
  unfold rank. revert j. induction lines as [|line lines IH]; intros j Hj.
  - rewrite take_nil. cbn. lia.
  - destruct j as [|j]; cbn; [lia|]. cbn in Hj.
    specialize (IH j ltac:(lia)). destruct (P line); cbn; lia.
Qed.

(** The three ways a line is written. *)
Lemma write_line_cases (r : result fl) line out heavy_atom hydrogen :
  let text := atom_text (String.substring 0 30 line)
                (String.substring 54 (String.length line) line) in
  (coordinate_line line = false
   /\ write_line r line (out, heavy_atom, hydrogen)
      = Ret (out ++ [line], heavy_atom, hydrogen))
  \/ (hydrogen_line line = true
      /\ write_line r line (out, heavy_atom, hydrogen)
         = match result_hydrogens r !! hydrogen with
           | Some v => Ret (out ++ [text v], heavy_atom, S hydrogen)
           | None => Fail out_of_range
           end)
  \/ (heavy_line line = true
      /\ write_line r line (out, heavy_atom, hydrogen)
         = match result_heavy_atoms r !! heavy_atom with
           | Some v => Ret (out ++ [text v], S heavy_atom, hydrogen)
           | None => Fail out_of_range
           end).
Proof.
  cbv zeta. unfold write_line, heavy_line, hydrogen_line, coordinate_line.
  destruct (79 <=? String.length line) eqn:Hlen; [|auto].
  apply Nat.leb_le in Hlen. right.
  destruct (get_Some line 77 ltac:(lia)) as [c Hc].
  unfold char_at, substr. rewrite Hc. cbn [bind andb].
  replace (0 <=? String.length line) with true
    by (symmetry; apply Nat.leb_le; lia).
  replace (54 <=? String.length line) with true
    by (symmetry; apply Nat.leb_le; lia).
  destruct (Ascii.eqb c "H"); [left | right]; (split; [reflexivity|]);
    unfold subscript;
    match goal with |- context [?l !! ?i] => destruct (l !! i) end;
    reflexivity.
Qed.

Lemma kinds_exclusive line :
  (coordinate_line line = false
   -> hydrogen_line line = false /\ heavy_line line = false)
  /\ (hydrogen_line line = true
      -> coordinate_line line = true /\ heavy_line line = false)
  /\ (heavy_line line = true
      -> coordinate_line line = true /\ hydrogen_line line = false).
Proof.
  unfold heavy_line, hydrogen_line.
  destruct (coordinate_line line), (match String.get 77 line with
                                    | Some c => Ascii.eqb c "H"
                                    | None => false
                                    end); cbn; auto.
Qed.

(** The lines of one model, once the loop over [j] returns: the
    counters are the ranks of the lines. *)
Lemma write_lines_Ret (r : result fl) lines :
  forall out heavy_atom hydrogen st,
    write_lines r lines (out, heavy_atom, hydrogen) = Ret st ->
    exists texts,
      st = (out ++ texts,
            heavy_atom + length (List.filter heavy_line lines),
            hydrogen + length (List.filter hydrogen_line lines))
      /\ length texts = length lines
      /\ forall j line, lines !! j = Some line ->
           (coordinate_line line = false -> texts !! j = Some line)
           /\ (hydrogen_line line = true ->
               exists v,
                 result_hydrogens r !! (hydrogen + rank hydrogen_line lines j)
                 = Some v
                 /\ texts !! j
                    = Some (atom_text (String.substring 0 30 line)
                              (String.substring 54 (String.length line) line)
                              v))
           /\ (heavy_line line = true ->
               exists v,
                 result_heavy_atoms r !! (heavy_atom + rank heavy_line lines j)
                 = Some v
                 /\ texts !! j
                    = Some (atom_text (String.substring 0 30 line)
                              (String.substring 54 (String.length line) line)
                              v)).
Proof.
  induction lines as [|line0 lines IH]; intros out ha hy st;
    cbn [write_lines].
  - intros [= <-]. exists []. rewrite app_nil_r. cbn.
    rewrite !Nat.add_0_r. split; [reflexivity|]. split; [reflexivity|].
    intros j line Hj. discriminate.
  - intros Hw. inv_bind Hw. destruct a as [[out1 ha1] hy1].
    apply IH in Hw as (texts & -> & Hlen & Hall).
    pose proof (kinds_exclusive line0) as (Hk1 & Hk2 & Hk3).
    destruct (write_line_cases r line0 out ha hy)
      as [[Hkind Hw0] | [[Hkind Hw0] | [Hkind Hw0]]];
      cbv zeta in Hw0; rewrite Hw0 in Ha; clear Hw0.
    + injection Ha as <- <- <-. destruct (Hk1 Hkind) as [Hh Hv].
      exists (line0 :: texts). cbn [List.filter length]. rewrite Hh, Hv.
      rewrite <- app_assoc. split; [reflexivity|]. split; [cbn; lia|].
      intros [|j] line Hj.
      * injection Hj as <-. split; [reflexivity|].
        split; intros; congruence.
      * cbn in Hj. rewrite !rank_cons, Hh, Hv. cbn [lookup]. apply Hall, Hj.
    + destruct (result_hydrogens r !! hy) as [v|] eqn:Hv; [|discriminate].
      injection Ha as <- <- <-. destruct (Hk2 Hkind) as [Hc Hhv].
      eexists (_ :: texts). cbn [List.filter length]. rewrite Hkind, Hhv.
      rewrite <- app_assoc. cbn [length].
      split; [rewrite Nat.add_succ_r; reflexivity|]. split; [cbn; lia|].
      intros [|j] line Hj.
      * injection Hj as <-. split; [congruence|]. split; [|congruence].
        intros _. exists v. unfold rank. cbn. rewrite Nat.add_0_r. auto.
      * cbn in Hj. rewrite !rank_cons, Hkind, Hhv. cbn [lookup].
        destruct (Hall j line Hj) as (Hc1 & Hc2 & Hc3).
        split; [exact Hc1|]. split; [|exact Hc3].
        intros Hl. destruct (Hc2 Hl) as (w & Hw & Ht). exists w.
        split; [|exact Ht]. rewrite <- Hw. f_equal. lia.
    + destruct (result_heavy_atoms r !! ha) as [v|] eqn:Hv; [|discriminate].
      injection Ha as <- <- <-. destruct (Hk3 Hkind) as [Hc Hhv].
      eexists (_ :: texts). cbn [List.filter length]. rewrite Hkind, Hhv.
      rewrite <- app_assoc. cbn [length].
      split; [rewrite Nat.add_succ_r; reflexivity|]. split; [cbn; lia|].
      intros [|j] line Hj.
      * injection Hj as <-. split; [congruence|]. split; [congruence|].
        intros _. exists v. unfold rank. cbn. rewrite Nat.add_0_r. auto.
      * cbn in Hj. rewrite !rank_cons, Hkind, Hhv. cbn [lookup].
        destruct (Hall j line Hj) as (Hc1 & Hc2 & Hc3).
        split; [exact Hc1|]. split; [exact Hc2|].
        intros Hl. destruct (Hc3 Hl) as (w & Hw & Ht). exists w.
        split; [|exact Ht]. rewrite <- Hw. f_equal. lia.
Qed.
End WriteModels.

Section WriteModelsFacts.
Context {fl : Type} `{Scalar fl} `{StreamModel fl}.

(** The loop over the lines runs out of coordinates, and only then
    fails. *)
Lemma write_lines_returns (r : result fl) lines :
  forall out heavy_atom hydrogen,
    (exists st, write_lines r lines (out, heavy_atom, hydrogen) = Ret st)
    <-> (length (List.filter heavy_line lines) = 0
         \/ heavy_atom + length (List.filter heavy_line lines)
            <= length (result_heavy_atoms r))
        /\ (length (List.filter hydrogen_line lines) = 0
            \/ hydrogen + length (List.filter hydrogen_line lines)
               <= length (result_hydrogens r)).
Proof.
  induction lines as [|line0 lines IH]; intros out ha hy;
    cbn [write_lines List.filter].
  - cbn. split; [auto | eauto].
  - pose proof (kinds_exclusive line0) as (Hk1 & Hk2 & Hk3).
    destruct (write_line_cases r line0 out ha hy)
      as [[Hkind Hw0] | [[Hkind Hw0] | [Hkind Hw0]]];
      cbv zeta in Hw0; rewrite Hw0; clear Hw0.
    + destruct (Hk1 Hkind) as [-> ->]. cbn [bind]. apply IH.
    + destruct (Hk2 Hkind) as [_ ->]. rewrite Hkind. cbn [length].
      destruct (result_hydrogens r !! hy) as [v|] eqn:Hv; cbn [bind].
      * apply lookup_lt_Some in Hv. rewrite IH. clear IH. intuition lia.
      * apply lookup_ge_None in Hv. split.
        -- intros [st Hst]. discriminate.
        -- intros [_ [Hcontra|Hcontra]]; lia.
    + destruct (Hk3 Hkind) as [_ ->]. rewrite Hkind. cbn [length].
      destruct (result_heavy_atoms r !! ha) as [v|] eqn:Hv; cbn [bind].
      * apply lookup_lt_Some in Hv. rewrite IH. clear IH. intuition lia.
      * apply lookup_ge_None in Hv. split.
        -- intros [st Hst]. discriminate.
        -- intros [[Hcontra|Hcontra] _]; lia.
Qed.

Lemma write_lines_Fail (r : result fl) lines :
  forall st f, write_lines r lines st = Fail f -> f = out_of_range.
Proof.
  induction lines as [|line0 lines IH]; intros [[out ha] hy] f;
    cbn [write_lines]; [discriminate|].
  destruct (write_line_cases r line0 out ha hy)
    as [[Hkind Hw0] | [[Hkind Hw0] | [Hkind Hw0]]];
    cbv zeta in Hw0; rewrite Hw0; clear Hw0.
  - cbn [bind]. apply IH.
  - destruct (result_hydrogens r !! hy); cbn [bind]; [apply IH|].
    intros [= <-]. reflexivity.
  - destruct (result_heavy_atoms r !! ha); cbn [bind]; [apply IH|].
    intros [= <-]. reflexivity.
Qed.

(** The text of model [i], for the result [r]. *)
Lemma write_model_Ret (lig : ligand fl) results i out out' :
  write_model lig results i out = Ret out' ->
  exists r texts,
    items results !! i = Some r
    /\ out' = out
         ++ [String.append "MODEL     " (setw 4 (size_t_text (i + 1)));
             String.append "REMARK     FREE ENERGY PREDICTED BY IDOCK:"
               (String.append (setw 8 (fixed 3 (result_e r))) " KCAL/MOL")]
         ++ texts ++ ["ENDMDL"%string]
    /\ length texts = length (lines lig)
    /\ forall j line, lines lig !! j = Some line ->
         (coordinate_line line = false -> texts !! j = Some line)
         /\ (hydrogen_line line = true ->
             exists v,
               result_hydrogens r !! rank hydrogen_line (lines lig) j = Some v
               /\ texts !! j
                  = Some (atom_text (String.substring 0 30 line)
                            (String.substring 54 (String.length line) line)
                            v))
         /\ (heavy_line line = true ->
             exists v,
               result_heavy_atoms r !! rank heavy_line (lines lig) j = Some v
               /\ texts !! j
                  = Some (atom_text (String.substring 0 30 line)
                            (String.substring 54 (String.length line) line)
                            v)).
Proof.
  unfold write_model. intros Hw. inv_bind Hw. rename a into r.
  apply subscript_Ret in Ha. inv_bind Hw. destruct a as [[out1 ha] hy].
  injection Hw as <-.
  apply write_lines_Ret in Ha0 as (texts & [= -> _ _] & Hlen & Hall).
  exists r, texts. split; [exact Ha|]. split.
  - rewrite <- !app_assoc. reflexivity.
  - split; [exact Hlen|]. exact Hall.
Qed.

Lemma write_model_returns (lig : ligand fl) results i out :
  (exists out', write_model lig results i out = Ret out')
  <-> exists r, items results !! i = Some r
        /\ length (List.filter heavy_line (lines lig))
           <= length (result_heavy_atoms r)
        /\ length (List.filter hydrogen_line (lines lig))
           <= length (result_hydrogens r).
Proof.
  unfold write_model, subscript.
  destruct (items results !! i) as [r|]; cbn [bind].
  - match goal with
    | |- context [write_lines r ?ls ?st] =>
        destruct (write_lines r ls st) as [[[o a] h]|f] eqn:Hw
    end; cbn [bind].
    + assert (Hex : exists st, write_lines r (lines lig)
                (out ++ [String.append "MODEL     " (setw 4 (size_t_text (i + 1)));
                         String.append "REMARK     FREE ENERGY PREDICTED BY IDOCK:"
                           (String.append (setw 8 (fixed 3 (result_e r)))
                              " KCAL/MOL")], 0, 0) = Ret st) by eauto.
      apply write_lines_returns in Hex. split; [|eauto].
      intros _. exists r. split; [reflexivity|]. lia.
    + split; [intros [o Ho]; discriminate|].
      intros (r' & [= <-] & Hha & Hhy). exfalso.
      assert (Hex : exists st, write_lines r (lines lig)
                (out ++ [String.append "MODEL     " (setw 4 (size_t_text (i + 1)));
                         String.append "REMARK     FREE ENERGY PREDICTED BY IDOCK:"
                           (String.append (setw 8 (fixed 3 (result_e r)))
                              " KCAL/MOL")], 0, 0) = Ret st).
      { apply write_lines_returns. cbn. lia. }
      destruct Hex as [st Hst]. congruence.
  - split; [intros [o Ho]; discriminate|]. intros (r & Hr & _). discriminate.
Qed.

Lemma write_model_Fail (lig : ligand fl) results i out f :
  write_model lig results i out = Fail f -> f = out_of_range.
Proof.
  unfold write_model. intros Hw.
  apply bind_Fail_inv in Hw as [Hw | (r & _ & Hw)].
  - apply subscript_Fail in Hw as [-> _]. reflexivity.
  - apply bind_Fail_inv in Hw as [Hw | ([[o a] h] & _ & Hw)];
      [|discriminate].
    exact (write_lines_Fail _ _ _ _ Hw).
Qed.

(** The models [i .. i + n) follow the text written before them. *)
Lemma write_models_from_Ret (lig : ligand fl) results n :
  forall i out out',
    write_models_from lig results i n out = Ret out' ->
    exists blocks,
      out' = out ++ blocks
      /\ length blocks = n * (length (lines lig) + 3)
      /\ forall d, d < n ->
           exists out1,
             write_model lig results (i + d) [] = Ret out1
             /\ forall p, p < length (lines lig) + 3 ->
                  blocks !! (d * (length (lines lig) + 3) + p) = out1 !! p.
Proof.
  induction n as [|n IH]; intros i out out'; cbn [write_models_from].
  - intros [= <-]. exists []. rewrite app_nil_r. split; [reflexivity|].
    split; [reflexivity|]. intros d Hd. lia.
  - intros Hw. inv_bind Hw. rename a into out1.
    pose proof (write_model_Ret _ _ _ _ _ Ha)
      as (r & texts & Hr & -> & Hlen & Hall).
    apply IH in Hw as (blocks & -> & Hblen & Hblocks).
    set (block := [String.append "MODEL     " (setw 4 (size_t_text (i + 1)));
                   String.append "REMARK     FREE ENERGY PREDICTED BY IDOCK:"
                     (String.append (setw 8 (fixed 3 (result_e r)))
                        " KCAL/MOL")] ++ texts ++ ["ENDMDL"%string]) in *.
    assert (Hblock : length block = length (lines lig) + 3).
    { subst block. rewrite !length_app. cbn. lia. }
    assert (Hown : write_model lig results i [] = Ret block).
    { assert (Hex : exists o, write_model lig results i [] = Ret o).
      { apply write_model_returns.
        assert (Hex : exists o, write_model lig results i out = Ret o)
          by eauto.
        apply write_model_returns in Hex. exact Hex. }
      destruct Hex as [o Ho]. rewrite Ho. f_equal.
      pose proof (write_model_Ret _ _ _ _ _ Ho)
        as (r' & texts' & Hr' & -> & Hlen' & Hall').
      rewrite Hr in Hr'. injection Hr' as <-. cbn [app]. subst block.
      cbn [app]. do 2 f_equal. f_equal.
      apply (list_eq_same_length _ _ (length (lines lig))); [auto | auto|].
      intros j x y Hj Hx Hy.
      destruct (lookup_lt_is_Some_2 (lines lig) j Hj) as [line Hline].
      destruct (Hall j line Hline) as (Hc1 & Hc2 & Hc3).
      destruct (Hall' j line Hline) as (Hd1 & Hd2 & Hd3).
      pose proof (kinds_exclusive line) as (Hk1 & Hk2 & Hk3).
      destruct (coordinate_line line) eqn:Hkind.
      - destruct (hydrogen_line line) eqn:Hhyd.
        + destruct (Hc2 eq_refl) as (v & Hv & Ht).
          destruct (Hd2 eq_refl) as (v' & Hv' & Ht'). congruence.
        + assert (Hheavy : heavy_line line = true)
            by (unfold heavy_line; rewrite Hkind, Hhyd; reflexivity).
          destruct (Hc3 Hheavy) as (v & Hv & Ht).
          destruct (Hd3 Hheavy) as (v' & Hv' & Ht'). congruence.
      - specialize (Hc1 eq_refl). specialize (Hd1 eq_refl). congruence. }
    exists (block ++ blocks). rewrite <- app_assoc.
    split; [reflexivity|]. split; [rewrite length_app; lia|].
    intros [|d] Hd.
    + exists block. rewrite Nat.add_0_r. split; [exact Hown|].
      intros p Hp. cbn [Nat.mul Nat.add]. apply lookup_app_l. lia.
    + destruct (Hblocks d ltac:(lia)) as (o & Ho & Hlook).
      exists o. replace (i + S d) with (S i + d) by lia.
      split; [exact Ho|]. intros p Hp. rewrite <- (Hlook p Hp).
      rewrite lookup_app_r by (rewrite Hblock; cbn; lia).
      f_equal. rewrite Hblock. cbn. lia.
Qed.

Lemma write_models_from_returns (lig : ligand fl) results n :
  forall i out,
    (exists out', write_models_from lig results i n out = Ret out')
    <-> forall d, d < n ->
          exists r, items results !! (i + d) = Some r
            /\ length (List.filter heavy_line (lines lig))
               <= length (result_heavy_atoms r)
            /\ length (List.filter hydrogen_line (lines lig))
               <= length (result_hydrogens r).
Proof.
  induction n as [|n IH]; intros i out; cbn [write_models_from].
  - split; [intros _ d Hd; lia | eauto].
  - destruct (write_model lig results i out) as [out1|f] eqn:Hw; cbn [bind].
    + rewrite IH. split.
      * intros Hall [|d] Hd.
        -- rewrite Nat.add_0_r. apply (write_model_returns lig results i out).
           eauto.
        -- replace (i + S d) with (S i + d) by lia. apply Hall. lia.
      * intros Hall d Hd. replace (S i + d) with (i + S d) by lia.
        apply Hall. lia.
    + split; [intros [o Ho]; discriminate|]. intros Hall. exfalso.
      specialize (Hall 0 ltac:(lia)). rewrite Nat.add_0_r in Hall.
      apply (write_model_returns lig results i out) in Hall as [o Ho].
      congruence.
Qed.

Lemma write_models_from_Fail (lig : ligand fl) results n :
  forall i out f,
    write_models_from lig results i n out = Fail f -> f = out_of_range.
Proof.
  induction n as [|n IH]; intros i out f; cbn [write_models_from];
    [discriminate|].
  intros Hw. apply bind_Fail_inv in Hw as [Hw | (o & _ & Hw)].
  - exact (write_model_Fail _ _ _ _ _ Hw).
  - exact (IH _ _ _ Hw).
Qed.
End WriteModelsFacts.

(** X14. The file that [write_models] writes: for each of the
    [num_conformations] results in turn a MODEL line with its number, a
    REMARK line with its energy, one line for each line of the ligand and
    an ENDMDL line. A line of the ligand shorter than 79 characters is
    written as it is, an ATOM line too; a longer line is written with
    the next coordinate of the result in columns 31-54, taken from the
    hydrogens when its column 78 holds [H] and from the heavy atoms
    otherwise, in the order of the lines. *)
Theorem write_models_layout {fl : Type} `{Scalar fl} `{StreamModel fl}
    (NDEBUG : bool) (lig : ligand fl) (results : ptr_vector (result fl))
    (num_conformations : nat) (out : list string) :
  write_models NDEBUG lig results num_conformations = Ret out ->
  let size := length (lines lig) + 3 in
  length out = num_conformations * size
  /\ forall i, i < num_conformations ->
       exists r,
         items results !! i = Some r
         /\ out !! (i * size)
            = Some (String.append "MODEL     " (setw 4 (size_t_text (i + 1))))
         /\ out !! (i * size + 1)
            = Some (String.append "REMARK     FREE ENERGY PREDICTED BY IDOCK:"
                      (String.append (setw 8 (fixed 3 (result_e r)))
                         " KCAL/MOL"))
         /\ out !! (i * size + 2 + length (lines lig)) = Some "ENDMDL"%string
         /\ forall j line, lines lig !! j = Some line ->
              let text := atom_text (String.substring 0 30 line)
                            (String.substring 54 (String.length line) line) in
              (coordinate_line line = false ->
               out !! (i * size + 2 + j) = Some line)
              /\ (hydrogen_line line = true ->
                  exists v,
                    result_hydrogens r !! rank hydrogen_line (lines lig) j
                    = Some v
                    /\ out !! (i * size + 2 + j) = Some (text v))
              /\ (heavy_line line = true ->
                  exists v,
                    result_heavy_atoms r !! rank heavy_line (lines lig) j
                    = Some v
                    /\ out !! (i * size + 2 + j) = Some (text v)).
Proof.
  unfold write_models. intros Hw. do 2 inv_bind Hw. cbv zeta.
  apply write_models_from_Ret in Hw as (blocks & -> & Hlen & Hblocks).
  cbn [app]. split; [exact Hlen|].
  intros i Hi. destruct (Hblocks i Hi) as (out1 & Hout1 & Hlook).
  cbn [Nat.add] in Hout1.
  apply write_model_Ret in Hout1 as (r & texts & Hr & -> & Htexts & Hall).
  cbn [app] in Hlook. exists r. split; [exact Hr|].
  assert (Hat : forall j, j < length (lines lig) ->
            blocks !! (i * (length (lines lig) + 3) + 2 + j) = texts !! j).
  { intros j Hj. rewrite <- Nat.add_assoc, (Hlook (2 + j)) by lia.
    cbn [Nat.add lookup list_lookup]. apply lookup_app_l. lia. }
  split; [|split; [|split]].
  - rewrite <- (Nat.add_0_r (i * _)), (Hlook 0) by lia. reflexivity.
  - rewrite (Hlook 1) by lia. reflexivity.
  - rewrite <- Nat.add_assoc, (Hlook (2 + length (lines lig))) by lia.
    cbn [Nat.add lookup list_lookup]. rewrite <- Htexts.
    apply list_lookup_middle. reflexivity.
  - intros j line Hline.
    pose proof (lookup_lt_Some _ _ _ Hline) as Hj.
    rewrite (Hat j Hj). apply Hall, Hline.
Qed.

(** X15. [write_models] returns exactly when there is a result for each
    of the [num_conformations] models, each with a coordinate for every
    line of the ligand that takes one (and, in a debug build, when
    [num_conformations] is not [0]); otherwise a debug build stops at
    an assertion or, as a release build does, reads past the end of a
    vector. *)
Theorem write_models_returns_iff {fl : Type} `{Scalar fl} `{StreamModel fl}
    (NDEBUG : bool) (lig : ligand fl) (results : ptr_vector (result fl))
    (num_conformations : nat) :
  ((exists out, write_models NDEBUG lig results num_conformations = Ret out)
   <-> (NDEBUG = true \/ 0 < num_conformations)
       /\ num_conformations <= length (items results)
       /\ forall i r, i < num_conformations -> items results !! i = Some r ->
            length (List.filter heavy_line (lines lig))
            <= length (result_heavy_atoms r)
            /\ length (List.filter hydrogen_line (lines lig))
               <= length (result_hydrogens r))
  /\ (forall f, write_models NDEBUG lig results num_conformations = Fail f ->
        (f = assertion_failed /\ NDEBUG = false)
        \/ (f = out_of_range
            /\ (NDEBUG = true \/ num_conformations <= length (items results)))).
Proof.
  unfold write_models, BOOST_ASSERT. split.
  - destruct NDEBUG; cbn [orb bind].
    + rewrite write_models_from_returns. cbn [Nat.add]. split.
      * intros Hall. split; [auto|]. split.
        -- destruct num_conformations as [|n]; [lia|].
           destruct (Hall n ltac:(lia)) as (r & Hr & _).
           apply lookup_lt_Some in Hr. lia.
        -- intros i r Hi Hr. destruct (Hall i Hi) as (r' & Hr' & Hc).
           rewrite Hr in Hr'. injection Hr' as <-. exact Hc.
      * intros (_ & Hle & Hall) d Hd.
        destruct (lookup_lt_is_Some_2 (items results) d ltac:(lia)) as [r Hr].
        exists r. split; [exact Hr|]. apply (Hall d r Hd Hr).
    + destruct (0 <? num_conformations) eqn:Hpos; cbn [bind].
      2:{ apply Nat.ltb_ge in Hpos. split; [intros [o Ho]; discriminate|].
          intros ([Hcontra|Hcontra] & _); [discriminate | lia]. }
      apply Nat.ltb_lt in Hpos.
      destruct (num_conformations <=? length (items results)) eqn:Hle;
        cbn [bind].
      2:{ apply Nat.leb_gt in Hle. split; [intros [o Ho]; discriminate|].
          intros (_ & Hcontra & _). lia. }
      apply Nat.leb_le in Hle.
      rewrite write_models_from_returns. cbn [Nat.add]. split.
      * intros Hall. split; [auto|]. split; [exact Hle|].
        intros i r Hi Hr. destruct (Hall i Hi) as (r' & Hr' & Hc).
        rewrite Hr in Hr'. injection Hr' as <-. exact Hc.
      * intros (_ & _ & Hall) d Hd.
        destruct (lookup_lt_is_Some_2 (items results) d ltac:(lia)) as [r Hr].
        exists r. split; [exact Hr|]. apply (Hall d r Hd Hr).
  - intros f. destruct NDEBUG; cbn [orb bind].
    + intros Hw. apply write_models_from_Fail in Hw. auto.
    + destruct (0 <? num_conformations); cbn [bind];
        [|intros [= <-]; auto].
      destruct (num_conformations <=? length (items results)) eqn:Hle;
        cbn [bind]; [|intros [= <-]; auto].
      apply Nat.leb_le in Hle.
      intros Hw. apply write_models_from_Fail in Hw. auto.
Qed.

(** X16. The line of an atom keeps its columns when the three
    coordinates take at most 8 characters each: the text written has the
    length of the line of the ligand and its characters outside columns
    31-54. [setw] pads and never cuts, so every character that a
    coordinate takes beyond 8 makes the line that much longer; columns
    1-30 are kept in any case. *)
Theorem atom_text_keeps_columns {fl : Type} `{Scalar fl} `{StreamModel fl}
    (line : string) (c0 c1 c2 : fl) :
  79 <= String.length line ->
  let text := atom_text (String.substring 0 30 line)
                (String.substring 54 (String.length line) line) (c0, c1, c2) in
  let over := fun c => String.length (fixed 3 c) - 8 in
  String.length text = String.length line + over c0 + over c1 + over c2
  /\ (forall p, p < 30 -> String.get p text = String.get p line)
  /\ (over c0 + over c1 + over c2 = 0 ->
      forall p, 54 <= p -> String.get p text = String.get p line).
Proof.
  intros Hlen. cbv zeta. unfold atom_text.
  set (head := String.substring 0 30 line).
  set (tail := String.substring 54 (String.length line) line).
  set (f0 := setw 8 (fixed 3 c0)). set (f1 := setw 8 (fixed 3 c1)).
  set (f2 := setw 8 (fixed 3 c2)).
  assert (Hhead : String.length head = 30)
    by (subst head; rewrite length_substring; lia).
  assert (Htail : String.length tail = String.length line - 54)
    by (subst tail; rewrite length_substring; lia).
  assert (Hf0 : String.length f0 = Nat.max 8 (String.length (fixed 3 c0)))
    by apply length_setw.
  assert (Hf1 : String.length f1 = Nat.max 8 (String.length (fixed 3 c1)))
    by apply length_setw.
  assert (Hf2 : String.length f2 = Nat.max 8 (String.length (fixed 3 c2)))
    by apply length_setw.
  split; [|split].
  - rewrite !length_append. lia.
  - intros p Hp. rewrite <- append_correct1 by lia.
    subst head. rewrite substring_correct1 by lia. f_equal. lia.
  - intros Hfit p Hp.
    rewrite !get_append_r by (rewrite ?length_append; lia).
    subst tail.
    destruct (decide (p < String.length line)) as [Hin|Hout].
    + rewrite substring_correct1 by lia. f_equal. lia.
    + rewrite (get_None line) by lia.
      apply get_None. rewrite length_substring. lia.
Qed.

(** ** The results of a task *)

Section TaskInvariant.
Context {fl : Type} `{Scalar fl} `{Libm fl}.
Context `{BoxModel fl} `{GridModel fl} `{ScoringModel fl}.
Context `{ResultModel fl} `{RandomModel fl} `{RotationModel fl}.

Lemma evaluate_into_evaluated NDEBUG (lig : ligand fl) sf b grid_maps bound
    c slot p :
  evaluate_into NDEBUG lig sf b grid_maps bound c slot = Ret (true, p) ->
  evaluated lig sf b grid_maps p /\ pose_c p = c.
Proof.
  unfold evaluate_into. intros He. inv_bind He. rename a into r.
  injection He as Hacc <-. apply evaluate_cases in Ha.
  destruct Ha as [[_ ->] | [(_ & _ & ->) | (Hin & _ & g' & _ & ->)]];
    cbn [accepted] in Hacc; try discriminate.
  unfold evaluated. cbn. auto.
Qed.

Lemma initialize_evaluated NDEBUG (lig : ligand fl) sf b grid_maps bound n :
  forall valid p0 eng p0' eng',
    initialize NDEBUG lig sf b grid_maps bound n valid p0 eng
    = Ret (true, p0', eng') ->
    (valid = true -> evaluated lig sf b grid_maps p0) ->
    evaluated lig sf b grid_maps p0'.
Proof.
  induction n as [|n IH]; intros valid p0 eng p0' eng'; cbn [initialize].
  - intros [= -> <- _] Hv. auto.
  - destruct valid; [intros [= <- _] Hv; auto|].
    intros Hi _. inv_bind Hi. destruct a as [[v p] e].
    apply IH in Hi; [exact Hi|]. intros ->.
    unfold attempt in Ha. destruct (randomize lig b (pose_c p0) eng).
    inv_bind Ha. destruct a as [v' p']. injection Ha as -> -> _.
    apply evaluate_into_evaluated in Ha0. apply Ha0.
Qed.

Lemma mutate_until_valid_evaluated NDEBUG (lig : ligand fl) sf b grid_maps
    bound c0 fuel :
  forall p1 eng p1' eng',
    mutate_until_valid fuel NDEBUG lig sf b grid_maps bound c0 p1 eng
    = Ret (p1', eng') ->
    evaluated lig sf b grid_maps p1'.
Proof.
  induction fuel as [|fuel IH]; intros p1 eng p1' eng';
    cbn [mutate_until_valid]; [discriminate|].
  intros Hm. inv_bind Hm. destruct a as [c1 eng1].
  inv_bind Hm. destruct a as [valid p].
  destruct valid.
  - injection Hm as <- _. apply evaluate_into_evaluated in Ha0. apply Ha0.
  - exact (IH _ _ _ _ Hm).
Qed.

Lemma trial_evaluated NDEBUG (lig : ligand fl) sf b grid_maps p1 p pg1 alpha
    p2 p2' :
  trial NDEBUG lig sf b grid_maps p1 p pg1 alpha p2 = Ret (true, p2') ->
  evaluated lig sf b grid_maps p2'.
Proof.
  unfold trial. intros Ht. inv_bind Ht. inv_bind Ht.
  destruct a0 as [valid q]. injection Ht as Hfound <-.
  apply andb_true_iff in Hfound as [-> _].
  apply evaluate_into_evaluated in Ha0. apply Ha0.
Qed.

Lemma line_search_evaluated NDEBUG (lig : ligand fl) sf b grid_maps p1 p pg1
    n :
  forall k alpha p2 k' alpha' p2',
    line_search NDEBUG lig sf b grid_maps p1 p pg1 n k alpha p2
    = Ret (k', alpha', p2') ->
    k' <> k + n -> evaluated lig sf b grid_maps p2'.
Proof.
  induction n as [|n IH]; intros k alpha p2 k' alpha' p2';
    cbn [line_search].
  - intros [= <- _ _] Hk. lia.
  - intros Hl Hk. inv_bind Hl. destruct a as [found q].
    destruct found.
    + injection Hl as _ _ <-. exact (trial_evaluated _ _ _ _ _ _ _ _ _ _ _ Ha).
    + apply (IH _ _ _ _ _ _ Hl). lia.
Qed.

Lemma bfgs_evaluated NDEBUG (lig : ligand fl) sf b grid_maps fuel :
  forall h p1 p2 p1' p2',
    bfgs fuel NDEBUG lig sf b grid_maps h p1 p2 = Ret (p1', p2') ->
    evaluated lig sf b grid_maps p1 ->
    evaluated lig sf b grid_maps p1'.
Proof.
  induction fuel as [|fuel IH]; intros h p1 p2 p1' p2'; cbn [bfgs];
    [discriminate|].
  intros Hb Hp1. inv_bind Hb. destruct a as [[k alpha] q].
  destruct (k =? num_alphas) eqn:Hk.
  - injection Hb as <- _. exact Hp1.
  - apply Nat.eqb_neq in Hk. apply (IH _ _ _ _ _ Hb).
    apply (line_search_evaluated _ _ _ _ _ _ _ _ _ _ _ _ _ _ _ Ha). cbn. lia.
Qed.

Lemma offered_trans NDEBUG (lig : ligand fl) sf b grid_maps rs1 rs2 rs3 :
  offered NDEBUG lig sf b grid_maps rs1 rs2 ->
  offered NDEBUG lig sf b grid_maps rs2 rs3 ->
  offered NDEBUG lig sf b grid_maps rs1 rs3.
Proof.
  intros H12 H23. induction H23 as [|rs rs' c r _ IH Hin Hr]; [exact H12|].
  eapply offered_add; eauto.
Qed.

Lemma mc_iteration_offered fuel NDEBUG (lig : ligand fl) sf b grid_maps
    st st' :
  mc_iteration fuel NDEBUG lig sf b grid_maps st = Ret st' ->
  offered NDEBUG lig sf b grid_maps (ts_results st) (ts_results st').
Proof.
  unfold mc_iteration. intros Hi. inv_bind Hi. destruct a as [p1 eng].
  inv_bind Hi. destruct a as [q1 q2]. inv_bind Hi.
  destruct a as [[[rs be] p0] eng']. injection Hi as <-.
  cbn [ts_results].
  apply mutate_until_valid_evaluated in Ha.
  apply bfgs_evaluated in Ha0; [|exact Ha].
  destruct Ha0 as (Hin & He & Hf).
  apply metropolis_spec in Ha1. cbv zeta in Ha1.
  destruct Ha1 as (_ & Hrej & Hacc).
  destruct (_ || _) in Hrej, Hacc.
  - destruct (Hacc eq_refl) as (_ & Hno & Hyes).
    destruct (_ || _) in Hno, Hyes.
    + destruct (Hyes eq_refl) as (r & Hr & -> & _).
      rewrite He, Hf in Hr.
      eapply offered_add; [constructor | exact Hin | exact Hr].
    + destruct (Hno eq_refl) as [-> _]. constructor.
  - destruct (Hrej eq_refl) as (-> & _). constructor.
Qed.

Lemma mc_iterations_offered fuel NDEBUG (lig : ligand fl) sf b grid_maps n :
  forall st st',
    mc_iterations fuel NDEBUG lig sf b grid_maps n st = Ret st' ->
    offered NDEBUG lig sf b grid_maps (ts_results st) (ts_results st').
Proof.
  induction n as [|n IH]; intros st st'; cbn [mc_iterations].
  - intros [= <-]. constructor.
  - intros Hi. inv_bind Hi.
    eapply offered_trans; [exact (mc_iteration_offered _ _ _ _ _ _ _ _ Ha)|].
    exact (IH _ _ Hi).
Qed.
End TaskInvariant.

(** X17. Whatever a task adds to the container of results is a pose that
    the evaluator accepted: [monte_carlo_task] changes the container only
    through [add_to_result_container], and every result it adds is the
    one that [compose_result] returns for a conformation inside the box,
    with the total and the inter-molecular energy of that conformation. *)
Theorem monte_carlo_task_offers_evaluated {fl : Type} `{Scalar fl} `{Libm fl}
    `{BoxModel fl} `{GridModel fl} `{ScoringModel fl}
    `{ResultModel fl} `{RandomModel fl} `{RotationModel fl}
    (fuel : nat) (NDEBUG : bool) (results results' : ptr_vector (result fl))
    (lig : ligand fl) (seed : nat) (sf : scoring_function) (b : box)
    (grid_maps : list array3d) :
  monte_carlo_task fuel NDEBUG results lig seed sf b grid_maps = Ret results' ->
  offered NDEBUG lig sf b grid_maps results results'.
Proof.
  unfold monte_carlo_task. intros Ht. inv_bind Ht.
  destruct a as [[valid p0] eng]. destruct valid; cbn [negb] in Ht.
  - inv_bind Ht. injection Ht as <-.
    apply mc_iterations_offered in Ha0. exact Ha0.
  - injection Ht as <-. constructor.
Qed.

(** ** The constructor on a well-formed input *)

Section WellFormed.
Context {fl : Type} `{Scalar fl} `{AtomModel fl} `{TextModel fl}.

Lemma BOOST_ASSERT_Ret_intro NDEBUG c :
  NDEBUG = true \/ c = true -> BOOST_ASSERT NDEBUG c = Ret tt.
Proof.
  unfold BOOST_ASSERT. intros [-> | ->]; [|rewrite orb_true_r]; reflexivity.
Qed.

Lemma BOOST_ASSERT_true NDEBUG c : c = true -> BOOST_ASSERT NDEBUG c = Ret tt.
Proof. intros ->. unfold BOOST_ASSERT. rewrite orb_true_r. reflexivity. Qed.

Lemma find_serial_found x numbers : forall i,
  contains numbers x = true -> exists r, find_serial x numbers i = Ret r.
Proof.
  unfold contains.
  induction numbers as [|n numbers IH]; intros i; cbn [existsb find_serial];
    [discriminate|].
  rewrite (Nat.eqb_sym x n). destruct (n =? x)%nat; cbn [orb]; [eauto|].
  apply IH.
Qed.

(** The frames that are open stay open, with the same first atom and
    the same parent, when frames are changed in other fields or added
    at the end. *)
Lemma open_chain_ext (frames frames' : list (frame fl)) opens : forall c,
  (forall k, (k <= c)%nat ->
     habegin (frames' !!! k) = habegin (frames !!! k)
     /\ parent (frames' !!! k) = parent (frames !!! k)) ->
  (forall k, (k <= c)%nat -> (parent (frames !!! k) <= k)%nat) ->
  open_chain frames c opens -> open_chain frames' c opens.
Proof.
  induction opens as [|start outer IH]; intros c Hsame Hpar; cbn [open_chain];
    [auto|].
  intros [-> Hrest]. destruct (Hsame c (le_n c)) as [Hb Hp].
  split; [congruence|].
  destruct outer as [|o outer]; [exact Hrest|].
  destruct Hrest as [Hc Hrest]. split; [exact Hc|].
  rewrite Hp. pose proof (Hpar c (le_n c)) as Hle.
  apply IH; [| |exact Hrest].
  - intros k Hk. apply Hsame. lia.
  - intros k Hk. apply Hpar. lia.
Qed.

Lemma open_chain_length (frames : list (frame fl)) c opens :
  open_chain frames c opens -> (1 <= length opens)%nat.
Proof. destruct opens; cbn; [contradiction | lia]. Qed.

Lemma open_chain_root (frames : list (frame fl)) c opens :
  open_chain frames c opens -> length opens = 1%nat -> c = 0%nat.
Proof.
  destruct opens as [|start [|o outer]]; cbn [open_chain length].
  - contradiction.
  - intros [_ ->] _. reflexivity.
  - intros _ Hlen. lia.
Qed.

Lemma scan_sim_init : scan_sim scan_init (parser_init (fl:=fl)).
Proof.
  unfold scan_sim. split; [apply parse_inv_init|]. cbn.
  repeat split; lia.
Qed.

Lemma parents_before (ps : parser fl) :
  parse_inv ps ->
  forall k, (k <= p_current ps)%nat ->
    (parent (p_frames ps !!! k) <= k)%nat.
Proof.
  intros ((_ & Hbegin & _) & _ & Hcur) k Hk. apply Hbegin. lia.
Qed.

(** *** One line *)

Lemma scan_atom_sim NDEBUG line s s' (ps : parser fl) :
  scan_atom NDEBUG line s = Some s' -> scan_sim s ps ->
  exists ps',
    parse_atom NDEBUG line
      (mk_parser (p_lines ps) (p_frames ps) (p_heavy_atoms ps)
         (p_hydrogens ps) (p_numbers ps) (p_current ps)
         (p_num_active_torsions ps) (S (p_num_lines ps))) = Ret ps'
    /\ scan_sim s' ps'.
Proof.
  intros Hs Hsim.
  set (ps0 := mk_parser _ _ _ _ _ _ _ _).
  assert (Hret : exists ps', parse_atom NDEBUG line ps0 = Ret ps'
            /\ (s' = s /\ p_numbers ps' = p_numbers ps
                \/ exists number,
                     s' = mk_scan (s_serials s ++ [number]) (s_open s)
                            (s_fresh s) (s_others s)
                     /\ p_numbers ps' = p_numbers ps ++ [number])).
  { destruct Hsim as (_ & _ & _ & Hfresh & _).
    unfold scan_atom in Hs. unfold parse_atom.
    destruct (NDEBUG || s_fresh s) eqn:Hok; [|discriminate]. cbn [negb] in Hs.
    assert (Hassert : BOOST_ASSERT NDEBUG
              (p_current ps0 =? length (p_frames ps0) - 1)%nat = Ret tt).
    { apply BOOST_ASSERT_Ret_intro. destruct NDEBUG; [left; reflexivity|].
      right. cbn [orb] in Hok. cbn [p_current p_frames ps0].
      rewrite (Hfresh Hok). apply Nat.eqb_refl. }
    rewrite Hassert. cbn [bind].
    destruct (char_at line 78) as [c|]; [|discriminate]. cbn [bind].
    destruct (substr line 77 _) as [ty|]; [|discriminate]. cbn [bind].
    cbv zeta in Hs.
    destruct (parse_ad_type_string ty =? AD_TYPE_SIZE)%nat; [discriminate|].
    destruct (right_cast_fl line 31 38) as [x|]; [|discriminate].
    destruct (right_cast_fl line 39 46) as [y|]; [|discriminate].
    destruct (right_cast_fl line 47 54) as [z|]; [|discriminate].
    cbn [lexical bind].
    destruct (is_hydrogen _).
    - injection Hs as <-. eexists. split; [reflexivity|]. left. auto.
    - destruct (right_cast_size_t line 7 11) as [number|]; [|discriminate].
      injection Hs as <-. cbn [lexical bind].
      eexists. split; [reflexivity|]. right. exists number. auto. }
  destruct Hret as (ps' & Hp & Hcases). exists ps'. split; [exact Hp|].
  destruct Hsim as (Hinv & Hser & Hopen & Hfresh & Hcount & Hact).
  pose proof (parse_atom_inv _ _ _ _ Hp Hinv) as Hinv'.
  pose proof (parse_atom_shape _ _ _ _ Hp)
    as (Hf & Hc & Hn & _ & a & Hatoms).
  pose proof (parse_atom_Ret _ _ _ _ Hp) as (_ & _ & _ & Hl & _).
  cbn [ps0 p_frames p_current p_num_active_torsions p_num_lines
       p_heavy_atoms p_hydrogens p_numbers] in Hf, Hc, Hn, Hl, Hatoms.
  assert (Hsizes : (length (p_heavy_atoms ps') + length (p_hydrogens ps')
                    = S (length (p_heavy_atoms ps) + length (p_hydrogens ps)))%nat).
  { destruct Hatoms as [(-> & -> & _) | (-> & -> & _)];
      rewrite length_app; cbn [length]; lia. }
  assert (Hshape : s_open s' = s_open s /\ s_fresh s' = s_fresh s
                   /\ s_others s' = s_others s
                   /\ s_serials s' = p_numbers ps').
  { destruct Hcases as [[-> ->] | (number & -> & ->)]; cbn; auto.
    rewrite Hser. auto. }
  destruct Hshape as (Ho' & Hfr' & Hot' & Hser').
  unfold scan_sim. rewrite Hf, Hc, Hn, Hl, Ho', Hfr', Hot'.
  split; [exact Hinv'|]. split; [exact Hser'|]. split; [exact Hopen|].
  split; [exact Hfresh|]. split; [lia | exact Hact].
Qed.

Lemma scan_branch_sim line s s' (ps : parser fl) :
  scan_branch line s = Some s' -> scan_sim s ps ->
  exists ps',
    parse_branch line
      (mk_parser (p_lines ps) (p_frames ps) (p_heavy_atoms ps)
         (p_hydrogens ps) (p_numbers ps) (p_current ps)
         (p_num_active_torsions ps) (S (p_num_lines ps))) = Ret ps'
    /\ scan_sim s' ps'.
Proof.
  intros Hs Hsim.
  set (ps0 := mk_parser _ _ _ _ _ _ _ _).
  destruct Hsim as (Hinv & Hser & Hopen & Hfresh & Hcount & Hact).
  assert (Hinv0 : parse_inv ps0) by exact Hinv.
  pose proof Hinv as (Hok & Hnum & Hcur).
  pose proof Hok as (Hpos & Hbegin & _).
  assert (Hhd : hd 0%nat (s_open s) = habegin (p_frames ps !!! p_current ps)).
  { destruct (s_open s) as [|start outer]; cbn in Hopen; [contradiction|].
    cbn. apply Hopen. }
  unfold scan_branch in Hs.
  destruct (right_cast_size_t line 7 10) as [x|] eqn:Hx; [|discriminate].
  destruct (names_atom s x) eqn:Hname; [|discriminate].
  injection Hs as <-.
  unfold names_atom in Hname. rewrite Hhd, Hser in Hname.
  destruct (find_serial_found _ _
              (habegin (p_frames ps !!! p_current ps)) Hname) as [i Hi].
  assert (Hp : exists ps', parse_branch line ps0 = Ret ps').
  { unfold parse_branch. cbn [ps0 p_frames p_current p_numbers].
    rewrite Hx. cbn [lexical bind]. rewrite Hi. cbn [bind]. eauto. }
  destruct Hp as [ps' Hp]. exists ps'. split; [exact Hp|].
  pose proof (parse_branch_inv _ _ _ Hp Hinv0) as Hinv'.
  apply parse_branch_Ret in Hp as (x' & i' & _ & ->); [|exact Hpos].
  unfold scan_sim.
  cbn [ps0 p_frames p_current p_num_active_torsions p_num_lines
       p_heavy_atoms p_hydrogens p_numbers s_serials s_open s_fresh
       s_others] in *.
  split; [exact Hinv'|]. split; [exact Hser|].
  fold ps0. change (branch_frames_after ps0 i') with (branch_frames_after ps i').
  rewrite branch_frames_after_length.
  split; [|split; [intros _; lia|]].
  - cbn [open_chain]. rewrite branch_frames_after_new. cbn [frame_ctor habegin parent].
    split; [congruence|].
    destruct (s_open s) as [|start outer] eqn:Hso; [contradiction|].
    split; [lia|].
    apply (open_chain_ext (p_frames ps)); [| |exact Hopen].
    + intros k Hk.
      destruct (branch_frames_after_old ps i' k ltac:(lia)) as (-> & -> & _).
      auto.
    + intros k Hk. apply Hbegin. lia.
  - cbn [length]. lia.
Qed.

Lemma scan_endbranch_sim line s s' (ps : parser fl) :
  scan_endbranch line s = Some s' -> scan_sim s ps ->
  exists ps',
    parse_endbranch line
      (mk_parser (p_lines ps) (p_frames ps) (p_heavy_atoms ps)
         (p_hydrogens ps) (p_numbers ps) (p_current ps)
         (p_num_active_torsions ps) (S (p_num_lines ps))) = Ret ps'
    /\ scan_sim s' ps'.
Proof.
  intros Hs Hsim.
  set (ps0 := mk_parser _ _ _ _ _ _ _ _).
  destruct Hsim as (Hinv & Hser & Hopen & Hfresh & Hcount & Hact).
  assert (Hinv0 : parse_inv ps0) by exact Hinv.
  pose proof Hinv as (Hok & Hnum & Hcur).
  pose proof Hok as (Hpos & Hbegin & _).
  unfold scan_endbranch in Hs.
  destruct (s_open s) as [|start [|o outer]] eqn:Hso; try discriminate.
  destruct (start =? length (s_serials s))%nat eqn:Hempty; [discriminate|].
  destruct (right_cast_size_t line 14 17) as [y|] eqn:Hy; [|discriminate].
  destruct (names_atom s y) eqn:Hname; [|discriminate].
  injection Hs as <-.
  cbn [open_chain] in Hopen. destruct Hopen as (Hstart & Hc0 & Hopen).
  unfold names_atom in Hname. rewrite Hso in Hname. cbn [hd] in Hname.
  rewrite Hstart, Hser in Hname.
  destruct (find_serial_found _ _
              (habegin (p_frames ps !!! p_current ps)) Hname) as [i Hi].
  apply Nat.eqb_neq in Hempty. rewrite Hser, Hnum, Hstart in Hempty.
  assert (Hp : exists ps', parse_endbranch line ps0 = Ret ps').
  { unfold parse_endbranch.
    cbn [ps0 p_frames p_current p_numbers p_heavy_atoms].
    apply Nat.eqb_neq in Hempty. rewrite Hempty.
    rewrite Hy. cbn [lexical bind]. rewrite Hi. cbn [bind]. eauto. }
  destruct Hp as [ps' Hp]. exists ps'. split; [exact Hp|].
  pose proof (parse_endbranch_inv _ _ _ Hp Hinv0) as Hinv'.
  apply parse_endbranch_Ret in Hp as (y' & i' & inactive & _ & _ & Hp).
  cbv zeta in Hp. subst ps'.
  cbn [ps0 p_frames p_current p_num_active_torsions p_num_lines
       p_heavy_atoms p_hydrogens p_numbers] in *.
  set (f' := if inactive then _ else _) in *.
  assert (Hf' : habegin f' = habegin (p_frames ps !!! p_current ps)
                /\ parent f' = parent (p_frames ps !!! p_current ps)).
  { subst f'. destruct inactive; cbn; auto. }
  assert (Hlook : forall k,
    habegin (<[p_current ps := f']> (p_frames ps) !!! k)
    = habegin (p_frames ps !!! k)
    /\ parent (<[p_current ps := f']> (p_frames ps) !!! k)
       = parent (p_frames ps !!! k)).
  { intros k. rewrite list_lookup_total_insert.
    destruct (decide (p_current ps = k /\ _)) as [[<- _]|_]; auto. }
  unfold scan_sim.
  cbn [p_frames p_current p_num_active_torsions p_num_lines
       p_heavy_atoms p_hydrogens p_numbers s_serials s_open s_fresh
       s_others].
  rewrite length_insert.
  split; [exact Hinv'|]. split; [exact Hser|].
  split; [|split; [discriminate|]].
  - destruct (Hlook (p_current ps)) as [_ ->].
    apply (open_chain_ext (p_frames ps)); [| |exact Hopen].
    + intros k _. apply Hlook.
    + intros k Hk. apply Hbegin.
      pose proof (Hbegin (p_current ps) Hcur). lia.
  - cbn [length] in *. destruct inactive; split; lia.
Qed.

Lemma scan_line_sim NDEBUG line s s' (ps : parser fl) :
  scan_line NDEBUG line s = Some s' -> scan_sim s ps ->
  exists ps', parse_line NDEBUG line ps = Ret ps' /\ scan_sim s' ps'.
Proof.
  unfold scan_line, parse_line, is_atom_line, is_branch_line. cbv zeta.
  destruct (_ || _).
  - apply scan_atom_sim.
  - destruct (starts_with line "BRANCH"); [apply scan_branch_sim|].
    destruct (starts_with line "ENDBRANCH"); [apply scan_endbranch_sim|].
    intros [= <-] (Hinv & Hser & Hopen & Hfresh & Hcount & Hact).
    destruct (_ || _); eexists; (split; [reflexivity|]);
      unfold scan_sim; cbn; repeat (split; [assumption|]);
      (split; [|assumption]); cbn in Hcount; lia.
Qed.

Lemma scan_lines_sim NDEBUG input : forall s s' (ps : parser fl),
  scan_lines NDEBUG input s = Some s' -> scan_sim s ps ->
  exists ps', parse_lines NDEBUG input ps = Ret ps' /\ scan_sim s' ps'.
Proof.
  induction input as [|line input IH]; intros s s' ps;
    cbn [scan_lines parse_lines].
  - intros [= <-] Hsim. eauto.
  - destruct (scan_line NDEBUG line s) as [s1|] eqn:Hs1; [|discriminate].
    intros Hs Hsim.
    destruct (scan_line_sim _ _ _ _ _ Hs1 Hsim) as (ps1 & -> & Hsim1).
    cbn [bind]. exact (IH _ _ _ Hs Hsim1).
Qed.

(** Every assertion after the loop holds for a well-formed input. *)
Lemma finish_well_formed NDEBUG s (ps : parser fl) :
  scan_sim s ps -> length (s_open s) = 1%nat ->
  NDEBUG = true \/ (3 <= s_others s)%nat ->
  (length (p_lines ps) <= p_num_lines ps)%nat ->
  exists lig, finish NDEBUG ps = Ret lig.
Proof.
  intros (Hinv & Hser & Hopen & Hfresh & Hcount & Hact) Hone Hothers Hlines.
  pose proof (open_chain_root _ _ _ Hopen Hone) as Hcur.
  destruct Hinv as ((Hpos & _) & _ & _).
  unfold finish.
  rewrite (BOOST_ASSERT_true NDEBUG) by (apply Nat.leb_le; exact Hlines).
  cbn [bind].
  rewrite (BOOST_ASSERT_true NDEBUG) by (apply Nat.eqb_eq; exact Hcur).
  cbn [bind].
  rewrite (BOOST_ASSERT_true NDEBUG) by (apply Nat.leb_le; lia).
  cbn [bind].
  rewrite (BOOST_ASSERT_true NDEBUG) by (apply Nat.eqb_eq; lia).
  cbn [bind].
  rewrite (BOOST_ASSERT_true NDEBUG) by (apply Nat.leb_le; lia).
  cbn [bind].
  rewrite (BOOST_ASSERT_Ret_intro NDEBUG)
    by (destruct Hothers as [->|Hothers];
        [left; reflexivity | right; apply Nat.leb_le; lia]).
  cbn [bind].
  destruct (relativize _ _). eauto.
Qed.

Lemma well_formed_returns NDEBUG input :
  well_formed NDEBUG input = true ->
  exists lig, ligand_ctor (fl:=fl) NDEBUG input = Ret lig.
Proof.
  unfold well_formed, ligand_ctor.
  destruct (scan_lines NDEBUG input scan_init) as [s|] eqn:Hs; [|discriminate].
  intros Hw. apply andb_true_iff in Hw as [Hone Hothers].
  apply Nat.eqb_eq in Hone.
  assert (Hothers' : NDEBUG = true \/ (3 <= s_others s)%nat).
  { destruct NDEBUG; [left; reflexivity|].
    right. apply Nat.leb_le. exact Hothers. }
  destruct (scan_lines_sim _ _ _ _ _ Hs scan_sim_init) as (ps & Hps & Hsim).
  rewrite Hps. cbn [bind].
  apply (finish_well_formed NDEBUG s); auto.
  apply (parse_lines_lines _ _ _ _ Hps). cbn. lia.
Qed.

(** C3, as the code has it. The constructor throws a [parsing_error] at
    exactly two places: at the first ATOM/HETATM line whose atom type is
    not supported, and at the first ENDBRANCH line met while the current
    frame holds no heavy atom; the error carries the number of that
    line. A BRANCH left open at the end of the input is no
    [parsing_error]: where assertions are compiled in,
    [BOOST_ASSERT(current == 0)] aborts. For every well-formed input
    that is none of the three kinds, construction returns a ligand. *)
Theorem ligand_ctor_parsing_error NDEBUG input n msg :
  (ligand_ctor (fl:=fl) NDEBUG input = Fail (parsing_error n msg) <->
   exists pre line post ps,
     input = pre ++ line :: post
     /\ n = S (length pre)
     /\ parse_lines NDEBUG pre parser_init = Ret ps
     /\ (unsupported_atom_type NDEBUG ps line msg
         \/ empty_branch ps line msg))
  /\ (forall ps : parser fl,
        parse_lines NDEBUG input parser_init = Ret ps ->
        NDEBUG = false -> p_current ps <> 0%nat ->
        ligand_ctor (fl:=fl) NDEBUG input = Fail assertion_failed)
  /\ (well_formed NDEBUG input = true ->
      exists lig, ligand_ctor (fl:=fl) NDEBUG input = Ret lig).
Proof.
  split; [|split].
  - unfold ligand_ctor.
    rewrite <- (parse_lines_error NDEBUG input parser_init n msg). split.
    + intros Hp. apply bind_Fail_inv in Hp as [Hp | (ps & _ & Hp)];
        [assumption|].
      exfalso. exact (finish_error _ _ _ _ Hp).
    + intros ->. reflexivity.
  - unfold ligand_ctor. intros ps Hps -> Hcur. rewrite Hps. cbn [bind].
    apply finish_unmatched; [|assumption].
    apply (parse_lines_lines _ _ _ _ Hps). cbn. lia.
  - apply well_formed_returns.
Qed.
End WellFormed.

(** ** The gradient in exact arithmetic *)

Section Vectors.
Context {fl : Type} `{Scalar fl}.
Local Open Scope fl_scope.

Lemma vec_ext (a b : vec3 fl) :
  a.1.1 = b.1.1 -> a.1.2 = b.1.2 -> a.2 = b.2 -> a = b.
Proof.
  destruct a as [[a0 a1] a2], b as [[b0 b1] b2]. cbn. congruence.
Qed.

Lemma vadd_x (a b : vec3 fl) : (vadd a b).1.1 = a.1.1 + b.1.1.
Proof. destruct a as [[a0 a1] a2], b as [[b0 b1] b2]. reflexivity. Qed.
Lemma vadd_y (a b : vec3 fl) : (vadd a b).1.2 = a.1.2 + b.1.2.
Proof. destruct a as [[a0 a1] a2], b as [[b0 b1] b2]. reflexivity. Qed.
Lemma vadd_z (a b : vec3 fl) : (vadd a b).2 = a.2 + b.2.
Proof. destruct a as [[a0 a1] a2], b as [[b0 b1] b2]. reflexivity. Qed.

Lemma vsub_x (a b : vec3 fl) : (vsub a b).1.1 = a.1.1 - b.1.1.
Proof. destruct a as [[a0 a1] a2], b as [[b0 b1] b2]. reflexivity. Qed.
Lemma vsub_y (a b : vec3 fl) : (vsub a b).1.2 = a.1.2 - b.1.2.
Proof. destruct a as [[a0 a1] a2], b as [[b0 b1] b2]. reflexivity. Qed.
Lemma vsub_z (a b : vec3 fl) : (vsub a b).2 = a.2 - b.2.
Proof. destruct a as [[a0 a1] a2], b as [[b0 b1] b2]. reflexivity. Qed.

Lemma cross_x (a b : vec3 fl) :
  (cross_product a b).1.1 = a.1.2 * b.2 - a.2 * b.1.2.
Proof. destruct a as [[a0 a1] a2], b as [[b0 b1] b2]. reflexivity. Qed.
Lemma cross_y (a b : vec3 fl) :
  (cross_product a b).1.2 = a.2 * b.1.1 - a.1.1 * b.2.
Proof. destruct a as [[a0 a1] a2], b as [[b0 b1] b2]. reflexivity. Qed.
Lemma cross_z (a b : vec3 fl) :
  (cross_product a b).2 = a.1.1 * b.1.2 - a.1.2 * b.1.1.
Proof. destruct a as [[a0 a1] a2], b as [[b0 b1] b2]. reflexivity. Qed.

Lemma smul_x s (a : vec3 fl) : (smul s a).1.1 = s * a.1.1.
Proof. destruct a as [[a0 a1] a2]. reflexivity. Qed.
Lemma smul_y s (a : vec3 fl) : (smul s a).1.2 = s * a.1.2.
Proof. destruct a as [[a0 a1] a2]. reflexivity. Qed.
Lemma smul_z s (a : vec3 fl) : (smul s a).2 = s * a.2.
Proof. destruct a as [[a0 a1] a2]. reflexivity. Qed.

Lemma zero3_x : (zero3 (fl := fl)).1.1 = 0.
Proof. reflexivity. Qed.
Lemma zero3_y : (zero3 (fl := fl)).1.2 = 0.
Proof. reflexivity. Qed.
Lemma zero3_z : (zero3 (fl := fl)).2 = 0.
Proof. reflexivity. Qed.
End Vectors.

Create Rewrite HintDb vec_proj.
#[export] Hint Rewrite @vadd_x @vadd_y @vadd_z @vsub_x @vsub_y @vsub_z
  @cross_x @cross_y @cross_z @zero3_x @zero3_y @zero3_z
  @smul_x @smul_y @smul_z : vec_proj.

Section Sums.
Context {fl : Type} `{Scalar fl}.
Hypothesis Hexact : exact_ring (fl := fl).
Local Open Scope fl_scope.

Add Ring fl_ring_sums : (fl_ring Hexact).

(** Equalities of vectors, component by component. *)
Ltac vec_ring := apply vec_ext; autorewrite with vec_proj; ring.

Lemma sum_from (f : nat -> vec3 fl) l : forall a,
  foldl (fun acc i => vadd acc (f i)) a l = vadd a (vsum_over f l).
Proof using Hexact.
  unfold vsum_over. induction l as [|i l IH]; intros a; cbn [foldl].
  - vec_ring.
  - rewrite IH, (IH (vadd zero3 (f i))). vec_ring.
Qed.

Lemma vsum_over_cons (f : nat -> vec3 fl) i l :
  vsum_over f (i :: l) = vadd (f i) (vsum_over f l).
Proof using Hexact.
  unfold vsum_over at 1. cbn [foldl]. rewrite sum_from. vec_ring.
Qed.

Lemma vsum_over_app (f : nat -> vec3 fl) l1 l2 :
  vsum_over f (l1 ++ l2) = vadd (vsum_over f l1) (vsum_over f l2).
Proof using Hexact.
  unfold vsum_over at 1. rewrite foldl_app. apply sum_from.
Qed.

Lemma vsum_over_ext (f g : nat -> vec3 fl) l :
  (forall i, i ∈ l -> f i = g i) -> vsum_over f l = vsum_over g l.
Proof using Hexact.
  induction l as [|i l IH]; intros Hfg; [reflexivity|].
  rewrite !vsum_over_cons, (Hfg i) by left.
  rewrite IH; [reflexivity|]. intros j Hj. apply Hfg. right. exact Hj.
Qed.

Lemma vsum_over_zero (f : nat -> vec3 fl) l :
  (forall i, i ∈ l -> f i = zero3) -> vsum_over f l = zero3.
Proof using Hexact.
  induction l as [|i l IH]; intros Hf; [reflexivity|].
  rewrite vsum_over_cons, (Hf i) by left.
  rewrite IH by (intros j Hj; apply Hf; right; exact Hj). vec_ring.
Qed.

(** One term of the sum grows by [d]. *)
Lemma vsum_over_bump (f f' : nat -> vec3 fl) l p d :
  NoDup l -> p ∈ l -> f' p = vadd (f p) d ->
  (forall j, j ∈ l -> j <> p -> f' j = f j) ->
  vsum_over f' l = vadd (vsum_over f l) d.
Proof using Hexact.
  induction l as [|i l IH]; intros Hnd Hp Hfp Hrest; [inversion Hp|].
  apply NoDup_cons in Hnd as [Hi Hnd]. rewrite !vsum_over_cons.
  destruct (decide (i = p)) as [->|Hne].
  - rewrite Hfp.
    rewrite (vsum_over_ext f' f l).
    2:{ intros j Hj. apply Hrest; [right; exact Hj|]. intros ->. tauto. }
    vec_ring.
  - rewrite (Hrest i) by (auto; left).
    rewrite IH; [vec_ring | exact Hnd | | exact Hfp |].
    + inversion Hp; subst; [congruence | assumption].
    + intros j Hj. apply Hrest. right. exact Hj.
Qed.

(** The moment of the forces [d] about [b], from their moment about
    [a]. *)
Lemma moment_shift (x d : nat -> vec3 fl) (a b : vec3 fl) l :
  vadd (vsum_over (fun i => cross_product (vsub (x i) a) (d i)) l)
       (cross_product (vsub a b) (vsum_over d l))
  = vsum_over (fun i => cross_product (vsub (x i) b) (d i)) l.
Proof using Hexact.
  induction l as [|i l IH].
  - unfold vsum_over. cbn [foldl]. vec_ring.
  - rewrite !vsum_over_cons, <- IH. vec_ring.
Qed.
End Sums.

Section NetForce.
Context {fl : Type} `{Scalar fl} `{Libm fl}.
Context `{BoxModel fl} `{GridModel fl} `{ScoringModel fl}.
Hypothesis Hexact : exact_ring (fl := fl).
Local Open Scope fl_scope.

Add Ring fl_ring_force : (fl_ring Hexact).

Ltac vec_ring :=
  apply vec_ext; unfold force_at, moment_at; autorewrite with vec_proj; ring.

Variable lig : ligand fl.
Variable kin : kinematics fl.
Variable derivatives : list (vec3 fl).
Hypothesis Hranged : ranged lig.

Lemma sum_atoms_spec k n : forall i (force torque : list (vec3 fl)),
  (k < length force)%nat -> (k < length torque)%nat ->
  sum_atoms kin derivatives k i n (force, torque)
  = (<[k := vadd (force !!! k)
              (vsum_over (force_at derivatives) (seq i n))]> force,
     <[k := vadd (torque !!! k)
              (vsum_over (moment_at (coordinates kin) derivatives
                            (origin kin !!! k)) (seq i n))]> torque).
Proof using Hexact.
  induction n as [|n IH]; intros i force torque Hf Ht;
    cbn [sum_atoms seq].
  - f_equal; symmetry; apply list_insert_id;
      rewrite list_lookup_lookup_total_lt by assumption; f_equal;
      unfold vsum_over; cbn [foldl]; vec_ring.
  - rewrite IH by (rewrite length_insert; assumption).
    rewrite !list_lookup_total_insert_eq by assumption.
    rewrite !list_insert_insert_eq, !vsum_over_cons by exact Hexact.
    f_equal; f_equal; vec_ring.
Qed.

Lemma seq_0_S_sum (f : nat -> vec3 fl) K :
  vsum_over f (seq 0 (S K)) = vadd (vsum_over f (seq 0 K)) (f K).
Proof using Hexact.
  rewrite seq_S, vsum_over_app, vsum_over_cons by exact Hexact.
  unfold vsum_over. cbn [foldl Nat.add]. vec_ring.
Qed.

Lemma moment_at_shift (a b : vec3 fl) atoms :
  vadd (vsum_over (moment_at (coordinates kin) derivatives a) atoms)
       (cross_product (vsub a b) (vsum_over (force_at derivatives) atoms))
  = vsum_over (moment_at (coordinates kin) derivatives b) atoms.
Proof using Hexact.
  exact (moment_shift Hexact (fun i => coordinates kin !!! i)
           (force_at derivatives) a b atoms).
Qed.

(** One frame of the backward pass: the frames below [K] hold what
    the frames up to [K] held, and the atoms of [K]. *)
Lemma branch_step (force torque : list (vec3 fl)) K p atoms :
  (p < K)%nat -> (K < length force)%nat -> (K < length torque)%nat ->
  let fa :=
    <[K := vadd (force !!! K) (vsum_over (force_at derivatives) atoms)]>
      force in
  let ta :=
    <[K := vadd (torque !!! K)
             (vsum_over (moment_at (coordinates kin) derivatives
                           (origin kin !!! K)) atoms)]> torque in
  let force' := <[p := vadd (fa !!! p) (fa !!! K)]> fa in
  let torque' :=
    <[p := vadd (ta !!! p)
             (vadd (ta !!! K)
                (cross_product (vsub (origin kin !!! K) (origin kin !!! p))
                   (force' !!! K)))]> ta in
  vsum_over (force_at force') (seq 0 K)
  = vadd (vsum_over (force_at force) (seq 0 (S K)))
         (vsum_over (force_at derivatives) atoms)
  /\ vsum_over (held (origin kin) force' torque') (seq 0 K)
     = vadd (vsum_over (held (origin kin) force torque) (seq 0 (S K)))
            (vsum_over (moment_at (coordinates kin) derivatives
                          (origin kin !!! 0%nat)) atoms)
  /\ length force' = length force /\ length torque' = length torque.
Proof using Hexact.
  intros Hp HKf HKt. cbv zeta.
  set (SF := vsum_over (force_at derivatives) atoms).
  set (ST := vsum_over (moment_at (coordinates kin) derivatives
                          (origin kin !!! K)) atoms).
  set (fa := <[K := vadd (force !!! K) SF]> force).
  set (ta := <[K := vadd (torque !!! K) ST]> torque).
  assert (HfaK : fa !!! K = vadd (force !!! K) SF)
    by (apply list_lookup_total_insert_eq; exact HKf).
  assert (HtaK : ta !!! K = vadd (torque !!! K) ST)
    by (apply list_lookup_total_insert_eq; exact HKt).
  assert (Hfa : forall j, j <> K -> fa !!! j = force !!! j)
    by (intros j Hj; apply list_lookup_total_insert_ne; congruence).
  assert (Hta : forall j, j <> K -> ta !!! j = torque !!! j)
    by (intros j Hj; apply list_lookup_total_insert_ne; congruence).
  assert (Hlfa : length fa = length force) by apply length_insert.
  assert (Hlta : length ta = length torque) by apply length_insert.
  set (force' := <[p := vadd (fa !!! p) (fa !!! K)]> fa).
  assert (Hf'p : force' !!! p = vadd (fa !!! p) (fa !!! K))
    by (apply list_lookup_total_insert_eq; lia).
  assert (Hf' : forall j, j <> p -> force' !!! j = fa !!! j)
    by (intros j Hj; apply list_lookup_total_insert_ne; congruence).
  set (torque' := <[p := _]> ta).
  assert (Ht'p : torque' !!! p
                 = vadd (ta !!! p)
                     (vadd (ta !!! K)
                        (cross_product
                           (vsub (origin kin !!! K) (origin kin !!! p))
                           (force' !!! K))))
    by (apply list_lookup_total_insert_eq; lia).
  assert (Ht' : forall j, j <> p -> torque' !!! j = ta !!! j)
    by (intros j Hj; apply list_lookup_total_insert_ne; congruence).
  split; [|split; [|split]].
  - rewrite (vsum_over_bump Hexact (force_at force) (force_at force')
               (seq 0 K) p (vadd (force !!! K) SF)).
    + rewrite seq_0_S_sum. vec_ring.
    + apply NoDup_seq.
    + apply elem_of_seq. lia.
    + unfold force_at. rewrite Hf'p, HfaK, Hfa by lia. reflexivity.
    + intros j Hj Hne. apply elem_of_seq in Hj. unfold force_at.
      rewrite Hf', Hfa by lia. reflexivity.
  - rewrite (vsum_over_bump Hexact (held (origin kin) force torque)
               (held (origin kin) force' torque') (seq 0 K) p
               (vadd (vadd (torque !!! K) ST)
                  (cross_product
                     (vsub (origin kin !!! K) (origin kin !!! 0%nat))
                     (vadd (force !!! K) SF)))).
    + rewrite seq_0_S_sum.
      rewrite <- (moment_at_shift (origin kin !!! K) (origin kin !!! 0%nat)).
      fold SF ST. unfold held. vec_ring.
    + apply NoDup_seq.
    + apply elem_of_seq. lia.
    + unfold held. rewrite Ht'p, Hf'p, Hf', HfaK, HtaK, Hfa, Hta by lia.
      vec_ring.
    + intros j Hj Hne. apply elem_of_seq in Hj. unfold held.
      rewrite Ht', Hf', Hfa, Hta by lia. reflexivity.
  - subst force'. rewrite length_insert. exact Hlfa.
  - subst torque'. rewrite length_insert. exact Hlta.
Qed.
Lemma aggregate_branch_lists K t force torque g t' force' torque' g' :
  aggregate_branch lig kin derivatives K (t, force, torque, g)
  = Ret (t', force', torque', g') ->
  (K < length force)%nat -> (K < length torque)%nat ->
  let f := frames lig !!! K in
  let atoms := seq (habegin f) (haend f - habegin f) in
  let fa :=
    <[K := vadd (force !!! K) (vsum_over (force_at derivatives) atoms)]>
      force in
  let ta :=
    <[K := vadd (torque !!! K)
             (vsum_over (moment_at (coordinates kin) derivatives
                           (origin kin !!! K)) atoms)]> torque in
  force' = <[parent f := vadd (fa !!! parent f) (fa !!! K)]> fa
  /\ torque'
     = <[parent f :=
           vadd (ta !!! parent f)
             (vadd (ta !!! K)
                (cross_product
                   (vsub (origin kin !!! K) (origin kin !!! parent f))
                   (force' !!! K)))]> ta.
Proof using Hexact.
  intros Ha HKf HKt. cbv zeta. unfold aggregate_branch in Ha.
  rewrite sum_atoms_spec in Ha by assumption.
  destruct (negb (active (frames lig !!! K))).
  - injection Ha as _ <- <- _. auto.
  - destruct t as [|t0]; [discriminate|].
    injection Ha as _ <- <- _. auto.
Qed.

Lemma haend_mono j k :
  (j <= k)%nat -> (k < num_frames lig)%nat ->
  (haend (frames lig !!! j) <= haend (frames lig !!! k))%nat.
Proof using Hranged.
  destruct Hranged as (_ & _ & _ & Hnext & Hle & _). cbv zeta in *.
  intros Hjk. induction Hjk as [|k Hjk IH]; intros Hk; [lia|].
  specialize (IH ltac:(lia)). pose proof (Hnext k Hk) as Hn.
  pose proof (Hle (S k) Hk). lia.
Qed.

(** The backward pass from frame [k] down: ROOT holds what the frames
    up to [k] held, and the atoms of the frames [1 .. k]. *)
Lemma aggregate_branches_net k :
  forall t force torque g t' force' torque' g',
    (k < num_frames lig)%nat ->
    length force = num_frames lig -> length torque = num_frames lig ->
    aggregate_branches lig kin derivatives k (t, force, torque, g)
    = Ret (t', force', torque', g') ->
    let atoms :=
      seq (haend (frames lig !!! 0%nat))
          (haend (frames lig !!! k) - haend (frames lig !!! 0%nat)) in
    force' !!! 0%nat
    = vadd (vsum_over (force_at force) (seq 0 (S k)))
           (vsum_over (force_at derivatives) atoms)
    /\ held (origin kin) force' torque' 0
       = vadd (vsum_over (held (origin kin) force torque) (seq 0 (S k)))
              (vsum_over (moment_at (coordinates kin) derivatives
                            (origin kin !!! 0%nat)) atoms)
    /\ length force' = num_frames lig /\ length torque' = num_frames lig.
Proof using Hexact Hranged.
  induction k as [|k IH];
    intros t force torque g t' force' torque' g' Hk Hlf Hlt;
    cbn [aggregate_branches]; cbv zeta.
  - intros [= _ <- <- _]. rewrite Nat.sub_diag. cbn [seq].
    unfold vsum_over. cbn [foldl]. split; [vec_ring|].
    split; [vec_ring | auto].
  - intros Ha. inv_bind Ha. destruct a as [[[t1 force1] torque1] g1].
    pose proof Hranged as (_ & _ & _ & Hnext & Hle & Hpar).
    cbv zeta in Hnext, Hle, Hpar.
    apply aggregate_branch_lists in Ha0 as [Hf1 Ht1]; [|lia|lia].
    cbv zeta in Hf1, Ht1.
    pose proof (branch_step force torque (S k)
                  (parent (frames lig !!! S k))
                  (seq (habegin (frames lig !!! S k))
                       (haend (frames lig !!! S k)
                        - habegin (frames lig !!! S k)))
                  (Hpar (S k) ltac:(lia)) ltac:(lia) ltac:(lia))
      as (HF & HT & Hlf1 & Hlt1).
    cbv zeta in HF, HT, Hlf1, Hlt1.
    rewrite <- Hf1 in HF, HT, Hlf1, Hlt1. rewrite <- Ht1 in HT, Hlt1.
    destruct (IH t1 force1 torque1 g1 t' force' torque' g'
                ltac:(lia) ltac:(lia) ltac:(lia) Ha)
      as (HF' & HT' & Hlf' & Hlt').
    cbv zeta in HF', HT'.
    pose proof (haend_mono 0 k ltac:(lia) ltac:(lia)) as Hm0.
    pose proof (Hnext k Hk) as Hn. pose proof (Hle (S k) Hk) as Hl.
    assert (Hatoms :
      seq (haend (frames lig !!! 0%nat))
          (haend (frames lig !!! S k) - haend (frames lig !!! 0%nat))
      = seq (haend (frames lig !!! 0%nat))
            (haend (frames lig !!! k) - haend (frames lig !!! 0%nat))
        ++ seq (habegin (frames lig !!! S k))
               (haend (frames lig !!! S k) - habegin (frames lig !!! S k))).
    { rewrite <- Hn.
      replace (haend (frames lig !!! S k) - haend (frames lig !!! 0%nat))%nat
        with ((haend (frames lig !!! k) - haend (frames lig !!! 0%nat))
              + (haend (frames lig !!! S k) - haend (frames lig !!! k)))%nat
        by lia.
      rewrite seq_app. f_equal. f_equal. lia. }
    rewrite Hatoms, !vsum_over_app by exact Hexact.
    rewrite HF', HT', HF, HT.
    split; [vec_ring|]. split; [vec_ring | auto].
Qed.

(** The gradient with respect to the position is the sum of the forces
    on the heavy atoms, and the one with respect to the orientation is
    the sum of their moments about the origin of ROOT. *)
Lemma gradient_net g g' :
  gradient lig kin derivatives g = Ret g' ->
  g_position g'
  = vsum_over (force_at derivatives) (seq 0 (num_heavy_atoms lig))
  /\ g_orientation g'
     = vsum_over (moment_at (coordinates kin) derivatives
                    (origin kin !!! 0%nat))
         (seq 0 (num_heavy_atoms lig)).
Proof using Hexact Hranged.
  unfold gradient. intros Hg. inv_bind Hg.
  destruct a as [[[t force] torque] g1].
  pose proof Hranged as (HN & Hb0 & Hlast & _ & Hle & _).
  cbv zeta in Hb0, Hlast, Hle.
  destruct (aggregate_branches_net (num_frames lig - 1) _ _ _ _ _ _ _ _
              ltac:(lia) (length_replicate _ _) (length_replicate _ _) Ha)
    as (HF & HT & Hlf & Hlt).
  cbv zeta in HF, HT.
  rewrite sum_atoms_spec in Hg by lia.
  injection Hg as <-. cbn [g_position g_orientation].
  rewrite !list_lookup_total_insert_eq by lia.
  rewrite Hb0, Nat.sub_0_r.
  assert (HF0 : vsum_over (force_at (replicate (num_frames lig) zero3))
                  (seq 0 (S (num_frames lig - 1))) = zero3).
  { apply vsum_over_zero; [exact Hexact|]. intros j Hj.
    apply elem_of_seq in Hj. unfold force_at.
    apply lookup_total_replicate_2. lia. }
  assert (HT0 : vsum_over
                  (held (origin kin) (replicate (num_frames lig) zero3)
                     (replicate (num_frames lig) zero3))
                  (seq 0 (S (num_frames lig - 1))) = zero3).
  { apply vsum_over_zero; [exact Hexact|]. intros j Hj.
    apply elem_of_seq in Hj. unfold held.
    rewrite !lookup_total_replicate_2 by lia. vec_ring. }
  rewrite HF0 in HF. rewrite HT0 in HT. rewrite Hlast in HF, HT.
  pose proof (Hle 0%nat HN) as Hle0.
  pose proof (haend_mono 0 (num_frames lig - 1) ltac:(lia) ltac:(lia)) as Hm.
  rewrite Hlast in Hm.
  assert (Hall : seq 0 (num_heavy_atoms lig)
                 = seq 0 (haend (frames lig !!! 0%nat))
                   ++ seq (haend (frames lig !!! 0%nat))
                        (num_heavy_atoms lig - haend (frames lig !!! 0%nat))).
  { replace (num_heavy_atoms lig)
      with (haend (frames lig !!! 0%nat)
            + (num_heavy_atoms lig - haend (frames lig !!! 0%nat)))%nat
      at 1 by lia.
    apply seq_app. }
  rewrite Hall, !vsum_over_app by exact Hexact.
  change (populate (flit 0%float, flit 0%float, flit 0%float))
    with (@prod_inhabited (fl * fl) fl
            (@prod_inhabited fl fl fl_inhabited fl_inhabited) fl_inhabited).
  rewrite HF. split; [vec_ring|].
  assert (Ht0 : torque !!! 0%nat = held (origin kin) force torque 0)
    by (unfold held; vec_ring).
  rewrite Ht0, HT. vec_ring.
Qed.
End NetForce.

(** ** The pairs of the ligand pull on nothing but each other *)

Section PairForces.
Context {fl : Type} `{Scalar fl} `{Libm fl}.
Context `{BoxModel fl} `{GridModel fl} `{ScoringModel fl}.
Hypothesis Hexact : exact_ring (fl := fl).
Local Open Scope fl_scope.

Add Ring fl_ring_pairs : (fl_ring Hexact).

Ltac vec_ring :=
  apply vec_ext; autorewrite with vec_proj;
  cbv [prod_inhabited fl_inhabited]; ring.

Lemma intra_pair_net sf coords (o : vec3 fl) e d p e' d' :
  (i1 p < length d)%nat -> (i2 p < length d)%nat ->
  intra_pair sf coords (e, d) p = (e', d') ->
  length d' = length d
  /\ vsum_over (force_at d') (seq 0 (length d))
     = vsum_over (force_at d) (seq 0 (length d))
  /\ vsum_over (moment_at coords d' o) (seq 0 (length d))
     = vsum_over (moment_at coords d o) (seq 0 (length d)).
Proof using Hexact.
  intros Hi1 Hi2. unfold intra_pair.
  destruct (_ <? _); [|intros [= <- <-]; auto].
  destruct (sf_evaluate _ _ _) as [element_e element_dor].
  set (der := smul element_dor _).
  set (d1 := <[i1 p := _]> d).
  intros [= <- <-].
  assert (Hl1 : length d1 = length d) by apply length_insert.
  split; [rewrite length_insert; exact Hl1|].
  assert (Hin : forall i, (i < length d)%nat -> i ∈ seq 0 (length d)).
  { intros i Hi. apply elem_of_seq. lia. }
  split.
  - rewrite (vsum_over_bump Hexact (force_at d1) _ _ (i2 p) der);
      [|apply NoDup_seq|apply Hin, Hi2| |].
    + rewrite (vsum_over_bump Hexact (force_at d) _ _ (i1 p)
                 (vsub zero3 der));
        [vec_ring|apply NoDup_seq|apply Hin, Hi1| |].
      * unfold force_at, d1.
        rewrite list_lookup_total_insert_eq by exact Hi1. vec_ring.
      * intros j _ Hj. unfold force_at, d1.
        apply list_lookup_total_insert_ne. congruence.
    + unfold force_at.
      apply list_lookup_total_insert_eq. rewrite Hl1. exact Hi2.
    + intros j _ Hj. unfold force_at.
      apply list_lookup_total_insert_ne. congruence.
  - rewrite (vsum_over_bump Hexact (moment_at coords d1 o) _ _ (i2 p)
               (cross_product (vsub (coords !!! i2 p) o) der));
      [|apply NoDup_seq|apply Hin, Hi2| |].
    + rewrite (vsum_over_bump Hexact (moment_at coords d o) _ _ (i1 p)
                 (cross_product (vsub (coords !!! i1 p) o)
                    (vsub zero3 der)));
        [|apply NoDup_seq|apply Hin, Hi1| |].
      * unfold der. vec_ring.
      * unfold moment_at, d1.
        rewrite list_lookup_total_insert_eq by exact Hi1. vec_ring.
      * intros j _ Hj. unfold moment_at, d1.
        rewrite list_lookup_total_insert_ne by congruence. reflexivity.
    + unfold moment_at.
      rewrite list_lookup_total_insert_eq by (rewrite Hl1; exact Hi2).
      vec_ring.
    + intros j _ Hj. unfold moment_at.
      rewrite list_lookup_total_insert_ne by congruence. reflexivity.
Qed.

Lemma intra_pairs_net sf coords (o : vec3 fl) pairs : forall e d e' d',
  (forall p, p ∈ pairs -> (i1 p < length d)%nat /\ (i2 p < length d)%nat) ->
  foldl (intra_pair sf coords) (e, d) pairs = (e', d') ->
  length d' = length d
  /\ vsum_over (force_at d') (seq 0 (length d))
     = vsum_over (force_at d) (seq 0 (length d))
  /\ vsum_over (moment_at coords d' o) (seq 0 (length d))
     = vsum_over (moment_at coords d o) (seq 0 (length d)).
Proof using Hexact.
  induction pairs as [|p pairs IH]; intros e d e' d' Hr; cbn [foldl].
  - intros [= <- <-]. auto.
  - destruct (intra_pair sf coords (e, d) p) as [e1 d1] eqn:Hp.
    destruct (Hr p ltac:(left)) as [Hi1 Hi2].
    destruct (intra_pair_net sf coords o _ _ _ _ _ Hi1 Hi2 Hp)
      as (Hl & Hf & Hm).
    intros Hfold. apply IH in Hfold as (Hl' & Hf' & Hm').
    + rewrite Hl in Hl', Hf', Hm'. split; [exact Hl'|].
      split; [rewrite Hf'; exact Hf | rewrite Hm'; exact Hm].
    + intros q Hq. rewrite Hl. apply Hr. right. exact Hq.
Qed.

(** The loop over the heavy atoms writes the slope of the grid map into
    the entry of every atom it passes. *)
Lemma inter_atoms_slopes NDEBUG (lig : ligand fl) b grid_maps coords n :
  forall i e energies d e' energies' d',
  inter_atoms NDEBUG lig b grid_maps coords i n (e, energies, d)
  = Ret (e', energies', d') ->
  (i + n <= length d)%nat ->
  length d' = length d
  /\ forall j, d' !!! j
       = if decide (i <= j < i + n)%nat
         then grid_slope lig b grid_maps coords j else d !!! j.
Proof.
  induction n as [|n IH]; intros i e energies d e' energies' d';
    cbn [inter_atoms].
  - intros [= <- <- <-] _. split; [reflexivity|]. intros j.
    rewrite decide_False by lia. reflexivity.
  - intros Hr Hn. inv_bind Hr. destruct a as [[e1 energies1] d1].
    assert (Hstep : length d1 = length d
                    /\ forall j, d1 !!! j
                         = if decide (j = i)
                           then grid_slope lig b grid_maps coords j
                           else d !!! j).
    { unfold inter_atom in Ha. inv_bind Ha. unfold grid_slope.
      destruct (grid_index b (coords !!! i)) as [[x0 y0] z0] eqn:Hg.
      destruct (num_grids b) as [[n0 n1] n2].
      do 3 inv_bind Ha. injection Ha as <- <- <-.
      split; [apply length_insert|]. intros j.
      destruct (decide (j = i)) as [->|Hj].
      - rewrite Hg. apply list_lookup_total_insert_eq. lia.
      - apply list_lookup_total_insert_ne. congruence. }
    destruct Hstep as [Hl1 Hd1].
    apply IH in Hr as [Hl' Hd']; [|lia].
    split; [congruence|]. intros j. rewrite Hd', Hd1.
    destruct (decide (j = i)) as [->|Hj].
    + rewrite decide_False, decide_True by lia. reflexivity.
    + destruct (decide (S i <= j < S i + n)%nat);
        [rewrite decide_True by lia|rewrite decide_False by lia];
        reflexivity.
Qed.

Lemma energy_net NDEBUG (lig : ligand fl) sf b grid_maps coords o f e d :
  (forall p, p ∈ interacting_pairs lig ->
     (i1 p < num_heavy_atoms lig)%nat /\ (i2 p < num_heavy_atoms lig)%nat) ->
  energy NDEBUG lig sf b grid_maps coords = Ret (f, e, d) ->
  vsum_over (force_at d) (seq 0 (num_heavy_atoms lig))
  = vsum_over (grid_slope lig b grid_maps coords)
      (seq 0 (num_heavy_atoms lig))
  /\ vsum_over (moment_at coords d o) (seq 0 (num_heavy_atoms lig))
     = vsum_over (grid_moment lig b grid_maps coords o)
         (seq 0 (num_heavy_atoms lig)).
Proof using Hexact.
  intros Hpairs. unfold energy. intros He. inv_bind He.
  destruct a as [[e0 energies] d0].
  destruct (foldl _ _ _) as [e1 d1] eqn:Hfold.
  injection He as _ _ <-.
  apply inter_atoms_slopes in Ha as [Hl0 Hd0];
    [|rewrite length_replicate; lia].
  rewrite length_replicate in Hl0.
  destruct (intra_pairs_net sf coords o _ _ _ _ _
              ltac:(rewrite Hl0; exact Hpairs) Hfold) as (_ & Hf & Hm).
  rewrite Hl0 in Hf, Hm. rewrite Hf, Hm.
  split; apply vsum_over_ext; try exact Hexact; intros j Hj;
    apply elem_of_seq in Hj; unfold force_at, moment_at, grid_moment;
    rewrite Hd0, decide_True by lia; reflexivity.
Qed.
End PairForces.

Section EvaluateNet.
Context {fl : Type} `{Scalar fl} `{Libm fl}.
Context `{BoxModel fl} `{GridModel fl} `{ScoringModel fl}.
Context `{AtomModel fl} `{TextModel fl}.

Lemma ligand_ctor_ranged NDEBUG input (lig : ligand fl) :
  ligand_ctor NDEBUG input = Ret lig -> ranged lig.
Proof.
  unfold ligand_ctor. intros Hctor. inv_bind Hctor. rename a into ps.
  pose proof (parse_lines_inv _ _ _ _ Ha parse_inv_init) as Hinv.
  pose proof (parse_lines_shape_inv _ _ _ _ Ha parse_inv_init shape_inv_init)
    as Hshape.
  pose proof (fun j => finish_frame _ _ _ j Hctor) as Hframe.
  cbv zeta in Hframe.
  pose proof (finish_sizes _ _ _ Hctor) as (_ & Hn & _ & _ & Hha & _).
  destruct (finish_ranges _ _ _ Hctor Hinv Hshape)
    as ((Hb0 & _ & Hlast & _) & Hchain & Hle).
  cbv zeta in Hchain, Hle.
  pose proof Hinv as ((Hpos & _ & _ & Hrot) & _).
  unfold ranged. cbv zeta. rewrite Hn, Hha.
  split; [exact Hpos|]. split; [exact Hb0|]. split; [exact Hlast|].
  split; [intros k Hk; apply Hchain, Hk|].
  split; [intros k Hk; apply Hle, Hk|].
  intros k Hk. destruct (Hframe k ltac:(lia)) as (_ & _ & -> & _).
  apply Hrot, Hk.
Qed.

Lemma ligand_ctor_pairs_in_range NDEBUG input (lig : ligand fl) :
  ligand_ctor NDEBUG input = Ret lig ->
  forall p, p ∈ interacting_pairs lig ->
    (i1 p < num_heavy_atoms lig)%nat /\ (i2 p < num_heavy_atoms lig)%nat.
Proof.
  unfold ligand_ctor. intros Hctor. inv_bind Hctor. rename a into ps.
  pose proof (parse_lines_inv _ _ _ _ Ha parse_inv_init) as Hinv.
  pose proof (parse_lines_shape_inv _ _ _ _ Ha parse_inv_init shape_inv_init)
    as Hshape.
  destruct (finish_frames_ok _ _ _ Hctor Hinv) as [Hok Hlast].
  pose proof (finish_Ret _ _ _ Hctor) as (Hframes & Hpairs & _).
  cbv zeta in Hframes, Hpairs. rewrite <- Hframes in Hpairs.
  destruct (finish_counts _ _ _ Hctor) as [_ Hlen].
  pose proof (finish_sizes _ _ _ Hctor) as (_ & _ & _ & _ & Hha & _).
  destruct (finish_ranges _ _ _ Hctor Hinv Hshape) as (_ & _ & Hle).
  cbv zeta in Hle.
  intros p Hp. rewrite Hpairs in Hp. apply list_elem_of_In in Hp.
  apply (find_interacting_pairs_In _ _ p Hok Hlast) in Hp as [Hint _].
  pose proof (interacting_lt _ _ _ _ Hok Hint) as Hlt.
  destruct Hint as (k1 & k2 & Hk & _ & Hj & _).
  destruct (Hle k2 ltac:(lia)) as [Hh _]. rewrite Hha. lia.
Qed.

Lemma world_origin_root (lig : ligand fl) conf :
  (0 < num_frames lig)%nat ->
  origin (world_kinematics lig conf) !!! 0%nat = position conf.
Proof.
  intros HN.
  destruct (forward_kinematics true (fun _ => true) lig conf)
    as [[kin|]|] eqn:Hf.
  - rewrite (world_kinematics_eq _ _ _ Hf).
    unfold forward_kinematics in Hf. inv_bind Hf.
    destruct a as [kin0|]; [|discriminate].
    inv_bind Hf. destruct a as [[t1 kin1]|]; [|discriminate].
    injection Hf as <-.
    pose proof (root_frame_sized _ _ _ _ _ Ha) as Hs0.
    destruct (branch_frames_frame _ _ _ _ _ _ _ _ _ _ _ Hs0 Ha0)
      as [_ Hsame].
    destruct (Hsame 0%nat ltac:(lia)) as [-> _].
    unfold root_frame in Ha. inv_bind Ha. injection Ha as Ha.
    destruct (place_atoms _ _ _ _ _ _ _); simpl in Ha; [|discriminate].
    injection Ha as <-. cbn [origin kinematics_init].
    apply list_lookup_total_insert_eq. rewrite length_replicate. exact HN.
  - exfalso. apply forward_kinematics_sim in Hf.
    destruct Hf as [(i & _ & Hc)|(k & _ & [Hc|(_ & i & _ & Hc)])];
      discriminate Hc.
  - destruct (forward_kinematics_returns (fun _ => true) lig conf) as [r Hr].
    congruence.
Qed.
End EvaluateNet.

(** X18. In exact arithmetic, for a ligand the constructor has built,
    the gradient a call of [ligand::evaluate] that returns [true] leaves
    in [g] is the net force and the net torque on the ligand: its first
    three entries are the sum of the derivatives of all heavy atoms, its
    next three the sum of their moments
    [(coordinates[i] - position) x derivatives[i]] about the position of
    ROOT, whatever the tree of the frames is. *)
Theorem evaluate_gradient_is_net_force_and_torque
    {fl : Type} `{Scalar fl} `{Libm fl}
    `{BoxModel fl} `{GridModel fl} `{ScoringModel fl}
    `{AtomModel fl} `{TextModel fl}
    NDEBUG NDEBUG' input (lig : ligand fl) conf sf b grid_maps
    e_upper_bound e f g ev :
  exact_ring (fl := fl) ->
  ligand_ctor NDEBUG' input = Ret lig ->
  evaluate NDEBUG lig conf sf b grid_maps e_upper_bound e f g = Ret ev ->
  accepted ev = true ->
  let derivatives := (world_energy lig sf b grid_maps conf).2 in
  let coordinates := coordinates (world_kinematics lig conf) in
  g_position (g_out ev)
  = vsum_over (force_at derivatives) (seq 0 (num_heavy_atoms lig))
  /\ g_orientation (g_out ev)
     = vsum_over (moment_at coordinates derivatives (position conf))
         (seq 0 (num_heavy_atoms lig)).
Proof.
  intros Hexact Hctor Hev Hacc. cbv zeta.
  pose proof (ligand_ctor_ranged _ _ _ Hctor) as Hranged.
  apply evaluate_cases in Hev
    as [[_ ->]|[(_ & _ & ->)|(_ & _ & g' & Hg & ->)]];
    try discriminate Hacc.
  cbn [g_out].
  rewrite <- (world_origin_root lig conf) by apply Hranged.
  exact (gradient_net Hexact _ _ _ Hranged _ _ Hg).
Qed.

(** X19. In exact arithmetic the pairs of a constructed ligand change
    neither the sum of the derivatives nor the sum of their moments: the
    loop over [interacting_pairs] takes from one atom of a pair what it
    gives to the other, along the line between the two. When the energy
    part of [ligand::evaluate] is through, the derivatives sum to the
    sum of the slopes of the grid maps at the heavy atoms, and their
    moments about any point [o] to the sum of the moments of these
    slopes. *)
Theorem energy_pairs_cancel
    {fl : Type} `{Scalar fl} `{Libm fl}
    `{BoxModel fl} `{GridModel fl} `{ScoringModel fl}
    `{AtomModel fl} `{TextModel fl}
    NDEBUG NDEBUG' input (lig : ligand fl) sf b grid_maps coords o f e d :
  exact_ring (fl := fl) ->
  ligand_ctor NDEBUG' input = Ret lig ->
  energy NDEBUG lig sf b grid_maps coords = Ret (f, e, d) ->
  vsum_over (force_at d) (seq 0 (num_heavy_atoms lig))
  = vsum_over (grid_slope lig b grid_maps coords)
      (seq 0 (num_heavy_atoms lig))
  /\ vsum_over (moment_at coords d o) (seq 0 (num_heavy_atoms lig))
     = vsum_over (grid_moment lig b grid_maps coords o)
         (seq 0 (num_heavy_atoms lig)).
Proof.
  intros Hexact Hctor He.
  exact (energy_net Hexact _ _ _ _ _ _ _ _ _ _
           (ligand_ctor_pairs_in_range _ _ _ Hctor) He).
Qed.

(** ** The update of the Hessian *)

Section ScalarSums.
Context {fl : Type} `{Scalar fl}.
Hypothesis Hexact : exact_ring (fl := fl).
Local Open Scope fl_scope.

Add Ring fl_ring_scalar_sums : (fl_ring Hexact).

Lemma fsum_from (f : nat -> fl) l : forall a,
  foldl (fun acc i => acc + f i) a l = a + fsum_over f l.
Proof using Hexact.
  unfold fsum_over. induction l as [|i l IH]; intros a; cbn [foldl].
  - ring.
  - rewrite IH, (IH (0 + f i)). ring.
Qed.

Lemma fsum_over_cons (f : nat -> fl) i l :
  fsum_over f (i :: l) = f i + fsum_over f l.
Proof using Hexact.
  unfold fsum_over at 1. cbn [foldl]. rewrite fsum_from. ring.
Qed.

Lemma fsum_over_ext (f g : nat -> fl) l :
  (forall i, i ∈ l -> f i = g i) -> fsum_over f l = fsum_over g l.
Proof using Hexact.
  induction l as [|i l IH]; intros Hfg; [reflexivity|].
  rewrite !fsum_over_cons, (Hfg i) by left.
  rewrite IH; [reflexivity|]. intros j Hj. apply Hfg. right. exact Hj.
Qed.

Lemma fsub_from (f : nat -> fl) l : forall a,
  foldl (fun acc i => acc - f i) a l = a - fsum_over f l.
Proof using Hexact.
  induction l as [|i l IH]; intros a; cbn [foldl].
  - unfold fsum_over. cbn [foldl]. ring.
  - rewrite IH, fsum_over_cons. ring.
Qed.

(** The row of the updated matrix times [y], term by term. *)
Lemma fsum_over_update (a m p y : nat -> fl) (r c m_i p_i : fl) l :
  fsum_over (fun j => (a j + (r * (m_i * p j + m j * p_i) + c * p_i * p j))
                      * y j) l
  = fsum_over (fun j => a j * y j) l
    + r * (m_i * fsum_over (fun j => y j * p j) l
           + p_i * fsum_over (fun j => y j * m j) l)
    + c * p_i * fsum_over (fun j => y j * p j) l.
Proof using Hexact.
  induction l as [|j l IH].
  - unfold fsum_over. cbn [foldl]. ring.
  - rewrite !fsum_over_cons, IH. ring.
Qed.
End ScalarSums.

Section PackedUpdate.
Context {fl : Type} `{Scalar fl}.
Local Open Scope fl_scope.

Variable N : nat.
Variable delta : nat -> nat -> fl.

(** One row of the loop of lines 174-178, over the columns [l]. *)
Lemma update_row i l : forall h : list fl,
  NoDup l -> (forall j, j ∈ l -> (i <= j < N)%nat) ->
  length h = (N * (N + 1) / 2)%nat ->
  let h' := foldl (fun h j => <[mr i j := h !!! mr i j + delta i j]> h) h l in
  length h' = length h
  /\ (forall j, j ∈ l -> h' !!! mr i j = h !!! mr i j + delta i j)
  /\ (forall k, (forall j, j ∈ l -> k <> mr i j) -> h' !!! k = h !!! k).
Proof.
  induction l as [|j l IH]; intros h Hnd Hin Hlen; cbn [foldl].
  - split; [reflexivity|]. split; [intros j Hj; inversion Hj | reflexivity].
  - apply NoDup_cons in Hnd as [Hj Hnd].
    set (h1 := <[mr i j := h !!! mr i j + delta i j]> h).
    assert (Hl1 : length h1 = length h) by apply length_insert.
    destruct (IH h1 Hnd) as (Hl' & Hin' & Hout');
      [intros j' Hj'; apply Hin; right; exact Hj'|congruence|].
    assert (Hne : forall j', j' ∈ l -> mr i j <> mr i j').
    { intros j' Hj' Heq.
      apply mr_inj in Heq as [_ ->];
        [tauto|apply Hin; left|apply Hin; right; exact Hj']. }
    assert (Hb : (mr i j < length h)%nat).
    { rewrite Hlen. apply mr_bound; apply Hin; left. }
    split; [congruence|]. split.
    + intros j' Hj'. apply elem_of_cons in Hj' as [->|Hj'].
      * rewrite Hout' by exact Hne.
        apply list_lookup_total_insert_eq. exact Hb.
      * rewrite Hin' by exact Hj'. unfold h1.
        rewrite list_lookup_total_insert_ne by (apply Hne; exact Hj').
        reflexivity.
    + intros k Hk. rewrite Hout'.
      * apply list_lookup_total_insert_ne.
        intros Heq. apply (Hk j); [left|congruence].
      * intros j' Hj'. apply Hk. right. exact Hj'.
Qed.

(** The loop of lines 174-178 over the rows [l]: every entry on or
    above the diagonal of these rows grows by its [delta], once. *)
Lemma update_rows l : forall h : list fl,
  NoDup l -> (forall i, i ∈ l -> (i < N)%nat) ->
  length h = (N * (N + 1) / 2)%nat ->
  let h' :=
    foldl (fun h i =>
             foldl (fun h j => <[mr i j := h !!! mr i j + delta i j]> h)
                   h (seq i (N - i))) h l in
  length h' = length h
  /\ (forall i j, i ∈ l -> (i <= j < N)%nat ->
        h' !!! mr i j = h !!! mr i j + delta i j)
  /\ (forall k, (forall i j, i ∈ l -> (i <= j < N)%nat -> k <> mr i j) ->
        h' !!! k = h !!! k).
Proof.
  induction l as [|i l IH]; intros h Hnd Hin Hlen; cbn [foldl].
  - split; [reflexivity|].
    split; [intros i j Hi; inversion Hi | reflexivity].
  - apply NoDup_cons in Hnd as [Hi Hnd].
    destruct (update_row i (seq i (N - i)) h (NoDup_seq _ _))
      as (Hl1 & Hin1 & Hout1); [|exact Hlen|].
    { intros j Hj. apply elem_of_seq in Hj. lia. }
    set (h1 := foldl _ h (seq i (N - i))) in *.
    destruct (IH h1 Hnd) as (Hl' & Hin' & Hout');
      [intros i' Hi'; apply Hin; right; exact Hi'|congruence|].
    split; [congruence|]. split.
    + intros i' j Hi' Hj. apply elem_of_cons in Hi' as [->|Hi'].
      * rewrite Hout'.
        -- apply Hin1. apply elem_of_seq. lia.
        -- intros i' j' Hi' Hj' Heq.
           apply mr_inj in Heq as [-> _]; [tauto|lia|lia].
      * rewrite Hin' by assumption. rewrite Hout1; [reflexivity|].
        intros j' Hj' Heq. apply elem_of_seq in Hj'.
        apply mr_inj in Heq as [-> _]; [tauto|lia|lia].
    + intros k Hk. rewrite Hout'.
      * apply Hout1. intros j Hj. apply elem_of_seq in Hj.
        apply Hk; [left|lia].
      * intros i' j Hi' Hj. apply Hk; [right; exact Hi'|exact Hj].
Qed.

(** Read through [mp], as the code reads the matrix, every entry has
    grown by its [delta] when the loop is through. *)
Lemma update_all (h : list fl) i j :
  (forall i j, delta i j = delta j i) ->
  length h = (N * (N + 1) / 2)%nat -> (i < N)%nat -> (j < N)%nat ->
  foldl (fun h i =>
           foldl (fun h j => <[mr i j := h !!! mr i j + delta i j]> h)
                 h (seq i (N - i))) h (seq 0 N) !!! mp i j
  = h !!! mp i j + delta i j.
Proof.
  intros Hsym Hlen Hi Hj.
  destruct (update_rows (seq 0 N) h (NoDup_seq _ _)) as (_ & Hin & _);
    [|exact Hlen|].
  { intros k Hk. apply elem_of_seq in Hk. lia. }
  cbv zeta in Hin. unfold mp. destruct (i <=? j)%nat eqn:Hle.
  - apply Nat.leb_le in Hle. apply Hin; [apply elem_of_seq|]; lia.
  - apply Nat.leb_gt in Hle. rewrite (Hsym i j).
    apply Hin; [apply elem_of_seq|]; lia.
Qed.
End PackedUpdate.

Section Secant.
Context {fl : Type} `{Scalar fl}.
Hypothesis Hexact : exact_ring (fl := fl).
Local Open Scope fl_scope.

Add Ring fl_ring_secant : (fl_ring Hexact).

Lemma h_row_times_sum (h : list fl) v N i :
  h_row_times h v N i
  = fsum_over (fun j => (h !!! mp i j) * change_get v j) (seq 0 N).
Proof. reflexivity. Qed.

Lemma change_dot_sum (a b : change fl) N :
  change_dot a b N
  = fsum_over (fun i => change_get a i * change_get b i) (seq 0 N).
Proof. reflexivity. Qed.

Lemma minus_h_times_get (h : list fl) v n i :
  (i < 6 + n)%nat ->
  change_get (minus_h_times h v n) i = - h_row_times h v (6 + n) i.
Proof.
  intros Hi. unfold minus_h_times.
  rewrite (change_fill_get (fun i => - h_row_times h v (6 + n) i)).
  - rewrite decide_True by (apply elem_of_seq; lia). reflexivity.
  - apply NoDup_seq.
  - intros k Hk. apply elem_of_seq in Hk. simpl.
    rewrite length_replicate. lia.
Qed.

Lemma update_hessian_row (h : list fl) g1 g2 p alpha n y i :
  length h = ((6 + n) * (6 + n + 1) / 2)%nat ->
  (forall j, (j < 6 + n)%nat ->
     change_get y j = change_get g2 j - change_get g1 j) ->
  1 / change_dot y p (6 + n) * change_dot y p (6 + n) = 1 ->
  (i < 6 + n)%nat ->
  h_row_times (update_hessian h g1 g2 p alpha n) y (6 + n) i
  = alpha * change_get p i.
Proof using Hexact.
  intros Hlen Hy Hyp Hi. unfold update_hessian. cbv zeta.
  set (N := (6 + n)%nat) in *.
  set (y' := foldl _ (change_init n) (seq 0 N)).
  assert (Hy' : forall j, (j < N)%nat -> change_get y' j = change_get y j).
  { intros j Hj. unfold y'.
    rewrite (change_fill_get
               (fun i => change_get g2 i - change_get g1 i)).
    - rewrite decide_True by (apply elem_of_seq; lia).
      symmetry. apply Hy, Hj.
    - apply NoDup_seq.
    - intros k Hk. apply elem_of_seq in Hk. simpl.
      rewrite length_replicate. unfold N in Hk. lia. }
  assert (Hin : forall j, j ∈ seq 0 N -> (j < N)%nat).
  { intros j Hj. apply elem_of_seq in Hj. lia. }
  assert (Hdot : change_dot y' p N = change_dot y p N).
  { rewrite !change_dot_sum. apply fsum_over_ext; [exact Hexact|].
    intros j Hj. rewrite Hy' by auto. reflexivity. }
  assert (Hrow : forall k,
    h_row_times h y' N k = h_row_times h y N k).
  { intros k. rewrite !h_row_times_sum.
    apply fsum_over_ext; [exact Hexact|].
    intros j Hj. rewrite Hy' by auto. reflexivity. }
  rewrite Hdot.
  set (mhy := minus_h_times h y' n).
  assert (Hmhy : forall k, (k < N)%nat ->
    change_get mhy k = - h_row_times h y N k).
  { intros k Hk. unfold mhy. rewrite minus_h_times_get by exact Hk.
    rewrite Hrow. reflexivity. }
  rewrite (fsub_from Hexact
             (fun i => change_get y' i * change_get mhy i)).
  set (S1 := fsum_over (fun i => change_get y' i * change_get mhy i)
               (seq 0 N)).
  set (yp := change_dot y p N) in *.
  set (ryp := 1 / yp) in *.
  set (pco := ryp * (ryp * (0 - S1) + alpha)).
  rewrite h_row_times_sum.
  rewrite (fsum_over_ext Hexact _
    (fun j => (h !!! mp i j
               + (ryp * (change_get mhy i * change_get p j
                         + change_get mhy j * change_get p i)
                  + pco * change_get p i * change_get p j))
              * change_get y j)).
  2:{ intros j Hj. apply Hin in Hj.
      rewrite (update_all N
                 (fun i j => ryp * (change_get mhy i * change_get p j
                                    + change_get mhy j * change_get p i)
                             + pco * change_get p i * change_get p j));
        [reflexivity| |exact Hlen|exact Hi|exact Hj].
      intros a b. ring. }
  rewrite (fsum_over_update Hexact (fun j => h !!! mp i j)
             (change_get mhy) (change_get p) (change_get y)).
  assert (HS1 : fsum_over (fun j => change_get y j * change_get mhy j)
                  (seq 0 N) = S1).
  { apply fsum_over_ext; [exact Hexact|]. intros j Hj.
    rewrite Hy' by auto. reflexivity. }
  rewrite HS1, <- h_row_times_sum.
  change (fsum_over (fun j => change_get y j * change_get p j) (seq 0 N))
    with yp.
  rewrite Hmhy by exact Hi.
  set (A := h_row_times h y N i). set (p_i := change_get p i).
  transitivity (A + (ryp * yp) * (0 - A) - ryp * (0 - S1) * p_i
                + (ryp * yp) * (ryp * (0 - S1) + alpha) * p_i).
  - unfold pco. ring.
  - rewrite Hyp. ring.
Qed.
End Secant.

(** X20. In exact arithmetic the BFGS update of lines 157-178 satisfies
    the secant equation: with [y = g2 - g1] and the step [alpha * p],
    the updated matrix [h] takes [y] to the step,
    [sum_j h[mp(i, j)] * y[j] = alpha * p[i]] for every variable [i],
    provided [h] has the size it is allocated with and [1 / yp] is the
    inverse of [yp = y * p]. *)
Theorem update_hessian_secant {fl : Type} `{Scalar fl}
    (h : list fl) (g1 g2 p y : change fl) (alpha : fl) (n i : nat) :
  exact_ring (fl := fl) ->
  length h = ((6 + n) * (6 + n + 1) / 2)%nat ->
  (forall j, (j < 6 + n)%nat ->
     change_get y j = fsub (change_get g2 j) (change_get g1 j)) ->
  fmul (fdiv (flit 1%float) (change_dot y p (6 + n)))
       (change_dot y p (6 + n)) = flit 1%float ->
  (i < 6 + n)%nat ->
  h_row_times (update_hessian h g1 g2 p alpha n) y (6 + n) i
  = fmul alpha (change_get p i).
Proof.
  intros Hexact Hlen Hy Hyp Hi.
  exact (update_hessian_row Hexact h g1 g2 p alpha n y i Hlen Hy Hyp Hi).
Qed.

(** ** The gradient of a torsion *)

Section Climb.
Context {fl : Type} `{Scalar fl}.
Variable frames : list (frame fl).
Variable N : nat.
Hypothesis Hparent :
  forall k, (1 <= k < N)%nat -> (parent (frames !!! k) < k)%nat.

Lemma first_stop fuel k m :
  (m <= k)%nat -> first_at_or_before frames fuel k m = m.
Proof.
  intros Hm. destruct fuel; cbn [first_at_or_before];
    rewrite (proj2 (Nat.leb_le m k) Hm); reflexivity.
Qed.

Lemma first_next fuel k :
  (S k < N)%nat -> (S k <= fuel)%nat ->
  first_at_or_before frames fuel k (S k) = parent (frames !!! S k).
Proof using Hparent.
  intros Hk Hf. destruct fuel as [|fuel]; [lia|].
  cbn [first_at_or_before].
  rewrite (proj2 (Nat.leb_gt (S k) k)) by lia.
  apply first_stop. pose proof (Hparent (S k)). lia.
Qed.

(** One frame less to stop at: the ways that stopped at [S k] go on to
    its parent. *)
Lemma first_step fuel k : forall m,
  (S k < m)%nat -> (m < N)%nat -> (m <= fuel)%nat ->
  first_at_or_before frames fuel k m
  = if (first_at_or_before frames fuel (S k) m =? S k)%nat
    then parent (frames !!! S k)
    else first_at_or_before frames fuel (S k) m.
Proof using Hparent.
  induction fuel as [|fuel IH]; intros m Hm HN Hf; [lia|].
  cbn [first_at_or_before].
  rewrite (proj2 (Nat.leb_gt m k)), (proj2 (Nat.leb_gt m (S k))) by lia.
  pose proof (Hparent m ltac:(lia)) as Hp.
  set (pm := parent (frames !!! m)) in *.
  destruct (lt_eq_lt_dec pm (S k)) as [[Hlt|Heq]|Hgt].
  - rewrite !first_stop by lia.
    rewrite (proj2 (Nat.eqb_neq pm (S k))) by lia. reflexivity.
  - rewrite Heq, (first_stop fuel (S k) (S k)) by lia.
    rewrite Nat.eqb_refl. apply first_next; lia.
  - apply IH; lia.
Qed.
End Climb.

Section IndicatorSums.
Context {fl : Type} `{Scalar fl}.
Hypothesis Hexact : exact_ring (fl := fl).
Local Open Scope fl_scope.

Add Ring fl_ring_indicator : (fl_ring Hexact).

Ltac vec_ring :=
  apply vec_ext; autorewrite with vec_proj;
  cbv [prod_inhabited fl_inhabited]; ring.

Lemma vsum_over_add (f g : nat -> vec3 fl) l :
  vsum_over (fun m => vadd (f m) (g m)) l
  = vadd (vsum_over f l) (vsum_over g l).
Proof using Hexact.
  induction l as [|m l IH].
  - unfold vsum_over. cbn [foldl]. vec_ring.
  - rewrite !vsum_over_cons, IH by exact Hexact. vec_ring.
Qed.

Lemma vsum_over_when (c : bool) (f : nat -> vec3 fl) l :
  vsum_over (fun m => if c then f m else zero3) l
  = if c then vsum_over f l else zero3.
Proof using Hexact.
  destruct c; [reflexivity|]. apply vsum_over_zero; auto.
Qed.

Lemma vsum_over_shift (b : nat -> bool) (MA MB W : nat -> vec3 fl)
    (a o : vec3 fl) l :
  (forall m, vadd (MA m) (cross_product (vsub a o) (W m)) = MB m) ->
  vadd (vsum_over (fun m => if b m then MA m else zero3) l)
       (cross_product (vsub a o)
          (vsum_over (fun m => if b m then W m else zero3) l))
  = vsum_over (fun m => if b m then MB m else zero3) l.
Proof using Hexact.
  intros Hpt. induction l as [|m l IH].
  - unfold vsum_over. cbn [foldl]. vec_ring.
  - rewrite !vsum_over_cons, <- IH, <- (Hpt m) by exact Hexact.
    destruct (b m); vec_ring.
Qed.
End IndicatorSums.

Section TorsionGradient.
Context {fl : Type} `{Scalar fl} `{Libm fl}.
Context `{BoxModel fl} `{GridModel fl} `{ScoringModel fl}.
Hypothesis Hexact : exact_ring (fl := fl).
Local Open Scope fl_scope.

Add Ring fl_ring_torsion : (fl_ring Hexact).

Ltac vec_ring :=
  apply vec_ext; autorewrite with vec_proj;
  cbv [prod_inhabited fl_inhabited]; ring.

Variable lig : ligand fl.
Variable kin : kinematics fl.
Variable derivatives : list (vec3 fl).
Hypothesis Hranged : ranged lig.

Lemma ranged_parent k :
  (1 <= k < num_frames lig)%nat -> (parent (frames lig !!! k) < k)%nat.
Proof using Hranged.
  destruct Hranged as (_ & _ & _ & _ & _ & Hp). apply Hp.
Qed.

Lemma active_branches_mono j k :
  (j <= k)%nat -> (active_branches lig j <= active_branches lig k)%nat.
Proof.
  induction 1 as [|k Hjk IH]; [lia|].
  rewrite active_branches_S. lia.
Qed.

Lemma active_branches_lt j c :
  (j < c)%nat -> active (frames lig !!! c) = true ->
  (active_branches lig j < active_branches lig c)%nat.
Proof.
  intros Hjc Hc. destruct c as [|c]; [lia|].
  rewrite active_branches_S, Hc.
  pose proof (active_branches_mono j c ltac:(lia)). lia.
Qed.

Lemma frame_moment_shift (a o : vec3 fl) m :
  vadd (frame_moment lig kin derivatives a m)
       (cross_product (vsub a o) (frame_force lig derivatives m))
  = frame_moment lig kin derivatives o m.
Proof using Hexact.
  exact (moment_at_shift Hexact kin derivatives a o (atoms_of lig m)).
Qed.

Lemma branch_torque_split K :
  (K < num_frames lig)%nat ->
  branch_torque lig kin derivatives K
  = vadd (frame_moment lig kin derivatives (origin kin !!! K) K)
         (held_torque lig kin derivatives K K).
Proof using Hexact.
  intros HK. unfold branch_torque, held_torque.
  replace (num_frames lig - K)%nat with (S (num_frames lig - S K)) by lia.
  cbn [seq]. rewrite vsum_over_cons by exact Hexact.
  unfold moves. rewrite first_stop by lia. rewrite Nat.eqb_refl.
  reflexivity.
Qed.

(** What the frames up to [k] hold once frame [S k] has handed its
    force to its parent. *)
Lemma held_force_down k j :
  (S k < num_frames lig)%nat -> (j <= k)%nat ->
  held_force lig derivatives k j
  = vadd (held_force lig derivatives (S k) j)
         (if (parent (frames lig !!! S k) =? j)%nat
          then vadd (held_force lig derivatives (S k) (S k))
                    (frame_force lig derivatives (S k))
          else zero3).
Proof using Hexact Hranged.
  intros HK Hj. unfold held_force.
  replace (num_frames lig - S k)%nat
    with (S (num_frames lig - S (S k))) by lia.
  cbn [seq]. rewrite vsum_over_cons by exact Hexact.
  rewrite (first_next _ _ ranged_parent) by lia.
  set (P := parent (frames lig !!! S k)).
  rewrite (vsum_over_ext Hexact _
    (fun m =>
       vadd (if (first_at_or_before (frames lig) (num_frames lig) (S k) m
                 =? j)%nat
             then frame_force lig derivatives m else zero3)
            (if (P =? j)%nat
             then (if (first_at_or_before (frames lig) (num_frames lig)
                         (S k) m =? S k)%nat
                   then frame_force lig derivatives m else zero3)
             else zero3))).
  2:{ intros m Hm. apply elem_of_seq in Hm.
      rewrite (first_step _ _ ranged_parent) by lia. fold P.
      destruct (first_at_or_before _ _ (S k) m =? S k)%nat eqn:Htop.
      - apply Nat.eqb_eq in Htop. rewrite Htop.
        rewrite (proj2 (Nat.eqb_neq (S k) j)) by lia.
        destruct (P =? j)%nat; vec_ring.
      - destruct (_ =? j)%nat; destruct (P =? j)%nat; vec_ring. }
  rewrite vsum_over_add, vsum_over_when by exact Hexact.
  destruct (P =? j)%nat; vec_ring.
Qed.

Lemma held_torque_down k j :
  (S k < num_frames lig)%nat -> (j <= k)%nat ->
  held_torque lig kin derivatives k j
  = vadd (held_torque lig kin derivatives (S k) j)
         (if (parent (frames lig !!! S k) =? j)%nat
          then vadd (vadd (held_torque lig kin derivatives (S k) (S k))
                          (frame_moment lig kin derivatives
                             (origin kin !!! S k) (S k)))
                    (cross_product
                       (vsub (origin kin !!! S k) (origin kin !!! j))
                       (vadd (held_force lig derivatives (S k) (S k))
                             (frame_force lig derivatives (S k))))
          else zero3).
Proof using Hexact Hranged.
  intros HK Hj. unfold held_torque at 1.
  replace (num_frames lig - S k)%nat
    with (S (num_frames lig - S (S k))) by lia.
  cbn [seq]. rewrite vsum_over_cons by exact Hexact.
  rewrite (first_next _ _ ranged_parent) by lia.
  set (P := parent (frames lig !!! S k)).
  rewrite (vsum_over_ext Hexact _
    (fun m =>
       vadd (if (first_at_or_before (frames lig) (num_frames lig) (S k) m
                 =? j)%nat
             then frame_moment lig kin derivatives (origin kin !!! j) m else zero3)
            (if (P =? j)%nat
             then (if (first_at_or_before (frames lig) (num_frames lig)
                         (S k) m =? S k)%nat
                   then frame_moment lig kin derivatives (origin kin !!! j) m else zero3)
             else zero3))).
  2:{ intros m Hm. apply elem_of_seq in Hm.
      rewrite (first_step _ _ ranged_parent) by lia. fold P.
      destruct (first_at_or_before _ _ (S k) m =? S k)%nat eqn:Htop.
      - apply Nat.eqb_eq in Htop. rewrite Htop.
        rewrite (proj2 (Nat.eqb_neq (S k) j)) by lia.
        destruct (P =? j)%nat; vec_ring.
      - destruct (_ =? j)%nat; destruct (P =? j)%nat; vec_ring. }
  rewrite vsum_over_add, vsum_over_when by exact Hexact.
  fold (held_torque lig kin derivatives (S k) j).
  destruct (P =? j)%nat; [|vec_ring].
  rewrite <- (frame_moment_shift (origin kin !!! S k) (origin kin !!! j) (S k)).
  rewrite <- (vsum_over_shift Hexact _
                (frame_moment lig kin derivatives (origin kin !!! S k))
                (frame_moment lig kin derivatives (origin kin !!! j))
                (frame_force lig derivatives)
                (origin kin !!! S k) (origin kin !!! j))
    by (intros m; apply frame_moment_shift).
  fold (held_torque lig kin derivatives (S k) (S k)).
  fold (held_force lig derivatives (S k) (S k)).
  vec_ring.
Qed.

(** What one frame of the backward pass does to [t] and [g]. *)
Lemma aggregate_branch_torsion K t force torque g t' force' torque' g' :
  aggregate_branch lig kin derivatives K (t, force, torque, g)
  = Ret (t', force', torque', g') ->
  (K < length force)%nat -> (K < length torque)%nat ->
  parent (frames lig !!! K) <> K ->
  (active (frames lig !!! K) = false /\ t' = t /\ g' = g)
  \/ (active (frames lig !!! K) = true /\ t = S t'
      /\ g_torsions g'
         = <[t' := dot3 (vadd (torque !!! K)
                           (frame_moment lig kin derivatives
                              (origin kin !!! K) K))
                        (axis kin !!! K)]> (g_torsions g)).
Proof using Hexact.
  intros Ha HKf HKt HP. unfold aggregate_branch in Ha.
  rewrite (sum_atoms_spec Hexact) in Ha by assumption.
  destruct (active (frames lig !!! K)); cbn [negb] in Ha.
  - right. destruct t as [|t0]; [discriminate|].
    injection Ha as <- _ _ <-. split; [reflexivity|].
    split; [reflexivity|]. cbn [g_torsions].
    rewrite list_lookup_total_insert_ne by exact HP.
    rewrite list_lookup_total_insert_eq by exact HKt. reflexivity.
  - left. injection Ha as <- _ _ <-. auto.
Qed.

(** The backward pass from frame [k] down, when the frames after [k]
    have handed on what they held: every active frame finds in its
    entry of [g] the torque on its branch along its axis. *)
Lemma aggregate_branches_torsions k :
  forall t force torque g t' force' torque' g',
  (k < num_frames lig)%nat ->
  length force = num_frames lig -> length torque = num_frames lig ->
  t = (num_active_torsions lig
       - (active_branches lig (num_frames lig - 1)
          - active_branches lig k))%nat ->
  (forall j, (j <= k)%nat ->
     force !!! j = held_force lig derivatives k j
     /\ torque !!! j = held_torque lig kin derivatives k j) ->
  (forall c, (k < c < num_frames lig)%nat ->
     active (frames lig !!! c) = true ->
     (torsion_index lig c < length (g_torsions g))%nat ->
     g_torsions g !!! torsion_index lig c
     = dot3 (branch_torque lig kin derivatives c) (axis kin !!! c)) ->
  aggregate_branches lig kin derivatives k (t, force, torque, g)
  = Ret (t', force', torque', g') ->
  length (g_torsions g') = length (g_torsions g)
  /\ forall c, (1 <= c < num_frames lig)%nat ->
       active (frames lig !!! c) = true ->
       (torsion_index lig c < length (g_torsions g))%nat ->
       g_torsions g' !!! torsion_index lig c
       = dot3 (branch_torque lig kin derivatives c) (axis kin !!! c).
Proof using Hexact Hranged.
  induction k as [|k IH];
    intros t force torque g t' force' torque' g' Hk Hlf Hlt Ht Hheld Hg;
    cbn [aggregate_branches].
  - intros [= _ _ _ <-]. split; [reflexivity|].
    intros c Hc. apply Hg. lia.
  - intros Hr. inv_bind Hr. destruct a as [[[t1 force1] torque1] g1].
    pose proof (ranged_parent (S k) ltac:(lia)) as HP.
    set (P := parent (frames lig !!! S k)) in *.
    destruct (aggregate_branch_lists Hexact lig kin derivatives _ _ _ _ _
                _ _ _ _ Ha ltac:(lia) ltac:(lia)) as [Hf1 Ht1].
    cbv zeta in Hf1, Ht1. fold P in Hf1, Ht1.
    pose proof (aggregate_branch_torsion _ _ _ _ _ _ _ _ _ Ha
                  ltac:(lia) ltac:(lia) ltac:(fold P; lia)) as Htor.
    destruct (Hheld (S k) ltac:(lia)) as [HfK HtK].
    pose proof (active_branches_S lig k) as HS.
    pose proof (active_branches_mono (S k) (num_frames lig - 1) ltac:(lia))
      as Hmono.
    assert (Hlg : length (g_torsions g1) = length (g_torsions g)).
    { destruct Htor as [(_ & _ & ->)|(_ & _ & ->)];
        [reflexivity|apply length_insert]. }
    assert (HfaK :
      <[S k := vadd (force !!! S k)
                 (vsum_over (force_at derivatives)
                    (seq (habegin (frames lig !!! S k))
                       (haend (frames lig !!! S k)
                        - habegin (frames lig !!! S k))))]> force !!! S k
      = vadd (held_force lig derivatives (S k) (S k))
             (frame_force lig derivatives (S k))).
    { rewrite list_lookup_total_insert_eq by lia. rewrite HfK.
      reflexivity. }
    assert (Hf1K : force1 !!! S k
                   = vadd (held_force lig derivatives (S k) (S k))
                          (frame_force lig derivatives (S k))).
    { rewrite Hf1, list_lookup_total_insert_ne by lia. exact HfaK. }
    destruct (IH t1 force1 torque1 g1 t' force' torque' g') as [Hl' Hall];
      [lia| | | | | |exact Hr|].
    + rewrite Hf1, !length_insert. exact Hlf.
    + rewrite Ht1, !length_insert. exact Hlt.
    + destruct Htor as [(Hact & -> & _)|(Hact & Hts & _)];
        rewrite Hact in HS; lia.
    + intros j Hj. rewrite held_force_down, held_torque_down by lia.
      fold P. destruct (P =? j)%nat eqn:HPj.
      * apply Nat.eqb_eq in HPj. subst j. split.
        -- rewrite Hf1, list_lookup_total_insert_eq
             by (rewrite length_insert; lia).
           rewrite HfaK, list_lookup_total_insert_ne by lia.
           rewrite (proj1 (Hheld P ltac:(lia))). reflexivity.
        -- rewrite Ht1, list_lookup_total_insert_eq
             by (rewrite length_insert; lia).
           rewrite Hf1K.
           rewrite list_lookup_total_insert_eq by lia.
           rewrite list_lookup_total_insert_ne by lia.
           rewrite (proj2 (Hheld P ltac:(lia))), HtK. reflexivity.
      * apply Nat.eqb_neq in HPj. split.
        -- rewrite Hf1, !list_lookup_total_insert_ne by lia.
           rewrite (proj1 (Hheld j ltac:(lia))). vec_ring.
        -- rewrite Ht1, !list_lookup_total_insert_ne by lia.
           rewrite (proj2 (Hheld j ltac:(lia))). vec_ring.
    + intros c Hc Hactc Hidx. rewrite Hlg in Hidx.
      destruct (decide (c = S k)) as [->|Hne].
      * destruct Htor as [(Hact & _)|(_ & Hts & ->)]; [congruence|].
        assert (Hi : torsion_index lig (S k) = t1).
        { unfold torsion_index. lia. }
        rewrite Hi in *.
        rewrite list_lookup_total_insert_eq by exact Hidx.
        rewrite branch_torque_split, HtK by lia. f_equal. vec_ring.
      * pose proof (active_branches_lt (S k) c ltac:(lia) Hactc) as Hlt'.
        pose proof (active_branches_mono c (num_frames lig - 1) ltac:(lia))
          as Hmc.
        destruct Htor as [(_ & _ & ->)|(_ & Hts & ->)].
        -- apply Hg; [lia|exact Hactc|exact Hidx].
        -- rewrite list_lookup_total_insert_ne
             by (unfold torsion_index; lia).
           apply Hg; [lia|exact Hactc|exact Hidx].
    + split; [congruence|]. intros c Hc Hactc Hidx.
      apply Hall; [exact Hc|exact Hactc|]. rewrite Hlg. exact Hidx.
Qed.

Lemma gradient_torsions g g' :
  gradient lig kin derivatives g = Ret g' ->
  forall c, (1 <= c < num_frames lig)%nat ->
    active (frames lig !!! c) = true ->
    (torsion_index lig c < length (g_torsions g))%nat ->
    g_torsions g' !!! torsion_index lig c
    = dot3 (branch_torque lig kin derivatives c) (axis kin !!! c).
Proof using Hexact Hranged.
  unfold gradient. intros Hg. inv_bind Hg.
  destruct a as [[[t force] torque] g1].
  destruct (sum_atoms _ _ _ _ _ _) as [force0 torque0].
  injection Hg as <-. cbn [g_torsions].
  pose proof Hranged as (HN & _).
  assert (Hempty : (num_frames lig - S (num_frames lig - 1) = 0)%nat)
    by lia.
  destruct (aggregate_branches_torsions (num_frames lig - 1)
              (num_active_torsions lig) (replicate (num_frames lig) zero3)
              (replicate (num_frames lig) zero3) g t force torque g1)
    as [_ Hall];
    [lia|apply length_replicate|apply length_replicate|lia| | |exact Ha
    |exact Hall].
  - intros j Hj. unfold held_force, held_torque. rewrite Hempty.
    rewrite !lookup_total_replicate_2 by lia. split; reflexivity.
  - intros c Hc. lia.
Qed.
End TorsionGradient.

(** X21. In exact arithmetic, for a ligand the constructor has built, a
    call of [ligand::evaluate] that returns [true] leaves in the entry
    of [g.torsions] of every active BRANCH frame [k] the torque on the
    branch that the torsion moves, along the axis of the torsion: the
    moments [(coordinates[i] - origin[k]) x derivatives[i]] of the
    atoms of [k] and of all frames that hang on [k], summed and
    multiplied with [axis[k]]. The entry is the one the countdown of
    [t] from [num_active_torsions] reaches at [k]. *)
Theorem evaluate_torsion_gradient_is_branch_torque
    {fl : Type} `{Scalar fl} `{Libm fl}
    `{BoxModel fl} `{GridModel fl} `{ScoringModel fl}
    `{AtomModel fl} `{TextModel fl}
    NDEBUG NDEBUG' input (lig : ligand fl) conf sf b grid_maps
    e_upper_bound e f g ev k :
  exact_ring (fl := fl) ->
  ligand_ctor NDEBUG' input = Ret lig ->
  evaluate NDEBUG lig conf sf b grid_maps e_upper_bound e f g = Ret ev ->
  accepted ev = true ->
  (1 <= k < num_frames lig)%nat ->
  active (frames lig !!! k) = true ->
  (torsion_index lig k < length (g_torsions g))%nat ->
  g_torsions (g_out ev) !!! torsion_index lig k
  = dot3 (branch_torque lig (world_kinematics lig conf)
            (world_energy lig sf b grid_maps conf).2 k)
         (axis (world_kinematics lig conf) !!! k).
Proof.
  intros Hexact Hctor Hev Hacc Hk Hact Hidx.
  pose proof (ligand_ctor_ranged _ _ _ Hctor) as Hranged.
  apply evaluate_cases in Hev
    as [[_ ->]|[(_ & _ & ->)|(_ & _ & g' & Hg & ->)]];
    try discriminate Hacc.
  cbn [g_out].
  exact (gradient_torsions Hexact _ _ _ Hranged _ _ Hg k Hk Hact Hidx).
Qed.

(** ** From the constructor to the file of the results *)

Section WriteAfterCompose.
Context {fl : Type} `{Scalar fl} `{Libm fl} `{AtomModel fl} `{TextModel fl}.
Context `{StreamModel fl}.

Lemma compose_branches_sizes NDEBUG (lig : ligand fl) conf n :
  forall k t cmp t' cmp',
    compose_branches NDEBUG lig conf k n (t, cmp) = Ret (t', cmp') ->
    length (out_heavy_atoms cmp') = length (out_heavy_atoms cmp)
    /\ length (out_hydrogens cmp') = length (out_hydrogens cmp).
Proof.
  induction n as [|n IH]; intros k t cmp t' cmp'; cbn [compose_branches].
  - intros [= _ <-]. auto.
  - intros Hc. inv_bind Hc. destruct a as [t1 cmp1].
    apply IH in Hc as [-> ->].
    unfold compose_branch in Ha. inv_bind Ha. injection Ha as _ <-.
    cbn [out_heavy_atoms out_hydrogens].
    rewrite !transform_atoms_length. auto.
Qed.

(** A result of [compose_result] holds a coordinate for every atom of
    the ligand. *)
Lemma compose_result_sizes NDEBUG (lig : ligand fl) e f conf r :
  compose_result NDEBUG lig e f conf = Ret r ->
  length (result_heavy_atoms r) = num_heavy_atoms lig
  /\ length (result_hydrogens r) = num_hydrogens lig.
Proof.
  unfold compose_result. intros Hc.
  apply bind_Ret_inv in Hc as (cmp & Hcmp & Hc). injection Hc as <-.
  cbn [result_heavy_atoms result_hydrogens].
  unfold compose in Hcmp.
  apply bind_Ret_inv in Hcmp as (cmp0 & Hroot & Hcmp).
  apply bind_Ret_inv in Hcmp as ([t cmp1] & Hbr & Hcmp).
  injection Hcmp as <-.
  apply compose_branches_sizes in Hbr as [-> ->].
  unfold compose_root in Hroot.
  apply bind_Ret_inv in Hroot as (m & _ & Hroot). injection Hroot as <-.
  cbn [out_heavy_atoms out_hydrogens composition_init].
  rewrite !transform_atoms_length, !length_replicate. auto.
Qed.

(** Which of the two vectors an ATOM/HETATM line adds to. *)
Lemma parse_atom_kind NDEBUG line (ps ps' : parser fl) :
  parse_atom NDEBUG line ps = Ret ps' ->
  p_lines ps' = p_lines ps ++ [line]
  /\ exists c,
       if is_hydrogen
            (atom_ctor c (parse_ad_type_string (ad_type_of_line line)))
       then length (p_hydrogens ps') = S (length (p_hydrogens ps))
            /\ length (p_heavy_atoms ps') = length (p_heavy_atoms ps)
       else length (p_heavy_atoms ps') = S (length (p_heavy_atoms ps))
            /\ length (p_hydrogens ps') = length (p_hydrogens ps).
Proof.
  unfold parse_atom. intros Hp. do 3 inv_bind Hp.
  assert (Htype : a1 = ad_type_of_line line).
  { unfold substr in Ha1.
    destruct (77 <=? String.length line)%nat; [|discriminate].
    injection Ha1 as <-. unfold ad_type_of_line. unfold char_at in Ha0.
    destruct (String.get 78 line) as [c|].
    - injection Ha0 as <-. reflexivity.
    - destruct (78 =? String.length line)%nat; [|discriminate].
      injection Ha0 as <-. reflexivity. }
  subst a1.
  destruct (parse_ad_type_string _ =? AD_TYPE_SIZE)%nat; [discriminate|].
  do 3 inv_bind Hp.
  destruct (is_hydrogen (atom_ctor (a1, a2, a3) _)) eqn:Hh.
  - injection Hp as <-. cbn [p_lines p_hydrogens p_heavy_atoms].
    split; [reflexivity|]. exists (a1, a2, a3). rewrite Hh.
    rewrite length_app. cbn [length]. split; [lia|].
    destruct (_ =? AD_TYPE_HD)%nat; [|reflexivity].
    apply donorize_bonded_length.
  - inv_bind Hp. injection Hp as <-.
    cbn [p_lines p_hydrogens p_heavy_atoms].
    split; [reflexivity|]. exists (a1, a2, a3). rewrite Hh.
    rewrite length_app. cbn [length]. split; [lia|reflexivity].
Qed.

(** A line that is not an ATOM/HETATM line adds no atom. *)
Lemma parse_line_no_atom NDEBUG line (ps ps' : parser fl) :
  is_atom_line line = false ->
  parse_line NDEBUG line ps = Ret ps' ->
  p_heavy_atoms ps' = p_heavy_atoms ps
  /\ p_hydrogens ps' = p_hydrogens ps
  /\ p_lines ps' = p_lines ps ++ (if kept_line line then [line] else []).
Proof.
  intros Hatom Hp.
  destruct (parse_line_counts _ _ _ _ Hp) as (Hlines & _).
  split; [|split; [|exact Hlines]];
    revert Hp; unfold parse_line; cbv zeta;
    fold (is_atom_line line); rewrite Hatom;
    (destruct (starts_with line "BRANCH");
     [intros Hp; unfold parse_branch in Hp; do 2 inv_bind Hp;
      injection Hp as <-; reflexivity|]);
    (destruct (starts_with line "ENDBRANCH");
     [intros Hp; apply parse_endbranch_Ret in Hp
        as (y & i & inactive & _ & _ & Hp);
      cbv zeta in Hp; subst ps'; reflexivity|]);
    destruct (_ || _ || _); intros [= <-]; reflexivity.
Qed.

Lemma filter_snoc (P : string -> bool) l line :
  List.filter P (l ++ [line])
  = List.filter P l ++ (if P line then [line] else []).
Proof. rewrite List.filter_app. cbn. destruct (P line); reflexivity. Qed.

(** The constructor has as many heavy atoms, and as many hydrogens, as
    [write_models] finds lines for. *)
Lemma parse_lines_marked NDEBUG input : forall (ps ps' : parser fl),
  parse_lines NDEBUG input ps = Ret ps' ->
  marked_as_written input ->
  length (List.filter heavy_line (p_lines ps)) = length (p_heavy_atoms ps) ->
  length (List.filter hydrogen_line (p_lines ps))
  = length (p_hydrogens ps) ->
  length (List.filter heavy_line (p_lines ps')) = length (p_heavy_atoms ps')
  /\ length (List.filter hydrogen_line (p_lines ps'))
     = length (p_hydrogens ps').
Proof.
  induction input as [|line input IH]; intros ps ps'; cbn [parse_lines].
  - intros [= <-]. auto.
  - intros Hp Hmark Hheavy Hhyd. inv_bind Hp. rename a into ps1.
    apply (IH ps1 ps' Hp).
    + intros l Hl. apply Hmark. right. exact Hl.
    + destruct (is_atom_line line) eqn:Hatom.
      * destruct (Hmark line ltac:(left)) as [Hc Hm].
        { unfold kept_line. rewrite Hatom. reflexivity. }
        rewrite Hatom in Hc. specialize (Hm Hatom).
        unfold parse_line in Ha. cbv zeta in Ha.
        fold (is_atom_line line) in Ha. rewrite Hatom in Ha.
        apply parse_atom_kind in Ha as (Hl & c & Hk).
        cbn [p_lines p_heavy_atoms p_hydrogens] in Hl, Hk.
        rewrite Hl, filter_snoc, length_app. unfold heavy_line at 2.
        rewrite Hc, <- (Hm c). destruct (is_hydrogen _);
          destruct Hk as [Hk1 Hk2]; cbn; lia.
      * destruct (parse_line_no_atom _ _ _ _ Hatom Ha) as (-> & _ & ->).
        rewrite List.filter_app, length_app.
        destruct (kept_line line) eqn:Hkept; [|cbn; lia].
        destruct (Hmark line ltac:(left) Hkept) as [Hc _].
        rewrite Hatom in Hc. unfold heavy_line at 2. cbn [List.filter].
        rewrite Hc. cbn. lia.
    + destruct (is_atom_line line) eqn:Hatom.
      * destruct (Hmark line ltac:(left)) as [Hc Hm].
        { unfold kept_line. rewrite Hatom. reflexivity. }
        rewrite Hatom in Hc. specialize (Hm Hatom).
        unfold parse_line in Ha. cbv zeta in Ha.
        fold (is_atom_line line) in Ha. rewrite Hatom in Ha.
        apply parse_atom_kind in Ha as (Hl & c & Hk).
        cbn [p_lines p_heavy_atoms p_hydrogens] in Hl, Hk.
        rewrite Hl, filter_snoc, length_app.
        rewrite <- (Hm c). destruct (is_hydrogen _);
          destruct Hk as [Hk1 Hk2]; cbn; lia.
      * destruct (parse_line_no_atom _ _ _ _ Hatom Ha) as (_ & -> & ->).
        rewrite List.filter_app, length_app.
        destruct (kept_line line) eqn:Hkept; [|cbn; lia].
        destruct (Hmark line ltac:(left) Hkept) as [Hc _].
        rewrite Hatom in Hc. unfold hydrogen_line at 2. cbn [List.filter].
        rewrite Hc. cbn. lia.
Qed.

Lemma ligand_ctor_marked NDEBUG input (lig : ligand fl) :
  ligand_ctor NDEBUG input = Ret lig -> marked_as_written input ->
  length (List.filter heavy_line (lines lig)) = num_heavy_atoms lig
  /\ length (List.filter hydrogen_line (lines lig)) = num_hydrogens lig.
Proof.
  unfold ligand_ctor. intros Hctor Hmark. inv_bind Hctor.
  pose proof (finish_sizes _ _ _ Hctor)
    as (-> & _ & _ & _ & -> & -> & _).
  apply (parse_lines_marked _ _ _ _ Ha Hmark); reflexivity.
Qed.
End WriteAfterCompose.

(** X22. [write_models] returns on what [compose_result] returns: for a
    ligand the constructor has built from lines that are marked as
    [write_models] reads them (the ATOM/HETATM lines, and among the lines
    kept no others, have [79] characters or more, and the hydrogens, and
    no other atoms, have an [H] in column 78), and results that are all
    results of [compose_result] for this ligand, [write_models] finds a
    coordinate for every line that takes one, whenever
    [num_conformations] is at most the number of results (and, in a
    debug build, not [0]); it then writes
    [num_conformations * (lines.size() + 3)] lines. *)
Theorem write_models_after_compose_result
    {fl : Type} `{Scalar fl} `{Libm fl} `{AtomModel fl} `{TextModel fl}
    `{StreamModel fl}
    (NDEBUG NDEBUG' : bool) (input : list string) (lig : ligand fl)
    (results : ptr_vector (result fl)) (num_conformations : nat) :
  ligand_ctor NDEBUG' input = Ret lig ->
  marked_as_written input ->
  (forall r, r ∈ items results ->
     exists NDEBUG'' e f conf, compose_result NDEBUG'' lig e f conf = Ret r) ->
  (NDEBUG = true \/ 0 < num_conformations) ->
  num_conformations <= length (items results) ->
  exists out,
    write_models NDEBUG lig results num_conformations = Ret out
    /\ length out = num_conformations * (length (lines lig) + 3).
Proof.
  intros Hctor Hmark Hres Hpos Hle.
  destruct (ligand_ctor_marked _ _ _ Hctor Hmark) as [Hheavy Hhyd].
  assert (Hex : exists out,
    write_models_from lig results 0 num_conformations [] = Ret out).
  { apply write_models_from_returns. intros d Hd. cbn [Nat.add].
    destruct (lookup_lt_is_Some_2 (items results) d ltac:(lia)) as [r Hr].
    exists r. split; [exact Hr|].
    destruct (Hres r) as (ND & e & f & conf & Hc).
    { apply list_elem_of_lookup. eauto. }
    apply compose_result_sizes in Hc as [-> ->]. lia. }
  destruct Hex as [out Hout]. exists out.
  assert (Hw : write_models NDEBUG lig results num_conformations = Ret out).
  { unfold write_models, BOOST_ASSERT.
    destruct Hpos as [->|Hpos]; cbn [orb bind]; [exact Hout|].
    destruct NDEBUG; cbn [orb bind]; [exact Hout|].
    rewrite (proj2 (Nat.ltb_lt _ _) Hpos),
            (proj2 (Nat.leb_le _ _) Hle).
    cbn [bind]. exact Hout. }
  split; [exact Hw|].
  apply write_models_from_Ret in Hout as (blocks & -> & Hlen & _).
  exact Hlen.
Qed.

(** ** Runs on concrete inputs *)

Section Binary64Runs.
#[local] Existing Instance Float64.
#[local] Existing Instance series_libm.
#[local] Existing Instance function_grid.
#[local] Existing Instance function_scoring.
#[local] Existing Instance cell_box.
#[local] Existing Instance clustered_results.
#[local] Existing Instance lcg_random.
#[local] Existing Instance rotation_vector.
#[local] Existing Instance table_atoms.
#[local] Existing Instance column_text.

(** With [e0 = best_e = 4] and [e1 = 3] the step leaves [best_e = 4],
    above the energy [3] of the result it has just stored. *)
Lemma metropolis_best_e_is_e0_run :
  exists results' p0' eng',
    metropolis false chain 5%float empty_results 4%float pose_4 pose_3
      (mt19937_64 42)
    = Ret (results', 4%float, p0', eng')
    /\ fltb (flit 0%float) (fsub (pose_e pose_4) (pose_e pose_3)) = true
    /\ fltb (pose_e pose_3) 4%float = true
    /\ (4%float = pose_e pose_4
        /\ p0' = mk_pose (pose_c pose_3) (pose_e pose_3) (pose_f pose_4)
                   (pose_g pose_4)
        /\ eng' = mt19937_64 42
        /\ exists r,
             compose_result false chain (pose_e pose_3) (pose_f pose_3)
               (pose_c pose_3) = Ret r
             /\ results' = add_to_result_container empty_results r 5%float).
Proof.
  eexists _, _, _.
  split; [vm_compute; reflexivity|].
  split; [vm_compute; reflexivity|].
  split; [vm_compute; reflexivity|].
  apply (metropolis_best_e_is_e0 false chain 5%float empty_results 4%float
           pose_4 pose_3 (mt19937_64 42));
    vm_compute; reflexivity.
Defined.

(** A line search from a pose with no gradient: no step lowers the
    energy, the five trials are refused, and [alpha], multiplied by 0.1
    before each of them, ends at [0.1^5]. *)
Lemma line_search_wolfe_run :
  let h := identity_hessian 7 in
  let p := minus_h_times h (pose_g pose_5) 1 in
  let pg1 := change_dot p (pose_g pose_5) 7 in
  line_search false chain no_scoring wide_box flat_maps pose_5 p pg1
    num_alphas 0 1%float (pose_init 1)
  = Ret (5%nat, 1.0000000000000004e-05%float, pose_5)
  /\ alpha_after 5 1%float = 1.0000000000000004e-05%float
  /\ failed_trials false chain no_scoring wide_box flat_maps pose_5 p pg1 5
       1%float (pose_init 1) pose_5
  /\ bfgs 1 false chain no_scoring wide_box flat_maps h pose_5 (pose_init 1)
     = Ret (pose_5, pose_5).
Proof.
  cbv zeta.
  assert (Hrun :
    line_search false chain no_scoring wide_box flat_maps pose_5
      (minus_h_times (identity_hessian 7) (pose_g pose_5) 1)
      (change_dot (minus_h_times (identity_hessian 7) (pose_g pose_5) 1)
         (pose_g pose_5) 7)
      num_alphas 0 1%float (pose_init 1)
    = Ret (5%nat, 1.0000000000000004e-05%float, pose_5))
    by (vm_compute; reflexivity).
  split; [exact Hrun|]. split; [vm_compute; reflexivity|].
  destruct (line_search_wolfe false chain no_scoring wide_box flat_maps
              (identity_hessian 7) pose_5 (pose_init 1))
    as (_ & _ & _ & Hsearch & _).
  destruct (Hsearch _ _ _ Hrun) as (_ & _ & Hfive).
  destruct (Hfive eq_refl) as [Hfailed Hbfgs].
  split; [exact Hfailed | exact (Hbfgs 0%nat)].
Defined.

(** The line-search step from [stretched] along no direction: both
    [assert]s pass, and the orientation of the result is the product as
    it stands, of squared norm [1 + 2^-7 + 2^-16] and not what
    normalizing it gives. *)
Lemma step_conformation_not_renormalized :
  step_conformation false chain stretched upright no_change 0.1%float
  = Ret stretched
  /\ qmul (vec3_to_qtn4
             (smul 0.1%float (change_get no_change 3, change_get no_change 4,
                              change_get no_change 5)))
          (orientation stretched)
     = orientation stretched
  /\ norm_sqr4 (orientation stretched) = 1.0078277587890625%float
  /\ orientation stretched <> normalize4 (orientation stretched).
Proof.
  split; [vm_compute; reflexivity|].
  split; [vm_compute; reflexivity|].
  split; [vm_compute; reflexivity|].
  intros Heq.
  apply (f_equal (fun q : qtn4 float => PrimFloat.ltb q.1.1.1 1.001%float))
    in Heq.
  vm_compute in Heq. discriminate Heq.
Qed.

(** A BRANCH left open at the end of the file is no [parsing_error]:
    a debug build stops at [BOOST_ASSERT(current == 0)]; an ENDBRANCH
    that no BRANCH opens is accepted. *)
Lemma unmatched_is_no_parsing_error :
  ligand_ctor (fl:=float) false unmatched_lines = Fail assertion_failed
  /\ (exists lig, ligand_ctor (fl:=float) false stray_lines = Ret lig).
Proof.
  split; [vm_compute; reflexivity|].
  eexists; vm_compute; reflexivity.
Qed.

(** [chain_lines] is well formed, and a debug build constructs its
    ligand. *)
Lemma ligand_ctor_parsing_error_run :
  well_formed (fl:=float) false chain_lines = true
  /\ exists lig, ligand_ctor (fl:=float) false chain_lines = Ret lig.
Proof.
  split; [vm_compute; reflexivity|].
  apply (proj2 (proj2 (ligand_ctor_parsing_error false chain_lines 0%nat
                         EmptyString))).
  vm_compute. reflexivity.
Defined.

(** A debug build accepts the pose of energy [5] on the bound [20],
    and a release build returns. *)
Lemma evaluate_rejects_iff_run :
  let r := mk_evaluation true 5%float 5%float no_change in
  evaluate false chain upright no_scoring wide_box flat_maps 20%float
    7%float 8%float marked_change = Ret r
  /\ ((accepted r = false <->
         outside_box chain wide_box upright
         \/ fleb 20%float
              (e_total chain no_scoring wide_box flat_maps upright) = true)
      /\ (accepted r = true ->
          e_out r = e_total chain no_scoring wide_box flat_maps upright
          /\ f_out r = e_inter chain no_scoring wide_box flat_maps upright
          /\ gradient chain (world_kinematics chain upright)
               (world_energy chain no_scoring wide_box flat_maps upright).2
               marked_change = Ret (g_out r)))
  /\ (active_branches chain (num_frames chain - 1)
      <= num_active_torsions chain)%nat
  /\ exists r',
       evaluate true chain upright no_scoring wide_box flat_maps 20%float
         7%float 8%float marked_change = Ret r'.
Proof.
  cbv zeta.
  destruct (evaluate_rejects_iff chain upright no_scoring wide_box flat_maps
              20%float 7%float 8%float marked_change) as [Hall Hret].
  split; [vm_compute; reflexivity|].
  split; [apply (Hall false); vm_compute; reflexivity|].
  split; [vm_compute; lia|].
  apply Hret. vm_compute. lia.
Defined.

(** On the energy bound [4], the pose of energy [5] is refused: [e] and
    [f], [7] and [8] before the call, hold [5], and [g] is as it was. *)
Lemma evaluate_reject_frame_run :
  let r := mk_evaluation false 5%float 5%float marked_change in
  evaluate false chain upright no_scoring wide_box flat_maps 4%float
    7%float 8%float marked_change = Ret r
  /\ accepted r = false
  /\ (g_out r = marked_change
      /\ (outside_box chain wide_box upright ->
          e_out r = 7%float /\ f_out r = 8%float)
      /\ (~ outside_box chain wide_box upright ->
          e_out r = e_total chain no_scoring wide_box flat_maps upright
          /\ f_out r = e_inter chain no_scoring wide_box flat_maps upright)).
Proof.
  cbv zeta. split; [vm_compute; reflexivity|].
  split; [reflexivity|].
  apply (evaluate_reject_frame false chain upright no_scoring wide_box
           flat_maps 4%float 7%float 8%float marked_change);
    [vm_compute; reflexivity | reflexivity].
Defined.

Lemma interacting_pairs_exact_run :
  ligand_ctor false chain_lines = Ret chain
  /\ ((forall i j t,
         In (mk_interacting_pair i j t) (interacting_pairs chain) <->
         interacting (file_atoms false chain_lines) (frames chain) i j
         /\ t = mp (xs (heavy_atoms chain !!! i)) (xs (heavy_atoms chain !!! j)))
      /\ NoDup (interacting_pairs chain)
      /\ (forall p, In p (interacting_pairs chain) -> (i1 p < i2 p)%nat)).
Proof.
  split; [vm_compute; reflexivity|].
  apply (interacting_pairs_exact false chain_lines chain).
  vm_compute. reflexivity.
Defined.

Lemma ligand_ctor_inactive_frames_run :
  ligand_ctor false chain_lines = Ret chain
  /\ (inactive_is_leaf chain
      /\ (forall k, (1 <= k < num_frames chain)%nat ->
            active (frames chain !!! k) = false ->
            (habegin (frames chain !!! k) + 1)%nat = haend (frames chain !!! k)
            /\ habegin (frames chain !!! k) = rotorY (frames chain !!! k))
      /\ (exact_sub -> inactive_is_rotorY chain)).
Proof.
  split; [vm_compute; reflexivity|].
  apply (ligand_ctor_inactive_frames chain_lines chain).
  vm_compute. reflexivity.
Defined.

Lemma ligand_ctor_evaluate_returns_run :
  ligand_ctor false chain_lines = Ret chain
  /\ (ligand_ctor true chain_lines = Ret chain
      /\ (active_branches chain (num_frames chain - 1)
          <= num_active_torsions chain)%nat
      /\ forall conf (sf : scoring_function) (b : box)
            (grid_maps : list array3d) e_upper_bound e f g,
           exists r,
             evaluate true chain conf sf b grid_maps e_upper_bound e f g
             = Ret r).
Proof.
  split; [vm_compute; reflexivity|].
  apply (ligand_ctor_evaluate_returns chain_lines chain).
  vm_compute. reflexivity.
Defined.

(** On [high_maps] none of the 1000 random conformations is accepted,
    and the task returns the container it was given. *)
Lemma initialization_first_of_1000_run :
  let bound := fl_of_size_t (4 * num_heavy_atoms rigid) in
  first_accepted false rigid no_scoring wide_box high_maps bound 1000
    (pose_init (num_active_torsions rigid)) (mt19937_64 42) = Ret None
  /\ (forall j, (j < 1000)%nat ->
        refused rigid no_scoring wide_box high_maps bound
          (random_start rigid wide_box j (mt19937_64 42)))
  /\ monte_carlo_task 100 false empty_results rigid 42 no_scoring wide_box
       high_maps = Ret empty_results.
Proof.
  cbv zeta.
  assert (Hsearch :
    first_accepted false rigid no_scoring wide_box high_maps
      (fl_of_size_t (4 * num_heavy_atoms rigid)) 1000
      (pose_init (num_active_torsions rigid)) (mt19937_64 42) = Ret None)
    by (vm_compute; reflexivity).
  split; [exact Hsearch|].
  pose proof (initialization_first_of_1000 100 false empty_results rigid 42
                no_scoring wide_box high_maps) as Hinit.
  cbv zeta in Hinit. destruct Hinit as (_ & _ & _ & Hnone & _).
  exact (Hnone Hsearch).
Defined.

Lemma mp_packs_symmetric_matrix_run :
  1 < 3 /\ 2 < 3
  /\ (mp 1 2 = mp 2 1
      /\ mp 1 2 < 3 * (3 + 1) / 2
      /\ forall x' y', x' < 3 -> y' < 3 -> mp 1 2 = mp x' y' ->
           (1 = x' /\ 2 = y') \/ (1 = y' /\ 2 = x')).
Proof.
  split; [lia|]. split; [lia|].
  apply (mp_packs_symmetric_matrix 3 1 2); lia.
Defined.

Lemma identity_hessian_is_identity_run :
  2 < 7 /\ 5 < 7
  /\ (length (identity_hessian (fl := float) 7) = 7 * (7 + 1) / 2
      /\ identity_hessian (fl := float) 7
           !!! triangular_matrix_permissive_index 2 5
         = if (2 =? 5)%nat then flit 1%float else flit 0%float).
Proof.
  split; [lia|]. split; [lia|].
  apply (identity_hessian_is_identity (fl := float) 7 2 5); lia.
Defined.

Lemma get_atom_types_first_occurrences_run :
  num_heavy_atoms chain <= length (heavy_atoms chain)
  /\ get_atom_types chain = [2; 24; 50]
  /\ (NoDup (get_atom_types chain)
      /\ (forall t, t ∈ get_atom_types chain <->
            exists i, i < num_heavy_atoms chain
                      /\ xs (heavy_atoms chain !!! i) = t)
      /\ (forall p q t u, p < q ->
            get_atom_types chain !! p = Some t ->
            get_atom_types chain !! q = Some u ->
            exists i, i < num_heavy_atoms chain
              /\ xs (heavy_atoms chain !!! i) = t
              /\ forall j, j <= i -> xs (heavy_atoms chain !!! j) <> u)).
Proof.
  split; [vm_compute; lia|]. split; [vm_compute; reflexivity|].
  apply (get_atom_types_first_occurrences chain). vm_compute. lia.
Defined.

Lemma ligand_ctor_keeps_lines_run :
  ligand_ctor false chain_lines = Ret chain
  /\ (lines chain = List.filter kept_line chain_lines
      /\ num_frames chain = S (length (List.filter is_branch_line chain_lines))
      /\ num_torsions chain = length (List.filter is_branch_line chain_lines)
      /\ num_heavy_atoms chain + num_hydrogens chain
         = length (List.filter is_atom_line chain_lines)
      /\ length (frames chain) = num_frames chain
      /\ length (heavy_atoms chain) = num_heavy_atoms chain
      /\ length (hydrogens chain) = num_hydrogens chain).
Proof.
  split; [vm_compute; reflexivity|].
  apply (ligand_ctor_keeps_lines false chain_lines chain).
  vm_compute. reflexivity.
Defined.

Lemma ligand_ctor_partitions_atoms_run :
  ligand_ctor false chain_lines = Ret chain
  /\ (let F := fun k => frames chain !!! k in
      habegin (F 0) = 0 /\ hybegin (F 0) = 0
      /\ (forall k, S k < num_frames chain ->
            haend (F k) = habegin (F (S k))
            /\ hyend (F k) = hybegin (F (S k)))
      /\ haend (F (num_frames chain - 1)) = num_heavy_atoms chain
      /\ hyend (F (num_frames chain - 1)) = num_hydrogens chain
      /\ (forall i, i < num_heavy_atoms chain ->
            exists k, k < num_frames chain
              /\ habegin (F k) <= i < haend (F k)
              /\ forall k', k' < num_frames chain ->
                   habegin (F k') <= i < haend (F k') -> k' = k)
      /\ (forall i, i < num_hydrogens chain ->
            exists k, k < num_frames chain
              /\ hybegin (F k) <= i < hyend (F k)
              /\ forall k', k' < num_frames chain ->
                   hybegin (F k') <= i < hyend (F k') -> k' = k)).
Proof.
  split; [vm_compute; reflexivity|].
  apply (ligand_ctor_partitions_atoms false chain_lines chain).
  vm_compute. reflexivity.
Defined.

Lemma ligand_ctor_rotors_run :
  ligand_ctor false chain_lines = Ret chain
  /\ 1 <= 2 < num_frames chain
  /\ (let f := frames chain !!! 2 in
      parent f < 2
      /\ habegin (frames chain !!! parent f) <= rotorX f < habegin f
      /\ rotorY f < num_heavy_atoms chain
      /\ (false = false -> habegin f <= rotorY f)).
Proof.
  split; [vm_compute; reflexivity|]. split; [vm_compute; lia|].
  apply (ligand_ctor_rotors false chain_lines chain 2);
    [vm_compute; reflexivity | vm_compute; lia].
Defined.

Lemma ligand_ctor_relative_coordinates_run :
  ligand_ctor false chain_lines = Ret chain
  /\ 1 < num_frames chain
  /\ (let f := frames chain !!! 1 in
      let file := fun i => coordinate (file_atoms false chain_lines !!! i) in
      (forall i, habegin f <= i < haend f ->
         coordinate (heavy_atoms chain !!! i) = vsub (file i) (file (rotorY f)))
      /\ (forall i, hybegin f <= i < hyend f ->
            coordinate (hydrogens chain !!! i)
            = vsub (coordinate (file_hydrogens false chain_lines !!! i))
                   (file (rotorY f)))
      /\ (1 <= 1 ->
          parent_rotorY_to_current_rotorY f
          = vsub (file (rotorY f)) (file (rotorY (frames chain !!! parent f)))
          /\ parent_rotorX_to_current_rotorY f
             = normalize3 (vsub (file (rotorY f)) (file (rotorX f))))).
Proof.
  split; [vm_compute; reflexivity|]. split; [vm_compute; lia|].
  apply (ligand_ctor_relative_coordinates chain_lines chain 1);
    [vm_compute; reflexivity | vm_compute; lia].
Defined.

(** A debug build with fuel 100 on [flat_maps]. *)
Lemma monte_carlo_task_offers_evaluated_run :
  let r := returned empty_results
             (monte_carlo_task 100 false empty_results rigid 42 no_scoring
                wide_box flat_maps) in
  monte_carlo_task 100 false empty_results rigid 42 no_scoring wide_box
    flat_maps = Ret r
  /\ length (items r) = 5%nat
  /\ offered false rigid no_scoring wide_box flat_maps empty_results r.
Proof.
  cbv zeta. split; [vm_compute; reflexivity|].
  split; [vm_compute; reflexivity|].
  apply (monte_carlo_task_offers_evaluated 100 false empty_results _ rigid 42
           no_scoring wide_box flat_maps).
  vm_compute. reflexivity.
Defined.
Lemma chain_inactive_is_rotorY : inactive_is_rotorY chain.
Proof.
  intros k Hk. cbn in Hk.
  assert (Hcases : k = 1%nat \/ k = 2%nat) by lia.
  destruct Hcases as [-> | ->]; [discriminate|].
  intros _. vm_compute. auto.
Qed.

Lemma chain_inactive_is_leaf : inactive_is_leaf chain.
Proof.
  intros k Hk. cbn in Hk.
  assert (Hcases : k = 1%nat \/ k = 2%nat) by lia.
  destruct Hcases as [-> | ->]; [left | right]; reflexivity.
Qed.

Lemma chain_tilted_finite cmp :
  compose true chain tilted = Ret cmp ->
  inactive_finite chain (orientations_m cmp).
Proof.
  intros Hc. vm_compute in Hc. injection Hc as <-.
  intros k Hk. cbn in Hk.
  assert (Hcases : k = 1%nat \/ k = 2%nat) by lia.
  destruct Hcases as [-> | ->]; [discriminate|].
  intros _. vm_compute. repeat split; left; reflexivity.
Qed.

(** On binary64, for [chain] turned by the quaternion of [tilted]. *)
Lemma compose_result_matches_evaluate_run :
  zero_laws (fl:=float) /\ inactive_is_rotorY chain /\ inactive_is_leaf chain
  /\ (forall cmp, compose true chain tilted = Ret cmp ->
        inactive_finite chain (orientations_m cmp))
  /\ exists res,
       compose_result true chain 1%float 2%float tilted = Ret res
       /\ (forall NDEBUG res',
             compose_result NDEBUG chain 1%float 2%float tilted = Ret res' ->
             res' = res)
       /\ agree_as_numbers chain (result_heavy_atoms res)
            (coordinates (world_kinematics chain tilted))
       /\ forall NDEBUG chk kin,
            forward_kinematics NDEBUG chk chain tilted = Ret (Some kin) ->
            agree_as_numbers chain (result_heavy_atoms res) (coordinates kin).
Proof.
  split; [exact zero_laws_binary64|].
  split; [exact chain_inactive_is_rotorY|].
  split; [exact chain_inactive_is_leaf|].
  split; [exact chain_tilted_finite|].
  apply (compose_result_matches_evaluate chain tilted 1%float 2%float).
  - exact zero_laws_binary64.
  - exact chain_inactive_is_rotorY.
  - exact chain_inactive_is_leaf.
  - exact chain_tilted_finite.
Defined.

(** For [hook] at [turned], a debug build: [evaluate] leaves the oxygen
    at the frame origin [(1, -0, 3)], [compose_result] at [(1, +0, 3)]. *)
Lemma compose_result_differs_in_zero_sign :
  exists res kin,
    compose_result false hook 1%float 2%float turned = Ret res
    /\ forward_kinematics false (within wide_box) hook turned
       = Ret (Some kin)
    /\ result_heavy_atoms res
       = [(2, 0, 2)%float; (1, 0, 3)%float]
    /\ coordinates kin = [(2, 0, 2)%float; (1, -0, 3)%float]
    /\ result_heavy_atoms res <> coordinates kin.
Proof.
  eexists _, _.
  split; [vm_compute; reflexivity|].
  split; [vm_compute; reflexivity|].
  split; [reflexivity|]. split; [reflexivity|].
  cbn [result_heavy_atoms coordinates]. intros Heq.
  assert (Hz : (0 = - 0)%float) by congruence.
  apply (f_equal Prim2SF) in Hz. vm_compute in Hz. discriminate Hz.
Qed.

End Binary64Runs.

Section GridRuns.
#[local] Existing Instance Float64.
#[local] Existing Instance series_libm.
#[local] Existing Instance function_grid.
#[local] Existing Instance function_scoring.
#[local] Existing Instance grid_box.
#[local] Existing Instance clustered_results.
#[local] Existing Instance rotation_vector.

Lemma counted_same_stream seed :
  same_stream (fl:=float) lcg_random counted_lcg_random
    (fun e1 e2 => e2.1 = e1) seed.
Proof.
  unfold same_stream. split; [reflexivity|].
  split; [|split]; intros a b e1 [e2 k] Hsim; cbn in Hsim; subst e2;
    split; reflexivity.
Qed.

(** The first iteration of the task below: the line search accepts its
    first step, and BFGS ends on a lower energy than it starts from. *)
Lemma monte_carlo_task_takes_bfgs_steps :
  let bound := fl_of_size_t (4 * num_heavy_atoms rigid) in
  exists p0 eng p1 eng1 p q1 q2,
    initialize (H5:=lcg_random) false rigid no_scoring bowl_box bowl_maps
      bound 1000 false (pose_init 0) (mt19937_64 42) = Ret (true, p0, eng)
    /\ mutate_until_valid (H5:=lcg_random) 100 false rigid no_scoring
         bowl_box bowl_maps bound (pose_c p0) (pose_init 0) eng
       = Ret (p1, eng1)
    /\ line_search false rigid no_scoring bowl_box bowl_maps p1
         (minus_h_times (identity_hessian 6) (pose_g p1) 0)
         (change_dot (minus_h_times (identity_hessian 6) (pose_g p1) 0)
            (pose_g p1) 6)
         num_alphas 0 1%float (pose_init 0)
       = Ret (0%nat, 0.1%float, p)
    /\ bfgs 100 false rigid no_scoring bowl_box bowl_maps
         (identity_hessian 6) p1 (pose_init 0) = Ret (q1, q2)
    /\ fltb (pose_e q1) (pose_e p1) = true.
Proof.
  cbv zeta. eexists _, _, _, _, _, _, _.
  split; [vm_compute; reflexivity|].
  split; [vm_compute; reflexivity|].
  split; [vm_compute; reflexivity|].
  split; vm_compute; reflexivity.
Qed.

(** A debug build with fuel 100 on [bowl_maps], and a second run with
    the generator that counts its draws and other values in the six
    variables. *)
Lemma monte_carlo_task_deterministic_run :
  let r1 := returned (mk_ptr_vector [] 5)
              (monte_carlo_task_from (H5:=lcg_random) six_zeros 100 false
                 (mk_ptr_vector [] 5) rigid 42 no_scoring bowl_box
                 bowl_maps) in
  same_stream (fl:=float) lcg_random counted_lcg_random
    (fun e1 e2 => e2.1 = e1) 42
  /\ monte_carlo_task_from (H5:=lcg_random) six_zeros 100 false
       (mk_ptr_vector [] 5) rigid 42 no_scoring bowl_box bowl_maps = Ret r1
  /\ length (items r1) = 5%nat
  /\ ((forall fuel2, (100 <= fuel2)%nat ->
         monte_carlo_task_from (H5:=counted_lcg_random) six_others fuel2
           false (mk_ptr_vector [] 5) rigid 42 no_scoring bowl_box bowl_maps
         = Ret r1
         /\ monte_carlo_task_from (H5:=counted_lcg_random) six_others fuel2
              true (mk_ptr_vector [] 5) rigid 42 no_scoring bowl_box
              bowl_maps
            = Ret r1)
      /\ (forall fuel2 NDEBUG2 r2,
            monte_carlo_task_from (H5:=counted_lcg_random) six_others fuel2
              NDEBUG2 (mk_ptr_vector [] 5) rigid 42 no_scoring bowl_box
              bowl_maps
            = Ret r2 ->
            r2 = r1)
      /\ monte_carlo_task (H5:=lcg_random) 100 false (mk_ptr_vector [] 5)
           rigid 42 no_scoring bowl_box bowl_maps
         = monte_carlo_task_from (H5:=lcg_random)
             (mk_unset (flit 0) (flit 0) (flit 0) (flit 0) (flit 0) (flit 0))
             100 false (mk_ptr_vector [] 5) rigid 42 no_scoring bowl_box
             bowl_maps).
Proof.
  cbv zeta. split; [exact (counted_same_stream 42)|].
  split; [vm_compute; reflexivity|].
  split; [vm_compute; reflexivity|].
  apply (monte_carlo_task_deterministic lcg_random counted_lcg_random
           (fun e1 e2 => e2.1 = e1) six_zeros six_others 100 false
           (mk_ptr_vector [] 5) rigid 42 no_scoring bowl_box bowl_maps).
  - exact (counted_same_stream 42).
  - vm_compute. reflexivity.
Defined.
End GridRuns.

Section ExactRuns.
#[local] Existing Instance ExactInt.
#[local] Existing Instance series_libm.
#[local] Existing Instance function_grid.
#[local] Existing Instance function_scoring.
#[local] Existing Instance cell_box.
#[local] Existing Instance table_atoms.
#[local] Existing Instance column_text.

Lemma exact_ring_Z : exact_ring (fl:=Z).
Proof. split; [exact Zth | reflexivity]. Qed.

Lemma libm_at_0_Z : libm_at_0 (fl:=Z).
Proof. split; reflexivity. Qed.

Lemma first_direction_is_steepest_descent_run :
  exact_ring (fl:=Z) /\ 6 < 6 + 1
  /\ change_get (minus_h_times (identity_hessian (6 + 1)) exact_change 1) 6
     = fneg (change_get exact_change 6).
Proof.
  split; [exact exact_ring_Z|]. split; [lia|].
  apply (first_direction_is_steepest_descent 1 6 exact_change);
    [exact exact_ring_Z | lia].
Defined.

Lemma qmul_is_hamilton_product_run :
  let a := (1, 2, 3, 4)%Z in
  let b := (2, 0, 1, 5)%Z in
  let c := (0, 1, 1, 3)%Z in
  exact_ring (fl:=Z)
  /\ norm_sqr4 (qmul a b) = 900%Z
  /\ (norm_sqr4 (qmul a b) = fmul (norm_sqr4 a) (norm_sqr4 b)
      /\ qmul (qmul a b) c = qmul a (qmul b c)
      /\ qmul qtn4id a = a).
Proof.
  cbv zeta. split; [exact exact_ring_Z|]. split; [reflexivity|].
  apply (qmul_is_hamilton_product (1, 2, 3, 4)%Z (2, 0, 1, 5)%Z (0, 1, 1, 3)%Z).
  exact exact_ring_Z.
Defined.

Lemma qtn4_to_mat3_is_rotation_run :
  let a := (1, 2, 3, 4)%Z in
  let b := (2, 0, 1, 5)%Z in
  let v := (1, 0, 2)%Z in
  exact_ring (fl:=Z)
  /\ (mat3_mul_vec3 (qtn4_to_mat3_raw (qmul a b)) v
      = mat3_mul_vec3 (qtn4_to_mat3_raw a)
          (mat3_mul_vec3 (qtn4_to_mat3_raw b) v)
      /\ norm_sqr3 (mat3_mul_vec3 (qtn4_to_mat3_raw a) v)
         = fmul (fmul (norm_sqr4 a) (norm_sqr4 a)) (norm_sqr3 v)).
Proof.
  cbv zeta. split; [exact exact_ring_Z|].
  apply (qtn4_to_mat3_is_rotation (1, 2, 3, 4)%Z (2, 0, 1, 5)%Z (1, 0, 2)%Z).
  exact exact_ring_Z.
Defined.

(** The atoms of [chain_lines] come back at the integers that the
    coordinates of the file are cut to. *)
Lemma compose_result_round_trip_run :
  exact_ring (fl:=Z) /\ libm_at_0 (fl:=Z)
  /\ ligand_ctor false chain_lines = Ret chain_Z
  /\ coordinate <$> file_atoms false chain_lines
     = [(0, 0, 0); (1, 0, 0); (3, 0, 0); (4, 0, 0); (6, 0, 0)]%Z
  /\ compose_result true chain_Z 1%Z 2%Z
       (file_pose chain_Z (file_atoms false chain_lines))
     = Ret (mk_result 1%Z 2%Z (coordinate <$> file_atoms false chain_lines)
              (coordinate <$> file_hydrogens false chain_lines)).
Proof.
  split; [exact exact_ring_Z|]. split; [exact libm_at_0_Z|].
  split; [vm_compute; reflexivity|]. split; [vm_compute; reflexivity|].
  apply (compose_result_round_trip chain_lines chain_Z 1%Z 2%Z).
  - exact exact_ring_Z.
  - exact libm_at_0_Z.
  - vm_compute. reflexivity.
Defined.

(** The three pairs of [chain_Z] pull its ends together and leave the
    sums as the grid maps alone make them: [5] atoms on the slope
    [(1, 2, 3)]. *)
Lemma evaluate_gradient_is_net_force_and_torque_run :
  exact_ring (fl:=Z)
  /\ ligand_ctor true chain_lines = Ret chain_Z
  /\ evaluate true chain_Z upright_Z spring_Z wide_box_Z sloped_maps_Z
       1000%Z 0%Z 0%Z (change_init 1)
     = Ret chain_evaluation
  /\ accepted chain_evaluation = true
  /\ (world_energy chain_Z spring_Z wide_box_Z sloped_maps_Z upright_Z).2
     = [(-9, 2, 3); (-4, 2, 3); (1, 2, 3); (5, 2, 3); (12, 2, 3)]%Z
  /\ (g_position (g_out chain_evaluation)
      = vsum_over
          (force_at
             (world_energy chain_Z spring_Z wide_box_Z sloped_maps_Z
                upright_Z).2)
          (seq 0 (num_heavy_atoms chain_Z))
      /\ g_orientation (g_out chain_evaluation)
         = vsum_over
             (moment_at (coordinates (world_kinematics chain_Z upright_Z))
                (world_energy chain_Z spring_Z wide_box_Z sloped_maps_Z
                   upright_Z).2
                (position upright_Z))
             (seq 0 (num_heavy_atoms chain_Z))).
Proof.
  split; [exact exact_ring_Z|]. split; [vm_compute; reflexivity|].
  split; [vm_compute; reflexivity|]. split; [reflexivity|].
  split; [vm_compute; reflexivity|].
  apply (evaluate_gradient_is_net_force_and_torque true true chain_lines
           chain_Z upright_Z spring_Z wide_box_Z sloped_maps_Z
           1000%Z 0%Z 0%Z (change_init 1) chain_evaluation).
  - exact exact_ring_Z.
  - vm_compute. reflexivity.
  - vm_compute. reflexivity.
  - reflexivity.
Defined.

(** The energy [77] of [chain_Z] is that of its three pairs alone; what
    the pairs add to the derivatives cancels in the sums. *)
Lemma energy_pairs_cancel_run :
  let coords := [(1, 2, 3); (2, 2, 3); (4, 2, 3); (5, 2, 3); (7, 2, 3)]%Z in
  let d := [(-9, 2, 3); (-4, 2, 3); (1, 2, 3); (5, 2, 3); (12, 2, 3)]%Z in
  let o := (1, 2, 3)%Z in
  exact_ring (fl:=Z)
  /\ ligand_ctor true chain_lines = Ret chain_Z
  /\ energy true chain_Z spring_Z wide_box_Z sloped_maps_Z coords
     = Ret (0%Z, 77%Z, d)
  /\ vsum_over (grid_slope chain_Z wide_box_Z sloped_maps_Z coords)
       (seq 0 (num_heavy_atoms chain_Z)) = (5, 10, 15)%Z
  /\ (vsum_over (force_at d) (seq 0 (num_heavy_atoms chain_Z))
      = vsum_over (grid_slope chain_Z wide_box_Z sloped_maps_Z coords)
          (seq 0 (num_heavy_atoms chain_Z))
      /\ vsum_over (moment_at coords d o) (seq 0 (num_heavy_atoms chain_Z))
         = vsum_over (grid_moment chain_Z wide_box_Z sloped_maps_Z coords o)
             (seq 0 (num_heavy_atoms chain_Z))).
Proof.
  cbv zeta. split; [exact exact_ring_Z|]. split; [vm_compute; reflexivity|].
  split; [vm_compute; reflexivity|]. split; [vm_compute; reflexivity|].
  apply (energy_pairs_cancel true true chain_lines chain_Z spring_Z
           wide_box_Z sloped_maps_Z
           [(1, 2, 3); (2, 2, 3); (4, 2, 3); (5, 2, 3); (7, 2, 3)]%Z
           (1, 2, 3)%Z 0%Z 77%Z
           [(-9, 2, 3); (-4, 2, 3); (1, 2, 3); (5, 2, 3); (12, 2, 3)]%Z).
  - exact exact_ring_Z.
  - vm_compute. reflexivity.
  - vm_compute. reflexivity.
Defined.

(** One update of the identity of order [6], for [y * p = 1] and the
    step [2 * p]. *)
Lemma update_hessian_secant_run :
  let h := identity_hessian 6 in
  let g1 := mk_change (1, 1, 1)%Z (1, 1, 1)%Z [] in
  let g2 := mk_change (2, 3, 4)%Z (5, 6, 7)%Z [] in
  let y := mk_change (1, 2, 3)%Z (4, 5, 6)%Z [] in
  let p := mk_change (1, 0, 0)%Z (0, 0, 0)%Z [] in
  exact_ring (fl:=Z)
  /\ length h = (6 + 0) * (6 + 0 + 1) / 2
  /\ (forall j, j < 6 + 0 ->
        change_get y j = fsub (change_get g2 j) (change_get g1 j))
  /\ fmul (fdiv (flit 1%float) (change_dot y p (6 + 0)))
          (change_dot y p (6 + 0)) = flit 1%float
  /\ 0 < 6 + 0
  /\ update_hessian h g1 g2 p 2%Z 0 <> h
  /\ h_row_times (update_hessian h g1 g2 p 2%Z 0) y (6 + 0) 0
     = fmul 2%Z (change_get p 0).
Proof.
  cbv zeta.
  assert (Hy : forall j, j < 6 + 0 ->
    change_get (mk_change (1, 2, 3)%Z (4, 5, 6)%Z []) j
    = fsub (change_get (mk_change (2, 3, 4)%Z (5, 6, 7)%Z []) j)
           (change_get (mk_change (1, 1, 1)%Z (1, 1, 1)%Z []) j)).
  { intros j Hj. do 6 (destruct j as [|j]; [reflexivity|]). lia. }
  split; [exact exact_ring_Z|]. split; [vm_compute; reflexivity|].
  split; [exact Hy|]. split; [vm_compute; reflexivity|]. split; [lia|].
  split; [vm_compute; discriminate|].
  apply (update_hessian_secant (identity_hessian 6)
           (mk_change (1, 1, 1)%Z (1, 1, 1)%Z [])
           (mk_change (2, 3, 4)%Z (5, 6, 7)%Z [])
           (mk_change (1, 0, 0)%Z (0, 0, 0)%Z [])
           (mk_change (1, 2, 3)%Z (4, 5, 6)%Z []) 2%Z 0 0).
  - exact exact_ring_Z.
  - vm_compute. reflexivity.
  - exact Hy.
  - vm_compute. reflexivity.
  - lia.
Defined.

(** The torsion of [elbow_Z] turns about the x axis; the atom off the
    axis is pushed with the slope [(1, 2, 3)] of the grid maps and
    pulled by its pair, and the torque along the axis is [3]. *)
Lemma evaluate_torsion_gradient_is_branch_torque_run :
  exact_ring (fl:=Z)
  /\ ligand_ctor true elbow_lines = Ret elbow_Z
  /\ evaluate true elbow_Z upright_Z spring_Z wide_box_Z sloped_maps_Z
       1000%Z 0%Z 0%Z (change_init 1)
     = Ret elbow_evaluation
  /\ accepted elbow_evaluation = true
  /\ 1 <= 1 < num_frames elbow_Z
  /\ active (frames elbow_Z !!! 1) = true
  /\ torsion_index elbow_Z 1 < length (g_torsions (change_init (fl:=Z) 1))
  /\ branch_torque elbow_Z (world_kinematics elbow_Z upright_Z)
       (world_energy elbow_Z spring_Z wide_box_Z sloped_maps_Z upright_Z).2
       1
     = (3, 0, -3)%Z
  /\ axis (world_kinematics elbow_Z upright_Z) !!! 1 = (1, 0, 0)%Z
  /\ g_torsions (g_out elbow_evaluation) !!! torsion_index elbow_Z 1
     = dot3 (branch_torque elbow_Z (world_kinematics elbow_Z upright_Z)
               (world_energy elbow_Z spring_Z wide_box_Z sloped_maps_Z
                  upright_Z).2 1)
            (axis (world_kinematics elbow_Z upright_Z) !!! 1).
Proof.
  split; [exact exact_ring_Z|]. split; [vm_compute; reflexivity|].
  split; [vm_compute; reflexivity|]. split; [reflexivity|].
  split; [vm_compute; lia|]. split; [vm_compute; reflexivity|].
  split; [vm_compute; lia|]. split; [vm_compute; reflexivity|].
  split; [vm_compute; reflexivity|].
  apply (evaluate_torsion_gradient_is_branch_torque true true elbow_lines
           elbow_Z upright_Z spring_Z wide_box_Z sloped_maps_Z
           1000%Z 0%Z 0%Z (change_init 1) elbow_evaluation 1).
  - exact exact_ring_Z.
  - vm_compute. reflexivity.
  - vm_compute. reflexivity.
  - reflexivity.
  - vm_compute. lia.
  - vm_compute. reflexivity.
  - vm_compute. lia.
Defined.
End ExactRuns.

Section OutputRuns.
#[local] Existing Instance ExactInt.
#[local] Existing Instance series_libm.
#[local] Existing Instance integer_stream.

Lemma write_models_layout_run :
  write_models false chain_Z one_result 1 = Ret chain_models
  /\ (let size := length (lines chain_Z) + 3 in
      length chain_models = 1 * size
      /\ forall i, i < 1 ->
           exists r,
             items one_result !! i = Some r
             /\ chain_models !! (i * size)
                = Some (String.append "MODEL     "
                          (setw 4 (size_t_text (i + 1))))
             /\ chain_models !! (i * size + 1)
                = Some (String.append
                          "REMARK     FREE ENERGY PREDICTED BY IDOCK:"
                          (String.append (setw 8 (fixed 3 (result_e r)))
                             " KCAL/MOL"))
             /\ chain_models !! (i * size + 2 + length (lines chain_Z))
                = Some "ENDMDL"%string
             /\ forall j line, lines chain_Z !! j = Some line ->
                  let text :=
                    atom_text (String.substring 0 30 line)
                      (String.substring 54 (String.length line) line) in
                  (coordinate_line line = false ->
                   chain_models !! (i * size + 2 + j) = Some line)
                  /\ (hydrogen_line line = true ->
                      exists v,
                        result_hydrogens r
                          !! rank hydrogen_line (lines chain_Z) j = Some v
                        /\ chain_models !! (i * size + 2 + j) = Some (text v))
                  /\ (heavy_line line = true ->
                      exists v,
                        result_heavy_atoms r
                          !! rank heavy_line (lines chain_Z) j = Some v
                        /\ chain_models !! (i * size + 2 + j)
                           = Some (text v))).
Proof.
  split; [vm_compute; reflexivity|].
  apply (write_models_layout false chain_Z one_result 1 chain_models).
  vm_compute. reflexivity.
Defined.

(** A coordinate of nine characters makes the line one character
    longer. *)
Lemma atom_text_keeps_columns_run :
  let line := "ATOM      5 O5   LIG A   1       6.000   0.000   0.000  0.00  0.00    +0.000 OA"%string in
  79 <= String.length line
  /\ String.length
       (atom_text (String.substring 0 30 line)
          (String.substring 54 (String.length line) line)
          (-1234, 2, 3)%Z)
     = 80
  /\ (let text := atom_text (String.substring 0 30 line)
                    (String.substring 54 (String.length line) line)
                    (7, 2, 3)%Z in
      let over := fun c : Z => String.length (fixed 3 c) - 8 in
      String.length text
      = String.length line + over 7%Z + over 2%Z + over 3%Z
      /\ (forall p, p < 30 -> String.get p text = String.get p line)
      /\ (over 7%Z + over 2%Z + over 3%Z = 0 ->
          forall p, 54 <= p -> String.get p text = String.get p line)).
Proof.
  cbv zeta. split; [vm_compute; lia|]. split; [vm_compute; reflexivity|].
  apply (atom_text_keeps_columns
           "ATOM      5 O5   LIG A   1       6.000   0.000   0.000  0.00  0.00    +0.000 OA"
           7%Z 2%Z 3%Z).
  vm_compute. lia.
Defined.
End OutputRuns.

Section WriteRuns.
#[local] Existing Instance ExactInt.
#[local] Existing Instance series_libm.
#[local] Existing Instance table_atoms.
#[local] Existing Instance column_text.
#[local] Existing Instance integer_stream.

Lemma chain_lines_marked : marked_as_written (fl:=Z) chain_lines.
Proof.
  intros line Hin _. unfold chain_lines in Hin.
  repeat (apply elem_of_cons in Hin as [->|Hin]);
    try (split; [reflexivity|]; intros Ha c;
         first [vm_compute; reflexivity | discriminate Ha]).
  inversion Hin.
Qed.

(** The file of [chain_Z] and the result of [compose_result] at
    [upright_Z]: one model of [11] lines and [3] more. *)
Lemma write_models_after_compose_result_run :
  ligand_ctor true chain_lines = Ret chain_Z
  /\ marked_as_written (fl:=Z) chain_lines
  /\ (forall r, r ∈ items one_result ->
        exists NDEBUG e f conf, compose_result NDEBUG chain_Z e f conf = Ret r)
  /\ (false = true \/ 0 < 1)
  /\ 1 <= length (items one_result)
  /\ exists out,
       write_models false chain_Z one_result 1 = Ret out
       /\ length out = 1 * (length (lines chain_Z) + 3).
Proof.
  assert (Hres : forall r, r ∈ items one_result ->
    exists NDEBUG e f conf, compose_result NDEBUG chain_Z e f conf = Ret r).
  { intros r Hr. apply list_elem_of_singleton in Hr as ->.
    exists true, 1%Z, 2%Z, upright_Z. vm_compute. reflexivity. }
  split; [vm_compute; reflexivity|]. split; [exact chain_lines_marked|].
  split; [exact Hres|]. split; [right; lia|]. split; [cbn; lia|].
  apply (write_models_after_compose_result false true chain_lines chain_Z
           one_result 1).
  - vm_compute. reflexivity.
  - exact chain_lines_marked.
  - exact Hres.
  - right. lia.
  - cbn. lia.
Defined.
End WriteRuns.
